(** * An in-memory B+ tree with byte-slice keys (krasun/bptree)

    Shallow embedding of the Go package [bptree] and verification of its
    documented behaviour.

    Memory model.  Go nodes are heap objects reached through pointers and
    mutated in place; a node also carries a back-reference to its parent and
    (for leaves) a reference to the next leaf.  The embedding keeps every
    node ever allocated in an arena [nodes : list node]; a Go [*node] is an
    index into the arena ([addr]), [nil] is [None], allocation appends to
    the arena, and a field assignment rewrites the arena slot.  Nodes that
    the Go garbage collector would reclaim simply stay unreferenced.

    A Go [*pointer] wraps either a node reference or a value.  Pointer cells
    are never shared between two live slots when they are written through
    ([overrideValue]), so a cell is embedded by value in the slot that
    holds it; the nil cell is [None].

    Go [int] is embedded as [Z]: all integers of the package are slice
    indices and key counters, bounded by the number of objects in memory.
    A run-time panic (index out of range, nil dereference, failed type
    assertion, explicit [panic]) is the result [None]; so is running out of
    the fuel that bounds the pointer-chasing loops. *)

From Stdlib Require Import ZArith Lia.
From Stdlib.Strings Require Import Byte.
From stdpp Require Import base option list numbers.

Local Open Scope Z_scope.

Abbreviation addr := nat (only parsing).

(** ** Slices *)

Definition len {A} (l : list A) : Z := Z.of_nat (length l).

(** [l[i]] as an r-value; [None] when the index is out of range. *)
Definition idx {A} (l : list A) (i : Z) : option A :=
  if decide (0 ≤ i) then l !! Z.to_nat i else None.

(** [l[i] = x]; [None] when the index is out of range. *)
Definition upd {A} (l : list A) (i : Z) (x : A) : option (list A) :=
  if decide (0 ≤ i < len l) then Some (<[Z.to_nat i := x]> l) else None.

(** [l[lo:hi]]. *)
Definition slice {A} (l : list A) (lo hi : Z) : option (list A) :=
  if decide (0 ≤ lo ∧ lo ≤ hi ∧ hi ≤ len l)
  then Some (take (Z.to_nat (hi - lo)) (drop (Z.to_nat lo) l)) else None.

(** The builtin [copy(dst, src)]: the result is the new content of [dst]. *)
Definition copy {A} (dst src : list A) : list A :=
  take (length dst) src ++ drop (length src) dst.

(** [make([]T, n)] with every slot holding the zero value [z].  Go panics
    for a negative length.  It also panics for a length above the
    allocation limit of its runtime; that limit is left out here.  The
    theorems about the first allocation of a tree of a given order
    therefore bound the order, and the others start from nodes of that
    order already in memory. *)
Definition make {A} (z : A) (n : Z) : option (list A) :=
  if decide (0 ≤ n) then Some (replicate (Z.to_nat n) z) else None.

(** [for j := lo; j < lo + cnt; j++ { body }]. *)
Fixpoint forUp {S} (cnt : nat) (j : Z) (body : Z → S → option S) (s : S)
  : option S :=
  match cnt with
  | O => Some s
  | S c => s' ← body j s; forUp c (j + 1) body s'
  end.

(** [for j := hi; j > hi - cnt; j-- { body }]. *)
Fixpoint forDown {S} (cnt : nat) (j : Z) (body : Z → S → option S) (s : S)
  : option S :=
  match cnt with
  | O => Some s
  | S c => s' ← body j s; forDown c (j - 1) body s'
  end.

(** ** Keys

    The tree is written against [bytes.Compare] and [copyBytes]; the
    embedding abstracts both so that the same code can be read over
    immutable byte strings and over references into caller-owned buffers. *)

Class KeyOps (Key : Type) := {
  compare : Key → Key → Z;
  copyBytes : Key → Key;
  nilKey : Key
}.

Definition less {Key} {KO : KeyOps Key} (x y : Key) : bool := bool_decide (compare x y < 0).

(** [ceil(x, y)]: Go integer division truncates. *)
Definition ceil (x y : Z) : Z :=
  let d := Z.quot x y in
  if decide (Z.rem x y = 0) then d else d + 1.

Definition defaultOrder : Z := 4.

Section Tree.
Context {Key Val : Type} {KO : KeyOps Key}.

(** ** Nodes *)

Inductive pointer :=
  | PNode (n : addr)
  | PValue (v : Val).

Record node := mkNode {
  leaf : bool;
  parent : option addr;
  keys : list Key;
  keyNum : Z;
  pointers : list (option pointer)
}.

Record BPTree := mkTree {
  root : option addr;
  leftmost : option addr;
  order : Z;
  size : Z;
  minKeyNum : Z;
  nodes : list node
}.

Definition asNode (p : option pointer) : option addr :=
  match p with Some (PNode a) => Some a | _ => None end.

Definition asValue (p : option pointer) : option Val :=
  match p with Some (PValue v) => Some v | _ => None end.

Definition setKeys (n : node) ks := mkNode (leaf n) (parent n) ks (keyNum n) (pointers n).
Definition setPointers (n : node) ps := mkNode (leaf n) (parent n) (keys n) (keyNum n) ps.
Definition setKeyNum (n : node) c := mkNode (leaf n) (parent n) (keys n) c (pointers n).
Definition setParent (n : node) p := mkNode (leaf n) p (keys n) (keyNum n) (pointers n).

Definition setNodes (t : BPTree) ns :=
  mkTree (root t) (leftmost t) (order t) (size t) (minKeyNum t) ns.
Definition setRoot (t : BPTree) r :=
  mkTree r (leftmost t) (order t) (size t) (minKeyNum t) (nodes t).
Definition setLeftmost (t : BPTree) l :=
  mkTree (root t) l (order t) (size t) (minKeyNum t) (nodes t).
Definition setSize (t : BPTree) s :=
  mkTree (root t) (leftmost t) (order t) s (minKeyNum t) (nodes t).

(** [x.f = ...] on the node behind the reference [a]. *)
Definition modify (h : list node) (a : addr) (f : node → option node)
  : option (list node) :=
  n ← h !! a; n' ← f n; Some (<[a := n']> h).

(** [&node{...}] *)
Definition alloc (h : list node) (n : node) : addr * list node :=
  (length h, h ++ [n]).

(** ** Node methods *)

(** [setNext] and [next]: the last pointer slot of a leaf. *)
Definition setNext (n : node) (p : option pointer) : option node :=
  ps ← upd (pointers n) (len (pointers n) - 1) p; Some (setPointers n ps).

Definition next (n : node) : option (option pointer) :=
  idx (pointers n) (len (pointers n) - 1).

(** [lastPointer] is the name [next] had when the iterator was written. *)
Definition lastPointer (n : node) : option (option pointer) := next n.

(** [keyPosition]: position of the key, [-1] when absent. *)
Fixpoint keyPosition_loop (cnt : nat) (n : node) (key : Key) (keyPosition : Z)
  : option Z :=
  match cnt with
  | O => Some (-1)
  | S c =>
      k ← idx (keys n) keyPosition;
      if decide (compare key k = 0) then Some keyPosition
      else keyPosition_loop c n key (keyPosition + 1)
  end.

Definition keyPosition (n : node) (key : Key) : option Z :=
  keyPosition_loop (Z.to_nat (keyNum n)) n key 0.

(** [pointerPositionOf]: range over the pointer slots up to the first nil. *)
Fixpoint pointerPositionOf_loop (ps : list (option pointer)) (x : addr)
    (position : Z) : option Z :=
  match ps with
  | [] => Some (-1)
  | None :: _ => Some (-1)
  | Some p :: ps' =>
      a ← asNode (Some p);
      if decide (a = x) then Some position
      else pointerPositionOf_loop ps' x (position + 1)
  end.

Definition pointerPositionOf (n : node) (x : addr) : option Z :=
  pointerPositionOf_loop (pointers n) x 0.

Definition shiftRight {A} (j : Z) (l : list A) : option (list A) :=
  v ← idx l (j - 1); upd l j v.

Definition shiftLeft {A} (j : Z) (l : list A) : option (list A) :=
  v ← idx l (j + 1); upd l j v.

(** [insertAt] *)
Definition insertAt (n : node) (keyPosition : Z) (key : Key)
    (pointerPosition : Z) (p : option pointer) : option node :=
  ks ← forDown (Z.to_nat (keyNum n - keyPosition)) (keyNum n) shiftRight (keys n);
  let pointerNum := if leaf n then keyNum n else keyNum n + 1 in
  ps ← forDown (Z.to_nat (pointerNum - pointerPosition)) pointerNum shiftRight (pointers n);
  ks ← upd ks keyPosition key;
  ps ← upd ps pointerPosition p;
  Some (mkNode (leaf n) (parent n) ks (keyNum n + 1) ps).

(** [deleteAt] *)
Definition deleteAt (n : node) (keyPosition pointerPosition : Z) : option node :=
  ks ← forUp (Z.to_nat (keyNum n - 1 - keyPosition)) keyPosition shiftLeft (keys n);
  ks ← upd ks (keyNum n - 1) nilKey;
  let pointerNum := if leaf n then keyNum n else keyNum n + 1 in
  ps ← forUp (Z.to_nat (pointerNum - 1 - pointerPosition)) pointerPosition shiftLeft (pointers n);
  ps ← upd ps (pointerNum - 1) None;
  Some (mkNode (leaf n) (parent n) ks (keyNum n - 1) ps).

(** [append]: the receiver is behind [a]; an internal receiver adopts the
    appended child. *)
Definition append (h : list node) (a : addr) (key : Key) (p : option pointer)
  : option (list node) :=
  n ← h !! a;
  let keyPosition := keyNum n in
  pointerPosition ←
    (if leaf n then Some (keyNum n)
     else slot ← idx (pointers n) (keyNum n);
          Some (if slot is Some _ then keyNum n + 1 else keyNum n));
  ks ← upd (keys n) keyPosition key;
  ps ← upd (pointers n) pointerPosition p;
  let h := <[a := mkNode (leaf n) (parent n) ks (keyNum n + 1) ps]> h in
  if leaf n then Some h
  else c ← asNode p; modify h c (λ cn, Some (setParent cn (Some a))).

(** [copyFromRight] *)
Definition copyFromRight (h : list node) (a from : addr) : option (list node) :=
  f ← h !! from;
  h ← forUp (Z.to_nat (keyNum f)) 0
        (λ i h, f ← h !! from; k ← idx (keys f) i; p ← idx (pointers f) i;
                append h a k p) h;
  n ← h !! a;
  if leaf n then
    f ← h !! from; nx ← next f; modify h a (λ n, setNext n nx)
  else
    f ← h !! from;
    p ← idx (pointers f) (keyNum f);
    ps ← upd (pointers n) (keyNum n) p;
    let h := <[a := setPointers n ps]> h in
    c ← asNode p;
    modify h c (λ cn, Some (setParent cn (Some a))).

(** ** Construction *)

(** [Order] as an option of [New]; [None] is the returned error. *)
Definition Order (order : Z) (t : BPTree) : option BPTree :=
  if decide (order < 3) then None
  else Some (mkTree (root t) (leftmost t) order (size t) (minKeyNum t) (nodes t)).

Fixpoint applyOptions (options : list (BPTree → option BPTree)) (t : BPTree)
  : option BPTree :=
  match options with
  | [] => Some t
  | option :: rest => t' ← option t; applyOptions rest t'
  end.

(** [New]; [None] is the returned error. *)
Definition New (options : list (BPTree → option BPTree)) : option BPTree :=
  t ← applyOptions options (mkTree None None defaultOrder 0 0 []);
  Some (mkTree (root t) (leftmost t) (order t) (size t) (ceil (order t) 2 - 1) (nodes t)).

Definition Size (t : BPTree) : Z := size t.

(** Fuel for the loops that follow child or parent references: one step
    per node in memory is more than any acyclic walk needs. *)
Definition fuel (t : BPTree) : nat := S (length (nodes t)).

(** ** Lookup *)

(** The scan [for position < n.keyNum { if less(key, n.keys[position]) break }]
    shared by [findLeaf], [putIntoParent] and [putIntoParentAndSplit]. *)
Fixpoint findPosition (cnt : nat) (n : node) (key : Key) (position : Z)
  : option Z :=
  match cnt with
  | O => Some position
  | S c =>
      k ← idx (keys n) position;
      if less key k then Some position
      else findPosition c n key (position + 1)
  end.

Fixpoint findLeaf_loop (f : nat) (h : list node) (key : Key) (current : addr)
  : option addr :=
  match f with
  | O => None
  | S f =>
      n ← h !! current;
      if leaf n then Some current
      else
        position ← findPosition (Z.to_nat (keyNum n)) n key 0;
        p ← idx (pointers n) position;
        c ← asNode p;
        findLeaf_loop f h key c
  end.

(** [findLeaf]; the caller has checked that the root is not nil. *)
Definition findLeaf (t : BPTree) (key : Key) : option addr :=
  r ← root t; findLeaf_loop (fuel t) (nodes t) key r.

Fixpoint Get_loop (cnt : nat) (n : node) (key : Key) (i : Z)
  : option (option Val) :=
  match cnt with
  | O => Some None
  | S c =>
      k ← idx (keys n) i;
      if decide (compare key k = 0)
      then p ← idx (pointers n) i; v ← asValue p; Some (Some v)
      else Get_loop c n key (i + 1)
  end.

(** [Get]: [Some (Some v)] is [(v, true)], [Some None] is [(nil, false)]. *)
Definition Get (t : BPTree) (key : Key) : option (option Val) :=
  match root t with
  | None => Some None
  | Some _ =>
      l ← findLeaf t key;
      n ← nodes t !! l;
      Get_loop (Z.to_nat (keyNum n)) n key 0
  end.

(** ** Insertion *)

Definition initializeRoot (t : BPTree) (key : Key) (value : Val) : option BPTree :=
  ks ← make nilKey (order t - 1);
  ks ← upd ks 0 (copyBytes key);
  ps ← make None (order t);
  ps ← upd ps 0 (Some (PValue value));
  let '(r, h) := alloc (nodes t) (mkNode true None ks 1 ps) in
  Some (mkTree (Some r) (Some r) (order t) (size t + 1) (minKeyNum t) h).

(** The three-way scan of [putIntoLeaf]: [inl] is an exact match. *)
Fixpoint leafSearch (cnt : nat) (n : node) (k : Key) (insertPos : Z)
  : option (Z + Z) :=
  match cnt with
  | O => Some (inr insertPos)
  | S c =>
      k' ← idx (keys n) insertPos;
      let cmp := compare k k' in
      if decide (cmp = 0) then Some (inl insertPos)
      else if decide (cmp < 0) then Some (inr insertPos)
      else leafSearch c n k (insertPos + 1)
  end.

Definition shiftRight2 {A B} (j : Z) (s : list A * list B)
  : option (list A * list B) :=
  ks ← shiftRight j s.1; ps ← shiftRight j s.2; Some (ks, ps).

Definition clear2 (d : Z) (j : Z) (s : list Key * list (option pointer))
  : option (list Key * list (option pointer)) :=
  ks ← upd s.1 j nilKey; ps ← upd s.2 (j + d) None; Some (ks, ps).

Definition reparent (a : addr) (h : list node) (p : option pointer)
  : option (list node) :=
  match p with
  | None => Some h
  | Some _ => c ← asNode p; modify h c (λ cn, Some (setParent cn (Some a)))
  end.

(** [for _, p := range n.pointers { if p != nil { p.asNode().parent = n } }] *)
Fixpoint reparentAll (a : addr) (ps : list (option pointer)) (h : list node)
  : option (list node) :=
  match ps with
  | [] => Some h
  | p :: ps' => h' ← reparent a h p; reparentAll a ps' h'
  end.

(** The insertion of [(k, l, r)] into an internal node with a free slot,
    as written in [putIntoParent] and again in [putIntoParentAndSplit]. *)
Definition insertChildren (n : node) (insertPos : Z) (k : Key) (l r : addr)
  : option node :=
  last ← idx (pointers n) (keyNum n);
  ps ← upd (pointers n) (keyNum n + 1) last;
  '(ks, ps) ← forDown (Z.to_nat (keyNum n - insertPos)) (keyNum n) shiftRight2
                 (keys n, ps);
  ks ← upd ks insertPos k;
  ps ← upd ps insertPos (Some (PNode l));
  ps ← upd ps (insertPos + 1) (Some (PNode r));
  Some (mkNode (leaf n) (parent n) ks (keyNum n + 1) ps).

Definition putIntoParent (t : BPTree) (parent_ : addr) (k : Key) (l r : addr)
  : option BPTree :=
  pn ← nodes t !! parent_;
  insertPos ← findPosition (Z.to_nat (keyNum pn)) pn k 0;
  pn' ← insertChildren pn insertPos k l r;
  let h := <[parent_ := pn']> (nodes t) in
  h ← modify h l (λ n, Some (setParent n (Some parent_)));
  h ← modify h r (λ n, Some (setParent n (Some parent_)));
  Some (setNodes t h).

Definition putIntoNewRoot (t : BPTree) (key : Key) (l r : addr) : option BPTree :=
  ks ← make nilKey (order t - 1);
  ps ← make None (order t);
  ks ← upd ks 0 key;
  ps ← upd ps 0 (Some (PNode l));
  ps ← upd ps 1 (Some (PNode r));
  let '(newRoot, h) := alloc (nodes t) (mkNode false None ks 1 ps) in
  h ← modify h l (λ n, Some (setParent n (Some newRoot)));
  h ← modify h r (λ n, Some (setParent n (Some newRoot)));
  Some (mkTree (Some newRoot) (leftmost t) (order t) (size t) (minKeyNum t) h).

(** The removal of the promoted key from the new right node at the end of
    [putIntoParentAndSplit]. *)
Definition dropFirst (n : node) : option node :=
  '(ks, ps) ← forUp (Z.to_nat (keyNum n - 1)) 1
      (λ i (s : list Key * list (option pointer)),
         k ← idx s.1 i; ks ← upd s.1 (i - 1) k;
         p ← idx s.2 i; ps ← upd s.2 (i - 1) p;
         Some (ks, ps))
      (keys n, pointers n);
  last ← idx ps (keyNum n);
  ps ← upd ps (keyNum n - 1) last;
  ps ← upd ps (keyNum n) None;
  ks ← upd ks (keyNum n - 1) nilKey;
  Some (mkNode (leaf n) (parent n) ks (keyNum n - 1) ps).

Definition putIntoParentAndSplit (t : BPTree) (parent_ : addr) (k : Key)
    (l r : addr) : option (BPTree * Key * addr * addr) :=
  pn ← nodes t !! parent_;
  insertPos ← findPosition (Z.to_nat (keyNum pn)) pn k 0;
  rks ← make nilKey (order t - 1);
  rps ← make None (order t);
  let middlePos := ceil (len (keys pn)) 2 in
  let copyFrom := if decide (insertPos < middlePos) then middlePos - 1 else middlePos in
  src ← slice (keys pn) copyFrom (len (keys pn));
  let rks := copy rks src in
  src ← slice (pointers pn) copyFrom (len (pointers pn));
  let rps := copy rps src in
  let rightN := mkNode false None rks (len rks - copyFrom) rps in
  '(lks, lps) ← forDown (Z.to_nat (len (keys pn) - copyFrom)) (len (keys pn) - 1)
                   (clear2 1) (keys pn, pointers pn);
  let leftN := mkNode (leaf pn) (parent pn) lks copyFrom lps in
  let '(right_, h) := alloc (nodes t) rightN in
  let left_ := parent_ in
  let '(insertNode, insertPos) :=
    if decide (insertPos >= middlePos) then (right_, insertPos - middlePos)
    else (left_, insertPos) in
  leftN ← (if decide (insertNode = left_) then insertChildren leftN insertPos k l r
           else Some leftN);
  rightN ← (if decide (insertNode = left_) then Some rightN
            else insertChildren rightN insertPos k l r);
  middleKey ← idx (keys rightN) 0;
  rightN ← dropFirst rightN;
  let h := <[right_ := rightN]> (<[left_ := leftN]> h) in
  h ← modify h l (λ n, Some (setParent n (Some insertNode)));
  h ← modify h r (λ n, Some (setParent n (Some insertNode)));
  ln ← h !! left_;
  h ← reparentAll left_ (pointers ln) h;
  rn ← h !! right_;
  h ← reparentAll right_ (pointers rn) h;
  Some (setNodes t h, middleKey, left_, right_).

Definition putIntoLeafAndSplit (t : BPTree) (n : addr) (insertPos : Z)
    (k : Key) (v : Val) : option (BPTree * addr * addr) :=
  nn ← nodes t !! n;
  rks ← make nilKey (order t - 1);
  rps ← make None (order t);
  let middlePos := ceil (len (keys nn)) 2 in
  let copyFrom := if decide (insertPos < middlePos) then middlePos - 1 else middlePos in
  src ← slice (keys nn) copyFrom (len (keys nn));
  let rks := copy rks src in
  src ← slice (pointers nn) copyFrom (len (pointers nn) - 1);
  let rps := copy rps src in
  nx ← next nn;
  rightN ← setNext (mkNode true None rks 0 rps) nx;
  let rightN := setKeyNum rightN (len (keys rightN) - copyFrom) in
  '(lks, lps) ← forDown (Z.to_nat (len (keys nn) - copyFrom)) (len (keys nn) - 1)
                   (clear2 0) (keys nn, pointers nn);
  let '(right_, h) := alloc (nodes t) rightN in
  let left_ := n in
  leftN ← setNext (mkNode (leaf nn) None lks copyFrom lps) (Some (PNode right_));
  leftN ← (if decide (insertPos >= middlePos) then Some leftN
           else insertAt leftN insertPos k insertPos (Some (PValue v)));
  rightN ← (if decide (insertPos >= middlePos)
            then insertAt rightN (insertPos - middlePos) k (insertPos - middlePos)
                   (Some (PValue v))
            else Some rightN);
  Some (setNodes t (<[right_ := rightN]> (<[left_ := leftN]> h)), left_, right_).

(** The loop [for left != nil && right != nil] of [putIntoLeaf]. *)
Fixpoint putIntoLeaf_loop (f : nat) (t : BPTree) (parent_ : option addr)
    (insertKey : Key) (left_ right_ : addr) : option BPTree :=
  match f with
  | O => None
  | S f =>
      match parent_ with
      | None => putIntoNewRoot t insertKey left_ right_
      | Some p =>
          pn ← nodes t !! p;
          if decide (keyNum pn < len (keys pn))
          then putIntoParent t p insertKey left_ right_
          else
            '(t, insertKey, left_, right_) ←
               putIntoParentAndSplit t p insertKey left_ right_;
            pn ← nodes t !! p;
            putIntoLeaf_loop f t (parent pn) insertKey left_ right_
      end
  end.

(** [putIntoLeaf]: [Some v] in the result is [(v, true)], [None] is
    [(nil, false)]. *)
Definition putIntoLeaf (t : BPTree) (n : addr) (k : Key) (v : Val)
  : option (BPTree * option Val) :=
  nn ← nodes t !! n;
  found ← leafSearch (Z.to_nat (keyNum nn)) nn k 0;
  match found with
  | inl insertPos =>
      p ← idx (pointers nn) insertPos;
      oldValue ← asValue p;
      ps ← upd (pointers nn) insertPos (Some (PValue v));
      Some (setNodes t (<[n := setPointers nn ps]> (nodes t)), Some oldValue)
  | inr insertPos =>
      t ← (if decide (keyNum nn < len (keys nn)) then
             '(ks, ps) ← forDown (Z.to_nat (keyNum nn - insertPos)) (keyNum nn)
                            shiftRight2 (keys nn, pointers nn);
             ks ← upd ks insertPos k;
             ps ← upd ps insertPos (Some (PValue v));
             Some (setNodes t (<[n := mkNode (leaf nn) (parent nn) ks (keyNum nn + 1) ps]>
                                 (nodes t)))
           else
             let parent_ := parent nn in
             '(t', left_, right_) ← putIntoLeafAndSplit t n insertPos k v;
             rn ← nodes t' !! right_;
             insertKey ← idx (keys rn) 0;
             putIntoLeaf_loop (fuel t) t' parent_ insertKey left_ right_);
      Some (setSize t (size t + 1), None)
  end.

(** [Put] *)
Definition Put (t : BPTree) (key : Key) (value : Val)
  : option (BPTree * option Val) :=
  match root t with
  | None => t' ← initializeRoot t key value; Some (t', None)
  | Some _ => l ← findLeaf t key; putIntoLeaf t l key value
  end.

(** ** Deletion *)

Fixpoint findLeftmostKey (f : nat) (h : list node) (current : addr) : option Key :=
  match f with
  | O => None
  | S f =>
      n ← h !! current;
      if leaf n then idx (keys n) 0
      else p ← idx (pointers n) 0; c ← asNode p; findLeftmostKey f h c
  end.

(** The inner loop of [removeFromIndex].  An equal key is overwritten and
    compared again, so the loop is bounded by fuel of its own. *)
Fixpoint removeFromIndex_scan (f : nat) (fk : nat) (h : list node)
    (current : addr) (key : Key) (position : Z) : option (list node * Z) :=
  match f with
  | O => None
  | S f =>
      n ← h !! current;
      if decide (position < keyNum n) then
        k ← idx (keys n) position;
        let cmp := compare key k in
        if decide (cmp < 0) then Some (h, position)
        else if decide (cmp > 0) then
          removeFromIndex_scan f fk h current key (position + 1)
        else
          p ← idx (pointers n) (position + 1);
          c ← asNode p;
          lk ← findLeftmostKey fk h c;
          ks ← upd (keys n) position lk;
          removeFromIndex_scan f fk (<[current := setKeys n ks]> h) current key position
      else Some (h, position)
  end.

Fixpoint removeFromIndex_loop (f : nat) (fk : nat) (h : list node)
    (key : Key) (current : addr) : option (list node) :=
  match f with
  | O => None
  | S f =>
      n ← h !! current;
      if leaf n then Some h
      else
        '(h, position) ←
           removeFromIndex_scan (Z.to_nat (keyNum n) + 2) fk h current key 0;
        n ← h !! current;
        p ← idx (pointers n) position;
        c ← asNode p;
        removeFromIndex_loop f fk h key c
  end.

Definition removeFromIndex (t : BPTree) (key : Key) : option BPTree :=
  r ← root t;
  h ← removeFromIndex_loop (fuel t) (fuel t) (nodes t) key r;
  Some (setNodes t h).

(** [if present { sibling = parent.pointers[position].asNode() }] *)
Definition sibling (h : list node) (parent_ : addr) (position : Z)
    (present : bool) : option (option addr) :=
  if present then
    pn ← h !! parent_; p ← idx (pointers pn) position; a ← asNode p; Some (Some a)
  else Some None.

(** [sibling != nil && sibling.keyNum > t.minKeyNum] *)
Definition canLend (t : BPTree) (h : list node) (sibling : option addr)
  : option bool :=
  match sibling with
  | None => Some false
  | Some s => sn ← h !! s; Some (bool_decide (keyNum sn > minKeyNum t))
  end.

Fixpoint rebalanceParentNode (f : nat) (t : BPTree) (n : addr) : option BPTree :=
  match f with
  | O => None
  | S f =>
      let h := nodes t in
      nn ← h !! n;
      match parent nn with
      | None =>
          if decide (keyNum nn = 0) then
            p ← idx (pointers nn) 0;
            r ← asNode p;
            h ← modify h r (λ rn, Some (setParent rn None));
            Some (mkTree (Some r) (leftmost t) (order t) (size t) (minKeyNum t) h)
          else Some t
      | Some parent_ =>
          if decide (keyNum nn >= minKeyNum t) then Some t
          else
            pn ← h !! parent_;
            pointerPositionInParent ← pointerPositionOf pn n;
            let keyPositionInParent :=
              if decide (pointerPositionInParent - 1 < 0) then 0
              else pointerPositionInParent - 1 in
            let leftSiblingPosition := pointerPositionInParent - 1 in
            leftSibling ← sibling h parent_ leftSiblingPosition
                            (bool_decide (leftSiblingPosition >= 0));
            lendL ← canLend t h leftSibling;
            if (lendL : bool) then
              ls ← leftSibling;
              pn ← h !! parent_;
              splitKey ← idx (keys pn) keyPositionInParent;
              lsn ← h !! ls;
              moved ← idx (pointers lsn) (keyNum lsn);
              c ← asNode moved;
              h ← modify h c (λ cn, Some (setParent cn (Some n)));
              h ← modify h n (λ nn, insertAt nn 0 splitKey 0 moved);
              lsn ← h !! ls;
              k ← idx (keys lsn) (keyNum lsn - 1);
              h ← modify h parent_ (λ pn, ks ← upd (keys pn) keyPositionInParent k;
                                          Some (setKeys pn ks));
              h ← modify h ls (λ lsn, deleteAt lsn (keyNum lsn - 1) (keyNum lsn));
              Some (setNodes t h)
            else
              let rightSiblingPosition := pointerPositionInParent + 1 in
              pn ← h !! parent_;
              rightSibling ← sibling h parent_ rightSiblingPosition
                               (bool_decide (rightSiblingPosition < keyNum pn + 1));
              lendR ← canLend t h rightSibling;
              if (lendR : bool) then
                rs ← rightSibling;
                let splitKeyPosition := rightSiblingPosition - 1 in
                pn ← h !! parent_;
                splitKey ← idx (keys pn) splitKeyPosition;
                rsn ← h !! rs;
                moved ← idx (pointers rsn) 0;
                h ← append h n splitKey moved;
                rsn ← h !! rs;
                k ← idx (keys rsn) 0;
                h ← modify h parent_ (λ pn, ks ← upd (keys pn) splitKeyPosition k;
                                            Some (setKeys pn ks));
                h ← modify h rs (λ rsn, deleteAt rsn 0 0);
                Some (setNodes t h)
              else
                h ← match leftSibling, rightSibling with
                    | Some ls, _ =>
                        pn ← h !! parent_;
                        splitKey ← idx (keys pn) keyPositionInParent;
                        h ← modify h ls (λ lsn, ks ← upd (keys lsn) (keyNum lsn) splitKey;
                                                 Some (mkNode (leaf lsn) (parent lsn) ks
                                                         (keyNum lsn + 1) (pointers lsn)));
                        h ← copyFromRight h ls n;
                        modify h parent_
                          (λ pn, deleteAt pn keyPositionInParent pointerPositionInParent)
                    | None, Some rs =>
                        pn ← h !! parent_;
                        splitKey ← idx (keys pn) keyPositionInParent;
                        h ← modify h n (λ nn, ks ← upd (keys nn) (keyNum nn) splitKey;
                                               Some (mkNode (leaf nn) (parent nn) ks
                                                       (keyNum nn + 1) (pointers nn)));
                        h ← copyFromRight h n rs;
                        modify h parent_
                          (λ pn, deleteAt pn keyPositionInParent rightSiblingPosition)
                    | None, None => Some h
                    end;
                rebalanceParentNode f (setNodes t h) parent_
      end
  end.

Definition rebalanceFromLeafNode (t : BPTree) (n : addr) : option BPTree :=
  let h := nodes t in
  nn ← h !! n;
  parent_ ← parent nn;
  pn ← h !! parent_;
  pointerPositionInParent ← pointerPositionOf pn n;
  let keyPositionInParent :=
    if decide (pointerPositionInParent - 1 < 0) then 0
    else pointerPositionInParent - 1 in
  let leftSiblingPosition := pointerPositionInParent - 1 in
  leftSibling ← sibling h parent_ leftSiblingPosition
                  (bool_decide (leftSiblingPosition >= 0));
  lendL ← canLend t h leftSibling;
  if (lendL : bool) then
    ls ← leftSibling;
    lsn ← h !! ls;
    k ← idx (keys lsn) (keyNum lsn - 1);
    p ← idx (pointers lsn) (keyNum lsn - 1);
    h ← modify h n (λ nn, insertAt nn 0 k 0 p);
    h ← modify h ls (λ lsn, deleteAt lsn (keyNum lsn - 1) (keyNum lsn - 1));
    nn ← h !! n;
    k ← idx (keys nn) 0;
    h ← modify h parent_ (λ pn, ks ← upd (keys pn) keyPositionInParent k;
                                Some (setKeys pn ks));
    Some (setNodes t h)
  else
    let rightSiblingPosition := pointerPositionInParent + 1 in
    pn ← h !! parent_;
    rightSibling ← sibling h parent_ rightSiblingPosition
                     (bool_decide (rightSiblingPosition < keyNum pn + 1));
    lendR ← canLend t h rightSibling;
    if (lendR : bool) then
      rs ← rightSibling;
      rsn ← h !! rs;
      k ← idx (keys rsn) 0;
      p ← idx (pointers rsn) 0;
      h ← append h n k p;
      h ← modify h rs (λ rsn, deleteAt rsn 0 0);
      rsn ← h !! rs;
      k ← idx (keys rsn) 0;
      h ← modify h parent_ (λ pn, ks ← upd (keys pn) (rightSiblingPosition - 1) k;
                                  Some (setKeys pn ks));
      Some (setNodes t h)
    else
      h ← match leftSibling, rightSibling with
          | Some ls, _ =>
              h ← copyFromRight h ls n;
              modify h parent_
                (λ pn, deleteAt pn keyPositionInParent pointerPositionInParent)
          | None, Some rs =>
              h ← copyFromRight h n rs;
              modify h parent_
                (λ pn, deleteAt pn keyPositionInParent rightSiblingPosition)
          | None, None => Some h
          end;
      rebalanceParentNode (fuel t) (setNodes t h) parent_.

(** [deleteAtLeafAndRebalance]: [Some v] in the result is [(v, true)]. *)
Definition deleteAtLeafAndRebalance (t : BPTree) (n : addr) (key : Key)
  : option (BPTree * option Val) :=
  nn ← nodes t !! n;
  keyPos ← keyPosition nn key;
  if decide (keyPos = -1) then Some (t, None)
  else
    p ← idx (pointers nn) keyPos;
    value ← asValue p;
    nn ← deleteAt nn keyPos keyPos;
    let t := setNodes t (<[n := nn]> (nodes t)) in
    match parent nn with
    | None =>
        if decide (keyNum nn = 0) then Some (setRoot t None, Some value)
        else Some (t, Some value)
    | Some _ =>
        t ← (if decide (keyNum nn < minKeyNum t) then rebalanceFromLeafNode t n
             else Some t);
        t ← removeFromIndex t key;
        Some (t, Some value)
    end.

(** [Delete]: [Some v] in the result is [(v, true)], [None] is
    [(nil, false)]. *)
Definition Delete (t : BPTree) (key : Key) : option (BPTree * option Val) :=
  match root t with
  | None => Some (t, None)
  | Some _ =>
      l ← findLeaf t key;
      '(t, r) ← deleteAtLeafAndRebalance t l key;
      match r with
      | None => Some (t, None)
      | Some value => Some (setSize t (size t - 1), Some value)
      end
  end.

(** ** Iteration *)

Record Iterator := mkIterator {
  it_next : option addr;
  it_i : Z
}.

Definition NewIterator (t : BPTree) : Iterator := mkIterator (leftmost t) 0.

Definition HasNext (h : list node) (it : Iterator) : bool :=
  match it_next it with
  | None => false
  | Some a =>
      match h !! a with
      | Some n => bool_decide (it_i it < keyNum n)
      | None => false
      end
  end.

(** [Next]: the pair returned and the iterator after the call; [None] is
    the panic. *)
Definition Next (h : list node) (it : Iterator)
  : option (Key * Val * Iterator) :=
  if negb (HasNext h it) then None
  else
    a ← it_next it;
    n ← h !! a;
    key ← idx (keys n) (it_i it);
    p ← idx (pointers n) (it_i it);
    value ← asValue p;
    let i := it_i it + 1 in
    if decide (i = keyNum n) then
      nextPointer ← lastPointer n;
      match nextPointer with
      | Some _ => nx ← asNode nextPointer; Some (key, value, mkIterator (Some nx) 0)
      | None => Some (key, value, mkIterator None 0)
      end
    else Some (key, value, mkIterator (Some a) i).

(** Draining an iterator: the pairs it yields, in order. *)
Fixpoint drain (f : nat) (h : list node) (it : Iterator)
  : option (list (Key * Val)) :=
  match f with
  | O => None
  | S f =>
      if HasNext h it then
        '(key, value, it') ← Next h it;
        rest ← drain f h it';
        Some ((key, value) :: rest)
      else Some []
  end.

(** [ForEach]: the sequence of calls made to [action]. *)
Definition ForEach (f : nat) (t : BPTree) : option (list (Key * Val)) :=
  drain f (nodes t) (NewIterator t).

End Tree.

Arguments pointer : clear implicits.
Arguments node : clear implicits.
Arguments BPTree : clear implicits.

(** ** Keys as byte strings *)

(** [bytes.Compare] *)
Fixpoint bytesCompare (x y : list byte) : Z :=
  match x, y with
  | [], [] => 0
  | [], _ :: _ => -1
  | _ :: _, [] => 1
  | a :: x', b :: y' =>
      match N.compare (Byte.to_N a) (Byte.to_N b) with
      | Lt => -1
      | Gt => 1
      | Eq => bytesCompare x' y'
      end
  end.

(** Keys as immutable byte strings: a copy of a string is the string, and
    the nil slice compares as the empty string. *)
#[export] Instance bytesKey : KeyOps (list byte) := {|
  compare := bytesCompare;
  copyBytes s := copy (replicate (length s) "000"%byte) s;
  nilKey := []
|}.


(** ** Iterator states

    The fields of an [Iterator] are private: a state is built by
    [Iterator()] and changed by [Next] only, so its index is never negative
    and its reference, when not nil, is a leaf.  [leafShape] is what the
    constructors of leaves guarantee about the slices of a leaf: the slots
    below the key count hold values, and the last slot of [pointers], the
    reference to the next leaf, is nil or refers to a node. *)

Section IteratorStates.
Context {Key Val : Type} {KO : KeyOps Key}.

Definition leafShape (n : node Key Val) : Prop :=
  0 ≤ keyNum n ≤ len (keys n)
  ∧ len (pointers n) = len (keys n) + 1
  ∧ (∀ j, 0 ≤ j < keyNum n → ∃ v, idx (pointers n) j = Some (Some (PValue v)))
  ∧ (∀ p, idx (pointers n) (len (pointers n) - 1) = Some (Some p) → ∃ a, p = PNode a).

Definition itValid (h : list (node Key Val)) (it : Iterator) : Prop :=
  0 ≤ it_i it
  ∧ ∀ a, it_next it = Some a → ∃ n, h !! a = Some n ∧ leafShape n.

(** The state [Next] leaves behind on the leaf [n] behind [a]: when the
    leaf is exhausted, the leaf that its last pointer slot refers to. *)
Definition advance (a : addr) (n : node Key Val) (i : Z) : Iterator :=
  if decide (i + 1 = keyNum n) then
    match idx (pointers n) (len (pointers n) - 1) with
    | Some (Some (PNode nx)) => mkIterator (Some nx) 0
    | _ => mkIterator None 0
    end
  else mkIterator (Some a) (i + 1).

End IteratorStates.

(** ** Keys as references into caller-owned buffers

    A Go [[]byte] is a reference to a backing array.  [Caller b] is a slice
    over the caller's buffer number [b], whose current content is [mem b];
    [Owned bs] is a slice over an array that only the tree references.
    [copyBytes] allocates such an array.  Comparison reads through the
    reference. *)

Inductive kref :=
  | Caller (b : nat)
  | Owned (bs : list byte).

Definition deref (mem : nat → list byte) (k : kref) : list byte :=
  match k with
  | Caller b => mem b
  | Owned bs => bs
  end.

Definition aliasKey (mem : nat → list byte) : KeyOps kref := {|
  compare x y := bytesCompare (deref mem x) (deref mem y);
  copyBytes x := Owned (copy (replicate (length (deref mem x)) "000"%byte) (deref mem x));
  nilKey := Owned []
|}.

(** The caller's buffers in the scenario of the README: buffer 0 holds the
    byte 1, buffer 1 holds the byte 2; then the caller overwrites the byte
    of buffer 1 with 0. *)
Definition callerMem (b : nat) : list byte :=
  match b with O => ["001"%byte] | _ => ["002"%byte] end.

Definition callerMemAfter (b : nat) : list byte :=
  match b with O => ["001"%byte] | _ => ["000"%byte] end.


(** * The tree a memory holds

    [atree n] is a B+ tree of height [n] whose nodes are labelled with the
    reference of the node object that holds them: a leaf is a reference and
    its entries, an internal node a reference, its keys and its children.
    All leaves of an [atree n] are at depth [n] by construction. *)

Section Spec.
Context {Key Val : Type} {KO : KeyOps Key}.

Definition aleaf : Type := addr * list (Key * Val).

Fixpoint atree (n : nat) : Type :=
  match n with
  | O => aleaf
  | S m => addr * list Key * list (atree m)
  end.

(** The reference of the top node. *)
Definition aaddr (n : nat) : atree n → addr :=
  match n with
  | O => λ t, t.1
  | S m => λ t, t.1.1
  end.

(** The number of keys of the top node. *)
Definition acount (n : nat) : atree n → Z :=
  match n with
  | O => λ t, len t.2
  | S m => λ t, len t.1.2
  end.

(** The entries of the tree, leaf by leaf, left to right. *)
Fixpoint contents (n : nat) : atree n → list (Key * Val) :=
  match n with
  | O => λ t, t.2
  | S m => λ t, concat (contents m <$> t.2)
  end.

(** The reference of the leftmost leaf. *)
Fixpoint afirst (n : nat) : atree n → addr :=
  match n with
  | O => λ t, t.1
  | S m => λ t, match t.2 with c :: _ => afirst m c | [] => t.1.1 end
  end.

(** The leftmost key, as [findLeftmostKey] reads it: a leaf without keys
    shows the nil slot. *)
Fixpoint amin (n : nat) : atree n → Key :=
  match n with
  | O => λ t, match t.2 with kv :: _ => kv.1 | [] => nilKey end
  | S m => λ t, match t.2 with c :: _ => amin m c | [] => nilKey end
  end.

(** The references of all nodes. *)
Fixpoint addrs (n : nat) : atree n → list addr :=
  match n with
  | O => λ t, [t.1]
  | S m => λ t, t.1.1 :: concat (addrs m <$> t.2)
  end.

(** ** Node objects *)

(** A slice of capacity [n] holding [c] and zero values after it. *)
Definition arr {A} (n : Z) (z : A) (c : list A) : list A :=
  c ++ replicate (Z.to_nat n - length c) z.

Definition vptr (kv : Key * Val) : option (pointer Val) := Some (PValue kv.2).
Definition nptr (a : addr) : option (pointer Val) := Some (PNode a).

Definition leafNode (o : Z) (par : option addr) (kvs : list (Key * Val))
    (nxt : option addr) : node Key Val :=
  mkNode true par (arr (o - 1) nilKey (kvs.*1)) (len kvs)
    (arr (o - 1) None (vptr <$> kvs) ++ [PNode <$> nxt]).

Definition innerNode (o : Z) (par : option addr) (ks : list Key)
    (cs : list addr) : node Key Val :=
  mkNode false par (arr (o - 1) nilKey ks) (len ks) (arr o None (nptr <$> cs)).

(** The object of the top node of a tree, given its parent and, for a
    leaf, the leaf after it. *)
Definition nodeOf (o : Z) (n : nat) : atree n → option addr → option addr → node Key Val :=
  match n with
  | O => λ t par nxt, leafNode o par t.2 nxt
  | S m => λ t par nxt, innerNode o par t.1.2 (aaddr m <$> t.2)
  end.

(** The leaf that follows the last leaf of the first tree of [cs]. *)
Definition nextOf (m : nat) (cs : list (atree m)) (nxt : option addr) : option addr :=
  match cs with
  | [] => nxt
  | c :: _ => Some (afirst m c)
  end.

Fixpoint repList {T} (R : T → option addr → Prop) (nx : list T → option addr)
    (cs : list T) : Prop :=
  match cs with
  | [] => True
  | c :: cs' => R c (nx cs') ∧ repList R nx cs'
  end.

(** [rep o h n t par nxt]: the memory [h] holds the tree [t]: every node
    object is the one the tree prescribes, children refer back to their
    parent, the top node refers to [par], and the leaves are chained left
    to right with the last one referring to [nxt]. *)
Fixpoint rep (o : Z) (h : list (node Key Val)) (n : nat)
  : atree n → option addr → option addr → Prop :=
  match n with
  | O => λ t par nxt, h !! t.1 = Some (leafNode o par t.2 nxt)
  | S m => λ t par nxt,
      h !! t.1.1 = Some (innerNode o par t.1.2 (aaddr m <$> t.2))
      ∧ repList (λ c nx, rep o h m c (Some t.1.1) nx) (λ cs, nextOf m cs nxt) t.2
  end.

(** ** Order

    [lowOk sk lo ks]: the lower bound [lo] of a leaf is its first key.
    While a deletion is in progress the bound may still be the deleted key
    [sk], below the first key. *)
Definition klt (x y : Key) : Prop := compare x y < 0.

Definition lowOk (sk lo : option Key) (ks : list Key) : Prop :=
  match lo with
  | None => True
  | Some l =>
      match ks with
      | k0 :: _ => l = k0 ∨ (sk = Some l ∧ klt l k0)
      | [] => sk = Some l
      end
  end.

Definition ltOpt (x : Key) (hi : option Key) : Prop :=
  match hi with None => True | Some u => klt x u end.

Definition optLt (lo hi : option Key) : Prop :=
  match lo with None => True | Some l => ltOpt l hi end.

Fixpoint sortedK (ks : list Key) : Prop :=
  match ks with
  | [] => True
  | k :: ks' => match ks' with [] => True | k' :: _ => klt k k' end ∧ sortedK ks'
  end.

Fixpoint ordList {T} (R : T → option Key → option Key → Prop)
    (lo : option Key) (ks : list Key) (cs : list T) (hi : option Key) : Prop :=
  match cs with
  | [] => False
  | c :: cs' =>
      match ks with
      | [] => cs' = [] ∧ R c lo hi
      | k :: ks' => R c lo (Some k) ∧ ordList R (Some k) ks' cs' hi
      end
  end.

(** [ord sk n t lo hi]: keys are strictly ascending, every key of [t] is
    below [hi], and every lower bound (the separator left of a subtree) is
    the least key of that subtree. *)
Fixpoint ord (sk : option Key) (n : nat) : atree n → option Key → option Key → Prop :=
  match n with
  | O => λ t lo hi,
      sortedK (t.2.*1) ∧ Forall (λ k, ltOpt k hi) (t.2.*1)
      ∧ lowOk sk lo (t.2.*1) ∧ optLt lo hi
  | S m => λ t lo hi, ordList (ord sk m) lo t.1.2 t.2 hi
  end.

(** ** Occupancy

    [occ o lb n t]: the top node holds between [lb] and [o - 1] keys and
    every node below it between [ceil(o/2) - 1] and [o - 1]; an internal
    node has one child more than keys. *)
Fixpoint occ (o : Z) (lb : Z) (n : nat) : atree n → Prop :=
  match n with
  | O => λ t, lb ≤ len t.2 ≤ o - 1
  | S m => λ t,
      lb ≤ len t.1.2 ≤ o - 1 ∧ len t.2 = len t.1.2 + 1
      ∧ Forall (occ o (ceil o 2 - 1) m) t.2
  end.

(** ** Search positions *)

(** The child to descend into: the first position whose key is above
    [k] ([findLeaf], [putIntoParent]). *)
Fixpoint cpos (k : Key) (ks : list Key) : nat :=
  match ks with
  | [] => O
  | k' :: ks' => if less k k' then O else S (cpos k ks')
  end.

(** The position in a leaf: [inl] for an exact match ([putIntoLeaf]). *)
Fixpoint lpos (k : Key) (ks : list Key) : nat + nat :=
  match ks with
  | [] => inr O
  | k' :: ks' =>
      if decide (compare k k' = 0) then inl O
      else if decide (compare k k' < 0) then inr O
      else match lpos k ks' with inl p => inl (S p) | inr p => inr (S p) end
  end.

(** The position of an equal key ([keyPosition], [Get]). *)
Fixpoint epos (k : Key) (ks : list Key) : option nat :=
  match ks with
  | [] => None
  | k' :: ks' => if decide (compare k k' = 0) then Some O else S <$> epos k ks'
  end.

(** The first position whose key is not below [k] ([removeFromIndex]). *)
Fixpoint fpos (k : Key) (ks : list Key) : nat :=
  match ks with
  | [] => O
  | k' :: ks' => if decide (compare k k' > 0) then S (fpos k ks') else O
  end.

Definition insertAtL {A} (i : nat) (x : A) (l : list A) : list A :=
  take i l ++ x :: drop i l.

(** ** Insertion on trees *)

Inductive ires (T : Type) :=
  | ISame (t : T)
  | ISplit (l : T) (k : Key) (r : T).
Arguments ISame {T}.
Arguments ISplit {T}.

Definition middle (o : Z) : nat := Z.to_nat (ceil (o - 1) 2).
Arguments middle : simpl never.

Definition leafPut (o : Z) (fr : addr) (t : aleaf) (k : Key) (v : Val)
  : ires aleaf * option Val :=
  match lpos k (t.2.*1) with
  | inl p =>
      match t.2 !! p with
      | Some (k0, v0) => (ISame (t.1, <[p := (k0, v)]> t.2), Some v0)
      | None => (ISame t, None)
      end
  | inr p =>
      let all := insertAtL p (k, v) t.2 in
      if decide (len t.2 < o - 1) then (ISame (t.1, all), None)
      else
        let r := drop (middle o) all in
        (ISplit (t.1, take (middle o) all) (amin O (fr, r)) (fr, r), None)
  end.

Fixpoint treePut (o : Z) (fr : addr) (n : nat) : atree n → Key → Val → ires (atree n) * option Val :=
  match n with
  | O => λ t k v, leafPut o fr t k v
  | S m => λ t k v,
      let i := cpos k t.1.2 in
      match t.2 !! i with
      | None => (ISame t, None)
      | Some c =>
          match treePut o fr m c k v with
          | (ISame c', old) => (ISame (t.1, <[i := c']> t.2), old)
          | (ISplit cl sep cr, old) =>
              let ks := insertAtL i sep t.1.2 in
              let cs := take i t.2 ++ cl :: cr :: drop (S i) t.2 in
              if decide (len t.1.2 < o - 1) then (ISame (t.1.1, ks, cs), old)
              else
                (ISplit (t.1.1, take (middle o) ks, take (S (middle o)) cs)
                   (default nilKey (ks !! middle o))
                   ((fr + S m)%nat, drop (S (middle o)) ks, drop (S (middle o)) cs),
                 old)
          end
      end
  end.

(** ** Deletion on trees *)

Definition leafDel (t : aleaf) (k : Key) : aleaf * option Val :=
  match epos k (t.2.*1) with
  | Some p => ((t.1, delete p t.2), snd <$> t.2 !! p)
  | None => (t, None)
  end.

(** Moving the last entry of [l] to the front of [c], around the separator
    [sep]: the new left sibling, the new separator and the new [c]. *)
Definition borrowLeft (m : nat) : Key → atree m → atree m → atree m * Key * atree m :=
  match m return Key → atree m → atree m → atree m * Key * atree m with
  | O => λ sep l c,
      match l.2 !! pred (length l.2) with
      | Some kv => ((l.1, take (pred (length l.2)) l.2), kv.1, (c.1, kv :: c.2))
      | None => (l, sep, c)
      end
  | S m' => λ sep l c,
      match l.1.2 !! pred (length l.1.2), l.2 !! pred (length l.2) with
      | Some k, Some x =>
          ((l.1.1, take (pred (length l.1.2)) l.1.2, take (pred (length l.2)) l.2), k,
           (c.1.1, sep :: c.1.2, x :: c.2))
      | _, _ => (l, sep, c)
      end
  end.

(** Moving the first entry of [r] to the end of [c]: the new [c], the new
    separator and the new right sibling. *)
Definition borrowRight (m : nat) : Key → atree m → atree m → atree m * Key * atree m :=
  match m return Key → atree m → atree m → atree m * Key * atree m with
  | O => λ sep c r,
      match r.2 with
      | kv :: rest => ((c.1, c.2 ++ [kv]), amin O (r.1, rest), (r.1, rest))
      | [] => (c, sep, r)
      end
  | S m' => λ sep c r,
      match r.1.2, r.2 with
      | k :: ks, x :: xs =>
          ((c.1.1, c.1.2 ++ [sep], c.2 ++ [x]), k, (r.1.1, ks, xs))
      | _, _ => (c, sep, r)
      end
  end.

(** Merging [y] into its left neighbour [x] around the separator [sep]. *)
Definition mergeInto (m : nat) : Key → atree m → atree m → atree m :=
  match m return Key → atree m → atree m → atree m with
  | O => λ sep x y, (x.1, x.2 ++ y.2)
  | S m' => λ sep x y, (x.1.1, x.1.2 ++ sep :: y.1.2, x.2 ++ y.2)
  end.

(** Rebalancing around the child at position [i], which has just lost a
    key ([rebalanceFromLeafNode], [rebalanceParentNode]). *)
Definition fixChild (mn : Z) (m : nat) (a : addr) (ks : list Key)
    (cs : list (atree m)) (i : nat) : addr * list Key * list (atree m) :=
  match cs !! i with
  | None => (a, ks, cs)
  | Some c =>
      if decide (acount m c >= mn) then (a, ks, cs)
      else
        let left := match i with O => None | S j => cs !! j end in
        let right := if decide (i < length ks)%nat then cs !! S i else None in
        match left with
        | Some l =>
            if decide (acount m l > mn) then
              let '(l', sep, c') := borrowLeft m (default nilKey (ks !! pred i)) l c in
              (a, <[pred i := sep]> ks, <[pred i := l']> (<[i := c']> cs))
            else
              match right with
              | Some r =>
                  if decide (acount m r > mn) then
                    let '(c', sep, r') := borrowRight m (default nilKey (ks !! i)) c r in
                    (a, <[i := sep]> ks, <[i := c']> (<[S i := r']> cs))
                  else
                    (a, delete (pred i) ks,
                     delete i (<[pred i := mergeInto m (default nilKey (ks !! pred i)) l c]> cs))
              | None =>
                  (a, delete (pred i) ks,
                   delete i (<[pred i := mergeInto m (default nilKey (ks !! pred i)) l c]> cs))
              end
        | None =>
            match right with
            | Some r =>
                if decide (acount m r > mn) then
                  let '(c', sep, r') := borrowRight m (default nilKey (ks !! i)) c r in
                  (a, <[i := sep]> ks, <[i := c']> (<[S i := r']> cs))
                else
                  (a, delete O ks,
                   delete (S i) (<[i := mergeInto m (default nilKey (ks !! O)) c r]> cs))
            | None => (a, ks, cs)
            end
        end
  end.

Fixpoint treeDel (mn : Z) (n : nat) : atree n → Key → atree n * option Val :=
  match n with
  | O => λ t k, leafDel t k
  | S m => λ t k,
      let i := cpos k t.1.2 in
      match t.2 !! i with
      | None => (t, None)
      | Some c =>
          match treeDel mn m c k with
          | (c', Some v) => (fixChild mn m t.1.1 t.1.2 (<[i := c']> t.2) i, Some v)
          | (_, None) => (t, None)
          end
      end
  end.

(** Replacing the separator equal to the deleted key by the leftmost key
    of the subtree right of it ([removeFromIndex]). *)
Fixpoint fixSep (n : nat) : atree n → Key → atree n :=
  match n with
  | O => λ t k, t
  | S m => λ t k,
      let i := fpos k t.1.2 in
      let ks :=
        match t.1.2 !! i, t.2 !! S i with
        | Some k', Some r =>
            if decide (compare k k' = 0) then <[i := amin m r]> t.1.2 else t.1.2
        | _, _ => t.1.2
        end in
      match t.2 !! i with
      | Some c => (t.1.1, ks, <[i := fixSep m c k]> t.2)
      | None => (t.1.1, ks, t.2)
      end
  end.

(** ** The invariant of a tree object *)

(** The tree of height [n] that [t] holds. *)
Definition holds (t : BPTree Key Val) (n : nat) (a : atree n) : Prop :=
  root t = Some (aaddr n a)
  ∧ leftmost t = Some (afirst n a)
  ∧ rep (order t) (nodes t) n a None None
  ∧ NoDup (addrs n a)
  ∧ ord None n a None None
  ∧ occ (order t) 1 n a
  ∧ size t = len (contents n a).

(** The empty tree: no root; the leftmost reference is nil or refers to a
    leaf without keys. *)
Definition holdsNothing (t : BPTree Key Val) : Prop :=
  root t = None
  ∧ size t = 0
  ∧ match leftmost t with
    | None => True
    | Some l => ∃ n, nodes t !! l = Some n ∧ leafShape n ∧ keyNum n = 0
    end.

Definition params (t : BPTree Key Val) : Prop :=
  3 ≤ order t ∧ minKeyNum t = ceil (order t) 2 - 1.

(** [Inv t kvs]: the tree object is well formed and stores exactly the
    entries [kvs]. *)
Definition Inv (t : BPTree Key Val) (kvs : list (Key * Val)) : Prop :=
  params t
  ∧ ((holdsNothing t ∧ kvs = [])
     ∨ ∃ n a, holds t n a ∧ contents n a = kvs).

End Spec.

Arguments ISame {Key T}.
Arguments ISplit {Key T}.


(** * The order of keys and the entries a tree stores *)

(** What the tree assumes of [compare]: a strict total order whose
    equivalence is equality, as [bytes.Compare] is on byte strings; and a
    copy of a key is that key. *)
Class KeyLaws (Key : Type) {KO : KeyOps Key} : Prop := {
  compare_eq (x y : Key) : compare x y = 0 ↔ x = y;
  compare_flip (x y : Key) : compare x y < 0 ↔ 0 < compare y x;
  compare_trans (x y z : Key) : compare x y < 0 → compare y z < 0 → compare x z < 0;
  copyBytes_id (x : Key) : copyBytes x = x
}.

Section Entries.
Context {Key Val : Type} {KO : KeyOps Key}.

(** The leaf that [findLeaf] reaches. *)
Fixpoint route (n : nat) : @atree Key Val n → Key → addr :=
  match n with
  | O => λ t k, t.1
  | S m => λ t k,
      match t.2 !! cpos k t.1.2 with
      | Some c => route m c k
      | None => t.1.1
      end
  end.

(** The entries of that leaf. *)
Fixpoint routeLeaf (n : nat) : @atree Key Val n → Key → list (Key * Val) :=
  match n with
  | O => λ t k, t.2
  | S m => λ t k,
      match t.2 !! cpos k t.1.2 with
      | Some c => routeLeaf m c k
      | None => []
      end
  end.

(** Entries in ascending order of their keys, as a map. *)
Fixpoint kvget (k : Key) (kvs : list (Key * Val)) : option Val :=
  match kvs with
  | [] => None
  | (k', v') :: rest => if decide (compare k k' = 0) then Some v' else kvget k rest
  end.

Fixpoint kvput (k : Key) (v : Val) (kvs : list (Key * Val)) : list (Key * Val) :=
  match kvs with
  | [] => [(k, v)]
  | (k', v') :: rest =>
      if decide (compare k k' = 0) then (k', v) :: rest
      else if decide (compare k k' < 0) then (k, v) :: (k', v') :: rest
      else (k', v') :: kvput k v rest
  end.

Fixpoint kvdel (k : Key) (kvs : list (Key * Val)) : list (Key * Val) :=
  match kvs with
  | [] => []
  | (k', v') :: rest =>
      if decide (compare k k' = 0) then rest else (k', v') :: kvdel k rest
  end.

(** [k] is at or above the lower bound, and the lower bound is below it. *)
Definition leOpt (lo : option Key) (k : Key) : Prop :=
  match lo with None => True | Some l => compare l k ≤ 0 end.

(** The bounds of the child at position [i] of a node with keys [ks] and
    bounds [lo] and [hi]. *)
Definition lob (lo : option Key) (ks : list Key) (i : nat) : option Key :=
  match i with O => lo | S j => ks !! j end.

Definition hib (ks : list Key) (hi : option Key) (i : nat) : option Key :=
  match ks !! i with Some k => Some k | None => hi end.

(** The leaf after the subtree at position [i] of the children [cs]. *)
Definition nextAt (m : nat) (cs : list (@atree Key Val m)) (nxt : option addr)
    (i : nat) : option addr :=
  match cs !! S i with Some c => Some (afirst m c) | None => nxt end.

(** A tree held by memory whatever its top node takes for its parent. *)
Definition repU (o : Z) (h : list (node Key Val)) (n : nat) (t : @atree Key Val n)
    (nxt : option addr) : Prop :=
  ∃ par, rep o h n t par nxt.

(** A tree without an empty node: every leaf has an entry and every
    internal node a child. *)
Fixpoint noEmpty (n : nat) : @atree Key Val n → Prop :=
  match n with
  | O => λ t, t.2 ≠ []
  | S m => λ t, t.2 ≠ [] ∧ Forall (noEmpty m) t.2
  end.

(** The children [cs] of the node [p], as memory holds them: each refers
    back to [p], and their leaves are chained up to [nxt]. *)
Definition repC (o : Z) (h : list (node Key Val)) (m : nat) (p : addr)
    (cs : list (@atree Key Val m)) (nxt : option addr) : Prop :=
  repList (λ c nx, rep o h m c (Some p) nx) (λ cs, nextOf m cs nxt) cs.

(** What [putIntoLeaf], started at the leaf of [k] in the subtree [t] held
    by memory, has done when it leaves [t]: either it is finished, and
    memory holds the new subtree; or the top node of [t] was split, memory
    holds both halves, and the walk goes on at the parent. *)
Definition putSpec (o : Z) (T : BPTree Key Val) (n : nat) (t : @atree Key Val n)
    (par nxt : option addr) (k : Key) (v : Val) : Prop :=
  match treePut o (length (nodes T)) n t k v with
  | (ISame t', old) =>
      ∃ h', putIntoLeaf T (route n t k) k v
            = Some (match old with
                    | Some _ => setNodes T h'
                    | None => setSize (setNodes T h') (size T + 1)
                    end, old)
          ∧ rep o h' n t' par nxt
          ∧ (length (nodes T) ≤ length h')%nat
          ∧ (∀ x : nat, (x < length (nodes T))%nat → x ∉ addrs n t →
               h' !! x = nodes T !! x)
  | (ISplit tl sep tr, old) =>
      old = None
      ∧ ∃ h', putIntoLeaf T (route n t k) k v
              = (T'' ← putIntoLeaf_loop (fuel T - n) (setNodes T h') par sep
                         (aaddr n tl) (aaddr n tr);
                 Some (setSize T'' (size T'' + 1), None))
            ∧ repU o h' n tl (Some (afirst n tr))
            ∧ repU o h' n tr nxt
            ∧ length h' = (length (nodes T) + S n)%nat
            ∧ (∀ x : nat, (x < length (nodes T))%nat → x ∉ addrs n t →
                 h' !! x = nodes T !! x)
  end.

(** ** Histories *)

Inductive op : Type :=
  | OPut (k : Key) (v : Val)
  | ODelete (k : Key).

(** Running a history; [None] if an operation panics. *)
Fixpoint run (ops : list op) (t : BPTree Key Val) : option (BPTree Key Val) :=
  match ops with
  | [] => Some t
  | OPut k v :: rest => r ← Put t k v; run rest r.1
  | ODelete k :: rest => r ← Delete t k; run rest r.1
  end.

(** The value a history leaves under [k]: that of the last [Put] of [k]
    with no [Delete] of [k] after it. *)
Fixpoint stored `{EqDecision Key} (ops : list op) (k : Key) (acc : option Val) : option Val :=
  match ops with
  | [] => acc
  | OPut k' v :: rest => stored rest k (if decide (k' = k) then Some v else acc)
  | ODelete k' :: rest => stored rest k (if decide (k' = k) then None else acc)
  end.

(** The entries a history leaves, in ascending order. *)
Fixpoint entries (ops : list op) (acc : list (Key * Val)) : list (Key * Val) :=
  match ops with
  | [] => acc
  | OPut k v :: rest => entries rest (kvput k v acc)
  | ODelete k :: rest => entries rest (kvdel k acc)
  end.

End Entries.

Arguments op : clear implicits.

(** Histories of insertions only. *)
Definition isPut {Key Val : Type} (x : op Key Val) : Prop :=
  match x with OPut _ _ => True | ODelete _ => False end.

(** ** Rebalancing around a child: the cases *)

Section FixCases.
Context {Key Val : Type} {KO : KeyOps Key}.

(** What [fixChild] does at the child [c] of position [i]: nothing, a
    rotation with the left or the right neighbour, or a merge with the
    left neighbour or, for the first child, with the right one. *)
Inductive fixCase (mn : Z) (m : nat) (ks : list Key) (cs : list (@atree Key Val m))
    (i : nat) (c : @atree Key Val m)
  : list Key → list (@atree Key Val m) → Prop :=
  | FixSame :
      acount m c >= mn → fixCase mn m ks cs i c ks cs
  | FixBorrowLeft (q : nat) l sep :
      ¬ acount m c >= mn → i = S q → cs !! q = Some l → ks !! q = Some sep →
      acount m l > mn →
      fixCase mn m ks cs i c
        (<[q := (borrowLeft m sep l c).1.2]> ks)
        (<[q := (borrowLeft m sep l c).1.1]> (<[S q := (borrowLeft m sep l c).2]> cs))
  | FixBorrowRight r sep :
      ¬ acount m c >= mn → cs !! S i = Some r → ks !! i = Some sep →
      (∀ (q : nat) l, i = S q → cs !! q = Some l → ¬ acount m l > mn) →
      acount m r > mn →
      fixCase mn m ks cs i c
        (<[i := (borrowRight m sep c r).1.2]> ks)
        (<[i := (borrowRight m sep c r).1.1]> (<[S i := (borrowRight m sep c r).2]> cs))
  | FixMergeLeft (q : nat) l sep :
      ¬ acount m c >= mn → i = S q → cs !! q = Some l → ks !! q = Some sep →
      ¬ acount m l > mn →
      (∀ r, cs !! S i = Some r → ¬ acount m r > mn) →
      fixCase mn m ks cs i c
        (delete q ks) (delete (S q) (<[q := mergeInto m sep l c]> cs))
  | FixMergeRight r sep :
      ¬ acount m c >= mn → i = 0%nat → cs !! 1%nat = Some r → ks !! 0%nat = Some sep →
      ¬ acount m r > mn →
      fixCase mn m ks cs i c
        (delete 0%nat ks) (delete 1%nat (<[0%nat := mergeInto m sep c r]> cs)).

End FixCases.


(** * Instances: trees of order 4 over one-byte keys

    The entry of the byte [b] has the key [[b]] and the value [[b]]. *)

Definition exEntries (bs : list byte) : list (list byte * list byte) :=
  (λ b, ([b], [b])) <$> bs.

Definition exLeaf (par : option addr) (bs : list byte) (nxt : option addr)
  : node (list byte) (list byte) :=
  leafNode 4 par (exEntries bs) nxt.

Definition exInner (par : option addr) (bs : list byte) (cs : list addr)
  : node (list byte) (list byte) :=
  innerNode 4 par ((λ b, [b]) <$> bs) cs.

Definition exTree (r : addr) (h : list (node (list byte) (list byte)))
  : BPTree (list byte) (list byte) :=
  mkTree (Some r) (Some 0%nat) 4 (len h) 1 h.

(** Two leaves under a root: the entries 1, 2 and 5, 6. *)
Definition exHeap2 : list (node (list byte) (list byte)) :=
  [exLeaf (Some 2%nat) ["001"; "002"]%byte (Some 1%nat);
   exLeaf (Some 2%nat) ["005"; "006"]%byte None;
   exInner None ["005"%byte] [0; 1]%nat].

Definition exAtree2 : @atree (list byte) (list byte) 1 :=
  (2%nat, [["005"%byte]],
   [(0%nat, exEntries ["001"; "002"]%byte); (1%nat, exEntries ["005"; "006"]%byte)]).

(** The same after the first leaf took 3 and 4 and was split into the
    nodes 0 and 3, before the root has taken the new leaf. *)
Definition exHeapSplit : list (node (list byte) (list byte)) :=
  [exLeaf None ["001"; "002"]%byte (Some 3%nat);
   exLeaf (Some 2%nat) ["005"; "006"]%byte None;
   exInner None ["005"%byte] [0; 1]%nat;
   exLeaf None ["003"; "004"]%byte (Some 1%nat)].

(** A full root with four leaves, and the halves 1 and 5 of its second
    leaf. *)
Definition exHeapFull : list (node (list byte) (list byte)) :=
  [exLeaf (Some 4%nat) ["001"; "002"]%byte (Some 1%nat);
   exLeaf None ["003"; "004"]%byte (Some 5%nat);
   exLeaf (Some 4%nat) ["007"; "008"]%byte (Some 3%nat);
   exLeaf (Some 4%nat) ["009"; "010"]%byte None;
   exInner None ["003"; "007"; "009"]%byte [0; 1; 2; 3]%nat;
   exLeaf None ["005"; "006"]%byte (Some 2%nat)].

(** The tree object over [exHeap2]: four entries under the root 2. *)
Definition exTree2 : BPTree (list byte) (list byte) :=
  mkTree (Some 2%nat) (Some 0%nat) 4 4 1 exHeap2.


(** * Slices *)

Lemma idx_Some {A} (l : list A) (i : Z) (x : A) :
  idx l i = Some x ↔ 0 ≤ i ∧ l !! Z.to_nat i = Some x.
Proof. unfold idx. case_decide; naive_solver. Qed.

Lemma idx_lookup {A} (l : list A) (i : nat) : idx l (Z.of_nat i) = l !! i.
Proof. unfold idx. case_decide; [by rewrite Nat2Z.id | lia]. Qed.

Lemma idx_is_Some {A} (l : list A) (i : Z) :
  0 ≤ i < len l → is_Some (idx l i).
Proof.
  intros Hi. unfold idx, len in *. case_decide; [|lia].
  apply lookup_lt_is_Some. lia.
Qed.

Lemma upd_Some {A} (l : list A) (i : Z) (x : A) :
  0 ≤ i < len l → upd l i x = Some (<[Z.to_nat i := x]> l).
Proof. intros Hi. unfold upd. by case_decide. Qed.

Lemma len_nonneg {A} (l : list A) : 0 ≤ len l.
Proof. unfold len. lia. Qed.

(** * The iterator *)

Section Iterator.
Context {Key Val : Type} {KO : KeyOps Key}.
Implicit Types (h : list (node Key Val)) (it : Iterator).

Lemma HasNext_true h it :
  HasNext h it = true ↔
  ∃ a n, it_next it = Some a ∧ h !! a = Some n ∧ it_i it < keyNum n.
Proof.
  unfold HasNext. destruct (it_next it) as [a|]; [|naive_solver].
  destruct (h !! a) as [n|] eqn:Hn; [|naive_solver].
  rewrite bool_decide_eq_true. naive_solver.
Qed.

Lemma Next_Some h it a n :
  itValid h it → it_next it = Some a → h !! a = Some n → it_i it < keyNum n →
  ∃ k v, idx (keys n) (it_i it) = Some k
       ∧ idx (pointers n) (it_i it) = Some (Some (PValue v))
       ∧ Next h it = Some (k, v, advance a n (it_i it)).
Proof.
  intros [Hi Hv] Ha Hn Hlt.
  destruct (Hv a Ha) as (n' & Hn' & Hk & Hp & Hvals & Hlast).
  assert (n' = n) as -> by congruence.
  destruct (idx_is_Some (keys n) (it_i it)) as [k Hkey]; [lia|].
  destruct (Hvals (it_i it)) as [v Hval]; [lia|].
  exists k, v. split_and!; [done..|].
  unfold Next.
  assert (HasNext h it = true) as -> by (apply HasNext_true; eauto).
  simpl. rewrite Ha. simpl. rewrite Hn. simpl. rewrite Hkey. simpl.
  rewrite Hval. simpl. unfold advance.
  case_decide; [|done].
  destruct (idx_is_Some (pointers n) (len (pointers n) - 1)) as [lp Hlp]; [lia|].
  unfold lastPointer, next in *. rewrite Hlp. simpl.
  destruct lp as [p|]; [|done].
  destruct (Hlast p Hlp) as [nx ->]. done.
Qed.

End Iterator.

(** C7.  In every iterator state, [HasNext] is true exactly when the leaf
    reference is not nil and the index is below the key count of that leaf;
    [Next] panics exactly when [HasNext] is false; otherwise [Next] returns
    the key and value at the index and advances: to the next index of the
    same leaf, or, when the leaf is exhausted, to index 0 of the chained
    next leaf, the one that the last slot of the leaf's [pointers] refers
    to, or to the nil reference when that slot is nil. *)
Theorem Iterator_HasNext_Next {Key Val : Type} {KO : KeyOps Key}
    (h : list (node Key Val)) (it : Iterator) :
  itValid h it →
  (HasNext h it = true ↔
     ∃ a n, it_next it = Some a ∧ h !! a = Some n ∧ it_i it < keyNum n)
  ∧ (Next h it = None ↔ HasNext h it = false)
  ∧ (∀ a n, it_next it = Some a → h !! a = Some n → it_i it < keyNum n →
       ∃ k v,
         idx (keys n) (it_i it) = Some k
         ∧ idx (pointers n) (it_i it) = Some (Some (PValue v))
         ∧ Next h it = Some (k, v,
             if decide (it_i it + 1 = keyNum n) then
               match idx (pointers n) (len (pointers n) - 1) with
               | Some (Some (PNode nx)) => mkIterator (Some nx) 0
               | _ => mkIterator None 0
               end
             else mkIterator (Some a) (it_i it + 1))).
Proof.
  intros Hv. split_and!.
  - apply HasNext_true.
  - split.
    + intros HN. destruct (HasNext h it) eqn:HH; [|done].
      apply HasNext_true in HH as (a & n & Ha & Hn & Hlt).
      destruct (Next_Some h it a n Hv Ha Hn Hlt) as (k & v & _ & _ & HS).
      congruence.
    + intros HH. unfold Next. by rewrite HH.
  - intros a n Ha Hn Hlt. apply (Next_Some h it a n Hv Ha Hn Hlt).
Qed.

(** Two chained leaves of order 4: from the last entry of the first leaf
    [Next] goes to the second leaf, the one in the last pointer slot. *)
Lemma Iterator_HasNext_Next_witness :
  let n0 := mkNode true None [["001"%byte]; []; []] 1
              [Some (PValue ["010"%byte]); None; None; Some (PNode 1%nat)] in
  let n1 := mkNode true None [["002"%byte]; []; []] 1
              [Some (PValue ["020"%byte]); None; None; None] in
  let h := [n0; n1] in
  let it := mkIterator (Some 0%nat) 0 in
  ((HasNext h it = true ↔
      ∃ a n, it_next it = Some a ∧ h !! a = Some n ∧ it_i it < keyNum n)
   ∧ (Next h it = None ↔ HasNext h it = false)
   ∧ (∀ a n, it_next it = Some a → h !! a = Some n → it_i it < keyNum n →
        ∃ k v,
          idx (keys n) (it_i it) = Some k
          ∧ idx (pointers n) (it_i it) = Some (Some (PValue v))
          ∧ Next h it = Some (k, v,
              if decide (it_i it + 1 = keyNum n) then
                match idx (pointers n) (len (pointers n) - 1) with
                | Some (Some (PNode nx)) => mkIterator (Some nx) 0
                | _ => mkIterator None 0
                end
              else mkIterator (Some a) (it_i it + 1))))
  ∧ Next h it = Some (["001"%byte], ["010"%byte], mkIterator (Some 1%nat) 0)
  ∧ Next h (mkIterator (Some 1%nat) 0)
    = Some (["002"%byte], ["020"%byte], mkIterator None 0)
  ∧ Next h (mkIterator None 0) = None.
Proof.
  intros n0 n1 h it.
  assert (Hs0 : leafShape n0).
  { split; [|split; [|split]].
    - unfold len; simpl; lia.
    - reflexivity.
    - intros j Hj. exists ["010"%byte]. simpl in Hj.
      assert (j = 0) as -> by lia. reflexivity.
    - intros p Hp. vm_compute in Hp. injection Hp as <-. by exists 1%nat. }
  assert (Hv : itValid h it).
  { split; [simpl; lia|]. intros a [= <-]. by exists n0. }
  split; [exact (Iterator_HasNext_Next h it Hv)|].
  split_and!; reflexivity.
Defined.

(** * Deleting the last key *)

Section DeleteLast.
Context {Key Val : Type} {KO : KeyOps Key}.

Lemma findLeaf_root_leaf (t : BPTree Key Val) r n key :
  root t = Some r → nodes t !! r = Some n → leaf n = true →
  findLeaf t key = Some r.
Proof.
  intros Hr Hn Hl. unfold findLeaf, fuel. rewrite Hr. simpl.
  rewrite Hn. simpl. by rewrite Hl.
Qed.

End DeleteLast.

(** C8 as stated fails: one [Put] into a new tree of order 4 followed by
    the [Delete] of that key leaves the root nil and the leftmost reference
    on node 0. *)
Lemma Delete_last_key_keeps_leftmost :
  (t0 ← New (Val := list byte) [Order 4];
   r ← Put t0 ["001"%byte] ["010"%byte];
   r' ← Delete r.1 ["001"%byte];
   Some (r'.2, root r'.1, leftmost r'.1))
  = Some (Some ["010"%byte], None, Some 0%nat).
Proof. reflexivity. Qed.

(** * Keys are stored without a copy after the first insertion *)

(** C9 fails on the code.  The first [Put] stores a copy of the key
    ([Owned]); the second [Put] stores the caller's slice itself
    ([Caller 1]).  When the caller then overwrites that buffer, the key
    held by the tree changes with it: the key 2 that was inserted is no
    longer found and the leaf holds the keys 1, 0 in that order. *)
Lemma Put_stores_caller_buffer :
  let v := ["010"%byte] in
  ∃ t2 : BPTree kref (list byte),
    (t0 ← New [Order 4];
     r1 ← Put (KO := aliasKey callerMem) t0 (Caller 0) v;
     r2 ← Put (KO := aliasKey callerMem) r1.1 (Caller 1) v;
     Some r2.1) = Some t2
    ∧ (keys <$> nodes t2 !! 0%nat)
      = Some [Owned ["001"%byte]; Caller 1; Owned []]
    ∧ Get (KO := aliasKey callerMem) t2 (Owned ["002"%byte]) = Some (Some v)
    ∧ Get (KO := aliasKey callerMemAfter) t2 (Owned ["002"%byte]) = Some None
    ∧ (map (λ kv, deref callerMemAfter kv.1)
         <$> ForEach 3 t2)
      = Some [["001"%byte]; ["000"%byte]].
Proof. intros v. eexists. split; [reflexivity|]. repeat split. Qed.


(** * Loops over slices *)

Lemma idx_nat {A} (l : list A) (i : nat) : idx l (Z.of_nat i) = l !! i.
Proof. apply idx_lookup. Qed.

Lemma idx_eq {A} (l : list A) (i : Z) (n : nat) :
  i = Z.of_nat n → idx l i = l !! n.
Proof. intros ->. apply idx_lookup. Qed.

Lemma upd_nat {A} (l : list A) (i : nat) (x : A) :
  (i < length l)%nat → upd l (Z.of_nat i) x = Some (<[i := x]> l).
Proof. intros Hi. rewrite upd_Some by (unfold len; lia). by rewrite Nat2Z.id. Qed.

Lemma upd_eq {A} (l : list A) (i : Z) (n : nat) (x : A) :
  i = Z.of_nat n → (n < length l)%nat → upd l i x = Some (<[n := x]> l).
Proof. intros -> ?. by apply upd_nat. Qed.

Lemma upd_mid {A} (c1 rest : list A) (y x : A) (i : Z) :
  i = Z.of_nat (length c1) →
  upd (c1 ++ y :: rest) i x = Some (c1 ++ x :: rest).
Proof.
  intros ->. rewrite upd_nat by (rewrite length_app; simpl; lia).
  f_equal. rewrite insert_app_r_alt by lia. by rewrite Nat.sub_diag.
Qed.

Lemma idx_mid {A} (c1 rest : list A) (y : A) (i : Z) :
  i = Z.of_nat (length c1) → idx (c1 ++ y :: rest) i = Some y.
Proof. intros ->. rewrite idx_nat. by rewrite list_lookup_middle. Qed.

Lemma forDown_shiftRight {A} (c1 c2 rest : list A) (z : A) (j : Z) :
  j = Z.of_nat (length c1 + length c2) →
  forDown (length c2) j shiftRight (c1 ++ c2 ++ z :: rest)
  = Some (c1 ++ hd z c2 :: c2 ++ rest).
Proof.
  unfold shiftRight.
  revert z rest j. induction c2 as [|y c2 IH] using rev_ind; intros z rest j ->.
  - done.
  - rewrite length_app. simpl. rewrite Nat.add_1_r. simpl.
    rewrite <- (assoc_L (++) c2 [y]). simpl.
    rewrite (assoc_L (++) c1 c2 (y :: z :: rest)).
    rewrite (idx_mid (c1 ++ c2) (z :: rest) y) by (rewrite length_app; lia).
    simpl.
    rewrite (cons_middle y (c1 ++ c2) (z :: rest)).
    rewrite (assoc_L (++) (c1 ++ c2) [y] (z :: rest)).
    rewrite (upd_mid ((c1 ++ c2) ++ [y]) rest z y)
      by (rewrite !length_app; simpl; lia).
    rewrite <- !(assoc_L (++)). simpl.
    rewrite (IH y (y :: rest)) by lia.
    do 2 f_equal. by destruct c2.
Qed.

Lemma forUp_shiftLeft {A} (c1 c2 rest : list A) (y : A) (j : Z) :
  j = Z.of_nat (length c1) →
  forUp (length c2) j shiftLeft (c1 ++ y :: c2 ++ rest)
  = Some (c1 ++ c2 ++ default y (list.last c2) :: rest).
Proof.
  unfold shiftLeft.
  revert c1 y j. induction c2 as [|y2 c2 IH]; intros c1 y j ->.
  - done.
  - simpl.
    rewrite (idx_eq _ _ (S (length c1))) by lia.
    rewrite (lookup_app_r c1) by lia.
    replace (S (length c1) - length c1)%nat with 1%nat by lia. simpl.
    rewrite (upd_mid c1 _ y y2) by done.
    rewrite (cons_middle y2 c1), (assoc_L (++) c1 [y2]).
    cbn [mbind option_bind].
    rewrite (IH (c1 ++ [y2]) y2) by (rewrite length_app; simpl; lia).
    rewrite <- (assoc_L (++)). simpl.
    assert (default y (list.last (y2 :: c2)) = default y2 (list.last c2)) as ->; [|done].
    destruct c2 as [|y3 c2]; [done|]. rewrite (last_cons_cons y2).
    destruct (list.last (y3 :: c2)) eqn:E; [done|]. by apply last_None in E.
Qed.

(** The loop of [dropFirst] moves one slice left by one as well. *)
Lemma forUp_moveLeft {A} (c1 c2 rest : list A) (y : A) (j : Z) :
  j = Z.of_nat (length c1) + 1 →
  forUp (length c2) j (λ i l, v ← idx l i; upd l (i - 1) v) (c1 ++ y :: c2 ++ rest)
  = Some (c1 ++ c2 ++ default y (list.last c2) :: rest).
Proof.
  revert c1 y j. induction c2 as [|y2 c2 IH]; intros c1 y j ->.
  - done.
  - simpl.
    rewrite (idx_eq _ _ (S (length c1))) by lia.
    rewrite (lookup_app_r c1) by lia.
    replace (S (length c1) - length c1)%nat with 1%nat by lia. simpl.
    rewrite (upd_mid c1 _ y y2) by lia.
    rewrite (cons_middle y2 c1), (assoc_L (++) c1 [y2]).
    cbn [mbind option_bind].
    rewrite (IH (c1 ++ [y2]) y2) by (rewrite length_app; simpl; lia).
    rewrite <- (assoc_L (++)). simpl.
    assert (default y (list.last (y2 :: c2)) = default y2 (list.last c2)) as ->; [|done].
    destruct c2 as [|y3 c2]; [done|]. rewrite (last_cons_cons y2).
    destruct (list.last (y3 :: c2)) eqn:E; [done|]. by apply last_None in E.
Qed.

Lemma replicate_snoc_cons {A} (n : nat) (z : A) (rest : list A) :
  replicate n z ++ z :: rest = z :: replicate n z ++ rest.
Proof. induction n as [|n IH]; [done|]. simpl. by rewrite IH. Qed.

Lemma forDown_clear {A} (c pad rest : list A) (z : A) (j : Z) :
  j = Z.of_nat (length c + length pad) - 1 + 0 →
  forDown (length pad) j (λ i l, upd l i z) (c ++ pad ++ rest)
  = Some (c ++ replicate (length pad) z ++ rest).
Proof.
  revert rest j. induction pad as [|y pad IH] using rev_ind; intros rest j ->.
  - done.
  - rewrite length_app. simpl. rewrite Nat.add_1_r. simpl.
    rewrite <- (assoc_L (++) pad [y]). simpl.
    rewrite (assoc_L (++) c pad (y :: rest)).
    rewrite (upd_mid (c ++ pad) rest y z) by (rewrite length_app; lia).
    simpl. rewrite <- (assoc_L (++)).
    rewrite (IH (z :: rest)) by lia.
    by rewrite replicate_snoc_cons.
Qed.

(** Loops over two slices split into one loop for each. *)
Lemma forDown_pair {A B} (f : Z → A → option A) (g : Z → B → option B)
    (cnt : nat) (j : Z) (a : A) (b : B) :
  forDown cnt j (λ i (s : A * B), a' ← f i s.1; b' ← g i s.2; Some (a', b')) (a, b)
  = a' ← forDown cnt j f a; b' ← forDown cnt j g b; Some (a', b').
Proof.
  revert j a b. induction cnt as [|cnt IH]; intros j a b; [done|].
  simpl. destruct (f j a) as [a1|]; simpl; [|done].
  destruct (g j b) as [b1|]; simpl.
  - apply IH.
  - by destruct (forDown cnt (j - 1) f a1).
Qed.

Lemma forUp_pair {A B} (f : Z → A → option A) (g : Z → B → option B)
    (cnt : nat) (j : Z) (a : A) (b : B) :
  forUp cnt j (λ i (s : A * B), a' ← f i s.1; b' ← g i s.2; Some (a', b')) (a, b)
  = a' ← forUp cnt j f a; b' ← forUp cnt j g b; Some (a', b').
Proof.
  revert j a b. induction cnt as [|cnt IH]; intros j a b; [done|].
  simpl. destruct (f j a) as [a1|]; simpl; [|done].
  destruct (g j b) as [b1|]; simpl.
  - apply IH.
  - by destruct (forUp cnt (j + 1) f a1).
Qed.

Lemma forDown_ext {S} (f g : Z → S → option S) cnt j s :
  (∀ i s, f i s = g i s) → forDown cnt j f s = forDown cnt j g s.
Proof.
  intros E. revert j s. induction cnt as [|cnt IH]; intros j s; [done|].
  simpl. rewrite E. destruct (g j s); simpl; [apply IH|done].
Qed.

Lemma forUp_ext {S} (f g : Z → S → option S) cnt j s :
  (∀ i s, f i s = g i s) → forUp cnt j f s = forUp cnt j g s.
Proof.
  intros E. revert j s. induction cnt as [|cnt IH]; intros j s; [done|].
  simpl. rewrite E. destruct (g j s); simpl; [apply IH|done].
Qed.

(** A loop whose body uses the index shifted by [d]. *)
Lemma forDown_shift {S} (f : Z → S → option S) (d : Z) cnt j s :
  forDown cnt j (λ i, f (i + d)) s = forDown cnt (j + d) f s.
Proof.
  revert j s. induction cnt as [|cnt IH]; intros j s; [done|].
  simpl. destruct (f (j + d) s); simpl; [|done].
  rewrite IH. f_equal. lia.
Qed.

(** * Padded slices *)

Section Arr.
Context {A : Type}.
Implicit Types (c : list A) (z : A).

Lemma length_arr n z c : (length c ≤ Z.to_nat n)%nat → length (arr n z c) = Z.to_nat n.
Proof. intros. unfold arr. rewrite length_app, length_replicate. lia. Qed.

Lemma len_arr n z c : len c ≤ n → len (arr n z c) = n.
Proof. unfold len. intros. rewrite length_arr; lia. Qed.

Lemma arr_lookup_lt n z c (i : nat) :
  (i < length c)%nat → arr n z c !! i = c !! i.
Proof. intros. unfold arr. by rewrite lookup_app_l. Qed.

Lemma arr_lookup_ge n z c (i : nat) :
  (length c ≤ i < Z.to_nat n)%nat → arr n z c !! i = Some z.
Proof.
  intros. unfold arr. rewrite lookup_app_r by lia.
  apply lookup_replicate_2. lia.
Qed.

Lemma arr_split n z c :
  (length c < Z.to_nat n)%nat →
  arr n z c = c ++ z :: replicate (Z.to_nat n - length c - 1) z.
Proof.
  intros. unfold arr.
  remember (Z.to_nat n - length c)%nat as d eqn:Hd.
  destruct d as [|d]; [lia|]. simpl. by rewrite Nat.sub_0_r.
Qed.

Lemma arr_snoc n z c x :
  (length c < Z.to_nat n)%nat →
  c ++ x :: replicate (Z.to_nat n - length c - 1) z = arr n z (c ++ [x]).
Proof.
  intros. unfold arr. rewrite <- (assoc_L (++)). simpl.
  rewrite length_app. simpl. do 3 f_equal. lia.
Qed.

Lemma arr_nil n z : arr n z [] = replicate (Z.to_nat n) z.
Proof. unfold arr. simpl. by rewrite Nat.sub_0_r. Qed.

(** Writing into the content. *)
Lemma arr_insert n z c (i : nat) x :
  (i < length c)%nat → <[i := x]> (arr n z c) = arr n z (<[i := x]> c).
Proof.
  intros. unfold arr. rewrite insert_app_l by done. by rewrite length_insert.
Qed.

(** Writing just after the content. *)
Lemma arr_push n z c x :
  (length c < Z.to_nat n)%nat →
  <[length c := x]> (arr n z c) = arr n z (c ++ [x]).
Proof.
  intros. rewrite arr_split by done.
  rewrite insert_app_r_alt by lia. rewrite Nat.sub_diag. simpl.
  by apply arr_snoc.
Qed.

(** [insertAt]'s shift followed by the write. *)
Lemma arr_shift_insert n z c (p : nat) x (cnt : nat) (j pz : Z) :
  (p ≤ length c)%nat → (length c < Z.to_nat n)%nat →
  cnt = (length c - p)%nat → j = Z.of_nat (length c) → pz = Z.of_nat p →
  forDown cnt j shiftRight (arr n z c) ≫= (λ l, upd l pz x)
  = Some (arr n z (insertAtL p x c)).
Proof.
  intros Hp Hn -> -> ->. rewrite arr_split by done.
  set (R := replicate _ z).
  assert (E : c ++ z :: R = take p c ++ drop p c ++ z :: R)
    by (by rewrite (assoc_L (++)), take_drop).
  rewrite E.
  replace (length c - p)%nat with (length (drop p c)) by (rewrite length_drop; lia).
  rewrite forDown_shiftRight
    by (rewrite length_take, length_drop; lia).
  cbn [mbind option_bind]. rewrite upd_mid by (rewrite length_take; lia).
  f_equal. unfold insertAtL, arr.
  rewrite <- (assoc_L (++)). simpl.
  do 3 f_equal. rewrite length_app. simpl.
  rewrite length_take, length_drop. subst R. f_equal. lia.
Qed.

(** [deleteAt]'s shift followed by the clearing of the last slot. *)
Lemma arr_shift_delete n z c (p : nat) (cnt : nat) (j lz : Z) :
  (p < length c)%nat → (length c ≤ Z.to_nat n)%nat →
  cnt = (length c - 1 - p)%nat → j = Z.of_nat p → lz = Z.of_nat (length c) - 1 →
  forUp cnt j shiftLeft (arr n z c) ≫= (λ l, upd l lz z)
  = Some (arr n z (delete p c)).
Proof.
  intros Hp Hn -> -> ->. unfold arr.
  destruct (lookup_lt_is_Some_2 c p Hp) as [y Hy].
  set (R := replicate (Z.to_nat n - length c) z).
  assert (E : c ++ R = take p c ++ y :: drop (S p) c ++ R).
  { rewrite <- (take_drop_middle c p y Hy) at 1.
    by rewrite <- (assoc_L (++)). }
  rewrite E.
  replace (length c - 1 - p)%nat with (length (drop (S p) c))
    by (rewrite length_drop; lia).
  rewrite forUp_shiftLeft by (rewrite length_take; lia).
  cbn [mbind option_bind]. rewrite (assoc_L (++) (take p c)).
  rewrite upd_mid by (rewrite length_app, length_take, length_drop; lia).
  f_equal. rewrite delete_take_drop.
  rewrite <- !(assoc_L (++)). do 2 f_equal.
  rewrite length_app, length_take, length_drop. subst R.
  replace (Z.to_nat n - (p `min` length c + (length c - S p)))%nat
    with (S (Z.to_nat n - length c)) by lia.
  done.
Qed.

End Arr.

(** The same loops on a padded slice followed by further slots. *)
Section ArrSuffix.
Context {A : Type}.
Implicit Types (c sfx : list A) (z : A).

Lemma arr_shiftRight n z c sfx (p cnt : nat) (j : Z) :
  (p ≤ length c)%nat → (length c < Z.to_nat n)%nat →
  cnt = (length c - p)%nat → j = Z.of_nat (length c) →
  forDown cnt j shiftRight (arr n z c ++ sfx)
  = Some (take p c ++ hd z (drop p c) :: drop p c
            ++ replicate (Z.to_nat n - length c - 1) z ++ sfx).
Proof.
  intros Hp Hn -> ->. rewrite arr_split by done.
  set (R := replicate _ z).
  assert (E : (c ++ z :: R) ++ sfx = take p c ++ drop p c ++ z :: (R ++ sfx)).
  { rewrite <- (take_drop p c) at 1. by rewrite <- !(assoc_L (++)). }
  rewrite E.
  replace (length c - p)%nat with (length (drop p c)) by (rewrite length_drop; lia).
  rewrite forDown_shiftRight by (rewrite length_take, length_drop; lia).
  done.
Qed.

Lemma arr_shifted_upd n z c sfx (p : nat) (pz : Z) (y x : A) :
  (p ≤ length c)%nat → (length c < Z.to_nat n)%nat → pz = Z.of_nat p →
  upd (take p c ++ y :: drop p c ++ replicate (Z.to_nat n - length c - 1) z ++ sfx)
    pz x
  = Some (arr n z (insertAtL p x c) ++ sfx).
Proof.
  intros Hp Hn ->. rewrite upd_mid by (rewrite length_take; lia).
  f_equal. unfold insertAtL, arr. rewrite <- !(assoc_L (++)). simpl.
  do 4 f_equal. rewrite length_app. simpl. rewrite length_take, length_drop.
  f_equal. lia.
Qed.

Lemma arr_shiftLeft n z c sfx (p cnt : nat) (j : Z) (y : A) :
  c !! p = Some y → (length c ≤ Z.to_nat n)%nat →
  cnt = (length c - 1 - p)%nat → j = Z.of_nat p →
  forUp cnt j shiftLeft (arr n z c ++ sfx)
  = Some (take p c ++ drop (S p) c
            ++ default y (list.last (drop (S p) c))
               :: replicate (Z.to_nat n - length c) z ++ sfx).
Proof.
  intros Hy Hn -> ->. unfold arr.
  assert (Hp := lookup_lt_Some _ _ _ Hy).
  set (R := replicate (Z.to_nat n - length c) z).
  assert (E : (c ++ R) ++ sfx = take p c ++ y :: drop (S p) c ++ (R ++ sfx)).
  { rewrite <- (take_drop_middle c p y Hy) at 1.
    by rewrite <- !(assoc_L (++)). }
  rewrite E.
  replace (length c - 1 - p)%nat with (length (drop (S p) c))
    by (rewrite length_drop; lia).
  rewrite forUp_shiftLeft by (rewrite length_take; lia).
  done.
Qed.

Lemma arr_shiftedL_upd n z c sfx (p : nat) (lz : Z) (y : A) :
  (p < length c)%nat → (length c ≤ Z.to_nat n)%nat →
  lz = Z.of_nat (length c) - 1 →
  upd (take p c ++ drop (S p) c ++ y :: replicate (Z.to_nat n - length c) z ++ sfx)
    lz z
  = Some (arr n z (delete p c) ++ sfx).
Proof.
  intros Hp Hn ->. rewrite (assoc_L (++) (take p c)).
  rewrite upd_mid by (rewrite length_app, length_take, length_drop; lia).
  f_equal. unfold arr. rewrite delete_take_drop.
  rewrite <- !(assoc_L (++)). do 2 f_equal.
  rewrite length_app, length_take, length_drop.
  replace (Z.to_nat n - (p `min` length c + (length c - S p)))%nat
    with (S (Z.to_nat n - length c)) by lia.
  done.
Qed.

Lemma arr_app_lookup_lt n z c sfx (i : nat) :
  (i < length c)%nat → (arr n z c ++ sfx) !! i = c !! i.
Proof.
  intros. unfold arr. rewrite <- (assoc_L (++)). by rewrite lookup_app_l.
Qed.

Lemma arr_app_insert n z c sfx (i : nat) x :
  (i < length c)%nat → <[i := x]> (arr n z c ++ sfx) = arr n z (<[i := x]> c) ++ sfx.
Proof.
  intros. rewrite insert_app_l by (unfold arr; rewrite length_app; lia).
  by rewrite arr_insert.
Qed.

Lemma arr_app_push n z c sfx x :
  (length c < Z.to_nat n)%nat →
  <[length c := x]> (arr n z c ++ sfx) = arr n z (c ++ [x]) ++ sfx.
Proof.
  intros. rewrite insert_app_l by (rewrite length_arr; lia).
  by rewrite arr_push.
Qed.

End ArrSuffix.

Lemma forDown_shiftRight2 {A B} cnt j (a : list A) (b : list B) :
  forDown cnt j shiftRight2 (a, b)
  = a' ← forDown cnt j shiftRight a; b' ← forDown cnt j shiftRight b; Some (a', b').
Proof. apply (forDown_pair shiftRight shiftRight). Qed.

(** * Arithmetic of the capacity parameters *)

Lemma ceil_2 (x : Z) : 0 ≤ x → 2 * ceil x 2 = x ∨ 2 * ceil x 2 = x + 1.
Proof.
  intros Hx. unfold ceil.
  pose proof (Z.quot_rem' x 2) as E.
  pose proof (Z.rem_bound_pos x 2 Hx ltac:(lia)) as B.
  case_decide; lia.
Qed.

Lemma middle_bounds (o : Z) :
  3 ≤ o → 1 ≤ ceil (o - 1) 2 ≤ o - 2 ∧ o - 1 ≤ 2 * ceil (o - 1) 2 ≤ o.
Proof. intros. destruct (ceil_2 (o - 1)); lia. Qed.

Lemma minKeys_bounds (o : Z) :
  3 ≤ o → 1 ≤ ceil o 2 - 1 ∧ o ≤ 2 * (ceil o 2 - 1) + 2 ≤ o + 1.
Proof. intros. destruct (ceil_2 o); lia. Qed.

Lemma middle_minKeys (o : Z) :
  3 ≤ o → ceil o 2 - 1 ≤ ceil (o - 1) 2 ∧ ceil o 2 - 1 = o - 1 - ceil (o - 1) 2.
Proof.
  intros. destruct (ceil_2 o), (ceil_2 (o - 1)); lia.
Qed.

(** * Inserting into a list and cutting it *)

Section InsertAtL.
Context {A : Type}.
Implicit Types (l : list A) (x : A).

Lemma insertAtL_app l1 l2 x : insertAtL (length l1) x (l1 ++ l2) = l1 ++ x :: l2.
Proof.
  unfold insertAtL. by rewrite take_app_length, drop_app_length.
Qed.

Lemma take_insertAtL_le l x (p m : nat) :
  (p < m)%nat → (p ≤ length l)%nat →
  take m (insertAtL p x l) = insertAtL p x (take (m - 1) l).
Proof.
  intros Hpm Hp. unfold insertAtL.
  rewrite take_app_ge by (rewrite length_take; lia).
  rewrite length_take, Nat.min_l by lia.
  rewrite take_take, Nat.min_l by lia.
  f_equal. destruct (m - p)%nat as [|d] eqn:E; [lia|]. simpl. f_equal.
  rewrite take_drop_commute. f_equal. f_equal. lia.
Qed.

Lemma drop_insertAtL_le l x (p m : nat) :
  (p < m)%nat → (p ≤ length l)%nat →
  drop m (insertAtL p x l) = drop (m - 1) l.
Proof.
  intros Hpm Hp. unfold insertAtL.
  rewrite drop_app_ge by (rewrite length_take; lia).
  rewrite length_take, Nat.min_l by lia.
  destruct (m - p)%nat as [|d] eqn:E; [lia|]. simpl.
  rewrite drop_drop. f_equal. lia.
Qed.

Lemma take_insertAtL_ge l x (p m : nat) :
  (m ≤ p)%nat → (p ≤ length l)%nat →
  take m (insertAtL p x l) = take m l.
Proof.
  intros Hpm Hp. unfold insertAtL.
  rewrite take_app_le by (rewrite length_take; lia).
  rewrite take_take. f_equal. lia.
Qed.

Lemma drop_insertAtL_ge l x (p m : nat) :
  (m ≤ p)%nat → (p ≤ length l)%nat →
  drop m (insertAtL p x l) = insertAtL (p - m) x (drop m l).
Proof.
  intros Hpm Hp. unfold insertAtL.
  rewrite drop_app_le by (rewrite length_take; lia).
  rewrite drop_drop. rewrite take_drop_commute.
  do 3 f_equal; lia.
Qed.

Lemma insertAtL_lookup_lt l x (p i : nat) :
  (i < p)%nat → (p ≤ length l)%nat → insertAtL p x l !! i = l !! i.
Proof.
  intros. unfold insertAtL. rewrite lookup_app_l by (rewrite length_take; lia).
  by rewrite lookup_take_lt.
Qed.

Lemma insertAtL_lookup_eq l x (p : nat) :
  (p ≤ length l)%nat → insertAtL p x l !! p = Some x.
Proof.
  intros. unfold insertAtL. rewrite lookup_app_r by (rewrite length_take; lia).
  rewrite length_take, Nat.min_l by lia. by rewrite Nat.sub_diag.
Qed.

Lemma insertAtL_lookup_gt l x (p i : nat) :
  (p < i)%nat → (p ≤ length l)%nat → insertAtL p x l !! i = l !! (i - 1)%nat.
Proof.
  intros. unfold insertAtL. rewrite lookup_app_r by (rewrite length_take; lia).
  rewrite length_take, Nat.min_l by lia.
  destruct (i - p)%nat as [|d] eqn:E; [lia|]. simpl.
  rewrite lookup_drop. f_equal. lia.
Qed.

End InsertAtL.

(** * Allocation, slicing and copying *)

Section Slices.
Context {A : Type}.
Implicit Types (l c src : list A) (z : A).

Lemma arr_full n z c : length c = Z.to_nat n → arr n z c = c.
Proof. intros E. unfold arr. rewrite E, Nat.sub_diag. apply app_nil_r. Qed.

Lemma make_Some z n : 0 ≤ n → make z n = Some (replicate (Z.to_nat n) z).
Proof. intros. unfold make. by rewrite decide_True. Qed.

Lemma copy_make n z src :
  (length src ≤ Z.to_nat n)%nat → copy (replicate (Z.to_nat n) z) src = arr n z src.
Proof.
  intros. unfold copy, arr. rewrite length_replicate.
  rewrite take_ge by lia. f_equal.
  rewrite drop_replicate. done.
Qed.

Lemma slice_Some l (lo hi : Z) (a b : nat) :
  lo = Z.of_nat a → hi = Z.of_nat b → (a ≤ b ≤ length l)%nat →
  slice l lo hi = Some (take (b - a) (drop a l)).
Proof.
  intros -> -> ?. unfold slice, len. rewrite decide_True by lia.
  do 3 f_equal; lia.
Qed.

Lemma slice_to_end l (lo hi : Z) (a : nat) :
  lo = Z.of_nat a → hi = len l → (a ≤ length l)%nat →
  slice l lo hi = Some (drop a l).
Proof.
  intros -> -> ?. rewrite (slice_Some _ _ _ a (length l)) by (unfold len; lia).
  rewrite take_ge by (rewrite length_drop; lia). done.
Qed.

(** Clearing the slots from position [a] up to the end of the content. *)
Lemma forDown_clear_tail c sfx z (a cnt : nat) (j : Z) :
  (a ≤ length c)%nat → cnt = (length c - a)%nat → j = Z.of_nat (length c) - 1 →
  forDown cnt j (λ i l, upd l i z) (c ++ sfx)
  = Some (take a c ++ replicate (length c - a) z ++ sfx).
Proof.
  intros Ha -> ->.
  rewrite <- (take_drop a c) at 3. rewrite <- (assoc_L (++)).
  replace (length c - a)%nat with (length (drop a c)) by (rewrite length_drop; lia).
  rewrite forDown_clear; [done|].
  rewrite length_take, length_drop. lia.
Qed.

End Slices.

Lemma forDown_clear2 {K P} (zk : K) (zp : P) (d : Z) cnt j (a : list K) (b : list P) :
  forDown cnt j
    (λ i (s : list K * list P), ks ← upd s.1 i zk; ps ← upd s.2 (i + d) zp; Some (ks, ps))
    (a, b)
  = a' ← forDown cnt j (λ i l, upd l i zk) a;
    b' ← forDown cnt (j + d) (λ i l, upd l i zp) b;
    Some (a', b').
Proof.
  rewrite (forDown_pair (λ i l, upd l i zk) (λ i l, upd l (i + d) zp)).
  destruct (forDown cnt j _ a); [|done]. csimpl.
  by rewrite (forDown_shift (λ i l, upd l i zp) d).
Qed.

Lemma arr_succ {A} (n : Z) (z : A) (c : list A) :
  (length c ≤ Z.to_nat (n - 1))%nat → 1 ≤ n →
  arr n z c = arr (n - 1) z c ++ [z].
Proof.
  intros. unfold arr. rewrite <- (assoc_L (++)). f_equal.
  replace (Z.to_nat n - length c)%nat with (Z.to_nat (n - 1) - length c + 1)%nat by lia.
  by rewrite replicate_add.
Qed.

Lemma take_drop_app_one {A} (l : list A) (x : A) (a : nat) :
  (a ≤ length l)%nat → take (length l - a) (drop a (l ++ [x])) = drop a l.
Proof.
  intros. rewrite drop_app_le by done.
  rewrite take_app_length'; [done|]. rewrite length_drop. lia.
Qed.

(** * The arena *)

Lemma alloc_then_set {A} (h : list A) (r0 r x : A) (l : nat) :
  (l < length h)%nat →
  <[length h := r]> (<[l := x]> (h ++ [r0])) = <[l := x]> h ++ [r].
Proof.
  intros. rewrite insert_app_l by done.
  rewrite insert_app_r_alt by (rewrite length_insert; lia).
  rewrite length_insert, Nat.sub_diag. done.
Qed.


(** * Node objects: searches *)

Section Searches.
Context {Key Val : Type} {KO : KeyOps Key}.
Implicit Types (n : node Key Val) (ks : list Key).

Lemma findPosition_spec n k c1 ks rest :
  keys n = c1 ++ ks ++ rest →
  findPosition (length ks) n k (len c1) = Some (len c1 + Z.of_nat (cpos k ks)).
Proof.
  revert c1. induction ks as [|k' ks IH]; intros c1 Hk.
  - simpl. f_equal. lia.
  - simpl in Hk |- *. rewrite Hk, idx_mid by done. simpl.
    destruct (less k k'); [f_equal; lia|].
    rewrite (cons_middle k' c1), (assoc_L (++)) in Hk.
    specialize (IH (c1 ++ [k']) Hk).
    unfold len in *. rewrite length_app in IH. simpl in IH.
    replace (Z.of_nat (length c1) + 1) with (Z.of_nat (length c1 + 1)) by lia.
    rewrite IH. f_equal. lia.
Qed.

Lemma leafSearch_spec n k c1 ks rest :
  keys n = c1 ++ ks ++ rest →
  leafSearch (length ks) n k (len c1)
  = Some (match lpos k ks with
          | inl p => inl (len c1 + Z.of_nat p)
          | inr p => inr (len c1 + Z.of_nat p)
          end).
Proof.
  revert c1. induction ks as [|k' ks IH]; intros c1 Hk.
  - simpl. do 2 f_equal. lia.
  - simpl in Hk |- *. rewrite Hk, idx_mid by done. simpl.
    destruct (decide (compare k k' = 0)); [do 2 f_equal; lia|].
    destruct (decide (compare k k' < 0)); [do 2 f_equal; lia|].
    rewrite (cons_middle k' c1), (assoc_L (++)) in Hk.
    specialize (IH (c1 ++ [k']) Hk).
    unfold len in *. rewrite length_app in IH. simpl in IH.
    replace (Z.of_nat (length c1) + 1) with (Z.of_nat (length c1 + 1)) by lia.
    rewrite IH. destruct (lpos k ks); do 2 f_equal; lia.
Qed.

Lemma keyPosition_loop_spec n k c1 ks rest :
  keys n = c1 ++ ks ++ rest →
  keyPosition_loop (length ks) n k (len c1)
  = Some (match epos k ks with
          | Some p => len c1 + Z.of_nat p
          | None => -1
          end).
Proof.
  revert c1. induction ks as [|k' ks IH]; intros c1 Hk.
  - done.
  - simpl in Hk |- *. rewrite Hk, idx_mid by done. simpl.
    destruct (decide (compare k k' = 0)); [f_equal; simpl; lia|].
    rewrite (cons_middle k' c1), (assoc_L (++)) in Hk.
    specialize (IH (c1 ++ [k']) Hk).
    unfold len in *. rewrite length_app in IH. simpl in IH.
    replace (Z.of_nat (length c1) + 1) with (Z.of_nat (length c1 + 1)) by lia.
    rewrite IH. destruct (epos k ks); simpl; f_equal; lia.
Qed.

Lemma Get_loop_spec n k c1 p1 (kvs : list (Key * Val)) rest prest :
  keys n = c1 ++ kvs.*1 ++ rest →
  pointers n = p1 ++ (vptr <$> kvs) ++ prest →
  length p1 = length c1 →
  Get_loop (length kvs) n k (len c1)
  = Some (match epos k (kvs.*1) with
          | Some p => snd <$> kvs !! p
          | None => None
          end).
Proof.
  revert c1 p1. induction kvs as [|[k' v'] kvs IH]; intros c1 p1 Hk Hp Hl.
  - done.
  - csimpl in *. rewrite Hk, idx_mid by done. csimpl.
    destruct (decide (compare k k' = 0)).
    + rewrite Hp, idx_mid by (unfold len; lia). done.
    + rewrite (cons_middle k' c1), (assoc_L (++)) in Hk.
      rewrite (cons_middle _ p1), (assoc_L (++)) in Hp.
      specialize (IH (c1 ++ [k']) (p1 ++ [vptr (k', v')]) Hk Hp).
      unfold len in *. rewrite !length_app in IH. simpl in IH.
      replace (Z.of_nat (length c1) + 1) with (Z.of_nat (length c1 + 1)) by lia.
      rewrite IH by lia. by destruct (epos k kvs.*1).
Qed.

End Searches.

(** * Node objects: the methods on leaves and internal nodes *)

Lemma fmap_insertAtL {A B} (f : A → B) (i : nat) (x : A) (l : list A) :
  f <$> insertAtL i x l = insertAtL i (f x) (f <$> l).
Proof. unfold insertAtL. by rewrite fmap_app, fmap_cons, fmap_take, fmap_drop. Qed.

Lemma length_insertAtL {A} (i : nat) (x : A) (l : list A) :
  length (insertAtL i x l) = S (length l).
Proof.
  unfold insertAtL. rewrite length_app. simpl. rewrite length_take, length_drop. lia.
Qed.

Lemma len_insertAtL {A} (i : nat) (x : A) (l : list A) :
  len (insertAtL i x l) = len l + 1.
Proof. unfold len. rewrite length_insertAtL. lia. Qed.

Lemma len_fmap {A B} (f : A → B) (l : list A) : len (f <$> l) = len l.
Proof. unfold len. by rewrite length_fmap. Qed.

Lemma len_app {A} (l1 l2 : list A) : len (l1 ++ l2) = len l1 + len l2.
Proof. unfold len. rewrite length_app. lia. Qed.

Lemma len_delete {A} (i : nat) (l : list A) :
  (i < length l)%nat → len (delete i l) = len l - 1.
Proof.
  intros. unfold len. rewrite length_delete by by apply lookup_lt_is_Some_2. lia.
Qed.

Section NodeOps.
Context {Key Val : Type} {KO : KeyOps Key}.
Variable o : Z.
Implicit Types (kvs : list (Key * Val)) (ks : list Key) (cs : list addr)
  (par nxt : option addr).

Lemma insertAt_leafNode par kvs nxt (p : nat) k v (pz : Z) :
  (p ≤ length kvs)%nat → len kvs < o - 1 → pz = Z.of_nat p →
  insertAt (leafNode o par kvs nxt) pz k pz (Some (PValue v))
  = Some (leafNode o par (insertAtL p (k, v) kvs) nxt).
Proof.
  intros Hp Hl ->. unfold insertAt, leafNode, len in *. cbn [leaf keyNum keys pointers parent].
  rewrite <- (app_nil_r (arr (o - 1) nilKey kvs.*1)).
  rewrite (arr_shiftRight _ _ _ _ p) by (rewrite ?length_fmap; lia).
  cbn [mbind option_bind].
  rewrite (arr_shiftRight _ _ _ _ p) by (rewrite ?length_fmap; lia).
  cbn [mbind option_bind].
  rewrite arr_shifted_upd by (rewrite ?length_fmap; lia).
  cbn [mbind option_bind].
  rewrite arr_shifted_upd by (rewrite ?length_fmap; lia).
  cbn [mbind option_bind].
  rewrite app_nil_r, !fmap_insertAtL, length_insertAtL.
  do 2 f_equal. lia.
Qed.

Lemma deleteAt_leafNode par kvs nxt (p : nat) (pz : Z) :
  (p < length kvs)%nat → len kvs ≤ o - 1 → pz = Z.of_nat p →
  deleteAt (leafNode o par kvs nxt) pz pz
  = Some (leafNode o par (delete p kvs) nxt).
Proof.
  intros Hp Hl ->. unfold deleteAt, leafNode, len in *. cbn [leaf keyNum keys pointers parent].
  destruct (lookup_lt_is_Some_2 kvs p Hp) as [kv Hkv].
  rewrite <- (app_nil_r (arr (o - 1) nilKey kvs.*1)).
  rewrite (arr_shiftLeft _ _ _ _ p _ _ kv.1)
    by (rewrite ?list_lookup_fmap, ?Hkv, ?length_fmap; (done || lia)).
  cbn [mbind option_bind].
  rewrite arr_shiftedL_upd by (rewrite ?length_fmap; lia).
  cbn [mbind option_bind].
  rewrite (arr_shiftLeft _ _ _ _ p _ _ (vptr kv))
    by (rewrite ?list_lookup_fmap, ?Hkv, ?length_fmap; (done || lia)).
  cbn [mbind option_bind].
  rewrite arr_shiftedL_upd by (rewrite ?length_fmap; lia).
  cbn [mbind option_bind].
  rewrite app_nil_r, <- !list_fmap_delete.
  do 2 f_equal. rewrite length_delete by eauto. lia.
Qed.

Lemma middle_Z : 3 ≤ o → Z.of_nat (middle o) = ceil (o - 1) 2.
Proof. intros. unfold middle. pose proof (middle_bounds o). lia. Qed.

Lemma next_leafNode par kvs nxt :
  len kvs ≤ o - 1 → 1 ≤ o → next (leafNode o par kvs nxt) = Some (PNode <$> nxt).
Proof.
  intros. unfold next, leafNode, len in *. cbn [pointers].
  rewrite length_app, length_arr by (rewrite length_fmap; lia). simpl.
  rewrite (idx_eq _ _ (Z.to_nat (o - 1))) by lia.
  rewrite lookup_app_r by (rewrite length_arr; [lia|rewrite length_fmap; lia]).
  rewrite length_arr by (rewrite length_fmap; lia).
  by rewrite Nat.sub_diag.
Qed.

Lemma setNext_leafNode par kvs nxt nxt' :
  len kvs ≤ o - 1 → 1 ≤ o →
  setNext (leafNode o par kvs nxt) (PNode <$> nxt') = Some (leafNode o par kvs nxt').
Proof.
  intros. unfold setNext, leafNode, len in *. cbn [pointers].
  rewrite length_app, length_arr by (rewrite length_fmap; lia). simpl.
  rewrite (upd_eq _ _ (Z.to_nat (o - 1)))
    by (rewrite ?length_app, ?length_arr; rewrite ?length_fmap; simpl; lia).
  csimpl. unfold setPointers. cbn [leaf parent keys keyNum pointers].
  do 2 f_equal.
  rewrite insert_app_r_alt by (rewrite length_arr; [lia|rewrite length_fmap; lia]).
  rewrite length_arr by (rewrite length_fmap; lia).
  by rewrite Nat.sub_diag.
Qed.

Lemma forDown_clear2_node (d : Z) cnt j (a : list Key) (b : list (option (pointer Val))) :
  forDown cnt j (clear2 d) (a, b)
  = a' ← forDown cnt j (λ i l, upd l i nilKey) a;
    b' ← forDown cnt (j + d) (λ i l, upd l i None) b;
    Some (a', b').
Proof. apply (forDown_clear2 nilKey None). Qed.

Lemma setNext_last (lf : bool) par ks kn (ps : list (option (pointer Val))) x y :
  setNext (mkNode lf par ks kn (ps ++ [x])) y = Some (mkNode lf par ks kn (ps ++ [y])).
Proof.
  unfold setNext. cbn [pointers].
  rewrite (upd_mid ps [] x y) by (rewrite len_app; unfold len; simpl; lia).
  done.
Qed.

Lemma putIntoLeafAndSplit_leafNode (T : BPTree Key Val) l par kvs nxt (p : nat) k v :
  order T = o → 3 ≤ o →
  nodes T !! l = Some (leafNode o par kvs nxt) →
  len kvs = o - 1 → (p ≤ length kvs)%nat →
  putIntoLeafAndSplit T l (Z.of_nat p) k v
  = Some (setNodes T
            (<[l := leafNode o None (take (middle o) (insertAtL p (k, v) kvs))
                      (Some (length (nodes T)))]> (nodes T)
             ++ [leafNode o None (drop (middle o) (insertAtL p (k, v) kvs)) nxt]),
          l, length (nodes T)).
Proof.
  intros Ho H3 Hl Hfull Hp.
  pose proof (middle_bounds o H3) as HM. pose proof (middle_Z H3) as HMZ.
  assert (Hlen : length kvs = Z.to_nat (o - 1)) by (unfold len in *; lia).
  assert (Hll := lookup_lt_Some _ _ _ Hl).
  assert (Hnext := next_leafNode par kvs nxt ltac:(lia) ltac:(lia)).
  assert (Hkeys : keys (leafNode o par kvs nxt) = kvs.*1).
  { unfold leafNode. cbn [keys]. apply arr_full. by rewrite length_fmap. }
  assert (Hptrs : pointers (leafNode o par kvs nxt) = (vptr <$> kvs) ++ [PNode <$> nxt]).
  { unfold leafNode. cbn [pointers]. f_equal. apply arr_full. by rewrite length_fmap. }
  assert (Hleaf : leaf (leafNode o par kvs nxt) = true) by done.
  revert Hnext Hkeys Hptrs Hleaf Hl. generalize (leafNode o par kvs nxt) as nn.
  intros nn Hnext Hkeys Hptrs Hleaf Hl.
  unfold putIntoLeafAndSplit. rewrite Hl, Ho. cbn [mbind option_bind].
  rewrite !make_Some by lia. cbn [mbind option_bind].
  rewrite Hnext, Hkeys, Hptrs, Hleaf. cbn [mbind option_bind].
  assert (Hlk : len kvs.*1 = o - 1) by (by rewrite len_fmap).
  rewrite Hlk, <- HMZ.
  assert (Hlp : len ((vptr <$> kvs) ++ [PNode <$> nxt]) - 1 = len kvs).
  { rewrite len_app, len_fmap. unfold len. simpl. lia. }
  rewrite Hlp.
  destruct (decide (p < middle o)%nat) as [Hlt|Hge].
  - (* the new entry goes to the left leaf *)
    rewrite !(decide_True (P := Z.of_nat p < Z.of_nat (middle o))) by lia.
    rewrite (slice_to_end kvs.*1 _ _ (middle o - 1)) by (unfold len; rewrite ?length_fmap; lia).
    cbn [mbind option_bind].
    rewrite (slice_Some _ _ _ (middle o - 1) (length kvs))
      by (rewrite ?length_app, ?length_fmap; unfold len; simpl; lia).
    cbn [mbind option_bind].
    rewrite <- (length_fmap vptr kvs) at 1.
    rewrite take_drop_app_one by (rewrite length_fmap; lia).
    rewrite !copy_make
      by (rewrite ?length_take, ?length_drop, ?length_app, ?length_fmap; simpl; lia).
    rewrite (arr_succ o) by (rewrite ?length_drop, ?length_fmap; lia).
    rewrite setNext_last. cbn [mbind option_bind].
    rewrite forDown_clear2_node. rewrite <- (app_nil_r kvs.*1) at 1.
    rewrite (forDown_clear_tail _ _ _ (middle o - 1))
      by (rewrite ?length_fmap; lia).
    cbn [mbind option_bind].
    rewrite (forDown_clear_tail _ _ _ (middle o - 1))
      by (rewrite ?length_fmap; lia).
    cbn [mbind option_bind]. unfold alloc.
    rewrite (assoc_L (++) (take _ (vptr <$> kvs))).
    rewrite setNext_last. cbn [mbind option_bind].
    rewrite !(decide_False (P := Z.of_nat p >= Z.of_nat (middle o))) by lia.
    match goal with |- context [insertAt ?n _ _ _ _] =>
      assert (E : n = leafNode o None (take (middle o - 1) kvs) (Some (length (nodes T))))
    end.
    { unfold leafNode, arr, len. rewrite !fmap_take, !length_take, !length_fmap, app_nil_r.
      f_equal; [f_equal; f_equal; lia|lia|]. do 3 f_equal. lia. }
    rewrite E, (insertAt_leafNode _ _ _ p)
      by (unfold len; rewrite ?length_take; lia).
    cbn [mbind option_bind].
    match goal with |- context [setKeyNum ?n ?c] =>
      assert (E' : setKeyNum n c = leafNode o None (drop (middle o - 1) kvs) nxt)
    end.
    { unfold leafNode, setKeyNum, len. cbn [leaf parent keys pointers].
      rewrite !fmap_drop. f_equal.
      rewrite length_arr, length_drop by (rewrite length_drop, length_fmap; lia). lia. }
    rewrite E'. cbn [mbind option_bind].
    rewrite alloc_then_set by done.
    rewrite take_insertAtL_le, drop_insertAtL_le by lia. done.
  - (* the new entry goes to the right leaf *)
    rewrite !(decide_False (P := Z.of_nat p < Z.of_nat (middle o))) by lia.
    rewrite (slice_to_end kvs.*1 _ _ (middle o)) by (unfold len; rewrite ?length_fmap; lia).
    cbn [mbind option_bind].
    rewrite (slice_Some _ _ _ (middle o) (length kvs))
      by (rewrite ?length_app, ?length_fmap; unfold len; simpl; lia).
    cbn [mbind option_bind].
    rewrite <- (length_fmap vptr kvs) at 1.
    rewrite take_drop_app_one by (rewrite length_fmap; lia).
    rewrite !copy_make
      by (rewrite ?length_take, ?length_drop, ?length_app, ?length_fmap; simpl; lia).
    rewrite (arr_succ o) by (rewrite ?length_drop, ?length_fmap; lia).
    rewrite setNext_last. cbn [mbind option_bind].
    rewrite forDown_clear2_node. rewrite <- (app_nil_r kvs.*1) at 1.
    rewrite (forDown_clear_tail _ _ _ (middle o))
      by (rewrite ?length_fmap; lia).
    cbn [mbind option_bind].
    rewrite (forDown_clear_tail _ _ _ (middle o))
      by (rewrite ?length_fmap; lia).
    cbn [mbind option_bind]. unfold alloc.
    rewrite (assoc_L (++) (take _ (vptr <$> kvs))).
    rewrite setNext_last. cbn [mbind option_bind].
    rewrite !(decide_True (P := Z.of_nat p >= Z.of_nat (middle o))) by lia.
    cbn [mbind option_bind].
    match goal with |- context [setKeyNum ?n ?c] =>
      assert (E' : setKeyNum n c = leafNode o None (drop (middle o) kvs) nxt)
    end.
    { unfold leafNode, setKeyNum, len. cbn [leaf parent keys pointers].
      rewrite !fmap_drop. f_equal.
      rewrite length_arr, length_drop by (rewrite length_drop, length_fmap; lia). lia. }
    rewrite E', (insertAt_leafNode _ _ _ (p - middle o))
      by (unfold len; rewrite ?length_drop; lia).
    cbn [mbind option_bind].
    rewrite alloc_then_set by done.
    rewrite take_insertAtL_ge, drop_insertAtL_ge by lia.
    match goal with |- context [<[l := ?n]> _] =>
      assert (E : n = leafNode o None (take (middle o) kvs) (Some (length (nodes T))))
    end.
    { unfold leafNode, arr, len. rewrite !fmap_take, !length_take, !length_fmap, app_nil_r.
      f_equal; [f_equal; f_equal; lia|lia|]. do 3 f_equal. lia. }
    by rewrite E.
Qed.

Lemma insertChildren_innerNode par ks cs (i : nat) k l r (iz : Z) :
  len ks < o - 1 → length cs = S (length ks) → (i ≤ length ks)%nat →
  iz = Z.of_nat i →
  insertChildren (innerNode o par ks cs : node Key Val) iz k l r
  = Some (innerNode o par (insertAtL i k ks) (take i cs ++ l :: r :: drop (S i) cs)).
Proof.
  intros Hl Hcs Hi ->. unfold len in Hl.
  destruct (list.last cs) as [cl|] eqn:Hlast;
    [|apply last_None in Hlast; subst cs; done].
  apply last_Some in Hlast as [c0 ->].
  rewrite length_app in Hcs. simpl in Hcs.
  assert (Hc0 : length c0 = length ks) by lia. clear Hcs.
  unfold insertChildren, innerNode. cbn [leaf parent keys keyNum pointers].
  unfold len.
  set (R := replicate (Z.to_nat o - length ks - 2) (None : option (pointer Val))).
  assert (EP : arr o None (@nptr Val <$> c0 ++ [cl])
               = (@nptr Val <$> c0) ++ @nptr Val cl :: None :: R).
  { unfold arr. rewrite fmap_app, <- (assoc_L (++)). simpl. do 2 f_equal.
    rewrite length_app, length_fmap. simpl.
    replace (Z.to_nat o - (length c0 + 1))%nat
      with (S (Z.to_nat o - length ks - 2)) by lia.
    done. }
  rewrite EP.
  rewrite (idx_mid (@nptr Val <$> c0)) by (unfold len; rewrite length_fmap; lia).
  cbn [mbind option_bind].
  rewrite (cons_middle (@nptr Val cl) (@nptr Val <$> c0)), (assoc_L (++)).
  rewrite (upd_mid _ R None (@nptr Val cl))
    by (unfold len; rewrite length_app, length_fmap; simpl; lia).
  cbn [mbind option_bind].
  rewrite forDown_shiftRight2.
  rewrite <- (app_nil_r (arr (o - 1) nilKey ks)).
  rewrite (arr_shiftRight _ _ _ _ i) by lia.
  cbn [mbind option_bind].
  rewrite <- (assoc_L (++) (@nptr Val <$> c0)). simpl.
  rewrite <- (take_drop i (@nptr Val <$> c0)) at 1.
  rewrite <- (assoc_L (++) (take i (@nptr Val <$> c0))).
  replace (Z.to_nat (Z.of_nat (length ks) - Z.of_nat i))
    with (length (drop i (@nptr Val <$> c0))) by (rewrite length_drop, length_fmap; lia).
  rewrite (forDown_shiftRight (take i (@nptr Val <$> c0)) (drop i (@nptr Val <$> c0)))
    by (rewrite length_take, length_drop, length_fmap; lia).
  cbn [mbind option_bind].
  rewrite arr_shifted_upd by lia. cbn [mbind option_bind].
  rewrite upd_mid by (rewrite length_take, length_fmap; lia).
  cbn [mbind option_bind].
  rewrite (cons_middle (Some (PNode l))), (assoc_L (++) (take i (@nptr Val <$> c0))).
  assert (ES : ∃ q, drop i (@nptr Val <$> c0) ++ @nptr Val cl :: R
                    = q :: (@nptr Val <$> drop (S i) (c0 ++ [cl])) ++ R).
  { destruct (decide (i < length c0)%nat) as [Hlt|Hge].
    - destruct (lookup_lt_is_Some_2 c0 i Hlt) as [q Hq].
      exists (nptr q). rewrite <- fmap_drop.
      rewrite (drop_S c0 q i Hq). rewrite drop_app_le by lia.
      rewrite fmap_cons, fmap_app. simpl. by rewrite <- (assoc_L (++)).
    - exists (nptr cl). rewrite drop_ge by (rewrite length_fmap; lia).
      rewrite drop_ge by (rewrite length_app; simpl; lia). done. }
  destruct ES as [q ES]. rewrite ES.
  rewrite (upd_mid _ _ q) by (rewrite length_app, length_take, length_fmap; simpl; lia).
  cbn [mbind option_bind]. f_equal.
  rewrite app_nil_r. unfold innerNode. f_equal.
  - rewrite length_insertAtL. lia.
  - unfold arr. rewrite !fmap_app, !fmap_cons, fmap_take, fmap_app.
    rewrite take_app_le by (rewrite length_fmap; lia).
    rewrite <- !(assoc_L (++)). simpl. do 4 f_equal.
    rewrite !length_app. simpl. rewrite !length_fmap, length_take.
    rewrite length_drop, length_app, length_fmap. simpl.
    subst R. f_equal. lia.
Qed.

Lemma dropFirst_loop cnt j (a : list Key) (b : list (option (pointer Val))) :
  forUp cnt j
    (λ i (s : list Key * list (option (pointer Val))),
       k ← idx s.1 i; ks ← upd s.1 (i - 1) k;
       p ← idx s.2 i; ps ← upd s.2 (i - 1) p;
       Some (ks, ps))
    (a, b)
  = a' ← forUp cnt j (λ i l, v ← idx l i; upd l (i - 1) v) a;
    b' ← forUp cnt j (λ i l, v ← idx l i; upd l (i - 1) v) b;
    Some (a', b').
Proof.
  rewrite <- (forUp_pair (λ i l, v ← idx l i; upd l (i - 1) v)
                (λ i l, v ← idx l i; upd l (i - 1) v)).
  apply forUp_ext. intros i [x y]. cbn [fst snd].
  destruct (idx x i); [|done]. cbn [mbind option_bind].
  destruct (upd x (i - 1) _); [|done]. cbn [mbind option_bind].
  by destruct (idx y i).
Qed.

Lemma dropFirst_innerNode par ks cs :
  1 ≤ len ks ≤ o - 1 → length cs = S (length ks) →
  dropFirst (innerNode o par ks cs : node Key Val)
  = Some (innerNode o par (drop 1 ks) (drop 1 cs)).
Proof.
  intros Hl Hcs. unfold len in Hl.
  destruct ks as [|k0 ks]; [simpl in Hl; lia|].
  destruct cs as [|c0 cs]; [done|]. simpl in Hcs, Hl.
  destruct (list.last cs) as [cl|] eqn:Hlast;
    [|apply last_None in Hlast; subst cs; done].
  apply last_Some in Hlast as [cm ->].
  rewrite length_app in Hcs. simpl in Hcs.
  assert (Hcm : length cm = length ks) by lia. clear Hcs.
  unfold dropFirst, innerNode. cbn [leaf parent keys keyNum pointers].
  unfold len. cbn [length drop].
  set (RK := replicate (Z.to_nat (o - 1) - S (length ks)) (nilKey : Key)).
  set (RP := replicate (Z.to_nat o - S (S (length ks))) (None : option (pointer Val))).
  assert (EK : arr (o - 1) nilKey (k0 :: ks) = [] ++ k0 :: ks ++ RK) by done.
  assert (EP : arr o None (@nptr Val <$> c0 :: cm ++ [cl])
               = [] ++ nptr c0 :: (nptr <$> cm) ++ (nptr cl :: RP)).
  { unfold arr. rewrite fmap_cons, fmap_app. simpl. f_equal.
    rewrite <- (assoc_L (++)). simpl. do 2 f_equal.
    rewrite length_app, !length_fmap. simpl. subst RP. f_equal. lia. }
  rewrite EK, EP.
  rewrite dropFirst_loop.
  replace (Z.to_nat (Z.of_nat (S (length ks)) - 1)) with (length ks) by lia.
  rewrite (forUp_moveLeft [] ks) by done.
  cbn [mbind option_bind].
  rewrite <- (length_fmap (@nptr Val) cm) in Hcm. rewrite <- Hcm.
  rewrite (forUp_moveLeft [] (nptr <$> cm)) by done.
  cbn [mbind option_bind app].
  set (P := @nptr Val <$> cm) in *.
  set (d := default (nptr c0) (list.last P)).
  set (dk := default k0 (list.last ks)).
  assert (E1 : idx (P ++ d :: nptr cl :: RP) (Z.of_nat (S (length P))) = Some (nptr cl)).
  { rewrite (cons_middle d), (assoc_L (++)). apply idx_mid.
    rewrite length_app; simpl; lia. }
  rewrite E1. cbn [mbind option_bind].
  rewrite (upd_mid P _ d (nptr cl)) by lia.
  cbn [mbind option_bind].
  rewrite (cons_middle (nptr cl) P), (assoc_L (++)).
  rewrite (upd_mid _ RP _ None) by (rewrite length_app; simpl; lia).
  cbn [mbind option_bind].
  rewrite (upd_mid ks RK _ nilKey) by lia.
  cbn [mbind option_bind]. f_equal.
  rewrite !drop_0. f_equal.
  - unfold arr. subst RK. f_equal.
    rewrite <- replicate_S. f_equal. lia.
  - lia.
  - unfold arr. rewrite fmap_app. simpl. rewrite <- !(assoc_L (++)). simpl.
    fold P. do 2 f_equal. subst RP.
    rewrite length_app. simpl.
    replace (Z.to_nat o - (length P + 1))%nat
      with (S (Z.to_nat o - S (S (length ks)))) by lia.
    done.
Qed.

End NodeOps.


(** * Methods that write through references *)

Lemma insertAtL_S_lookup {A} (l : list A) (i : nat) (x y : A) :
  l !! i = Some x → take i l ++ x :: y :: drop (S i) l = insertAtL (S i) y l.
Proof.
  intros Hx. unfold insertAtL. rewrite (take_S_r l i x Hx).
  by rewrite <- (assoc_L (++)).
Qed.

Lemma cpos_le {Key} {KO : KeyOps Key} (k : Key) ks : (cpos k ks ≤ length ks)%nat.
Proof. induction ks as [|k' ks IH]; simpl; [lia|]. destruct (less k k'); lia. Qed.

Section Heap.
Context {Key Val : Type} {KO : KeyOps Key}.
Variable o : Z.
Implicit Types (h : list (node Key Val)) (T : BPTree Key Val).

Lemma modify_Some h a (f : node Key Val → option (node Key Val)) n n' :
  h !! a = Some n → f n = Some n' → modify h a f = Some (<[a := n']> h).
Proof. intros Ha Hf. unfold modify. rewrite Ha. csimpl. by rewrite Hf. Qed.

Lemma reparentAll_nil p pad h :
  reparentAll p (replicate pad (None : option (pointer Val))) h = Some h.
Proof. induction pad as [|pad IH]; [done|]. simpl. apply IH. Qed.

Lemma reparentAll_spec p (xs : list addr) pad h :
  (∀ x, x ∈ xs → (x < length h)%nat) →
  ∃ h', reparentAll p ((@nptr Val <$> xs) ++ replicate pad None) h = Some h'
      ∧ length h' = length h
      ∧ ∀ x, h' !! x = if decide (x ∈ xs)
                       then (λ n, setParent n (Some p)) <$> h !! x
                       else h !! x.
Proof.
  revert h. induction xs as [|x0 xs IH]; intros h Hv.
  - exists h. split_and!; [apply reparentAll_nil|done|].
    intros x. destruct (decide (x ∈ [])) as [Hx|]; [|done].
    by apply elem_of_nil in Hx.
  - destruct (lookup_lt_is_Some_2 h x0) as [n0 Hn0].
    { apply Hv. left. }
    destruct (IH (<[x0 := setParent n0 (Some p)]> h)) as (h' & E & Hl & Hh').
    { intros x Hx. rewrite length_insert. apply Hv. by right. }
    exists h'. split_and!; [|by rewrite Hl, length_insert|].
    { rewrite fmap_cons. cbn [app reparentAll reparent nptr asNode].
      csimpl.
      by rewrite (modify_Some h x0 (λ cn, Some (setParent cn (Some p))) n0 _ Hn0 eq_refl). }
    intros x. rewrite Hh'.
    destruct (decide (x = x0)) as [->|Hne].
    + rewrite (decide_True (P := x0 ∈ x0 :: xs)) by left.
      rewrite list_lookup_insert_eq by by eapply lookup_lt_Some.
      rewrite Hn0. by case_decide.
    + rewrite list_lookup_insert_ne by done.
      destruct (decide (x ∈ xs)) as [Hin|Hnin].
      * by rewrite decide_True by by right.
      * rewrite decide_False; [done|]. by intros [?|?]%elem_of_cons.
Qed.

Lemma findPosition_innerNode par ks cs k :
  len ks ≤ o - 1 →
  findPosition (Z.to_nat (keyNum (innerNode o par ks cs : node Key Val)))
    (innerNode o par ks cs : node Key Val) k 0
  = Some (Z.of_nat (cpos k ks)).
Proof.
  intros. unfold innerNode. cbn [keyNum].
  replace (Z.to_nat (len ks)) with (length ks) by (unfold len; lia).
  rewrite (findPosition_spec _ k [] ks (replicate (Z.to_nat (o - 1) - length ks) nilKey))
    by done.
  by f_equal.
Qed.

Lemma idx_pointers_innerNode par ks cs (i : nat) c (iz : Z) :
  cs !! i = Some c → iz = Z.of_nat i →
  idx (pointers (innerNode o par ks cs : node Key Val)) iz = Some (Some (PNode c)).
Proof.
  intros Hc ->. unfold innerNode. cbn [pointers]. rewrite idx_nat.
  rewrite arr_lookup_lt by (rewrite length_fmap; by eapply lookup_lt_Some).
  by rewrite list_lookup_fmap, Hc.
Qed.

(** [putIntoParent] *)
Lemma putIntoParent_spec T p par ks cs k l r ln rn :
  order T = o →
  nodes T !! p = Some (innerNode o par ks cs) →
  len ks < o - 1 → length cs = S (length ks) →
  cs !! cpos k ks = Some l →
  nodes T !! l = Some ln → nodes T !! r = Some rn →
  p ≠ l → p ≠ r → l ≠ r →
  putIntoParent T p k l r
  = Some (setNodes T
            (<[r := setParent rn (Some p)]>
               (<[l := setParent ln (Some p)]>
                  (<[p := innerNode o par (insertAtL (cpos k ks) k ks)
                            (insertAtL (S (cpos k ks)) r cs)]> (nodes T))))).
Proof.
  intros Ho Hp Hl Hcs Hi Hln Hrn Hpl Hpr Hlr.
  unfold putIntoParent. rewrite Hp. cbn [mbind option_bind].
  rewrite findPosition_innerNode by lia. cbn [mbind option_bind].
  rewrite (insertChildren_innerNode _ _ _ _ (cpos k ks))
    by (done || apply cpos_le || lia).
  cbn [mbind option_bind].
  rewrite (insertAtL_S_lookup _ _ _ _ Hi).
  rewrite (modify_Some _ l _ ln (setParent ln (Some p)));
    [|by rewrite list_lookup_insert_ne|done].
  cbn [mbind option_bind].
  rewrite (modify_Some _ r _ rn (setParent rn (Some p)));
    [|by rewrite !list_lookup_insert_ne|done].
  done.
Qed.

(** [putIntoNewRoot] *)
Lemma putIntoNewRoot_spec T k l r ln rn :
  order T = o → 3 ≤ o →
  nodes T !! l = Some ln → nodes T !! r = Some rn → l ≠ r →
  putIntoNewRoot T k l r
  = Some (mkTree (Some (length (nodes T))) (leftmost T) (order T) (size T)
            (minKeyNum T)
            (<[r := setParent rn (Some (length (nodes T)))]>
               (<[l := setParent ln (Some (length (nodes T)))]> (nodes T))
             ++ [innerNode o None [k] [l; r]])).
Proof.
  intros Ho H3 Hln Hrn Hlr.
  assert (Hl := lookup_lt_Some _ _ _ Hln). assert (Hr := lookup_lt_Some _ _ _ Hrn).
  unfold putIntoNewRoot. rewrite Ho, !make_Some by lia. cbn [mbind option_bind].
  rewrite (upd_eq (replicate _ nilKey) _ 0) by (rewrite ?length_replicate; lia).
  cbn [mbind option_bind].
  rewrite (upd_eq (replicate _ None) _ 0) by (rewrite ?length_replicate; lia).
  cbn [mbind option_bind].
  rewrite (upd_eq _ _ 1) by (rewrite ?length_insert, ?length_replicate; lia).
  cbn [mbind option_bind]. unfold alloc.
  rewrite (modify_Some _ l _ ln (setParent ln (Some (length (nodes T)))));
    [|by rewrite lookup_app_l|done].
  cbn [mbind option_bind].
  rewrite (modify_Some _ r _ rn (setParent rn (Some (length (nodes T)))));
    [|rewrite list_lookup_insert_ne by done; by rewrite lookup_app_l|done].
  cbn [mbind option_bind]. do 2 f_equal.
  rewrite !insert_app_l by (rewrite ?length_insert; lia).
  do 2 f_equal. unfold innerNode, arr. f_equal.
  - destruct (Z.to_nat (o - 1)) as [|n1] eqn:E1; [lia|]. simpl.
    by rewrite Nat.sub_0_r.
  - destruct (Z.to_nat o) as [|[|n1]] eqn:E1; [lia..|]. simpl.
    by rewrite Nat.sub_0_r.
Qed.

Lemma keys_innerNode_full par ks cs :
  len ks = o - 1 → keys (innerNode o par ks cs : node Key Val) = ks.
Proof. intros. unfold innerNode. cbn [keys]. apply arr_full. unfold len in *. lia. Qed.

Lemma pointers_innerNode_full par ks cs :
  len cs = o → pointers (innerNode o par ks cs : node Key Val) = nptr <$> cs.
Proof.
  intros. unfold innerNode. cbn [pointers]. apply arr_full.
  rewrite length_fmap. unfold len in *. lia.
Qed.

Lemma idx_keys_innerNode par ks cs (i : nat) k (iz : Z) :
  ks !! i = Some k → iz = Z.of_nat i →
  idx (keys (innerNode o par ks cs : node Key Val)) iz = Some k.
Proof.
  intros Hc ->. unfold innerNode. cbn [keys]. rewrite idx_nat.
  rewrite arr_lookup_lt by (by eapply lookup_lt_Some). done.
Qed.

Lemma innerNode_eq par ks cs K n P :
  K = arr (o - 1) nilKey ks → n = len ks → P = arr o None (@nptr Val <$> cs) →
  mkNode false par K n P = innerNode o par ks cs.
Proof. by intros -> -> ->. Qed.

(** The two nodes that [putIntoParentAndSplit] builds and the promoted
    key, before any parent reference is rewritten. *)
Lemma putIntoParentAndSplit_nodes T p par ks cs k l r :
  order T = o → 3 ≤ o →
  nodes T !! p = Some (innerNode o par ks cs) →
  len ks = o - 1 → length cs = S (length ks) →
  cs !! cpos k ks = Some l →
  let i := cpos k ks in
  let ks' := insertAtL i k ks in
  let cs' := insertAtL (S i) r cs in
  let fr := length (nodes T) in
  putIntoParentAndSplit T p k l r
  = (let h := <[p := innerNode o par (take (middle o) ks') (take (S (middle o)) cs')]>
                (nodes T)
              ++ [innerNode o None (drop (S (middle o)) ks') (drop (S (middle o)) cs')] in
     let insertNode := if decide (i < middle o)%nat then p else fr in
     h ← modify h l (λ n, Some (setParent n (Some insertNode)));
     h ← modify h r (λ n, Some (setParent n (Some insertNode)));
     ln ← h !! p;
     h ← reparentAll p (pointers ln) h;
     rn ← h !! fr;
     h ← reparentAll fr (pointers rn) h;
     Some (setNodes T h, default nilKey (ks' !! middle o), p, fr)).
Proof.
  intros Ho H3 Hp Hfull Hcs Hi i ks' cs' fr.
  pose proof (middle_bounds o H3) as HM. pose proof (middle_Z o H3) as HMZ.
  assert (Hlen : length ks = Z.to_nat (o - 1)) by (unfold len in *; lia).
  assert (Hpl := lookup_lt_Some _ _ _ Hp).
  assert (Hile : (i ≤ length ks)%nat) by apply cpos_le.
  assert (Hkeys := keys_innerNode_full par ks cs Hfull).
  assert (Hptrs := pointers_innerNode_full par ks cs ltac:(unfold len in *; lia)).
  assert (Hfp := findPosition_innerNode par ks cs k ltac:(lia)).
  assert (Hleaf : leaf (innerNode o par ks cs : node Key Val) = false) by done.
  assert (Hpar : parent (innerNode o par ks cs : node Key Val) = par) by done.
  revert Hfp Hkeys Hptrs Hleaf Hpar Hp.
  generalize (innerNode o par ks cs : node Key Val) as pn.
  intros pn Hfp Hkeys Hptrs Hleaf Hpar Hp.
  unfold putIntoParentAndSplit. rewrite Hp. cbn [mbind option_bind].
  rewrite Hfp. cbn [mbind option_bind].
  rewrite Ho, !make_Some by lia. cbn [mbind option_bind].
  rewrite Hkeys, Hptrs, Hleaf, Hpar.
  assert (Hlk : len ks = o - 1) by done.
  assert (Hlp : len (@nptr Val <$> cs) = o) by (unfold len in *; rewrite length_fmap; lia).
  rewrite Hlk, Hlp, <- HMZ. fold i.
  destruct (decide (i < middle o)%nat) as [Hlt|Hge].
  - rewrite !(decide_True (P := Z.of_nat i < Z.of_nat (middle o))) by lia.
    rewrite (slice_to_end ks _ _ (middle o - 1)) by (unfold len; lia).
    cbn [mbind option_bind].
    rewrite (slice_to_end (nptr <$> cs) _ _ (middle o - 1))
      by (unfold len in *; rewrite ?length_fmap; lia).
    cbn [mbind option_bind].
    rewrite !copy_make by (rewrite ?length_drop, ?length_fmap; lia).
    rewrite forDown_clear2_node. rewrite <- (app_nil_r ks) at 1.
    rewrite (forDown_clear_tail _ _ _ (middle o - 1)) by lia.
    cbn [mbind option_bind].
    rewrite <- (app_nil_r (nptr <$> cs)) at 1.
    rewrite (forDown_clear_tail _ _ _ (S (middle o - 1)))
      by (rewrite ?length_fmap; lia).
    cbn [mbind option_bind]. unfold alloc.
    rewrite !(decide_False (P := Z.of_nat i >= Z.of_nat (middle o))) by lia.
    rewrite !(decide_True (P := p = p)) by done.
    match goal with |- context [insertChildren ?n] =>
      replace n with (innerNode o par (take (middle o - 1) ks) (take (middle o) cs)
                      : node Key Val) end.
    2:{ symmetry. apply innerNode_eq.
        - unfold arr. rewrite app_nil_r, length_take. do 2 f_equal. lia.
        - unfold len. rewrite length_take. lia.
        - unfold arr. rewrite app_nil_r, fmap_take, !length_take, length_fmap.
          replace (S (middle o - 1)) with (middle o) by lia.
          do 2 f_equal. lia. }
    rewrite (insertChildren_innerNode o par _ _ i k l r)
      by (unfold len; rewrite ?length_take; lia).
    cbn [mbind option_bind].
    match goal with |- context [idx (keys ?n) 0] =>
      replace n with (innerNode o None (drop (middle o - 1) ks) (drop (middle o - 1) cs)
                      : node Key Val) end.
    2:{ symmetry. apply innerNode_eq; [done| |by rewrite fmap_drop].
        rewrite len_arr. unfold len. rewrite length_drop. lia.
        unfold len. rewrite length_drop. lia. }
    destruct (lookup_lt_is_Some_2 ks (middle o - 1)) as [mk Hmk]; [lia|].
    rewrite (idx_keys_innerNode None (drop (middle o - 1) ks) _ 0%nat mk)
      by (rewrite ?lookup_drop, ?Nat.add_0_r; done).
    cbn [mbind option_bind].
    rewrite dropFirst_innerNode
      by (unfold len; rewrite ?length_drop; lia).
    cbn [mbind option_bind].
    rewrite alloc_then_set by done.
    rewrite !drop_drop.
    replace (middle o - 1 + 1)%nat with (middle o) by lia.
    subst ks' cs'.
    rewrite (take_insertAtL_le ks) by lia.
    rewrite (take_insertAtL_le cs) by lia.
    rewrite (drop_insertAtL_le ks) by lia.
    rewrite (drop_insertAtL_le cs) by lia.
    replace (S (middle o) - 1)%nat with (middle o) by lia.
    rewrite <- (insertAtL_S_lookup (take (middle o) cs) i l r)
      by (rewrite lookup_take_lt by lia; done).
    rewrite (insertAtL_lookup_gt ks) by lia.
    replace (Init.Nat.pred (middle o)) with (middle o - 1)%nat by lia.
    rewrite Hmk. done.
  - rewrite !(decide_False (P := Z.of_nat i < Z.of_nat (middle o))) by lia.
    rewrite (slice_to_end ks _ _ (middle o)) by (unfold len; lia).
    cbn [mbind option_bind].
    rewrite (slice_to_end (nptr <$> cs) _ _ (middle o))
      by (unfold len in *; rewrite ?length_fmap; lia).
    cbn [mbind option_bind].
    rewrite !copy_make by (rewrite ?length_drop, ?length_fmap; lia).
    rewrite forDown_clear2_node. rewrite <- (app_nil_r ks) at 1.
    rewrite (forDown_clear_tail _ _ _ (middle o)) by lia.
    cbn [mbind option_bind].
    rewrite <- (app_nil_r (nptr <$> cs)) at 1.
    rewrite (forDown_clear_tail _ _ _ (S (middle o)))
      by (rewrite ?length_fmap; lia).
    cbn [mbind option_bind]. unfold alloc.
    rewrite !(decide_True (P := Z.of_nat i >= Z.of_nat (middle o))) by lia.
    rewrite !(decide_False (P := length (nodes T) = p)) by lia.
    cbn [mbind option_bind].
    match goal with |- context [insertChildren ?n] =>
      replace n with (innerNode o None (drop (middle o) ks) (drop (middle o) cs)
                      : node Key Val) end.
    2:{ symmetry. apply innerNode_eq; [done| |by rewrite fmap_drop].
        rewrite len_arr. unfold len. rewrite length_drop. lia.
        unfold len. rewrite length_drop. lia. }
    rewrite (insertChildren_innerNode o None _ _ (i - middle o) k l r)
      by (unfold len; rewrite ?length_drop; lia).
    cbn [mbind option_bind].
    rewrite (insertAtL_S_lookup (drop (middle o) cs) (i - middle o) l r)
      by (rewrite lookup_drop; replace (middle o + (i - middle o))%nat with i by lia; done).
    rewrite <- (drop_insertAtL_ge ks k i (middle o)) by lia.
    replace (S (i - middle o)) with (S i - middle o)%nat by lia.
    rewrite <- (drop_insertAtL_ge cs r (S i) (middle o)) by lia.
    fold ks' cs'.
    destruct (lookup_lt_is_Some_2 ks' (middle o)) as [mk Hmk];
      [subst ks'; rewrite length_insertAtL; lia|].
    rewrite (idx_keys_innerNode None (drop (middle o) ks') _ 0%nat mk)
      by (rewrite ?lookup_drop, ?Nat.add_0_r; done).
    cbn [mbind option_bind].
    rewrite dropFirst_innerNode
      by (unfold len; subst ks' cs'; rewrite ?length_drop, ?length_insertAtL; lia).
    cbn [mbind option_bind].
    rewrite !drop_drop.
    replace (middle o + 1)%nat with (S (middle o)) by lia.
    match goal with |- context [<[p := ?n]>] =>
      replace n with (innerNode o par (take (middle o) ks') (take (S (middle o)) cs')
                      : node Key Val) end.
    2:{ symmetry. subst ks' cs'.
        rewrite (take_insertAtL_ge ks) by lia.
        rewrite (take_insertAtL_ge cs) by lia.
        apply innerNode_eq.
        - unfold arr. rewrite app_nil_r, length_take. do 2 f_equal. lia.
        - unfold len. rewrite length_take. lia.
        - unfold arr. rewrite app_nil_r, fmap_take, !length_take, length_fmap.
          do 2 f_equal. lia. }
    rewrite alloc_then_set by done.
    rewrite Hmk. done.
Qed.

Lemma setParent_setParent (n : node Key Val) a b :
  setParent (setParent n a) b = setParent n b.
Proof. by destruct n. Qed.

Lemma pointers_innerNode par ks cs :
  pointers (innerNode o par ks cs : node Key Val)
  = (nptr <$> cs) ++ replicate (Z.to_nat o - length cs) None.
Proof. unfold innerNode, arr. cbn [pointers]. by rewrite length_fmap. Qed.

(** [putIntoParentAndSplit] *)
Lemma putIntoParentAndSplit_spec T p par ks cs k l r :
  order T = o → 3 ≤ o →
  nodes T !! p = Some (innerNode o par ks cs) →
  len ks = o - 1 → length cs = S (length ks) →
  cs !! cpos k ks = Some l →
  let i := cpos k ks in
  let ks' := insertAtL i k ks in
  let cs' := insertAtL (S i) r cs in
  let fr := length (nodes T) in
  NoDup cs' → p ∉ cs' → (∀ x, x ∈ cs' → (x < fr)%nat) →
  ∃ h', putIntoParentAndSplit T p k l r
        = Some (setNodes T h', default nilKey (ks' !! middle o), p, fr)
      ∧ length h' = S fr
      ∧ h' !! p = Some (innerNode o par (take (middle o) ks') (take (S (middle o)) cs'))
      ∧ h' !! fr = Some (innerNode o None (drop (S (middle o)) ks')
                           (drop (S (middle o)) cs'))
      ∧ (∀ x, x ∈ take (S (middle o)) cs' →
              h' !! x = (λ n, setParent n (Some p)) <$> nodes T !! x)
      ∧ (∀ x, x ∈ drop (S (middle o)) cs' →
              h' !! x = (λ n, setParent n (Some fr)) <$> nodes T !! x)
      ∧ (∀ x, x ≠ p → x ≠ fr → x ∉ cs' → h' !! x = nodes T !! x).
Proof.
  intros Ho H3 Hp Hfull Hcs Hi i ks' cs' fr Hnd Hpn Hlt.
  rewrite (putIntoParentAndSplit_nodes T p par ks cs k l r) by done.
  fold i ks' cs' fr. cbv zeta.
  set (L' := innerNode o par (take (middle o) ks') (take (S (middle o)) cs')
             : node Key Val).
  set (R' := innerNode o None (drop (S (middle o)) ks') (drop (S (middle o)) cs')
             : node Key Val).
  set (X := if decide (i < middle o)%nat then p else fr).
  assert (Hpl := lookup_lt_Some _ _ _ Hp). fold fr in Hpl.
  assert (Hile : (i ≤ length ks)%nat) by apply cpos_le.
  assert (Hli : cs' !! i = Some l).
  { subst cs'. rewrite insertAtL_lookup_lt by lia. done. }
  assert (Hri : cs' !! S i = Some r).
  { subst cs'. rewrite insertAtL_lookup_eq by lia. done. }
  assert (Hlin : l ∈ cs') by (by eapply list_elem_of_lookup_2).
  assert (Hrin : r ∈ cs') by (by eapply list_elem_of_lookup_2).
  assert (Hlr : l ≠ r).
  { intros ->. assert (i = S i) by (eapply NoDup_lookup; eauto). lia. }
  assert (Hlp : l ≠ p) by (intros ->; done).
  assert (Hrp : r ≠ p) by (intros ->; done).
  assert (Hl := Hlt _ Hlin). assert (Hr := Hlt _ Hrin).
  destruct (lookup_lt_is_Some_2 (nodes T) l Hl) as [ln Hln].
  destruct (lookup_lt_is_Some_2 (nodes T) r Hr) as [rn Hrn].
  set (h0 := <[p := L']> (nodes T) ++ [R']).
  assert (Hh0 : ∀ x : nat, x ≠ p → x ≠ fr → h0 !! x = nodes T !! x).
  { intros x Hxp Hxf. subst h0. destruct (decide (x < fr)%nat).
    - rewrite lookup_app_l by (rewrite length_insert; done).
      by rewrite list_lookup_insert_ne.
    - rewrite !lookup_ge_None_2; [done|lia|].
      rewrite length_app, length_insert. simpl. fold fr. lia. }
  assert (Hh0p : h0 !! p = Some L').
  { subst h0. rewrite lookup_app_l by (rewrite length_insert; done).
    by apply list_lookup_insert_eq. }
  assert (Hh0f : h0 !! fr = Some R').
  { subst h0. rewrite lookup_app_r by (rewrite length_insert; done).
    rewrite length_insert. fold fr. by rewrite Nat.sub_diag. }
  assert (Hl0 : length h0 = S fr).
  { subst h0. rewrite length_app, length_insert. simpl. fold fr. lia. }
  rewrite (modify_Some h0 l _ ln (setParent ln (Some X)));
    [|rewrite Hh0 by lia; done|done].
  cbn [mbind option_bind].
  rewrite (modify_Some _ r _ rn (setParent rn (Some X)));
    [|rewrite list_lookup_insert_ne by done; rewrite Hh0 by lia; done|done].
  cbn [mbind option_bind].
  set (h2 := <[r := setParent rn (Some X)]> (<[l := setParent ln (Some X)]> h0)).
  assert (Hl2 : length h2 = S fr) by (subst h2; by rewrite !length_insert).
  assert (Hh2 : ∀ x : nat, x ≠ l → x ≠ r → h2 !! x = h0 !! x).
  { intros x ??. subst h2. by rewrite !list_lookup_insert_ne. }
  assert (Hh2l : h2 !! l = Some (setParent ln (Some X))).
  { subst h2. rewrite list_lookup_insert_ne by done.
    apply list_lookup_insert_eq. lia. }
  assert (Hh2r : h2 !! r = Some (setParent rn (Some X))).
  { subst h2. apply list_lookup_insert_eq. rewrite length_insert. lia. }
  rewrite Hh2, Hh0p by done. cbn [mbind option_bind].
  subst L'. rewrite pointers_innerNode.
  destruct (reparentAll_spec p (take (S (middle o)) cs')
              (Z.to_nat o - length (take (S (middle o)) cs')) h2)
    as (h3 & -> & Hl3 & Hh3).
  { intros x Hx. apply elem_of_take in Hx as (j & Hx & _).
    apply list_elem_of_lookup_2 in Hx. apply Hlt in Hx. lia. }
  cbn [mbind option_bind].
  assert (Hfnot : fr ∉ cs') by (intros Hx; apply Hlt in Hx; lia).
  assert (Htd : cs' = take (S (middle o)) cs' ++ drop (S (middle o)) cs')
    by (by rewrite take_drop).
  assert (Hintake : ∀ x, x ∈ take (S (middle o)) cs' → x ∈ cs').
  { intros x Hx. rewrite Htd. apply elem_of_app. by left. }
  assert (Hindrop : ∀ x, x ∈ drop (S (middle o)) cs' → x ∈ cs').
  { intros x Hx. rewrite Htd. apply elem_of_app. by right. }
  assert (Hdisj : ∀ x, x ∈ take (S (middle o)) cs' → x ∈ drop (S (middle o)) cs' → False).
  { rewrite Htd in Hnd. apply list.NoDup_app in Hnd as (_ & Hd & _). exact Hd. }
  rewrite Hh3. rewrite decide_False by (intros Hx; apply Hfnot, Hintake, Hx).
  rewrite (Hh2 fr), Hh0f by lia. cbn [mbind option_bind].
  subst R'. rewrite pointers_innerNode.
  destruct (reparentAll_spec fr (drop (S (middle o)) cs')
              (Z.to_nat o - length (drop (S (middle o)) cs')) h3)
    as (h4 & -> & Hl4 & Hh4).
  { intros x Hx. apply Hindrop, Hlt in Hx. lia. }
  cbn [mbind option_bind].
  assert (Hbase : ∀ x, x ∈ cs' → ∀ q,
            (λ n, setParent n (Some q)) <$> h2 !! x
            = (λ n : node Key Val, setParent n (Some q)) <$> nodes T !! x).
  { intros x Hx q. destruct (decide (x = l)) as [->|Hxl].
    - rewrite Hh2l, Hln. simpl. by rewrite setParent_setParent.
    - destruct (decide (x = r)) as [->|Hxr].
      + rewrite Hh2r, Hrn. simpl. by rewrite setParent_setParent.
      + rewrite Hh2, Hh0; [done| |intros ->; done|done|done].
        intros ->; done. }
  exists h4. split_and!.
  - done.
  - lia.
  - rewrite Hh4, decide_False by (intros Hx; apply Hpn, Hindrop, Hx).
    rewrite Hh3, decide_False by (intros Hx; apply Hpn, Hintake, Hx).
    rewrite Hh2 by done. done.
  - rewrite Hh4, decide_False by (intros Hx; apply Hfnot, Hindrop, Hx).
    rewrite Hh3, decide_False by (intros Hx; apply Hfnot, Hintake, Hx).
    rewrite (Hh2 fr) by lia. done.
  - intros x Hx. rewrite Hh4, decide_False by (intros Hx'; by eapply Hdisj).
    rewrite Hh3, decide_True by done. apply Hbase. by apply Hintake.
  - intros x Hx. rewrite Hh4, decide_True by done.
    rewrite Hh3, decide_False by (intros Hx'; by eapply Hdisj).
    apply Hbase. by apply Hindrop.
  - intros x Hxp Hxf Hx.
    rewrite Hh4, decide_False by (intros Hx'; apply Hx, Hindrop, Hx').
    rewrite Hh3, decide_False by (intros Hx'; apply Hx, Hintake, Hx').
    rewrite Hh2, Hh0; [done..| |]; intros ->; done.
Qed.

End Heap.


(** * The order of keys *)

Section KeyOrder.
Context {Key : Type} {KO : KeyOps Key} {KL : KeyLaws Key}.
Implicit Types (x y z k : Key) (ks : list Key) (lo hi : option Key).

Lemma compare_refl x : compare x x = 0.
Proof. by apply compare_eq. Qed.

Lemma klt_irrefl x : ¬ klt x x.
Proof. unfold klt. rewrite compare_refl. lia. Qed.

Lemma klt_trans x y z : klt x y → klt y z → klt x z.
Proof. apply compare_trans. Qed.

Lemma klt_asym x y : klt x y → klt y x → False.
Proof. intros H1 H2. by apply (klt_irrefl x), (klt_trans x y x). Qed.

Lemma klt_ne x y : klt x y → x ≠ y.
Proof. intros H ->. by apply (klt_irrefl y). Qed.

Lemma less_klt x y : less x y = true ↔ klt x y.
Proof. unfold less, klt. apply bool_decide_eq_true. Qed.

Lemma less_false x y : less x y = false ↔ compare y x ≤ 0.
Proof.
  unfold less. rewrite bool_decide_eq_false. split.
  - intros H. destruct (Z.lt_trichotomy (compare y x) 0) as [?|[?|Hgt]]; [lia..|].
    apply compare_flip in Hgt. done.
  - intros H H'. apply compare_flip in H'. lia.
Qed.

Lemma kle_cases x y : compare x y ≤ 0 ↔ klt x y ∨ x = y.
Proof.
  unfold klt. rewrite <- compare_eq. lia.
Qed.

Lemma compare_gt x y : compare x y > 0 ↔ klt y x.
Proof. unfold klt. rewrite compare_flip. lia. Qed.

Lemma kle_lt_trans x y z : compare x y ≤ 0 → klt y z → klt x z.
Proof. rewrite kle_cases. intros [H| ->] ?; [by eapply klt_trans|done]. Qed.

Lemma klt_le_trans x y z : klt x y → compare y z ≤ 0 → klt x z.
Proof. rewrite kle_cases. intros ? [H| <-]; [by eapply klt_trans|done]. Qed.

Lemma kle_trans x y z : compare x y ≤ 0 → compare y z ≤ 0 → compare x z ≤ 0.
Proof.
  rewrite !kle_cases. intros [H1| ->] [H2| <-]; eauto using klt_trans.
Qed.

Lemma kle_refl x : compare x x ≤ 0.
Proof. rewrite compare_refl. lia. Qed.

Lemma klt_le x y : klt x y → compare x y ≤ 0.
Proof. unfold klt. lia. Qed.

Lemma kle_antisym x y : compare x y ≤ 0 → compare y x ≤ 0 → x = y.
Proof.
  rewrite !kle_cases. intros [H1| ->] [H2|H2]; try done.
  by destruct (klt_asym x y).
Qed.

Lemma not_klt x y : ¬ klt x y ↔ compare y x ≤ 0.
Proof. rewrite <- less_false, <- less_klt. by destruct (less x y). Qed.

Lemma klt_total x y : klt x y ∨ x = y ∨ klt y x.
Proof.
  destruct (Z.lt_trichotomy (compare x y) 0) as [?|[?|Hgt]].
  - by left.
  - right; left. by apply compare_eq.
  - right; right. apply compare_gt. lia.
Qed.

(** ** Sorted keys *)

Lemma sortedK_cons k ks :
  sortedK (k :: ks) ↔ Forall (klt k) ks ∧ sortedK ks.
Proof.
  revert k. induction ks as [|k' ks IH]; intros k.
  - simpl. split; [intros _; split; [constructor|done]|done].
  - change (sortedK (k :: k' :: ks)) with (klt k k' ∧ sortedK (k' :: ks)).
    rewrite list.Forall_cons. split.
    + intros [Hk Hs]. split; [|done]. split; [done|].
      apply IH in Hs as [Hf _]. eapply list.Forall_impl; [exact Hf|].
      intros z Hz. by eapply klt_trans.
    + intros [[Hk _] Hs]. done.
Qed.

Lemma sortedK_app ks1 ks2 :
  sortedK (ks1 ++ ks2)
  ↔ sortedK ks1 ∧ sortedK ks2 ∧ ∀ a b, a ∈ ks1 → b ∈ ks2 → klt a b.
Proof.
  induction ks1 as [|k ks1 IH].
  - simpl. split; [intros ?; split_and!; [done..|]|by intros (_ & ? & _)].
    intros a b Ha. by apply elem_of_nil in Ha.
  - rewrite <- app_comm_cons, !sortedK_cons, IH, list.Forall_app. split.
    + intros ([Hf1 Hf2] & Hs1 & Hs2 & Hc). split_and!; try done.
      intros a b Ha Hb. apply elem_of_cons in Ha as [->|Ha]; [|by apply Hc].
      rewrite list.Forall_forall in Hf2. by apply Hf2.
    + intros ([Hf1 Hs1] & Hs2 & Hc). split_and!; try done.
      * apply list.Forall_forall. intros b Hb. apply Hc; [left|done].
      * intros a b Ha Hb. apply Hc; [by right|done].
Qed.

Lemma sortedK_lookup ks (i j : nat) a b :
  sortedK ks → ks !! i = Some a → ks !! j = Some b → (i < j)%nat → klt a b.
Proof.
  revert i j. induction ks as [|k ks IH]; intros i j Hs Hi Hj Hij; [done|].
  apply sortedK_cons in Hs as [Hf Hs].
  destruct j as [|j]; [lia|]. simpl in Hj.
  destruct i as [|i].
  - simpl in Hi. injection Hi as ->. rewrite list.Forall_forall in Hf.
    apply Hf. by eapply list_elem_of_lookup_2.
  - simpl in Hi. eapply (IH i j); eauto. lia.
Qed.

Lemma sortedK_lookup_le ks (i j : nat) a b :
  sortedK ks → ks !! i = Some a → ks !! j = Some b → (i ≤ j)%nat → compare a b ≤ 0.
Proof.
  intros Hs Hi Hj Hij. destruct (decide (i = j)) as [->|].
  - rewrite Hi in Hj. injection Hj as ->. apply kle_refl.
  - apply klt_le. eapply sortedK_lookup; eauto. lia.
Qed.

Lemma sortedK_intro ks :
  (∀ (i : nat) a b, ks !! i = Some a → ks !! S i = Some b → klt a b) → sortedK ks.
Proof.
  induction ks as [|k ks IH]; intros H; [done|]. split.
  - destruct ks as [|k' ks]; [done|]. by apply (H 0%nat).
  - apply IH. intros i a b Ha Hb. by apply (H (S i)).
Qed.

(** ** The position of the child to descend into *)

Lemma cpos_lt k ks (j : nat) kj :
  ks !! j = Some kj → (j < cpos k ks)%nat → compare kj k ≤ 0.
Proof.
  revert j. induction ks as [|k' ks IH]; intros j Hj Hlt; [done|].
  simpl in Hlt. destruct (less k k') eqn:E; [lia|].
  destruct j as [|j].
  - simpl in Hj. injection Hj as ->. by apply less_false.
  - simpl in Hj. apply (IH j); [done|lia].
Qed.

Lemma cpos_at k ks ki : ks !! cpos k ks = Some ki → klt k ki.
Proof.
  induction ks as [|k' ks IH]; [done|]. simpl.
  destruct (less k k') eqn:E.
  - simpl. intros [= ->]. by apply less_klt.
  - simpl. exact IH.
Qed.

Lemma cpos_unique x ks (i : nat) :
  sortedK ks →
  (∀ j kj, ks !! j = Some kj → S j = i → compare kj x ≤ 0) →
  (∀ ki, ks !! i = Some ki → klt x ki) →
  (i ≤ length ks)%nat →
  cpos x ks = i.
Proof.
  revert i. induction ks as [|k' ks IH]; intros i Hs Hlo Hhi Hi.
  - simpl in *. lia.
  - apply sortedK_cons in Hs as [Hf Hs]. simpl.
    destruct i as [|i].
    + rewrite (proj2 (less_klt x k')); [done|]. by apply Hhi.
    + assert (Hk' : compare k' x ≤ 0).
      { destruct i as [|i]; [by apply (Hlo 0%nat)|].
        destruct (lookup_lt_is_Some_2 ks i) as [ki Hki]; [simpl in Hi; lia|].
        eapply kle_trans; [|apply (Hlo (S i) ki); done].
        apply klt_le. rewrite list.Forall_forall in Hf. apply Hf.
        by eapply list_elem_of_lookup_2. }
      rewrite (proj2 (less_false x k')) by done. f_equal.
      apply IH; [done| |by intros; apply Hhi|simpl in Hi; lia].
      intros j kj Hj Hji. apply (Hlo (S j)); [done|lia].
Qed.

(** Both bounds of the child that [cpos] selects hold of the key. *)
Lemma cpos_lob k ks lo :
  leOpt lo k → leOpt (lob lo ks (cpos k ks)) k.
Proof.
  intros Hlo. unfold lob. destruct (cpos k ks) as [|j] eqn:E; [done|].
  destruct (ks !! j) as [kj|] eqn:Hj; [|done]. simpl.
  eapply (cpos_lt k ks j); [done|lia].
Qed.

Lemma cpos_hib k ks hi :
  ltOpt k hi → ltOpt k (hib ks hi (cpos k ks)).
Proof.
  intros Hhi. unfold hib. destruct (ks !! cpos k ks) as [ki|] eqn:Hi; [|done].
  simpl. by apply (cpos_at k ks).
Qed.

Lemma cpos_between x ks lo hi (i : nat) :
  sortedK ks → (i ≤ length ks)%nat →
  leOpt (lob lo ks i) x → ltOpt x (hib ks hi i) →
  cpos x ks = i.
Proof.
  intros Hs Hi Hlo Hhi. apply cpos_unique; [done| | |done].
  - intros j kj Hj <-. simpl in Hlo. by rewrite Hj in Hlo.
  - intros ki Hki. unfold hib in Hhi. by rewrite Hki in Hhi.
Qed.

End KeyOrder.


(** * Trees in memory: children by position *)

Lemma elem_of_concat {A} (x : A) (ls : list (list A)) :
  x ∈ concat ls ↔ ∃ l, x ∈ l ∧ l ∈ ls.
Proof.
  induction ls as [|l0 ls IH]; simpl.
  - split; [by intros ?%elem_of_nil|]. by intros (l & _ & ?%elem_of_nil).
  - rewrite elem_of_app, IH. split.
    + intros [H|(l & H1 & H2)]; [exists l0; split; [done|left]|].
      exists l. split; [done|by right].
    + intros (l & H1 & H2). apply elem_of_cons in H2 as [->|H2]; [by left|].
      right. by exists l.
Qed.

Section OrdList.
Context {Key : Type} {KO : KeyOps Key} {T : Type}.
Variable R : T → option Key → option Key → Prop.
Implicit Types (lo hi : option Key) (ks : list Key) (cs : list T).

Lemma lob_cons lo k ks (j : nat) : lob lo (k :: ks) (S j) = lob (Some k) ks j.
Proof. destruct j; reflexivity. Qed.

Lemma hib_cons k ks hi (j : nat) : hib (k :: ks) hi (S j) = hib ks hi j.
Proof. reflexivity. Qed.

Lemma ordList_length lo ks cs hi :
  ordList R lo ks cs hi → length cs = S (length ks).
Proof.
  revert lo ks. induction cs as [|c cs IH]; intros lo ks H; [by destruct ks|].
  destruct ks as [|k ks]; simpl in H.
  - by destruct H as [-> _].
  - destruct H as [_ H]. simpl. f_equal. by eapply IH.
Qed.

Lemma ordList_lookup lo ks cs hi (i : nat) c :
  ordList R lo ks cs hi → cs !! i = Some c → R c (lob lo ks i) (hib ks hi i).
Proof.
  revert lo ks i. induction cs as [|c0 cs IH]; intros lo ks i H Hi; [done|].
  destruct ks as [|k ks]; simpl in H.
  - destruct H as [-> H]. destruct i as [|i]; [|done].
    simpl in Hi. by injection Hi as ->.
  - destruct H as [H0 H]. destruct i as [|i].
    + simpl in Hi. by injection Hi as ->.
    + rewrite lob_cons, hib_cons. by eapply IH.
Qed.

Lemma ordList_intro lo ks cs hi :
  length cs = S (length ks) →
  (∀ (i : nat) c, cs !! i = Some c → R c (lob lo ks i) (hib ks hi i)) →
  ordList R lo ks cs hi.
Proof.
  revert lo ks. induction cs as [|c0 cs IH]; intros lo ks Hl H; [done|].
  destruct ks as [|k ks]; simpl in *.
  - destruct cs; [|done]. split; [done|]. by apply (H 0%nat).
  - split; [by apply (H 0%nat)|]. apply IH; [lia|].
    intros i c Hi. specialize (H (S i) c Hi). by rewrite lob_cons, hib_cons in H.
Qed.

Lemma ordList_iff lo ks cs hi :
  ordList R lo ks cs hi
  ↔ length cs = S (length ks)
    ∧ ∀ (i : nat) c, cs !! i = Some c → R c (lob lo ks i) (hib ks hi i).
Proof.
  split.
  - intros H. split; [by eapply ordList_length|]. intros. by eapply ordList_lookup.
  - intros [??]. by apply ordList_intro.
Qed.

End OrdList.

Section RepList.
Context {Key Val : Type} {KO : KeyOps Key}.
Implicit Types (h : list (node Key Val)) (nxt par : option addr).

Lemma nextAt_cons m (c : @atree Key Val m) cs nxt (i : nat) :
  nextAt m (c :: cs) nxt (S i) = nextAt m cs nxt i.
Proof. done. Qed.

Lemma nextAt_0 m (c : @atree Key Val m) cs nxt :
  nextAt m (c :: cs) nxt 0 = nextOf m cs nxt.
Proof. by destruct cs. Qed.

Lemma repList_iff m (R : @atree Key Val m → option addr → Prop) cs nxt :
  repList R (λ cs, nextOf m cs nxt) cs
  ↔ ∀ (i : nat) c, cs !! i = Some c → R c (nextAt m cs nxt i).
Proof.
  induction cs as [|c0 cs IH]; simpl.
  - split; [by intros _ i c|done].
  - rewrite IH. split.
    + intros [H0 H] [|i] c Hi.
      * simpl in Hi. injection Hi as ->. by rewrite nextAt_0.
      * rewrite nextAt_cons. by apply H.
    + intros H. split.
      * rewrite <- (nextAt_0 m c0). by apply (H 0%nat).
      * intros i c Hi. rewrite <- (nextAt_cons m c0). by apply (H (S i)).
Qed.

Lemma rep_S o h m (t : @atree Key Val (S m)) par nxt :
  rep o h (S m) t par nxt
  ↔ h !! t.1.1 = Some (innerNode o par t.1.2 (aaddr m <$> t.2))
    ∧ ∀ (i : nat) c, t.2 !! i = Some c →
        rep o h m c (Some t.1.1) (nextAt m t.2 nxt i).
Proof.
  change (rep o h (S m) t par nxt) with
    (h !! t.1.1 = Some (innerNode o par t.1.2 (aaddr m <$> t.2))
     ∧ repList (λ c nx, rep o h m c (Some t.1.1) nx) (λ cs, nextOf m cs nxt) t.2).
  by rewrite repList_iff.
Qed.

Lemma addrs_S m (t : @atree Key Val (S m)) :
  addrs (S m) t = t.1.1 :: concat (addrs m <$> t.2).
Proof. done. Qed.

Lemma elem_of_addrs_child m (cs : list (@atree Key Val m)) (i : nat) c x :
  cs !! i = Some c → x ∈ addrs m c → x ∈ concat (addrs m <$> cs).
Proof.
  intros Hi Hx. apply elem_of_concat. exists (addrs m c). split; [done|].
  apply list_elem_of_fmap. exists c. split; [done|]. by eapply list_elem_of_lookup_2.
Qed.

Lemma aaddr_in_addrs n (t : @atree Key Val n) : aaddr n t ∈ addrs n t.
Proof. destruct n; simpl; left. Qed.

Lemma afirst_in_addrs n (t : @atree Key Val n) : afirst n t ∈ addrs n t.
Proof.
  induction n as [|m IH]; simpl; [left|].
  destruct t as [[a ks] [|c cs]]; simpl; [left|].
  right. apply elem_of_app. left. apply IH.
Qed.

(** Memory outside the nodes of a tree does not matter. *)
Lemma rep_frame o h h' n (t : @atree Key Val n) par nxt :
  rep o h n t par nxt →
  (∀ x : nat, x ∈ addrs n t → h' !! x = h !! x) →
  rep o h' n t par nxt.
Proof.
  revert t par nxt. induction n as [|m IH]; intros t par nxt Hr Hf.
  - simpl in *. rewrite Hf; [done|left].
  - apply rep_S in Hr as [Ha Hc]. apply rep_S. split.
    + rewrite Hf; [done|]. rewrite addrs_S. left.
    + intros i c Hi. apply IH; [by apply Hc|].
      intros x Hx. apply Hf. rewrite addrs_S. right.
      by eapply elem_of_addrs_child.
Qed.

Lemma rep_top o h n (t : @atree Key Val n) par nxt :
  rep o h n t par nxt → h !! aaddr n t = Some (nodeOf o n t par nxt).
Proof.
  destruct n as [|m]; [done|]. intros Hr. apply rep_S in Hr as [Ha _]. done.
Qed.

Lemma rep_valid o h n (t : @atree Key Val n) par nxt (x : nat) :
  rep o h n t par nxt → x ∈ addrs n t → (x < length h)%nat.
Proof.
  revert t par nxt. induction n as [|m IH]; intros t par nxt Hr Hx.
  - simpl in *. apply list_elem_of_singleton in Hx as ->.
    by eapply lookup_lt_Some.
  - apply rep_S in Hr as [Ha Hc]. rewrite addrs_S in Hx.
    apply elem_of_cons in Hx as [->|Hx]; [by eapply lookup_lt_Some|].
    apply elem_of_concat in Hx as (l & Hx & Hl).
    apply list_elem_of_fmap in Hl as (c & -> & Hc').
    apply list_elem_of_lookup_1 in Hc' as [i Hi].
    eapply IH; [by apply Hc|done].
Qed.

Lemma setParent_leafNode o par kvs nxt p :
  setParent (leafNode o par kvs nxt : node Key Val) p = leafNode o p kvs nxt.
Proof. done. Qed.

Lemma setParent_innerNode o par ks cs p :
  setParent (innerNode o par ks cs : node Key Val) p = innerNode o p ks cs.
Proof. done. Qed.

Lemma setParent_nodeOf o n (t : @atree Key Val n) par nxt p :
  setParent (nodeOf o n t par nxt) p = nodeOf o n t p nxt.
Proof. by destruct n. Qed.

(** Changing the parent reference of the top node. *)
Lemma rep_reparent o h h' n (t : @atree Key Val n) par nxt p :
  rep o h n t par nxt →
  NoDup (addrs n t) →
  h' !! aaddr n t = (λ nd, setParent nd p) <$> h !! aaddr n t →
  (∀ x : nat, x ∈ addrs n t → x ≠ aaddr n t → h' !! x = h !! x) →
  rep o h' n t p nxt.
Proof.
  intros Hr Hnd Ht Hf. destruct n as [|m].
  - simpl in *. by rewrite Ht, Hr.
  - apply rep_S in Hr as [Ha Hc]. apply rep_S. simpl in Ht. split.
    + by rewrite Ht, Ha.
    + intros i c Hi. eapply rep_frame; [by apply Hc|].
      intros x Hx. rewrite addrs_S in Hnd. apply list.NoDup_cons in Hnd as [Hn _].
      assert (Hin : x ∈ concat (addrs m <$> t.2)) by by eapply elem_of_addrs_child.
      apply Hf; [rewrite addrs_S; by right|].
      simpl. intros ->. done.
Qed.

Lemma repU_reparent o h h' n (t : @atree Key Val n) nxt p :
  repU o h n t nxt →
  NoDup (addrs n t) →
  h' !! aaddr n t = (λ nd, setParent nd p) <$> h !! aaddr n t →
  (∀ x : nat, x ∈ addrs n t → x ≠ aaddr n t → h' !! x = h !! x) →
  rep o h' n t p nxt.
Proof. intros [par Hr]. by eapply rep_reparent. Qed.

Lemma rep_repU o h n (t : @atree Key Val n) par nxt :
  rep o h n t par nxt → repU o h n t nxt.
Proof. intros. by exists par. Qed.

Lemma repU_frame o h h' n (t : @atree Key Val n) nxt :
  repU o h n t nxt →
  (∀ x : nat, x ∈ addrs n t → h' !! x = h !! x) →
  repU o h' n t nxt.
Proof. intros [par Hr] Hf. exists par. by eapply rep_frame. Qed.

Lemma repU_valid o h n (t : @atree Key Val n) nxt (x : nat) :
  repU o h n t nxt → x ∈ addrs n t → (x < length h)%nat.
Proof. intros [par Hr]. by eapply rep_valid. Qed.

(** The parent reference of a node already refers to [p]. *)
Lemma rep_parent_same o h n (t : @atree Key Val n) p nxt :
  rep o h n t p nxt →
  (λ nd, setParent nd p) <$> h !! aaddr n t = h !! aaddr n t.
Proof.
  intros Hr. rewrite (rep_top _ _ _ _ _ _ Hr). simpl.
  by rewrite setParent_nodeOf.
Qed.

End RepList.


(** * [putIntoLeaf] at the leaf *)

Section PutLeaf.
Context {Key Val : Type} {KO : KeyOps Key}.
Variable o : Z.
Implicit Types (kvs : list (Key * Val)) (ks : list Key) (par nxt : option addr).

Lemma lpos_inl k ks (p : nat) :
  lpos k ks = inl p → ∃ k0, ks !! p = Some k0 ∧ compare k k0 = 0.
Proof.
  revert p. induction ks as [|k' ks IH]; intros p; [done|]. simpl.
  destruct (decide (compare k k' = 0)) as [E|E].
  - intros [= <-]. by exists k'.
  - destruct (decide (compare k k' < 0)); [done|].
    destruct (lpos k ks) as [q|q]; [|done]. intros [= <-].
    destruct (IH q eq_refl) as (k0 & ? & ?). by exists k0.
Qed.

Lemma lpos_inr k ks (p : nat) : lpos k ks = inr p → (p ≤ length ks)%nat.
Proof.
  revert p. induction ks as [|k' ks IH]; intros p; simpl.
  - intros [= <-]. lia.
  - destruct (decide (compare k k' = 0)); [done|].
    destruct (decide (compare k k' < 0)); [intros [= <-]; lia|].
    destruct (lpos k ks) as [q|q]; [done|]. intros [= <-].
    specialize (IH q eq_refl). lia.
Qed.

Lemma keys_leafNode par kvs nxt :
  keys (leafNode o par kvs nxt) = [] ++ kvs.*1 ++ replicate (Z.to_nat (o - 1) - length kvs) nilKey.
Proof. unfold leafNode, arr. cbn [keys]. by rewrite length_fmap. Qed.

Lemma pointers_leafNode par kvs nxt :
  pointers (leafNode o par kvs nxt)
  = [] ++ (vptr <$> kvs)
    ++ (replicate (Z.to_nat (o - 1) - length kvs) None ++ [PNode <$> nxt]).
Proof.
  unfold leafNode, arr. cbn [pointers]. rewrite length_fmap.
  by rewrite <- (assoc_L (++)).
Qed.

Lemma idx_pointers_leafNode par kvs nxt (p : nat) kv (pz : Z) :
  kvs !! p = Some kv → pz = Z.of_nat p →
  idx (pointers (leafNode o par kvs nxt)) pz = Some (vptr kv).
Proof.
  intros Hp ->. rewrite pointers_leafNode, idx_nat. simpl.
  rewrite lookup_app_l by (rewrite length_fmap; by eapply lookup_lt_Some).
  by rewrite list_lookup_fmap, Hp.
Qed.

Lemma idx_keys_leafNode par kvs nxt (p : nat) kv (pz : Z) :
  kvs !! p = Some kv → pz = Z.of_nat p →
  idx (keys (leafNode o par kvs nxt)) pz = Some kv.1.
Proof.
  intros Hp ->. rewrite keys_leafNode, idx_nat. simpl.
  rewrite lookup_app_l by (rewrite length_fmap; by eapply lookup_lt_Some).
  by rewrite list_lookup_fmap, Hp.
Qed.

Lemma leafSearch_leafNode par kvs nxt k :
  leafSearch (Z.to_nat (keyNum (leafNode o par kvs nxt))) (leafNode o par kvs nxt) k 0
  = Some (match lpos k (kvs.*1) with
          | inl p => inl (Z.of_nat p)
          | inr p => inr (Z.of_nat p)
          end).
Proof.
  pose proof (leafSearch_spec (leafNode o par kvs nxt) k [] (kvs.*1) _
                (keys_leafNode par kvs nxt)) as H.
  rewrite length_fmap in H. unfold len in H. change (Z.of_nat (length [])) with 0 in H.
  cbn [keyNum leafNode]. unfold len. rewrite Nat2Z.id. rewrite H.
  by destruct (lpos k kvs.*1).
Qed.

Lemma upd_pointers_leafNode par kvs nxt (p : nat) k0 v0 v (pz : Z) :
  kvs !! p = Some (k0, v0) → pz = Z.of_nat p →
  (ps ← upd (pointers (leafNode o par kvs nxt)) pz (Some (PValue v));
   Some (setPointers (leafNode o par kvs nxt) ps))
  = Some (leafNode o par (<[p := (k0, v)]> kvs) nxt).
Proof.
  intros Hp ->. assert (Hlt := lookup_lt_Some _ _ _ Hp).
  rewrite upd_nat by (rewrite pointers_leafNode; simpl;
    rewrite length_app, length_fmap; lia).
  cbn [mbind option_bind]. unfold setPointers, leafNode.
  cbn [leaf parent keys keyNum pointers]. f_equal.
  assert (Hk : (<[p := (k0, v)]> kvs).*1 = kvs.*1).
  { rewrite list_fmap_insert. simpl. apply list_insert_id.
    by rewrite list_lookup_fmap, Hp. }
  rewrite Hk. unfold len. rewrite length_insert. f_equal.
  unfold arr. rewrite !length_fmap, length_insert.
  rewrite <- !(assoc_L (++)). rewrite insert_app_l by (rewrite length_fmap; lia).
  by rewrite list_fmap_insert.
Qed.

(** What [putIntoLeaf] does at a leaf: an override, an insertion, or a
    split followed by the walk towards the root. *)
Lemma putIntoLeaf_leaf (T : BPTree Key Val) a par kvs nxt k v :
  order T = o → 3 ≤ o →
  nodes T !! a = Some (leafNode o par kvs nxt) →
  len kvs ≤ o - 1 →
  putIntoLeaf T a k v
  = match lpos k (kvs.*1) with
    | inl p =>
        match kvs !! p with
        | Some (k0, v0) =>
            Some (setNodes T (<[a := leafNode o par (<[p := (k0, v)]> kvs) nxt]> (nodes T)),
                  Some v0)
        | None => None
        end
    | inr p =>
        let all := insertAtL p (k, v) kvs in
        if decide (len kvs < o - 1) then
          Some (setSize (setNodes T (<[a := leafNode o par all nxt]> (nodes T)))
                  (size T + 1), None)
        else
          let fr := length (nodes T) in
          T'' ← putIntoLeaf_loop (fuel T)
                  (setNodes T
                     (<[a := leafNode o None (take (middle o) all) (Some fr)]> (nodes T)
                      ++ [leafNode o None (drop (middle o) all) nxt]))
                  par (amin O (fr, drop (middle o) all)) a fr;
          Some (setSize T'' (size T'' + 1), None)
    end.
Proof.
  intros Ho H3 Ha Hl. unfold putIntoLeaf. rewrite Ha. cbn [mbind option_bind].
  rewrite leafSearch_leafNode. cbn [mbind option_bind].
  destruct (lpos k kvs.*1) as [p|p] eqn:E.
  - apply lpos_inl in E as (k0 & Hk0 & _).
    rewrite list_lookup_fmap in Hk0.
    destruct (kvs !! p) as [[k1 v0]|] eqn:Hp; [|done].
    rewrite (idx_pointers_leafNode par kvs nxt p (k1, v0)) by done.
    cbn [mbind option_bind vptr asValue snd].
    pose proof (upd_pointers_leafNode par kvs nxt p k1 v0 v _ Hp eq_refl) as Hu.
    destruct (upd (pointers (leafNode o par kvs nxt)) (Z.of_nat p) (Some (PValue v)))
      as [ps|]; [|done].
    cbn [mbind option_bind] in Hu |- *. apply (inj Some) in Hu. by rewrite Hu.
  - apply lpos_inr in E. rewrite length_fmap in E. cbv zeta.
    assert (Hkn : keyNum (leafNode o par kvs nxt) = len kvs) by done.
    assert (Hlk : len (keys (leafNode o par kvs nxt)) = o - 1).
    { unfold leafNode. cbn [keys]. apply len_arr. rewrite len_fmap. lia. }
    rewrite Hkn, Hlk.
    destruct (decide (len kvs < o - 1)) as [Hnf|Hf].
    + pose proof (insertAt_leafNode o par kvs nxt p k v _ E Hnf eq_refl) as Hi.
      unfold insertAt in Hi. rewrite Hkn in Hi. cbn [leaf leafNode] in Hi.
      rewrite forDown_shiftRight2.
      destruct (forDown _ _ shiftRight (keys _)) as [ks1|]; [|done].
      cbn [mbind option_bind] in Hi |- *.
      destruct (forDown _ _ shiftRight (pointers _)) as [ps1|]; [|done].
      cbn [mbind option_bind] in Hi |- *.
      destruct (upd ks1 _ _) as [ks2|]; [|done].
      cbn [mbind option_bind] in Hi |- *.
      destruct (upd ps1 _ _) as [ps2|]; [|done].
      cbn [mbind option_bind] in Hi |- *.
      apply (inj Some) in Hi.
      change (leaf (leafNode o par kvs nxt)) with true in *.
      change (parent (leafNode o par kvs nxt)) with par in *.
      rewrite Hi. done.
    + assert (Hfull : len kvs = o - 1) by lia.
      rewrite (putIntoLeafAndSplit_leafNode o T a par kvs nxt p k v) by done.
      cbn [mbind option_bind parent leafNode nodes setNodes].
      rewrite lookup_app_r by (rewrite length_insert; lia).
      rewrite length_insert, Nat.sub_diag. cbn [lookup list_lookup mbind option_bind].
      pose proof (middle_bounds o H3) as HM. pose proof (middle_Z o H3) as HMZ.
      destruct (drop (middle o) (insertAtL p (k, v) kvs)) as [|kv rest] eqn:Ed.
      { apply (f_equal length) in Ed. rewrite length_drop, length_insertAtL in Ed.
        unfold len in *. simpl in Ed. lia. }
      rewrite (idx_keys_leafNode None (kv :: rest) nxt 0%nat kv) by done.
      cbn [mbind option_bind]. done.
Qed.

End PutLeaf.


(** * Bounds of children *)

Section Bounds.
Context {Key : Type} {KO : KeyOps Key} {KL : KeyLaws Key}.
Implicit Types (lo hi : option Key) (ks : list Key) (x k : Key).

Lemma optLt_trans lo k hi : optLt lo (Some k) → ltOpt k hi → optLt lo hi.
Proof.
  destruct lo as [l|]; [|done]. destruct hi as [u|]; [|done]. simpl.
  apply klt_trans.
Qed.

Lemma leOpt_trans lo k x : optLt lo (Some k) → compare k x ≤ 0 → leOpt lo x.
Proof.
  destruct lo as [l|]; [|done]. simpl. intros H1 H2.
  apply klt_le. by eapply klt_le_trans.
Qed.

Lemma optLt_leOpt lo x : optLt lo (Some x) → leOpt lo x.
Proof. destruct lo; [|done]. simpl. apply klt_le. Qed.

Lemma ltOpt_trans x k hi : klt x k → ltOpt k hi → ltOpt x hi.
Proof. destruct hi as [u|]; [|done]. simpl. apply klt_trans. Qed.

Lemma ltOpt_le_trans x k hi : compare x k ≤ 0 → ltOpt k hi → ltOpt x hi.
Proof. destruct hi as [u|]; [|done]. simpl. apply kle_lt_trans. Qed.

Lemma leOpt_lt lo x y : leOpt lo x → klt x y → optLt lo (Some y).
Proof. destruct lo as [l|]; [|done]. simpl. apply kle_lt_trans. Qed.

Lemma leOpt_le lo x y : leOpt lo x → compare x y ≤ 0 → leOpt lo y.
Proof. destruct lo as [l|]; [|done]. simpl. apply kle_trans. Qed.

(** ** Bounds after the keys change *)

Lemma lob_insertAtL_le lo ks x (i j : nat) :
  (j ≤ i)%nat → (i ≤ length ks)%nat → lob lo (insertAtL i x ks) j = lob lo ks j.
Proof.
  intros. destruct j as [|j]; [done|]. simpl.
  apply insertAtL_lookup_lt; lia.
Qed.

Lemma lob_insertAtL_eq lo ks x (i : nat) :
  (i ≤ length ks)%nat → lob lo (insertAtL i x ks) (S i) = Some x.
Proof. intros. simpl. by apply insertAtL_lookup_eq. Qed.

Lemma lob_insertAtL_gt lo ks x (i j : nat) :
  (S i < j)%nat → (i ≤ length ks)%nat →
  lob lo (insertAtL i x ks) j = lob lo ks (pred j).
Proof.
  intros. destruct j as [|[|j]]; [lia..|]. simpl.
  rewrite insertAtL_lookup_gt by lia. f_equal. lia.
Qed.

Lemma hib_insertAtL_lt ks hi x (i j : nat) :
  (j < i)%nat → (i ≤ length ks)%nat → hib (insertAtL i x ks) hi j = hib ks hi j.
Proof. intros. unfold hib. by rewrite insertAtL_lookup_lt. Qed.

Lemma hib_insertAtL_eq ks hi x (i : nat) :
  (i ≤ length ks)%nat → hib (insertAtL i x ks) hi i = Some x.
Proof. intros. unfold hib. by rewrite insertAtL_lookup_eq. Qed.

Lemma hib_insertAtL_gt ks hi x (i j : nat) :
  (i < j)%nat → (i ≤ length ks)%nat →
  hib (insertAtL i x ks) hi j = hib ks hi (pred j).
Proof.
  intros. unfold hib. rewrite insertAtL_lookup_gt by done.
  replace (j - 1)%nat with (pred j) by lia. done.
Qed.

Lemma lob_take lo ks (m j : nat) : (j ≤ m)%nat → lob lo (take m ks) j = lob lo ks j.
Proof. intros. destruct j as [|j]; [done|]. simpl. apply lookup_take_lt. lia. Qed.

Lemma hib_take_lt ks hi hi' (m j : nat) :
  (j < m)%nat → (m ≤ length ks)%nat → hib (take m ks) hi' j = hib ks hi j.
Proof.
  intros. unfold hib. rewrite lookup_take_lt by done.
  destruct (lookup_lt_is_Some_2 ks j) as [kj ->]; [lia|]. done.
Qed.

Lemma hib_take_eq ks hi' (m : nat) : hib (take m ks) hi' m = hi'.
Proof.
  unfold hib. rewrite lookup_ge_None_2; [done|]. rewrite length_take. lia.
Qed.

Lemma lob_drop_0 s ks (m : nat) : lob (Some s) (drop (S m) ks) 0 = Some s.
Proof. done. Qed.

Lemma lob_drop_S lo' lo ks (m j : nat) :
  lob lo' (drop m ks) (S j) = lob lo ks (m + S j).
Proof.
  simpl. rewrite lookup_drop. replace (m + S j)%nat with (S (m + j)) by lia. done.
Qed.

Lemma hib_drop ks hi (m j : nat) : hib (drop m ks) hi j = hib ks hi (m + j).
Proof. unfold hib. by rewrite lookup_drop. Qed.

End Bounds.

Section OrdLists.
Context {Key : Type} {KO : KeyOps Key} {KL : KeyLaws Key} {T : Type}.
Variable R : T → option Key → option Key → Prop.
Hypothesis R_optLt : ∀ c lo hi, R c lo hi → optLt lo hi.
Implicit Types (lo hi : option Key) (ks : list Key) (cs : list T).

Lemma ordList_bounds lo ks cs hi :
  ordList R lo ks cs hi →
  optLt lo hi ∧ sortedK ks ∧ Forall (λ x, optLt lo (Some x) ∧ ltOpt x hi) ks.
Proof.
  revert lo cs. induction ks as [|k ks IH]; intros lo cs H.
  - destruct cs as [|c cs]; [done|]. simpl in H. destruct H as [_ H].
    split_and!; [by eapply R_optLt|done|constructor].
  - destruct cs as [|c cs]; [done|]. simpl in H. destruct H as [H0 H].
    apply IH in H as (H1 & H2 & H3). apply R_optLt in H0.
    split_and!.
    + by eapply optLt_trans.
    + apply sortedK_cons. split; [|done].
      eapply list.Forall_impl; [exact H3|]. intros x [Hx _]. exact Hx.
    + constructor; [done|].
      eapply list.Forall_impl; [exact H3|]. intros x [Hx Hx']. split; [|done].
      eapply optLt_trans; [exact H0|]. exact Hx.
Qed.

Lemma ordList_sorted lo ks cs hi : ordList R lo ks cs hi → sortedK ks.
Proof. intros H. by apply ordList_bounds in H as (_ & ? & _). Qed.

(** The bounds of a child are within the bounds of the node. *)
Lemma ordList_lob_le lo ks cs hi (i : nat) x :
  ordList R lo ks cs hi → (i ≤ length ks)%nat → leOpt (lob lo ks i) x → leOpt lo x.
Proof.
  intros H Hi Hx. apply ordList_bounds in H as (_ & _ & H).
  destruct i as [|j]; [exact Hx|]. simpl in Hx.
  destruct (lookup_lt_is_Some_2 ks j) as [kj Hj]; [lia|].
  rewrite Hj in Hx. simpl in Hx.
  rewrite list.Forall_forall in H.
  destruct (H kj) as [H1 _]; [by eapply list_elem_of_lookup_2|].
  by eapply leOpt_trans.
Qed.

Lemma ordList_hib_lt lo ks cs hi (i : nat) x :
  ordList R lo ks cs hi → ltOpt x (hib ks hi i) → ltOpt x hi.
Proof.
  intros H Hx. apply ordList_bounds in H as (_ & _ & H).
  unfold hib in Hx. destruct (ks !! i) as [ki|] eqn:Hi; [|done]. simpl in Hx.
  rewrite list.Forall_forall in H.
  destruct (H ki) as [_ H2]; [by eapply list_elem_of_lookup_2|].
  by eapply ltOpt_trans.
Qed.

(** Replacing a child. *)
Lemma ordList_insert lo ks cs hi (i : nat) c' :
  ordList R lo ks cs hi →
  R c' (lob lo ks i) (hib ks hi i) →
  ordList R lo ks (<[i := c']> cs) hi.
Proof.
  intros H Hc. apply ordList_iff in H as [Hl H]. apply ordList_iff.
  split; [by rewrite length_insert|].
  intros j c Hj. destruct (decide (j = i)) as [->|Hne].
  - apply list_lookup_insert_Some in Hj as [(_ & <- & _)|[? _]]; done.
  - rewrite list_lookup_insert_ne in Hj by done. by apply H.
Qed.

(** Replacing a child by the two halves of its split. *)
Lemma ordList_split_child lo ks cs hi (i : nat) cl sep cr :
  ordList R lo ks cs hi → (i < length cs)%nat →
  R cl (lob lo ks i) (Some sep) →
  R cr (Some sep) (hib ks hi i) →
  ordList R lo (insertAtL i sep ks) (take i cs ++ cl :: cr :: drop (S i) cs) hi.
Proof.
  intros H Hi Hl Hr. apply ordList_iff in H as [Hlen H]. apply ordList_iff.
  assert (Hik : (i ≤ length ks)%nat) by lia.
  split.
  - rewrite length_app, length_take, length_insertAtL. simpl.
    rewrite length_drop. lia.
  - intros j c Hj.
    destruct (decide (j < i)%nat) as [Hlt|Hge].
    + rewrite lookup_app_l in Hj by (rewrite length_take; lia).
      rewrite lookup_take_lt in Hj by done.
      rewrite lob_insertAtL_le, (hib_insertAtL_lt ks hi) by lia. by apply H.
    + rewrite lookup_app_r in Hj by (rewrite length_take; lia).
      rewrite length_take, Nat.min_l in Hj by lia.
      destruct (j - i)%nat as [|[|d]] eqn:E.
      * assert (j = i) as -> by lia. simpl in Hj. injection Hj as <-.
        rewrite lob_insertAtL_le, hib_insertAtL_eq by lia. done.
      * assert (j = S i) as -> by lia. simpl in Hj. injection Hj as <-.
        rewrite lob_insertAtL_eq, (hib_insertAtL_gt ks hi) by lia. done.
      * simpl in Hj. rewrite lookup_drop in Hj.
        rewrite lob_insertAtL_gt, (hib_insertAtL_gt ks hi) by lia.
        replace (S i + d)%nat with (pred j) in Hj by lia. by apply H.
Qed.

(** Cutting a node at the key [s] of position [m]. *)
Lemma ordList_cut lo ks cs hi (m : nat) s :
  ordList R lo ks cs hi → ks !! m = Some s →
  ordList R lo (take m ks) (take (S m) cs) (Some s)
  ∧ ordList R (Some s) (drop (S m) ks) (drop (S m) cs) hi.
Proof.
  intros H Hm. apply ordList_iff in H as [Hlen H].
  assert (Hml := lookup_lt_Some _ _ _ Hm).
  split; apply ordList_iff.
  - split; [rewrite !length_take; lia|].
    intros j c Hj. apply lookup_take_Some in Hj as [Hj Hjm].
    rewrite lob_take by lia. destruct (decide (j = m)) as [->|Hne].
    + rewrite hib_take_eq. specialize (H m c Hj). unfold hib in H.
      by rewrite Hm in H.
    + rewrite (hib_take_lt ks hi) by lia. by apply H.
  - split; [rewrite !length_drop; lia|].
    intros j c Hj. rewrite lookup_drop in Hj. rewrite hib_drop.
    specialize (H _ c Hj). destruct j as [|j].
    + replace (S m + 0)%nat with (S m) in * by lia. simpl in H |- *.
      by rewrite Hm in H.
    + rewrite (lob_drop_S _ lo). done.
Qed.

End OrdLists.

Section Ord.
Context {Key Val : Type} {KO : KeyOps Key} {KL : KeyLaws Key}.
Implicit Types (lo hi sk : option Key) (ks : list Key).

Lemma ord_S sk m (t : @atree Key Val (S m)) lo hi :
  ord sk (S m) t lo hi = ordList (ord sk m) lo t.1.2 t.2 hi.
Proof. done. Qed.

Lemma ord_optLt sk n (t : @atree Key Val n) lo hi :
  ord sk n t lo hi → optLt lo hi.
Proof.
  revert t lo hi. induction n as [|m IH]; intros t lo hi H.
  - by destruct H as (_ & _ & _ & ?).
  - rewrite ord_S in H. by apply (ordList_bounds _ IH) in H as (? & _).
Qed.

Lemma ord_sorted sk m (t : @atree Key Val (S m)) lo hi :
  ord sk (S m) t lo hi → sortedK t.1.2.
Proof. rewrite ord_S. apply ordList_sorted, ord_optLt. Qed.

Lemma ord_length sk m (t : @atree Key Val (S m)) lo hi :
  ord sk (S m) t lo hi → length t.2 = S (length t.1.2).
Proof. rewrite ord_S. apply ordList_length. Qed.

Lemma ord_child sk m (t : @atree Key Val (S m)) lo hi (i : nat) c :
  ord sk (S m) t lo hi → t.2 !! i = Some c →
  ord sk m c (lob lo t.1.2 i) (hib t.1.2 hi i).
Proof. rewrite ord_S. apply ordList_lookup. Qed.

End Ord.


(** * Insertion on trees: shape and references *)

Lemma in_take {A} (x : A) (n : nat) (l : list A) : x ∈ take n l → x ∈ l.
Proof. apply subseteq_take. Qed.

Lemma in_drop {A} (x : A) (n : nat) (l : list A) : x ∈ drop n l → x ∈ l.
Proof. apply subseteq_drop. Qed.

Lemma NoDup_replace {A} (P : A → Prop) (pre X X' post : list A) :
  NoDup (pre ++ X ++ post) → NoDup X' →
  (∀ x, x ∈ X' → x ∈ X ∨ ¬ P x) →
  (∀ x, x ∈ pre ++ post → P x) →
  NoDup (pre ++ X' ++ post).
Proof.
  intros Hnd HX' Hin HP.
  apply list.NoDup_app in Hnd as (Hpre & Hd1 & Hnd).
  apply list.NoDup_app in Hnd as (HX & Hd2 & Hpost).
  apply list.NoDup_app. split_and!; [done| |].
  - intros x Hx Hx'. apply elem_of_app in Hx' as [Hx'|Hx'].
    + destruct (Hin x Hx') as [HxX|HnP].
      * apply (Hd1 x Hx). apply elem_of_app. by left.
      * apply HnP, HP. apply elem_of_app. by left.
    + apply (Hd1 x Hx). apply elem_of_app. by right.
  - apply list.NoDup_app. split_and!; [done| |done].
    intros x Hx Hx'. destruct (Hin x Hx) as [HxX|HnP].
    + by apply (Hd2 x).
    + apply HnP, HP. apply elem_of_app. by right.
Qed.

Section PutShape.
Context {Key Val : Type} {KO : KeyOps Key}.
Variable o : Z.
Hypothesis o_ge_3 : 3 ≤ o.
Implicit Types (k : Key) (v : Val) (fr : addr).

Lemma afirst_S m (t : @atree Key Val (S m)) :
  afirst (S m) t = match t.2 !! 0%nat with Some c => afirst m c | None => t.1.1 end.
Proof. destruct t as [[a ks] [|c cs]]; done. Qed.

Lemma concat_addrs_middle m (cs : list (@atree Key Val m)) (i : nat) c :
  cs !! i = Some c →
  concat (addrs m <$> cs)
  = concat (addrs m <$> take i cs) ++ addrs m c ++ concat (addrs m <$> drop (S i) cs).
Proof.
  intros Hi. rewrite <- (take_drop_middle cs i c Hi) at 1.
  rewrite fmap_app, concat_app. by rewrite fmap_cons.
Qed.

Lemma concat_addrs_insert m (cs : list (@atree Key Val m)) (i : nat) c' :
  (i < length cs)%nat →
  concat (addrs m <$> <[i := c']> cs)
  = concat (addrs m <$> take i cs) ++ addrs m c' ++ concat (addrs m <$> drop (S i) cs).
Proof.
  intros Hi. rewrite insert_take_drop by done.
  rewrite fmap_app, concat_app. by rewrite fmap_cons.
Qed.

Lemma concat_addrs_split m (l1 l2 : list (@atree Key Val m)) tl tr :
  concat (addrs m <$> (l1 ++ tl :: tr :: l2))
  = concat (addrs m <$> l1) ++ (addrs m tl ++ addrs m tr) ++ concat (addrs m <$> l2).
Proof.
  rewrite fmap_app, concat_app, !fmap_cons. simpl.
  by rewrite <- !(assoc_L (++)).
Qed.

(** The references of the children of a node are distinct. *)
Lemma NoDup_aaddr_children m (cs : list (@atree Key Val m)) :
  NoDup (concat (addrs m <$> cs)) → NoDup (aaddr m <$> cs).
Proof.
  induction cs as [|c cs IH]; [constructor|].
  rewrite !fmap_cons. simpl. intros Hnd.
  apply list.NoDup_app in Hnd as (_ & Hd & Hnd).
  apply list.NoDup_cons. split; [|by apply IH].
  intros Hin. apply (Hd (aaddr m c)); [apply aaddr_in_addrs|].
  apply list_elem_of_fmap in Hin as (c' & Hc' & Hin).
  apply elem_of_concat. exists (addrs m c'). split.
  - rewrite Hc'. apply aaddr_in_addrs.
  - by apply list_elem_of_fmap_2.
Qed.

Lemma aaddr_children_in m (cs : list (@atree Key Val m)) (x : addr) :
  x ∈ aaddr m <$> cs → x ∈ concat (addrs m <$> cs).
Proof.
  intros Hin. apply list_elem_of_fmap in Hin as (c & -> & Hin).
  apply elem_of_concat. exists (addrs m c). split; [apply aaddr_in_addrs|].
  by apply list_elem_of_fmap_2.
Qed.

Lemma treePut_S fr m (t : @atree Key Val (S m)) k v :
  treePut o fr (S m) t k v
  = let i := cpos k t.1.2 in
    match t.2 !! i with
    | None => (ISame t, None)
    | Some c =>
        match treePut o fr m c k v with
        | (ISame c', old) => (ISame (t.1, <[i := c']> t.2), old)
        | (ISplit cl sep cr, old) =>
            let ks := insertAtL i sep t.1.2 in
            let cs := take i t.2 ++ cl :: cr :: drop (S i) t.2 in
            if decide (len t.1.2 < o - 1) then (ISame (t.1.1, ks, cs), old)
            else
              (ISplit (t.1.1, take (middle o) ks, take (S (middle o)) cs)
                 (default nilKey (ks !! middle o))
                 ((fr + S m)%nat, drop (S (middle o)) ks, drop (S (middle o)) cs),
               old)
        end
    end.
Proof. done. Qed.

Lemma put_shape fr n (t : @atree Key Val n) k v :
  match (treePut o fr n t k v).1 with
  | ISame t' => aaddr n t' = aaddr n t ∧ afirst n t' = afirst n t
  | ISplit tl _ tr =>
      aaddr n tl = aaddr n t ∧ afirst n tl = afirst n t ∧ aaddr n tr = (fr + n)%nat
  end.
Proof.
  revert t. induction n as [|m IH]; intros t.
  - simpl. unfold leafPut.
    destruct (lpos k t.2.*1) as [p|p].
    + destruct (t.2 !! p) as [[k0 v0]|]; done.
    + case_decide; simpl; [done|]. split_and!; [done..|lia].
  - rewrite treePut_S. cbv zeta.
    destruct (t.2 !! cpos k t.1.2) as [c|] eqn:Hc; [|done].
    specialize (IH c). destruct (treePut o fr m c k v) as [[c'|cl sep cr] old].
    + cbn [fst] in IH |- *. destruct IH as [IH1 IH2]. split; [done|].
      rewrite !afirst_S. cbn [fst snd].
      destruct (decide (cpos k t.1.2 = 0%nat)) as [E|E].
      * rewrite E in Hc |- *. rewrite list_lookup_insert_eq by (by eapply lookup_lt_Some).
        by rewrite Hc.
      * by rewrite list_lookup_insert_ne.
    + cbn [fst] in IH. destruct IH as (IH1 & IH2 & IH3).
      assert (Hfirst : ∀ rest,
        (take (cpos k t.1.2) t.2 ++ cl :: rest) !! 0%nat
        = Some (match t.2 !! 0%nat with
                | Some c0 => if decide (cpos k t.1.2 = 0%nat) then cl else c0
                | None => cl end)).
      { intros rest. destruct (cpos k t.1.2) as [|i] eqn:E.
        - simpl. by rewrite Hc.
        - destruct t as [[a ks] [|c0 cs0]]; [done|]. done. }
      assert (Haf : ∀ c0, t.2 !! 0%nat = Some c0 →
        afirst m (if decide (cpos k t.1.2 = 0%nat) then cl else c0) = afirst m c0).
      { intros c0 Hc0. case_decide as E; [|done].
        rewrite E, Hc0 in Hc. injection Hc as ->. done. }
      destruct (decide (len t.1.2 < o - 1)); cbn [fst].
      * split; [done|]. rewrite !afirst_S. cbn [fst snd]. rewrite Hfirst.
        destruct (t.2 !! 0%nat) as [c0|] eqn:Hc0; [by apply Haf|].
        apply lookup_ge_None in Hc0. apply lookup_lt_Some in Hc. lia.
      * split_and!; [done| |done]. rewrite !afirst_S. cbn [fst snd].
        rewrite lookup_take_lt by lia. rewrite Hfirst.
        destruct (t.2 !! 0%nat) as [c0|] eqn:Hc0; [by apply Haf|].
        apply lookup_ge_None in Hc0. apply lookup_lt_Some in Hc. lia.
Qed.

(** ** References *)

Lemma put_addrs fr n (t : @atree Key Val n) k v :
  NoDup (addrs n t) → (∀ x, x ∈ addrs n t → (x < fr)%nat) →
  match (treePut o fr n t k v).1 with
  | ISame t' =>
      NoDup (addrs n t')
      ∧ ∀ x, x ∈ addrs n t' → x ∈ addrs n t ∨ (fr ≤ x < fr + n)%nat
  | ISplit tl _ tr =>
      NoDup (addrs n tl ++ addrs n tr)
      ∧ ∀ x, x ∈ addrs n tl ++ addrs n tr → x ∈ addrs n t ∨ (fr ≤ x < fr + S n)%nat
  end.
Proof.
  revert t. induction n as [|m IH]; intros t Hnd Hlt.
  - simpl. unfold leafPut.
    destruct (lpos k t.2.*1) as [p|p].
    + destruct (t.2 !! p) as [[k0 v0]|]; simpl; (split; [done|]); by left.
    + case_decide; simpl.
      * split; [done|]. by left.
      * split.
        -- apply list.NoDup_cons. split; [|apply NoDup_singleton].
           intros Hx%list_elem_of_singleton. specialize (Hlt t.1).
           simpl in Hlt. assert (t.1 < fr)%nat by (apply Hlt; left). lia.
        -- intros x Hx. apply elem_of_cons in Hx as [->|Hx]; [left; left|].
           apply list_elem_of_singleton in Hx as ->. right. lia.
  - rewrite treePut_S. cbv zeta.
    destruct (t.2 !! cpos k t.1.2) as [c|] eqn:Hc.
    2:{ simpl. split; [done|]. by left. }
    set (i := cpos k t.1.2) in *.
    assert (Hi := lookup_lt_Some _ _ _ Hc).
    rewrite addrs_S in Hnd, Hlt.
    rewrite (concat_addrs_middle m t.2 i c Hc) in Hnd, Hlt.
    assert (Hndc : NoDup (addrs m c)).
    { apply list.NoDup_cons in Hnd as [_ Hnd].
      apply list.NoDup_app in Hnd as (_ & _ & Hnd).
      by apply list.NoDup_app in Hnd as (? & _ & _). }
    assert (Hltc : ∀ x, x ∈ addrs m c → (x < fr)%nat).
    { intros x Hx. apply Hlt. right. apply elem_of_app. right.
      apply elem_of_app. by left. }
    specialize (IH c Hndc Hltc).
    assert (Hold : ∀ x,
      x ∈ [t.1.1] ++ concat (addrs m <$> take i t.2)
          ++ concat (addrs m <$> drop (S i) t.2) → (x < fr)%nat).
    { intros x Hx. apply Hlt. simpl in Hx.
      apply elem_of_cons in Hx as [->|Hx]; [left|]. right.
      apply elem_of_app in Hx as [Hx|Hx]; apply elem_of_app; [by left|].
      right. apply elem_of_app. by right. }
    assert (Hrepl : ∀ X', NoDup X' →
      (∀ x, x ∈ X' → x ∈ addrs m c ∨ (fr ≤ x < fr + S m)%nat) →
      NoDup (t.1.1 :: concat (addrs m <$> take i t.2) ++ X'
             ++ concat (addrs m <$> drop (S i) t.2))
      ∧ ∀ x, x ∈ t.1.1 :: concat (addrs m <$> take i t.2) ++ X'
             ++ concat (addrs m <$> drop (S i) t.2) →
          x ∈ t.1.1 :: concat (addrs m <$> take i t.2) ++ addrs m c
             ++ concat (addrs m <$> drop (S i) t.2)
          ∨ (fr ≤ x < fr + S m)%nat).
    { intros X' HX' Hin. split.
      - change (NoDup (([t.1.1] ++ concat (addrs m <$> take i t.2)) ++ X'
                       ++ concat (addrs m <$> drop (S i) t.2))).
        apply (NoDup_replace (λ x, x < fr)%nat _ (addrs m c)); [done|done| |].
        + intros x Hx. destruct (Hin x Hx); [by left|right; lia].
        + intros x Hx. apply Hold. by rewrite <- (assoc_L (++)) in Hx.
      - intros x Hx. apply elem_of_cons in Hx as [->|Hx]; [left; left|].
        apply elem_of_app in Hx as [Hx|Hx].
        { left. right. apply elem_of_app. by left. }
        apply elem_of_app in Hx as [Hx|Hx].
        + destruct (Hin x Hx); [|by right]. left. right.
          apply elem_of_app. right. apply elem_of_app. by left.
        + left. right. apply elem_of_app. right. apply elem_of_app. by right. }
    destruct (treePut o fr m c k v) as [[c'|cl sep cr] old]; cbn [fst] in IH.
    + cbn [fst]. rewrite addrs_S. cbn [fst snd]. rewrite concat_addrs_insert by done.
      destruct IH as [IH1 IH2].
      destruct (Hrepl (addrs m c') IH1) as [H1 H2].
      { intros x Hx. destruct (IH2 x Hx); [by left|right; lia]. }
      split; [done|]. intros x Hx. destruct (H2 x Hx) as [Hx'|Hx']; [|by right].
      left. rewrite addrs_S, (concat_addrs_middle m t.2 i c Hc). done.
    + destruct IH as [IH1 IH2].
      destruct (Hrepl (addrs m cl ++ addrs m cr) IH1 IH2) as [H1 H2].
      destruct (decide (len t.1.2 < o - 1)); cbn [fst].
      * rewrite addrs_S. cbn [fst snd]. rewrite concat_addrs_split.
        split; [done|]. intros x Hx. destruct (H2 x Hx) as [Hx'|Hx']; [|right; lia].
        left. rewrite addrs_S, (concat_addrs_middle m t.2 i c Hc). done.
      * rewrite !addrs_S. cbn [fst snd].
        set (cs' := take i t.2 ++ cl :: cr :: drop (S i) t.2).
        assert (Hcs' : concat (addrs m <$> cs')
                       = concat (addrs m <$> take (S (middle o)) cs')
                         ++ concat (addrs m <$> drop (S (middle o)) cs')).
        { rewrite <- concat_app, <- fmap_app. by rewrite take_drop. }
        assert (Hperm :
          (t.1.1 :: concat (addrs m <$> take (S (middle o)) cs'))
            ++ (fr + S m)%nat :: concat (addrs m <$> drop (S (middle o)) cs')
          ≡ₚ (fr + S m)%nat :: t.1.1 :: concat (addrs m <$> cs')).
        { rewrite Hcs'. rewrite <- Permutation_middle. simpl. done. }
        rewrite <- concat_addrs_split in H1, H2. fold cs' in H1, H2.
        split.
        -- rewrite Hperm. apply list.NoDup_cons. split; [|done].
           intros Hx. destruct (H2 _ Hx) as [Hx'|Hx']; [|lia].
           specialize (Hlt _ Hx'). lia.
        -- intros x Hx. rewrite Hperm in Hx.
           apply elem_of_cons in Hx as [->|Hx]; [right; lia|].
           destruct (H2 x Hx) as [Hx'|Hx']; [|right; lia].
           left. rewrite (concat_addrs_middle m t.2 i c Hc). done.
Qed.

End PutShape.

(** * Insertion on trees: order *)

Section PutOrd.
Context {Key Val : Type} {KO : KeyOps Key} {KL : KeyLaws Key}.
Variable o : Z.
Hypothesis o_ge_3 : 3 ≤ o.
Implicit Types (k : Key) (v : Val) (fr : addr) (ks : list Key) (lo hi : option Key).

Lemma lpos_before k ks (p : nat) :
  (lpos k ks = inl p ∨ lpos k ks = inr p) →
  ∀ (j : nat) kj, ks !! j = Some kj → (j < p)%nat → klt kj k.
Proof.
  revert p. induction ks as [|k' ks IH]; intros p Hp j kj Hj Hlt; [done|].
  simpl in Hp.
  destruct (decide (compare k k' = 0)); [destruct Hp as [[= <-]|[=]]; lia|].
  destruct (decide (compare k k' < 0)); [destruct Hp as [[=]|[= <-]]; lia|].
  assert (Hk' : klt k' k) by (apply compare_gt; lia).
  destruct j as [|j]; [simpl in Hj; by injection Hj as <-|].
  simpl in Hj. destruct (lpos k ks) as [q|q] eqn:E.
  - destruct Hp as [[= <-]|[=]]. eapply (IH q); [by left|exact Hj|lia].
  - destruct Hp as [[=]|[= <-]]. eapply (IH q); [by right|exact Hj|lia].
Qed.

Lemma lpos_inr_at k ks (p : nat) kp :
  lpos k ks = inr p → ks !! p = Some kp → klt k kp.
Proof.
  revert p. induction ks as [|k' ks IH]; intros p Hp Hkp; [done|].
  simpl in Hp.
  destruct (decide (compare k k' = 0)); [done|].
  destruct (decide (compare k k' < 0)).
  - injection Hp as <-. simpl in Hkp. by injection Hkp as <-.
  - destruct (lpos k ks) as [q|q] eqn:E; [done|]. injection Hp as <-.
    simpl in Hkp. by apply (IH q).
Qed.

Lemma sortedK_take ks (m : nat) : sortedK ks → sortedK (take m ks).
Proof.
  intros H. rewrite <- (take_drop m ks) in H.
  by apply sortedK_app in H as (? & _ & _).
Qed.

Lemma sortedK_drop ks (m : nat) : sortedK ks → sortedK (drop m ks).
Proof.
  intros H. rewrite <- (take_drop m ks) in H.
  by apply sortedK_app in H as (_ & ? & _).
Qed.

Lemma sortedK_insertAtL ks k (p : nat) :
  sortedK ks → (p ≤ length ks)%nat →
  (∀ (j : nat) kj, ks !! j = Some kj → (j < p)%nat → klt kj k) →
  (∀ kp, ks !! p = Some kp → klt k kp) →
  sortedK (insertAtL p k ks).
Proof.
  intros Hs Hp Hb Ha. apply sortedK_intro. intros i a b Hia Hib.
  destruct (decide (S i < p)%nat).
  - rewrite insertAtL_lookup_lt in Hia, Hib by lia.
    eapply sortedK_lookup; eauto.
  - destruct (decide (S i = p)) as [<-|].
    + rewrite insertAtL_lookup_lt in Hia by lia.
      rewrite insertAtL_lookup_eq in Hib by lia. injection Hib as <-.
      eapply Hb; [exact Hia|lia].
    + destruct (decide (i = p)) as [->|].
      * rewrite insertAtL_lookup_eq in Hia by lia. injection Hia as <-.
        rewrite insertAtL_lookup_gt in Hib by lia.
        apply Ha. by replace (S p - 1)%nat with p in Hib by lia.
      * rewrite insertAtL_lookup_gt in Hia, Hib by lia.
        eapply sortedK_lookup; eauto. lia.
Qed.

Lemma elem_of_insertAtL {A} (x y : A) (l : list A) (p : nat) :
  x ∈ insertAtL p y l → x = y ∨ x ∈ l.
Proof.
  unfold insertAtL. rewrite elem_of_app, elem_of_cons.
  intros [H|[->|H]]; [right|by left|right].
  - by eapply in_take.
  - by eapply in_drop.
Qed.

Lemma lowOk_None lo ks :
  lowOk None lo ks ↔ ∀ l, lo = Some l → ks !! 0%nat = Some l.
Proof.
  unfold lowOk. destruct lo as [l|]; [|by split].
  destruct ks as [|k0 ks]; simpl.
  - split; [done|]. intros H. by specialize (H l eq_refl).
  - split.
    + intros [->|[? _]]; [|done]. by intros ? [= ->].
    + intros H. left. specialize (H l eq_refl). by injection H.
Qed.

Lemma ord_0 sk (t : @atree Key Val 0) lo hi :
  ord sk 0 t lo hi
  = (sortedK (t.2.*1) ∧ Forall (λ k, ltOpt k hi) (t.2.*1)
     ∧ lowOk sk lo (t.2.*1) ∧ optLt lo hi).
Proof. done. Qed.

Lemma leafPut_ord fr (t : @atree Key Val 0) k v lo hi :
  ord None 0 t lo hi → leOpt lo k → ltOpt k hi →
  match (leafPut o fr t k v).1 with
  | ISame t' => ord None 0 t' lo hi
  | ISplit tl sep tr => ord None 0 tl lo (Some sep) ∧ ord None 0 tr (Some sep) hi
  end.
Proof.
  intros Hord Hlo Hhi. pose proof Hord as Hord0.
  rewrite ord_0 in Hord. destruct Hord as (Hs & Hf & Hl & Hlh).
  unfold leafPut. destruct (lpos k t.2.*1) as [p|p] eqn:E.
  - destruct (t.2 !! p) as [[k0 v0]|] eqn:Hp; [|done]. cbn [fst].
    rewrite ord_0. cbn [fst snd].
    assert (Hk : (<[p := (k0, v)]> t.2).*1 = t.2.*1).
    { rewrite list_fmap_insert. simpl. apply list_insert_id.
      by rewrite list_lookup_fmap, Hp. }
    by rewrite Hk.
  - cbv zeta.
    assert (Hp := lpos_inr _ _ _ E).
    assert (Hbefore := lpos_before k _ p (or_intror E)).
    assert (Hat := λ kp, lpos_inr_at k _ p kp E).
    set (all := insertAtL p (k, v) t.2).
    assert (Hall : all.*1 = insertAtL p k (t.2.*1)) by apply fmap_insertAtL.
    assert (Hsall : sortedK (all.*1)) by (rewrite Hall; by apply sortedK_insertAtL).
    assert (Hfall : Forall (λ x, ltOpt x hi) (all.*1)).
    { rewrite Hall. apply list.Forall_forall. intros x Hx.
      apply elem_of_insertAtL in Hx as [->|Hx]; [done|].
      rewrite list.Forall_forall in Hf. by apply Hf. }
    assert (Hlall : lowOk None lo (all.*1)).
    { apply lowOk_None. intros l ->. rewrite lowOk_None in Hl.
      specialize (Hl l eq_refl). rewrite Hall.
      destruct p as [|p].
      - specialize (Hat l Hl). simpl in Hlo. unfold klt in Hat.
        apply compare_flip in Hat. lia.
      - rewrite insertAtL_lookup_lt by lia. done. }
    destruct (decide (len t.2 < o - 1)) as [Hnf|Hfull]; cbn [fst].
    + rewrite ord_0. done.
    + pose proof (middle_bounds o o_ge_3) as HM.
      pose proof (middle_Z o o_ge_3) as HMZ.
      assert (Hlen : (middle o < length (all.*1))%nat).
      { rewrite Hall, length_insertAtL, length_fmap. unfold len in *. lia. }
      destruct (lookup_lt_is_Some_2 _ _ Hlen) as [s Hs'].
      assert (Hamin : amin 0 (fr, drop (middle o) all) = s).
      { simpl. rewrite list_lookup_fmap in Hs'.
        destruct (drop (middle o) all) as [|kv rest] eqn:Ed.
        - apply (f_equal length) in Ed. rewrite length_drop in Ed.
          rewrite length_fmap in Hlen. simpl in Ed. lia.
        - apply (f_equal (λ l, l !! 0%nat)) in Ed. rewrite lookup_drop in Ed.
          rewrite Nat.add_0_r in Ed. rewrite Ed in Hs'. simpl in Hs'.
          by injection Hs'. }
      rewrite Hamin. rewrite !ord_0. cbn [fst snd].
      rewrite fmap_take, fmap_drop. split; split_and!.
      * by apply sortedK_take.
      * apply list.Forall_forall. intros x Hx.
        apply list_elem_of_lookup_1 in Hx as [j Hj].
        apply lookup_take_Some in Hj as [Hj Hjm]. simpl.
        eapply sortedK_lookup; eauto.
      * apply lowOk_None. intros l ->. rewrite lowOk_None in Hlall.
        rewrite lookup_take_lt by lia. by apply Hlall.
      * destruct lo as [l|]; [|done]. simpl.
        rewrite lowOk_None in Hlall. specialize (Hlall l eq_refl).
        eapply sortedK_lookup; eauto. lia.
      * by apply sortedK_drop.
      * apply list.Forall_forall. intros x Hx. rewrite list.Forall_forall in Hfall.
        apply Hfall. by eapply in_drop.
      * apply lowOk_None. intros l [= <-]. rewrite lookup_drop, Nat.add_0_r. done.
      * simpl. rewrite list.Forall_forall in Hfall. apply Hfall.
        by eapply list_elem_of_lookup_2.
Qed.

Lemma put_ord fr n (t : @atree Key Val n) k v lo hi :
  ord None n t lo hi → leOpt lo k → ltOpt k hi →
  match (treePut o fr n t k v).1 with
  | ISame t' => ord None n t' lo hi
  | ISplit tl sep tr => ord None n tl lo (Some sep) ∧ ord None n tr (Some sep) hi
  end.
Proof.
  revert t lo hi. induction n as [|m IH]; intros t lo hi Hord Hlo Hhi.
  - by apply leafPut_ord.
  - rewrite treePut_S. cbv zeta.
    destruct (t.2 !! cpos k t.1.2) as [c|] eqn:Hc; [|done].
    set (i := cpos k t.1.2) in *.
    assert (Hi := lookup_lt_Some _ _ _ Hc).
    assert (Hlen := ord_length _ _ _ _ _ Hord).
    assert (Hcord := ord_child _ _ _ _ _ _ _ Hord Hc).
    specialize (IH c _ _ Hcord (cpos_lob k _ lo Hlo) (cpos_hib k _ hi Hhi)).
    rewrite ord_S in Hord.
    destruct (treePut o fr m c k v) as [[c'|cl sep cr] old]; cbn [fst] in IH |- *.
    + rewrite ord_S. cbn [fst snd]. by apply ordList_insert.
    + destruct IH as [IHl IHr].
      assert (Hsplit := ordList_split_child _ _ _ _ _ _ _ _ _ Hord Hi IHl IHr).
      destruct (decide (len t.1.2 < o - 1)) as [Hnf|Hfull]; cbn [fst].
      * rewrite ord_S. done.
      * pose proof (middle_bounds o o_ge_3) as HM.
        pose proof (middle_Z o o_ge_3) as HMZ.
        destruct (lookup_lt_is_Some_2 (insertAtL i sep t.1.2) (middle o)) as [s Hs].
        { rewrite length_insertAtL. unfold len in *. lia. }
        rewrite Hs. cbn [default from_option]. rewrite !ord_S. cbn [fst snd].
        by apply (ordList_cut _ _ _ _ _ _ _ Hsplit Hs).
Qed.

(** The promoted key goes where the key went. *)
Lemma put_sep_pos fr m (t : @atree Key Val (S m)) k v lo hi c cl sep cr old :
  ord None (S m) t lo hi → leOpt lo k → ltOpt k hi →
  t.2 !! cpos k t.1.2 = Some c →
  treePut o fr m c k v = (ISplit cl sep cr, old) →
  cpos sep t.1.2 = cpos k t.1.2.
Proof.
  intros Hord Hlo Hhi Hc Hput.
  assert (Hcord := ord_child _ _ _ _ _ _ _ Hord Hc).
  pose proof (put_ord fr m c k v _ _ Hcord (cpos_lob k _ lo Hlo) (cpos_hib k _ hi Hhi))
    as H.
  rewrite Hput in H. cbn [fst] in H. destruct H as [Hl Hr].
  apply ord_optLt in Hl, Hr.
  apply (cpos_between sep _ lo hi).
  - by eapply ord_sorted.
  - apply cpos_le.
  - by apply optLt_leOpt.
  - done.
Qed.

End PutOrd.


(** * The children of a node in memory *)

Lemma concat_disjoint {A} (ls : list (list A)) (i j : nat) l1 l2 x :
  NoDup (concat ls) → ls !! i = Some l1 → ls !! j = Some l2 → i ≠ j →
  x ∈ l1 → x ∈ l2 → False.
Proof.
  revert i j. induction ls as [|l0 ls IH]; intros i j Hnd Hi Hj Hne H1 H2; [done|].
  simpl in Hnd. apply list.NoDup_app in Hnd as (_ & Hd & Hnd).
  destruct i as [|i], j as [|j]; simpl in Hi, Hj; try done.
  - injection Hi as ->. apply (Hd x H1). apply elem_of_concat. exists l2.
    split; [done|]. by eapply list_elem_of_lookup_2.
  - injection Hj as ->. apply (Hd x H2). apply elem_of_concat. exists l1.
    split; [done|]. by eapply list_elem_of_lookup_2.
  - eapply (IH i j); eauto.
Qed.

Lemma concat_NoDup_lookup {A} (ls : list (list A)) (i : nat) l :
  NoDup (concat ls) → ls !! i = Some l → NoDup l.
Proof.
  revert i. induction ls as [|l0 ls IH]; intros i Hnd Hi; [done|].
  simpl in Hnd. apply list.NoDup_app in Hnd as (H0 & _ & Hnd).
  destruct i as [|i]; simpl in Hi; [by injection Hi as <-|]. by eapply IH.
Qed.

Section Children.
Context {Key Val : Type} {KO : KeyOps Key}.
Variable o : Z.
Implicit Types (h : list (node Key Val)) (nxt par : option addr).

Lemma children_disjoint m (cs : list (@atree Key Val m)) (i j : nat) ci cj (x : addr) :
  NoDup (concat (addrs m <$> cs)) → cs !! i = Some ci → cs !! j = Some cj → i ≠ j →
  x ∈ addrs m ci → x ∈ addrs m cj → False.
Proof.
  intros Hnd Hi Hj Hne. apply (concat_disjoint _ i j _ _ x Hnd); [| |done].
  - by rewrite list_lookup_fmap, Hi.
  - by rewrite list_lookup_fmap, Hj.
Qed.

Lemma NoDup_child m (cs : list (@atree Key Val m)) (j : nat) cj :
  NoDup (concat (addrs m <$> cs)) → cs !! j = Some cj → NoDup (addrs m cj).
Proof.
  intros Hnd Hj. apply (concat_NoDup_lookup _ j _ Hnd).
  by rewrite list_lookup_fmap, Hj.
Qed.

(** ** The leaf after a child *)

Lemma nextAt_eq m (cs cs' : list (@atree Key Val m)) nxt nxt' (j j' : nat) :
  (afirst m <$> cs !! S j) = (afirst m <$> cs' !! S j') →
  (cs !! S j = None → nxt = nxt') →
  nextAt m cs nxt j = nextAt m cs' nxt' j'.
Proof.
  unfold nextAt. intros H Hn.
  destruct (cs !! S j) as [c|], (cs' !! S j') as [c'|]; simpl in H; try done.
  by rewrite Hn.
Qed.

Lemma nextAt_insert m (cs : list (@atree Key Val m)) nxt (i j : nat) c c' :
  cs !! i = Some c → afirst m c' = afirst m c →
  nextAt m (<[i := c']> cs) nxt j = nextAt m cs nxt j.
Proof.
  intros Hi Hf. apply nextAt_eq.
  - destruct (decide (S j = i)) as [<-|].
    + rewrite list_lookup_insert_eq by (by eapply lookup_lt_Some).
      rewrite Hi. simpl. by rewrite Hf.
    + by rewrite list_lookup_insert_ne.
  - done.
Qed.

(** ** Children after their parent took them over *)

Lemma rep_children_after h1 h' m (cs : list (@atree Key Val m))
    (nx : nat → option addr) (p : addr) :
  (∀ (j : nat) cj, cs !! j = Some cj → repU o h1 m cj (nx j)) →
  NoDup (concat (addrs m <$> cs)) →
  (∀ cj, cj ∈ cs →
     h' !! aaddr m cj = (λ nd, setParent nd (Some p)) <$> h1 !! aaddr m cj) →
  (∀ x : nat, x ∈ concat (addrs m <$> cs) → x ∉ aaddr m <$> cs → h' !! x = h1 !! x) →
  ∀ (j : nat) cj, cs !! j = Some cj → rep o h' m cj (Some p) (nx j).
Proof.
  intros Hpre Hnd Htop Hrest j cj Hj.
  eapply repU_reparent.
  - by apply Hpre.
  - by eapply NoDup_child.
  - apply Htop. by eapply list_elem_of_lookup_2.
  - intros x Hx Hne. apply Hrest; [by eapply elem_of_addrs_child|].
    intros Hin. apply list_elem_of_fmap in Hin as (c' & -> & Hc').
    apply list_elem_of_lookup_1 in Hc' as [j' Hj'].
    destruct (decide (j' = j)) as [->|Hjj].
    + rewrite Hj in Hj'. injection Hj' as ->. done.
    + eapply (children_disjoint m cs j' j); eauto. apply aaddr_in_addrs.
Qed.

(** ** The children of a node whose child [i] was split *)

Section SplitChild.
Variables (m : nat) (cs : list (@atree Key Val m)) (i : nat).
Variables (c cl cr : @atree Key Val m).
Hypothesis Hc : cs !! i = Some c.

Let cs' := take i cs ++ cl :: cr :: drop (S i) cs.

Lemma split_lookup_lt (j : nat) : (j < i)%nat → cs' !! j = cs !! j.
Proof.
  intros. unfold cs'. rewrite lookup_app_l by (rewrite length_take;
    apply lookup_lt_Some in Hc; lia).
  by apply lookup_take_lt.
Qed.

Lemma split_lookup_l : cs' !! i = Some cl.
Proof.
  unfold cs'. apply lookup_lt_Some in Hc.
  rewrite lookup_app_r by (rewrite length_take; lia).
  rewrite length_take, Nat.min_l by lia. by rewrite Nat.sub_diag.
Qed.

Lemma split_lookup_r : cs' !! S i = Some cr.
Proof.
  unfold cs'. apply lookup_lt_Some in Hc.
  rewrite lookup_app_r by (rewrite length_take; lia).
  rewrite length_take, Nat.min_l by lia.
  by replace (S i - i)%nat with 1%nat by lia.
Qed.

Lemma split_lookup_gt (j : nat) : (i < j)%nat → cs' !! S j = cs !! j.
Proof.
  intros. unfold cs'. apply lookup_lt_Some in Hc.
  rewrite lookup_app_r by (rewrite length_take; lia).
  rewrite length_take, Nat.min_l by lia.
  replace (S j - i)%nat with (S (S (j - S i))) by lia. simpl.
  rewrite lookup_drop. f_equal. lia.
Qed.

Lemma split_length : length cs' = S (length cs).
Proof.
  unfold cs'. apply lookup_lt_Some in Hc.
  rewrite length_app, length_take. simpl. rewrite length_drop. lia.
Qed.

Lemma split_fmap_aaddr :
  aaddr m cl = aaddr m c →
  aaddr m <$> cs' = insertAtL (S i) (aaddr m cr) (aaddr m <$> cs).
Proof.
  intros Hl. unfold cs'. rewrite fmap_app, !fmap_cons, fmap_take, fmap_drop.
  rewrite Hl. apply insertAtL_S_lookup. by rewrite list_lookup_fmap, Hc.
Qed.

Lemma split_cases (j : nat) cj :
  cs' !! j = Some cj →
  ((j < i)%nat ∧ cs !! j = Some cj)
  ∨ (j = i ∧ cj = cl)
  ∨ (j = S i ∧ cj = cr)
  ∨ ((S i < j)%nat ∧ cs !! pred j = Some cj).
Proof.
  intros Hj. destruct (decide (j < i)%nat).
  - left. by rewrite split_lookup_lt in Hj.
  - destruct (decide (j = i)) as [->|].
    + right; left. rewrite split_lookup_l in Hj. by injection Hj.
    + destruct (decide (j = S i)) as [->|].
      * right; right; left. rewrite split_lookup_r in Hj. by injection Hj.
      * right; right; right. split; [lia|].
        destruct j as [|j]; [lia|]. rewrite split_lookup_gt in Hj by lia. done.
Qed.

Lemma split_nextAt nxt (j : nat) :
  afirst m cl = afirst m c →
  nextAt m cs' nxt j
  = if decide (j < i)%nat then nextAt m cs nxt j
    else if decide (j = i) then Some (afirst m cr)
    else nextAt m cs nxt (pred j).
Proof.
  intros Hf. pose proof (lookup_lt_Some _ _ _ Hc) as Hi.
  destruct (decide (j < i)%nat) as [Hlt|Hge].
  - apply nextAt_eq; [|intros Hn; done].
    destruct (decide (S j = i)) as [E|].
    + rewrite E, split_lookup_l, Hc. simpl. by rewrite Hf.
    + by rewrite split_lookup_lt by lia.
  - destruct (decide (j = i)) as [->|Hne].
    + unfold nextAt. by rewrite split_lookup_r.
    + destruct j as [|j]; [lia|]. simpl. apply nextAt_eq; [|done].
      by rewrite split_lookup_gt by lia.
Qed.

(** The children before the parent takes the two halves over. *)
Lemma split_children_pre h h1 a nxt :
  (∀ (j : nat) cj, cs !! j = Some cj → rep o h m cj (Some a) (nextAt m cs nxt j)) →
  NoDup (concat (addrs m <$> cs)) →
  (∀ x : nat, (x < length h)%nat → x ∉ addrs m c → h1 !! x = h !! x) →
  afirst m cl = afirst m c →
  repU o h1 m cl (Some (afirst m cr)) →
  repU o h1 m cr (nextAt m cs nxt i) →
  ∀ (j : nat) cj, cs' !! j = Some cj → repU o h1 m cj (nextAt m cs' nxt j).
Proof.
  intros Hch Hnd Hfr Hf Hl Hr j cj Hj.
  rewrite split_nextAt by done.
  assert (Hold : ∀ (j' : nat), j' ≠ i → cs !! j' = Some cj →
            repU o h1 m cj (nextAt m cs nxt j')).
  { intros j' Hne Hj'. exists (Some a). eapply rep_frame; [by apply Hch|].
    intros x Hx. apply Hfr.
    - eapply rep_valid; [by apply Hch|done].
    - intros Hx'. by eapply (children_disjoint m cs i j'). }
  apply split_cases in Hj as [[Hlt Hj]|[[-> ->]|[[-> ->]|[Hgt Hj]]]].
  - rewrite decide_True by done. apply Hold; [lia|done].
  - rewrite decide_False by lia. rewrite decide_True by done. done.
  - rewrite decide_False by lia. rewrite decide_False by lia. done.
  - rewrite decide_False by lia. rewrite decide_False by lia.
    apply Hold; [lia|done].
Qed.

(** The references of the node after the split of its child. *)
Lemma split_NoDup (fr : nat) (a : addr) :
  NoDup (a :: concat (addrs m <$> cs)) →
  (∀ x, x ∈ a :: concat (addrs m <$> cs) → (x < fr)%nat) →
  NoDup (addrs m cl ++ addrs m cr) →
  (∀ x, x ∈ addrs m cl ++ addrs m cr → x ∈ addrs m c ∨ (fr ≤ x)%nat) →
  NoDup (a :: concat (addrs m <$> cs')).
Proof.
  intros Hnd Hlt Hnd' Hin. unfold cs'. rewrite concat_addrs_split.
  rewrite (concat_addrs_middle m cs i c Hc) in Hnd, Hlt.
  change (NoDup (([a] ++ concat (addrs m <$> take i cs))
                 ++ (addrs m cl ++ addrs m cr)
                 ++ concat (addrs m <$> drop (S i) cs))).
  apply (NoDup_replace (λ x, x < fr)%nat _ (addrs m c)); [done|done| |].
  - intros x Hx. destruct (Hin x Hx); [by left|right; lia].
  - intros x Hx. apply Hlt. rewrite <- (assoc_L (++)) in Hx. simpl in Hx.
    apply elem_of_cons in Hx as [->|Hx]; [left|]. right.
    apply elem_of_app in Hx as [Hx|Hx]; apply elem_of_app; [by left|].
    right. apply elem_of_app. by right.
Qed.

End SplitChild.

End Children.


(** * [putIntoLeaf] follows [treePut] *)

Section PutSim.
Context {Key Val : Type} {KO : KeyOps Key} {KL : KeyLaws Key}.
Variable o : Z.
Hypothesis o_ge_3 : 3 ≤ o.
Implicit Types (h : list (node Key Val)) (T : BPTree Key Val) (nxt par : option addr).

Lemma setNodes_setNodes T h h' : setNodes (setNodes T h) h' = setNodes T h'.
Proof. done. Qed.

Lemma route_S m (t : @atree Key Val (S m)) k c :
  t.2 !! cpos k t.1.2 = Some c → route (S m) t k = route m c k.
Proof. intros H. simpl. by rewrite H. Qed.

Lemma occ_S lb m (t : @atree Key Val (S m)) :
  occ o lb (S m) t
  = (lb ≤ len t.1.2 ≤ o - 1 ∧ len t.2 = len t.1.2 + 1
     ∧ Forall (occ o (ceil o 2 - 1) m) t.2).
Proof. done. Qed.

Lemma put_sim_leaf (t : @atree Key Val 0) T par nxt lb k v :
  order T = o → rep o (nodes T) 0 t par nxt → occ o lb 0 t →
  putSpec o T 0 t par nxt k v.
Proof.
  intros Ho Hrep Hocc. destruct t as [a kvs]. simpl in Hrep, Hocc.
  assert (Hal := lookup_lt_Some _ _ _ Hrep).
  unfold putSpec. cbn [treePut route fst snd].
  rewrite (putIntoLeaf_leaf o T a par kvs nxt k v) by (done || lia).
  unfold leafPut. cbn [fst snd].
  destruct (lpos k kvs.*1) as [p|p] eqn:E.
  - apply lpos_inl in E as (k0 & Hk0 & _). rewrite list_lookup_fmap in Hk0.
    destruct (kvs !! p) as [[k1 v0]|] eqn:Hp; [|done].
    eexists. split_and!; [done| | |].
    + simpl. by apply list_lookup_insert_eq.
    + by rewrite length_insert.
    + intros x _ Hx. apply list_lookup_insert_ne. intros ->. apply Hx. left.
  - cbv zeta. destruct (decide (len kvs < o - 1)) as [Hnf|Hfull].
    + eexists. split_and!; [done| | |].
      * simpl. by apply list_lookup_insert_eq.
      * by rewrite length_insert.
      * intros x _ Hx. apply list_lookup_insert_ne. intros ->. apply Hx. left.
    + split; [done|]. eexists. split_and!.
      * rewrite Nat.sub_0_r. done.
      * exists None. simpl. rewrite lookup_app_l by (by rewrite length_insert).
        by apply list_lookup_insert_eq.
      * exists None. simpl. rewrite lookup_app_r by (by rewrite length_insert).
        by rewrite length_insert, Nat.sub_diag.
      * rewrite length_app, length_insert. done.
      * intros x Hxl Hx. rewrite lookup_app_l by (by rewrite length_insert).
        apply list_lookup_insert_ne. intros ->. apply Hx. left.
Qed.

(** ** A parent with room takes the two halves *)

Lemma loop_absorb T1 (f : nat) m a par nxt ks (cs : list (@atree Key Val m))
    (i : nat) c cl sep cr :
  let cs' := take i cs ++ cl :: cr :: drop (S i) cs in
  order T1 = o →
  nodes T1 !! a = Some (innerNode o par ks (aaddr m <$> cs)) →
  len ks < o - 1 → length cs = S (length ks) →
  cs !! i = Some c → cpos sep ks = i →
  aaddr m cl = aaddr m c →
  (∀ (j : nat) cj, cs' !! j = Some cj → repU o (nodes T1) m cj (nextAt m cs' nxt j)) →
  NoDup (a :: concat (addrs m <$> cs')) →
  (∀ (j : nat) cj, cs' !! j = Some cj → j ≠ i → j ≠ S i →
     (λ nd, setParent nd (Some a)) <$> nodes T1 !! aaddr m cj
     = nodes T1 !! aaddr m cj) →
  ∃ h2, putIntoLeaf_loop (S f) T1 (Some a) sep (aaddr m cl) (aaddr m cr)
        = Some (setNodes T1 h2)
      ∧ rep o h2 (S m) (a, insertAtL i sep ks, cs') par nxt
      ∧ length h2 = length (nodes T1)
      ∧ (∀ x : nat, x ≠ a → x ≠ aaddr m cl → x ≠ aaddr m cr →
           h2 !! x = nodes T1 !! x).
Proof.
  intros cs' Ho Ha Hnf Hlen Hc Hpos Hl Hpre Hnd Hold.
  set (h1 := nodes T1) in *.
  apply list.NoDup_cons in Hnd as [Hna Hndc].
  pose proof (split_lookup_l m cs i c cl cr Hc) as Hil. fold cs' in Hil.
  pose proof (split_lookup_r m cs i c cl cr Hc) as Hir. fold cs' in Hir.
  destruct (Hpre _ _ Hil) as [pl Hrl]. destruct (Hpre _ _ Hir) as [pr Hrr].
  pose proof (rep_top _ _ _ _ _ _ Hrl) as Hln.
  pose proof (rep_top _ _ _ _ _ _ Hrr) as Hrn.
  assert (Hlin : aaddr m cl ∈ concat (addrs m <$> cs')).
  { eapply elem_of_addrs_child; [exact Hil|apply aaddr_in_addrs]. }
  assert (Hrin : aaddr m cr ∈ concat (addrs m <$> cs')).
  { eapply elem_of_addrs_child; [exact Hir|apply aaddr_in_addrs]. }
  assert (Hal : a ≠ aaddr m cl) by (intros ->; done).
  assert (Har : a ≠ aaddr m cr) by (intros ->; done).
  pose proof (NoDup_aaddr_children m cs' Hndc) as Hnda.
  assert (Hlr : aaddr m cl ≠ aaddr m cr).
  { intros E. assert (i = S i); [|lia].
    eapply (NoDup_lookup _ i (S i) _ Hnda); rewrite list_lookup_fmap.
    - by rewrite Hil.
    - rewrite Hir. simpl. by rewrite E. }
  cbn [putIntoLeaf_loop]. fold h1. rewrite Ha. cbn [mbind option_bind].
  assert (Hkn : keyNum (innerNode o par ks (aaddr m <$> cs) : node Key Val) = len ks)
    by done.
  assert (Hlk : len (keys (innerNode o par ks (aaddr m <$> cs) : node Key Val)) = o - 1).
  { unfold innerNode. cbn [keys]. apply len_arr. lia. }
  rewrite Hkn, Hlk, decide_True by done.
  set (ln := nodeOf o m cl pl (nextAt m cs' nxt i)) in *.
  set (rn := nodeOf o m cr pr (nextAt m cs' nxt (S i))) in *.
  rewrite (putIntoParent_spec o T1 a par ks (aaddr m <$> cs) sep
             (aaddr m cl) (aaddr m cr) ln rn Ho Ha Hnf); cycle 1.
  { by rewrite length_fmap. }
  { rewrite Hpos, list_lookup_fmap, Hc. simpl. by rewrite Hl. }
  { exact Hln. } { exact Hrn. } { done. } { done. } { done. }
  rewrite Hpos. rewrite <- (split_fmap_aaddr m cs i c cl cr Hc Hl). fold cs'.
  eexists. split; [done|].
  set (h2 := <[aaddr m cr := setParent rn (Some a)]> _).
  assert (Hh2 : ∀ x : nat, x ≠ a → x ≠ aaddr m cl → x ≠ aaddr m cr →
            h2 !! x = h1 !! x).
  { intros x ???. subst h2. by rewrite !list_lookup_insert_ne. }
  assert (Hal' := lookup_lt_Some _ _ _ Ha).
  assert (Hll' := lookup_lt_Some _ _ _ Hln).
  assert (Hrl' := lookup_lt_Some _ _ _ Hrn).
  split_and!; [|by subst h2; rewrite !length_insert|exact Hh2].
  apply rep_S. cbn [fst snd]. split.
  - subst h2. rewrite !list_lookup_insert_ne by done.
    apply list_lookup_insert_eq. done.
  - apply (rep_children_after o h1 h2 m cs' (nextAt m cs' nxt) a Hpre Hndc).
    + intros cj Hcj. apply list_elem_of_lookup_1 in Hcj as [j Hj].
      destruct (decide (j = i)) as [->|Hji].
      { rewrite Hil in Hj. injection Hj as <-. rewrite Hln. subst h2.
        rewrite list_lookup_insert_ne by done.
        rewrite list_lookup_insert_eq by (by rewrite length_insert). done. }
      destruct (decide (j = S i)) as [->|Hjsi].
      { rewrite Hir in Hj. injection Hj as <-. rewrite Hrn. subst h2.
        rewrite list_lookup_insert_eq by (by rewrite !length_insert). done. }
      rewrite (Hold j cj Hj Hji Hjsi). apply Hh2.
      * intros E. apply Hna. rewrite <- E.
        eapply elem_of_addrs_child; [exact Hj|apply aaddr_in_addrs].
      * intros E. apply Hji. eapply (NoDup_lookup _ j i _ Hnda);
          rewrite list_lookup_fmap; [by rewrite Hj|]. rewrite Hil. simpl. by rewrite E.
      * intros E. apply Hjsi. eapply (NoDup_lookup _ j (S i) _ Hnda);
          rewrite list_lookup_fmap; [by rewrite Hj|]. rewrite Hir. simpl. by rewrite E.
    + intros x Hx Hnin. apply Hh2.
      * intros ->. done.
      * intros ->. apply Hnin. apply list_elem_of_fmap_2.
        by eapply list_elem_of_lookup_2.
      * intros ->. apply Hnin. apply list_elem_of_fmap_2.
        by eapply list_elem_of_lookup_2.
Qed.

(** ** A full parent takes the two halves and is split itself *)

Lemma concat_addrs_take_drop m (cs : list (@atree Key Val m)) (n : nat) :
  concat (addrs m <$> cs)
  = concat (addrs m <$> take n cs) ++ concat (addrs m <$> drop n cs).
Proof. by rewrite <- concat_app, <- fmap_app, take_drop. Qed.

Lemma nextAt_take m (cs : list (@atree Key Val m)) nxt (n j : nat) c0 :
  (j < n)%nat → cs !! n = Some c0 →
  nextAt m (take n cs) (Some (afirst m c0)) j = nextAt m cs nxt j.
Proof.
  intros Hj Hn. unfold nextAt. destruct (decide (S j < n)%nat).
  - rewrite lookup_take_lt by done.
    destruct (lookup_lt_is_Some_2 cs (S j)) as [c1 ->]; [|done].
    apply lookup_lt_Some in Hn. lia.
  - assert (S j = n) as -> by lia. rewrite Hn.
    rewrite lookup_ge_None_2; [done|]. rewrite length_take. lia.
Qed.

Lemma nextAt_drop m (cs : list (@atree Key Val m)) nxt (n j : nat) :
  nextAt m (drop n cs) nxt j = nextAt m cs nxt (n + j).
Proof.
  unfold nextAt. rewrite lookup_drop.
  by replace (n + S j)%nat with (S (n + j)) by lia.
Qed.

Lemma loop_split T1 (f : nat) m a par nxt ks (cs : list (@atree Key Val m))
    (i : nat) c cl sep cr :
  let cs' := take i cs ++ cl :: cr :: drop (S i) cs in
  let ks' := insertAtL i sep ks in
  let fr := length (nodes T1) in
  let tl : @atree Key Val (S m) := (a, take (middle o) ks', take (S (middle o)) cs') in
  let tr : @atree Key Val (S m) :=
    (fr, drop (S (middle o)) ks', drop (S (middle o)) cs') in
  order T1 = o →
  nodes T1 !! a = Some (innerNode o par ks (aaddr m <$> cs)) →
  len ks = o - 1 → length cs = S (length ks) →
  cs !! i = Some c → cpos sep ks = i →
  aaddr m cl = aaddr m c →
  (∀ (j : nat) cj, cs' !! j = Some cj → repU o (nodes T1) m cj (nextAt m cs' nxt j)) →
  NoDup (a :: concat (addrs m <$> cs')) →
  ∃ h2, putIntoLeaf_loop (S f) T1 (Some a) sep (aaddr m cl) (aaddr m cr)
        = putIntoLeaf_loop f (setNodes T1 h2) par (default nilKey (ks' !! middle o)) a fr
      ∧ repU o h2 (S m) tl (Some (afirst (S m) tr))
      ∧ repU o h2 (S m) tr nxt
      ∧ length h2 = S fr
      ∧ (∀ x : nat, x ≠ a → x ≠ fr → x ∉ aaddr m <$> cs' →
           h2 !! x = nodes T1 !! x).
Proof.
  intros cs' ks' fr tl tr Ho Ha Hfull Hlen Hc Hpos Hl Hpre Hnd.
  set (h1 := nodes T1) in *.
  pose proof (middle_bounds o o_ge_3) as HM.
  pose proof (middle_Z o o_ge_3) as HMZ.
  apply list.NoDup_cons in Hnd as [Hna Hndc].
  pose proof (NoDup_aaddr_children m cs' Hndc) as Hnda.
  pose proof (split_length m cs i c cl cr Hc) as Hlen'. fold cs' in Hlen'.
  assert (Hvalid : ∀ (j : nat) cj x, cs' !! j = Some cj → x ∈ addrs m cj →
            (x < fr)%nat).
  { intros j cj x Hj Hx. eapply repU_valid; [by apply Hpre|done]. }
  pose proof (putIntoParentAndSplit_spec o T1 a par ks (aaddr m <$> cs) sep
                (aaddr m cl) (aaddr m cr) Ho o_ge_3 Ha Hfull) as Hspec.
  cbv zeta in Hspec. rewrite Hpos in Hspec.
  rewrite <- (split_fmap_aaddr m cs i c cl cr Hc Hl) in Hspec.
  fold cs' ks' h1 fr in Hspec.
  destruct Hspec as (h2 & Heq & Hlen2 & Hp & Hf & HL & HR & Hrest).
  { by rewrite length_fmap. }
  { rewrite list_lookup_fmap, Hc. simpl. by rewrite Hl. }
  { done. }
  { intros Hin. by apply Hna, aaddr_children_in. }
  { intros x Hx. apply list_elem_of_fmap in Hx as (cj & -> & Hcj).
    apply list_elem_of_lookup_1 in Hcj as [j Hj].
    eapply Hvalid; [exact Hj|apply aaddr_in_addrs]. }
  rewrite <- fmap_take in Hp, HL. rewrite <- fmap_drop in Hf, HR.
  assert (HSM : (S (middle o) < length cs')%nat) by (unfold len in *; lia).
  destruct (lookup_lt_is_Some_2 cs' _ HSM) as [c0 Hc0].
  assert (Hafr : afirst (S m) tr = afirst m c0).
  { rewrite afirst_S. subst tr. cbn [fst snd].
    by rewrite lookup_drop, Nat.add_0_r, Hc0. }
  pose proof (concat_addrs_take_drop m cs' (S (middle o))) as Hcat.
  rewrite Hcat in Hndc. apply list.NoDup_app in Hndc as (HndL & Hdisj & HndR).
  assert (HinL : ∀ x, x ∈ concat (addrs m <$> take (S (middle o)) cs') →
            x ∈ concat (addrs m <$> cs')).
  { intros x Hx. rewrite Hcat. apply elem_of_app. by left. }
  assert (HinR : ∀ x, x ∈ concat (addrs m <$> drop (S (middle o)) cs') →
            x ∈ concat (addrs m <$> cs')).
  { intros x Hx. rewrite Hcat. apply elem_of_app. by right. }
  assert (Hval' : ∀ x : nat, x ∈ concat (addrs m <$> cs') → (x < fr)%nat).
  { intros x Hx. apply elem_of_concat in Hx as (l & Hx & Hl').
    apply list_elem_of_fmap in Hl' as (cj & -> & Hcj).
    apply list_elem_of_lookup_1 in Hcj as [j Hj]. by eapply Hvalid. }
  assert (Hsplit : ∀ x, x ∈ aaddr m <$> cs' →
            x ∈ aaddr m <$> take (S (middle o)) cs'
            ∨ x ∈ aaddr m <$> drop (S (middle o)) cs').
  { intros x Hx. rewrite <- (take_drop (S (middle o)) cs'), fmap_app in Hx.
    by apply elem_of_app in Hx. }
  exists h2. split_and!.
  - cbn [putIntoLeaf_loop]. fold h1. rewrite Ha. cbn [mbind option_bind].
    assert (Hkn : keyNum (innerNode o par ks (aaddr m <$> cs) : node Key Val) = len ks)
      by done.
    assert (Hlk : len (keys (innerNode o par ks (aaddr m <$> cs) : node Key Val))
                  = o - 1).
    { unfold innerNode. cbn [keys]. apply len_arr. lia. }
    rewrite Hkn, Hlk, decide_False by lia.
    rewrite Heq. cbn [mbind option_bind nodes setNodes].
    rewrite Hp. cbn [mbind option_bind]. done.
  - exists par. apply rep_S. subst tl. cbn [fst snd]. split; [exact Hp|].
    rewrite Hafr.
    apply (rep_children_after o h1 h2 m _ _ a).
    + intros j cj Hj. apply lookup_take_Some in Hj as [Hj Hjm].
      rewrite (nextAt_take m cs' nxt) by (done || lia). by apply Hpre.
    + done.
    + intros cj Hcj. apply HL. by apply list_elem_of_fmap_2.
    + intros x Hx Hnin. apply Hrest.
      * intros ->. by apply Hna, HinL.
      * apply HinL, Hval' in Hx. lia.
      * intros Hin. apply Hsplit in Hin as [Hin|Hin]; [done|].
        apply (Hdisj x Hx). by apply aaddr_children_in.
  - exists None. apply rep_S. subst tr. cbn [fst snd]. split; [exact Hf|].
    apply (rep_children_after o h1 h2 m _ _ fr).
    + intros j cj Hj. rewrite lookup_drop in Hj.
      rewrite nextAt_drop. by apply Hpre.
    + done.
    + intros cj Hcj. apply HR. by apply list_elem_of_fmap_2.
    + intros x Hx Hnin. apply Hrest.
      * intros ->. by apply Hna, HinR.
      * apply HinR, Hval' in Hx. lia.
      * intros Hin. apply Hsplit in Hin as [Hin|Hin]; [|done].
        apply (Hdisj x); [|done]. by apply aaddr_children_in.
  - done.
  - exact Hrest.
Qed.

End PutSim.


(** * Byte strings as keys *)

Lemma byte_to_N_inj (a b : byte) : Byte.to_N a = Byte.to_N b → a = b.
Proof.
  intros H. pose proof (Byte.of_to_N a) as Ha. pose proof (Byte.of_to_N b) as Hb.
  rewrite H in Ha. congruence.
Qed.

Lemma bytesCompare_range (x y : list byte) : -1 ≤ bytesCompare x y ≤ 1.
Proof.
  revert y. induction x as [|a x IH]; intros [|b y]; simpl; try lia.
  destruct (N.compare _ _); [apply IH|lia|lia].
Qed.

Lemma bytesCompare_eq (x y : list byte) : bytesCompare x y = 0 ↔ x = y.
Proof.
  revert y. induction x as [|a x IH]; intros [|b y]; simpl; try (split; [lia|done]).
  - done.
  - destruct (N.compare (Byte.to_N a) (Byte.to_N b)) eqn:E.
    + apply N.compare_eq in E. apply byte_to_N_inj in E as ->.
      rewrite IH. split; [by intros ->|by intros [= ->]].
    + split; [lia|]. intros [= -> ->]. by rewrite N.compare_refl in E.
    + split; [lia|]. intros [= -> ->]. by rewrite N.compare_refl in E.
Qed.

Lemma bytesCompare_flip (x y : list byte) :
  bytesCompare x y < 0 ↔ 0 < bytesCompare y x.
Proof.
  revert y. induction x as [|a x IH]; intros [|b y]; simpl; try lia.
  rewrite (N.compare_antisym (Byte.to_N a) (Byte.to_N b)).
  destruct (N.compare (Byte.to_N a) (Byte.to_N b)); simpl; [apply IH|lia|lia].
Qed.

Lemma bytesCompare_trans (x y z : list byte) :
  bytesCompare x y < 0 → bytesCompare y z < 0 → bytesCompare x z < 0.
Proof.
  revert y z. induction x as [|a x IH]; intros [|b y] [|c z]; simpl; try lia.
  destruct (N.compare (Byte.to_N a) (Byte.to_N b)) eqn:E1;
    destruct (N.compare (Byte.to_N b) (Byte.to_N c)) eqn:E2; try lia.
  - apply N.compare_eq in E1, E2. rewrite E1, E2, N.compare_refl. apply IH.
  - apply N.compare_eq in E1. rewrite E1, E2. lia.
  - apply N.compare_eq in E2. rewrite <- E2, E1. lia.
  - apply N.compare_lt_iff in E1. apply N.compare_lt_iff in E2.
    assert (E : (Byte.to_N a ?= Byte.to_N c)%N = Lt).
    { apply N.compare_lt_iff. by apply (N.lt_trans _ (Byte.to_N b)). }
    rewrite E. lia.
Qed.

Lemma copy_replicate {A} (z : A) (s : list A) : copy (replicate (length s) z) s = s.
Proof.
  unfold copy. rewrite length_replicate, firstn_all.
  rewrite drop_ge by (rewrite length_replicate; lia). apply app_nil_r.
Qed.

Lemma bytesKey_laws : KeyLaws (list byte).
Proof.
  split.
  - apply bytesCompare_eq.
  - apply bytesCompare_flip.
  - apply bytesCompare_trans.
  - intros x. apply copy_replicate.
Qed.


(** * Node methods used by deletion *)

Lemma upd_arr_app_push {A} n (z : A) c sfx x (i : Z) :
  (length c < Z.to_nat n)%nat → i = Z.of_nat (length c) →
  upd (arr n z c ++ sfx) i x = Some (arr n z (c ++ [x]) ++ sfx).
Proof.
  intros Hc ->. rewrite upd_nat by (rewrite length_app, length_arr; lia).
  by rewrite arr_app_push.
Qed.

Lemma upd_arr_push {A} n (z : A) c x (i : Z) :
  (length c < Z.to_nat n)%nat → i = Z.of_nat (length c) →
  upd (arr n z c) i x = Some (arr n z (c ++ [x])).
Proof.
  intros Hc Hi. pose proof (upd_arr_app_push n z c [] x i Hc Hi) as H.
  by rewrite !app_nil_r in H.
Qed.

Section NodeOps2.
Context {Key Val : Type} {KO : KeyOps Key}.
Variable o : Z.
Implicit Types (kvs : list (Key * Val)) (ks : list Key) (cs : list addr)
  (par nxt : option addr) (h : list (node Key Val)).

Lemma insertAt_innerNode par ks cs (kp pp : nat) k c (kz pz : Z) :
  (kp ≤ length ks)%nat → (pp ≤ length cs)%nat →
  len ks < o - 1 → length cs = S (length ks) →
  kz = Z.of_nat kp → pz = Z.of_nat pp →
  insertAt (innerNode o par ks cs : node Key Val) kz k pz (nptr c)
  = Some (innerNode o par (insertAtL kp k ks) (insertAtL pp c cs)).
Proof.
  intros Hkp Hpp Hl Hcs -> ->. unfold insertAt, innerNode, len in *.
  cbn [leaf keyNum keys pointers parent].
  rewrite <- (app_nil_r (arr (o - 1) nilKey ks)).
  rewrite (arr_shiftRight _ _ _ _ kp) by lia.
  cbn [mbind option_bind].
  rewrite <- (app_nil_r (arr o None (nptr <$> cs))).
  rewrite (arr_shiftRight _ _ _ _ pp) by (rewrite ?length_fmap; lia).
  cbn [mbind option_bind].
  rewrite (arr_shifted_upd _ _ ks) by lia.
  cbn [mbind option_bind].
  rewrite (arr_shifted_upd _ _ (nptr <$> cs)) by (rewrite ?length_fmap; lia).
  cbn [mbind option_bind].
  rewrite !app_nil_r, fmap_insertAtL, length_insertAtL.
  do 2 f_equal. lia.
Qed.

Lemma deleteAt_innerNode par ks cs (kp pp : nat) (kz pz : Z) :
  (kp < length ks)%nat → (pp < length cs)%nat →
  len ks ≤ o - 1 → length cs = S (length ks) →
  kz = Z.of_nat kp → pz = Z.of_nat pp →
  deleteAt (innerNode o par ks cs : node Key Val) kz pz
  = Some (innerNode o par (delete kp ks) (delete pp cs)).
Proof.
  intros Hkp Hpp Hl Hcs -> ->. unfold deleteAt, innerNode, len in *.
  cbn [leaf keyNum keys pointers parent].
  destruct (lookup_lt_is_Some_2 ks kp Hkp) as [k0 Hk0].
  destruct (lookup_lt_is_Some_2 cs pp Hpp) as [c0 Hc0].
  rewrite <- (app_nil_r (arr (o - 1) nilKey ks)).
  rewrite (arr_shiftLeft _ _ _ _ kp _ _ k0) by (done || lia).
  cbn [mbind option_bind].
  rewrite (arr_shiftedL_upd _ _ ks) by lia.
  cbn [mbind option_bind].
  rewrite <- (app_nil_r (arr o None (nptr <$> cs))).
  rewrite (arr_shiftLeft _ _ _ _ pp _ _ (nptr c0))
    by (rewrite ?list_lookup_fmap, ?Hc0, ?length_fmap; (done || lia)).
  cbn [mbind option_bind].
  rewrite (arr_shiftedL_upd _ _ (nptr <$> cs)) by (rewrite ?length_fmap; lia).
  cbn [mbind option_bind].
  rewrite !app_nil_r, <- !list_fmap_delete.
  do 2 f_equal. rewrite length_delete by eauto. lia.
Qed.

Lemma append_leafNode h a par kvs nxt k v :
  h !! a = Some (leafNode o par kvs nxt) → len kvs < o - 1 →
  append h a k (Some (PValue v))
  = Some (<[a := leafNode o par (kvs ++ [(k, v)]) nxt]> h).
Proof.
  intros Ha Hl. unfold append. rewrite Ha. cbn [mbind option_bind].
  unfold leafNode, len in *. cbn [leaf keyNum keys pointers parent mbind option_bind].
  rewrite (upd_arr_push _ _ (kvs.*1)) by (rewrite ?length_fmap; lia).
  cbn [mbind option_bind].
  rewrite (upd_arr_app_push _ _ (vptr <$> kvs)) by (rewrite ?length_fmap; lia).
  cbn [mbind option_bind].
  rewrite !fmap_app, length_app. simpl. do 3 f_equal. lia.
Qed.

Lemma append_innerNode h a par ks cs k c cn :
  h !! a = Some (innerNode o par ks cs) →
  len ks < o - 1 → (length ks ≤ length cs ≤ S (length ks))%nat →
  a ≠ c → h !! c = Some cn →
  append h a k (nptr c)
  = Some (<[c := setParent cn (Some a)]>
            (<[a := innerNode o par (ks ++ [k]) (cs ++ [c])]> h)).
Proof.
  intros Ha Hl Hcs Hac Hc. unfold append. rewrite Ha. cbn [mbind option_bind].
  assert (Hleaf : leaf (innerNode o par ks cs : node Key Val) = false) by done.
  assert (Hkn : keyNum (innerNode o par ks cs : node Key Val) = len ks) by done.
  assert (Hpar : parent (innerNode o par ks cs : node Key Val) = par) by done.
  rewrite Hleaf, Hkn, Hpar, pointers_innerNode.
  assert (Hkeys : keys (innerNode o par ks cs : node Key Val) = arr (o - 1) nilKey ks)
    by done.
  rewrite Hkeys. unfold len in *.
  assert (Hslot : idx ((@nptr Val <$> cs) ++ replicate (Z.to_nat o - length cs) None)
                    (Z.of_nat (length ks))
                  = Some (if decide (length cs = length ks) then None
                          else @nptr Val (default a (cs !! length ks)))).
  { rewrite idx_nat. destruct (decide (length cs = length ks)) as [E|E].
    - rewrite lookup_app_r by (rewrite length_fmap; lia).
      apply lookup_replicate_2. rewrite length_fmap. lia.
    - rewrite lookup_app_l by (rewrite length_fmap; lia).
      rewrite list_lookup_fmap.
      destruct (lookup_lt_is_Some_2 cs (length ks)) as [c0 ->]; [lia|]. done. }
  rewrite Hslot. cbn [mbind option_bind].
  assert (Hpos : (if (if decide (length cs = length ks) then None
                      else @nptr Val (default a (cs !! length ks)))
                    is Some _
                  then Z.of_nat (length ks) + 1 else Z.of_nat (length ks))
                 = Z.of_nat (length (@nptr Val <$> cs))).
  { rewrite length_fmap. destruct (decide (length cs = length ks));
      unfold nptr; simpl; lia. }
  rewrite Hpos.
  rewrite (upd_arr_push _ _ ks) by lia.
  cbn [mbind option_bind].
  assert (E : (@nptr Val <$> cs) ++ replicate (Z.to_nat o - length cs) None
              = arr o None (@nptr Val <$> cs))
    by (unfold arr; by rewrite length_fmap).
  rewrite E.
  rewrite (upd_arr_push _ _ (nptr <$> cs)) by (rewrite ?length_fmap; lia).
  cbn [mbind option_bind asNode nptr].
  rewrite (modify_Some _ c _ cn (setParent cn (Some a)));
    [|by rewrite list_lookup_insert_ne|done].
  do 3 f_equal. unfold innerNode. f_equal.
  - unfold len. rewrite length_app. simpl. lia.
  - by rewrite fmap_app.
Qed.

Lemma copyFromRight_loop_leaf h a from par1 acc nxt1 par2 kvs2 nxt2 pre rest :
  a ≠ from → kvs2 = pre ++ rest →
  h !! a = Some (leafNode o par1 acc nxt1) →
  h !! from = Some (leafNode o par2 kvs2 nxt2) →
  len acc + len rest ≤ o - 1 →
  forUp (length rest) (len pre)
    (λ i h, f ← h !! from; k ← idx (keys f) i; p ← idx (pointers f) i;
            append h a k p) h
  = Some (<[a := leafNode o par1 (acc ++ rest) nxt1]> h).
Proof.
  intros Hne. revert pre acc h.
  induction rest as [|[k v] rest IH]; intros pre acc h Hk Ha Hf Hl.
  - simpl. rewrite app_nil_r. by rewrite list_insert_id.
  - cbn [length forUp]. rewrite Hf. cbn [mbind option_bind].
    assert (Hkv : kvs2 !! length pre = Some (k, v)).
    { rewrite Hk. by rewrite list_lookup_middle. }
    rewrite (idx_keys_leafNode o par2 kvs2 nxt2 (length pre) (k, v)) by done.
    cbn [mbind option_bind].
    rewrite (idx_pointers_leafNode o par2 kvs2 nxt2 (length pre) (k, v)) by done.
    cbn [mbind option_bind fst].
    change (vptr (k, v)) with (Some (PValue v)).
    unfold len in Hl. simpl in Hl.
    rewrite (append_leafNode h a par1 acc nxt1 k v Ha) by (unfold len; lia).
    cbn [mbind option_bind].
    replace (len pre + 1) with (len (pre ++ [(k, v)]))
      by (unfold len; rewrite length_app; simpl; lia).
    rewrite (IH (pre ++ [(k, v)]) (acc ++ [(k, v)])).
    + rewrite list_insert_insert_eq. by rewrite <- (assoc_L (++)).
    + by rewrite <- (assoc_L (++)).
    + apply list_lookup_insert_eq. by eapply lookup_lt_Some.
    + by rewrite list_lookup_insert_ne.
    + unfold len. rewrite length_app. simpl. lia.
Qed.

Lemma copyFromRight_leafNode h a from par1 kvs1 nxt1 par2 kvs2 nxt2 :
  a ≠ from → 1 ≤ o →
  h !! a = Some (leafNode o par1 kvs1 nxt1) →
  h !! from = Some (leafNode o par2 kvs2 nxt2) →
  len kvs1 + len kvs2 ≤ o - 1 →
  copyFromRight h a from
  = Some (<[a := leafNode o par1 (kvs1 ++ kvs2) nxt2]> h).
Proof.
  intros Hne Ho Ha Hf Hl. unfold copyFromRight. rewrite Hf.
  cbn [mbind option_bind].
  assert (Hkn : keyNum (leafNode o par2 kvs2 nxt2) = len kvs2) by done.
  rewrite Hkn. unfold len at 1. rewrite Nat2Z.id.
  pose proof (copyFromRight_loop_leaf h a from par1 kvs1 nxt1 par2 kvs2 nxt2 []
                kvs2 Hne eq_refl Ha Hf Hl) as Hloop.
  change (len []) with 0 in Hloop. rewrite Hloop. cbn [mbind option_bind].
  assert (Hal := lookup_lt_Some _ _ _ Ha).
  rewrite list_lookup_insert_eq by done. cbn [mbind option_bind leaf leafNode].
  rewrite list_lookup_insert_ne by done. rewrite Hf. cbn [mbind option_bind].
  pose proof (len_nonneg kvs1). pose proof (len_nonneg kvs2).
  rewrite next_leafNode by lia. cbn [mbind option_bind].
  rewrite (modify_Some _ a _ (leafNode o par1 (kvs1 ++ kvs2) nxt1)
             (leafNode o par1 (kvs1 ++ kvs2) nxt2)).
  - by rewrite list_insert_insert_eq.
  - by apply list_lookup_insert_eq.
  - apply setNext_leafNode; [|done]. rewrite len_app. lia.
Qed.

Lemma pointerPositionOf_loop_spec cs (x : addr) (pad : nat) (pos : Z) :
  pointerPositionOf_loop ((@nptr Val <$> cs) ++ replicate pad None) x pos
  = Some (match list_find (λ y, y = x) cs with
          | Some (i, _) => pos + Z.of_nat i
          | None => -1
          end).
Proof.
  revert pos. induction cs as [|c cs IH]; intros pos.
  - simpl. by destruct pad.
  - cbn [fmap list_fmap app pointerPositionOf_loop nptr asNode mbind option_bind].
    cbn [list_find]. destruct (decide (c = x)) as [->|Hne].
    + f_equal. lia.
    + rewrite IH. destruct (list_find (λ y, y = x) cs) as [[i y]|]; simpl; [|done].
      f_equal. lia.
Qed.

Lemma pointerPositionOf_innerNode par ks cs (x : addr) :
  pointerPositionOf (innerNode o par ks cs : node Key Val) x
  = Some (match list_find (λ y, y = x) cs with
          | Some (i, _) => Z.of_nat i
          | None => -1
          end).
Proof.
  unfold pointerPositionOf. rewrite pointers_innerNode.
  rewrite pointerPositionOf_loop_spec.
  by destruct (list_find (λ y, y = x) cs) as [[i y]|].
Qed.

Lemma keyPosition_leafNode par kvs nxt k :
  keyPosition (leafNode o par kvs nxt) k
  = Some (match epos k (kvs.*1) with
          | Some p => Z.of_nat p
          | None => -1
          end).
Proof.
  unfold keyPosition.
  pose proof (keyPosition_loop_spec (leafNode o par kvs nxt) k [] (kvs.*1) _
                (keys_leafNode o par kvs nxt)) as H.
  rewrite length_fmap in H. change (len []) with 0 in H.
  cbn [keyNum leafNode]. unfold len. rewrite Nat2Z.id, H.
  by destruct (epos k kvs.*1).
Qed.

Lemma epos_Some k ks (p : nat) :
  epos k ks = Some p →
  (∃ k', ks !! p = Some k' ∧ compare k k' = 0)
  ∧ ∀ (j : nat) kj, ks !! j = Some kj → (j < p)%nat → compare k kj ≠ 0.
Proof.
  revert p. induction ks as [|k0 ks IH]; intros p; [done|]. simpl.
  destruct (decide (compare k k0 = 0)) as [E|E].
  - intros [= <-]. split; [by exists k0|]. intros j kj _ Hj. lia.
  - destruct (epos k ks) as [q|]; [|done]. simpl. intros [= <-].
    destruct (IH q eq_refl) as [H1 H2]. split; [done|].
    intros [|j] kj Hj Hlt; simpl in Hj.
    + by injection Hj as <-.
    + apply (H2 j); [done|lia].
Qed.

Lemma epos_None k ks :
  epos k ks = None → ∀ k', k' ∈ ks → compare k k' ≠ 0.
Proof.
  induction ks as [|k0 ks IH]; intros H k' Hin; [by apply elem_of_nil in Hin|].
  simpl in H. destruct (decide (compare k k0 = 0)) as [E|E]; [done|].
  destruct (epos k ks) as [q|] eqn:Eq; [done|].
  apply elem_of_cons in Hin as [->|Hin]; [done|]. by apply IH.
Qed.

End NodeOps2.


(** * Searching a tree in memory *)

Section Lookup.
Context {Key Val : Type} {KO : KeyOps Key}.
Variable o : Z.
Implicit Types (h : list (node Key Val)) (T : BPTree Key Val) (nxt par : option addr).

Lemma occ_child lb m (t : @atree Key Val (S m)) (i : nat) c :
  occ o lb (S m) t → t.2 !! i = Some c → occ o (ceil o 2 - 1) m c.
Proof.
  rewrite occ_S. intros (_ & _ & H) Hc. rewrite list.Forall_forall in H.
  apply H. by eapply list_elem_of_lookup_2.
Qed.

Lemma occ_cpos lb m (t : @atree Key Val (S m)) k :
  occ o lb (S m) t → is_Some (t.2 !! cpos k t.1.2).
Proof.
  rewrite occ_S. intros (_ & Hl & _). apply lookup_lt_is_Some.
  pose proof (cpos_le k t.1.2). unfold len in *. lia.
Qed.

Lemma findLeaf_loop_route n : ∀ (t : @atree Key Val n) h par nxt lb (f : nat) k,
  rep o h n t par nxt → occ o lb n t → (n < f)%nat →
  findLeaf_loop f h k (aaddr n t) = Some (route n t k).
Proof.
  induction n as [|m IH]; intros t h par nxt lb f k Hrep Hocc Hf.
  - destruct f as [|f]; [lia|]. simpl in *. rewrite Hrep. done.
  - destruct f as [|f]; [lia|].
    destruct (occ_cpos lb m t k Hocc) as [c Hc].
    pose proof (occ_child lb m t _ c Hocc Hc) as Hcocc.
    rewrite (route_S m t k c Hc).
    apply rep_S in Hrep as [Ha Hch].
    rewrite occ_S in Hocc. destruct Hocc as (Hks & Hlen & _).
    change (aaddr (S m) t) with t.1.1.
    cbn [findLeaf_loop]. rewrite Ha. cbn [mbind option_bind].
    assert (Hleaf : leaf (innerNode o par t.1.2 (aaddr m <$> t.2) : node Key Val)
                    = false) by done.
    rewrite Hleaf, findPosition_innerNode by lia.
    cbn [mbind option_bind].
    assert (Hca : (aaddr m <$> t.2) !! cpos k t.1.2 = Some (aaddr m c)).
    { rewrite list_lookup_fmap. by apply fmap_Some_2. }
    rewrite (idx_pointers_innerNode o par _ _ (cpos k t.1.2) (aaddr m c) _ Hca eq_refl).
    cbn [mbind option_bind asNode].
    eapply IH; [by apply Hch|done|lia].
Qed.

Lemma routeLeaf_S m (t : @atree Key Val (S m)) k c :
  t.2 !! cpos k t.1.2 = Some c → routeLeaf (S m) t k = routeLeaf m c k.
Proof. intros H. simpl. by rewrite H. Qed.

(** The leaf that the search reaches holds the entries [routeLeaf]. *)
Lemma rep_route n : ∀ (t : @atree Key Val n) h par nxt lb k,
  rep o h n t par nxt → occ o lb n t →
  ∃ par' nxt', h !! route n t k = Some (leafNode o par' (routeLeaf n t k) nxt')
             ∧ len (routeLeaf n t k) ≤ o - 1.
Proof.
  induction n as [|m IH]; intros t h par nxt lb k Hrep Hocc.
  - exists par, nxt. simpl in *. split; [done|lia].
  - destruct (occ_cpos lb m t k Hocc) as [c Hc].
    pose proof (occ_child lb m t _ c Hocc Hc) as Hcocc.
    rewrite (route_S m t k c Hc).
    rewrite (routeLeaf_S m t k c Hc). apply rep_S in Hrep as [_ Hch].
    eapply IH; [by apply Hch|done].
Qed.

Lemma findLeftmostKey_amin n : ∀ (t : @atree Key Val n) h par nxt lb (f : nat),
  2 ≤ o → rep o h n t par nxt → occ o lb n t → (n < f)%nat →
  findLeftmostKey f h (aaddr n t) = Some (amin n t).
Proof.
  induction n as [|m IH]; intros t h par nxt lb f Ho Hrep Hocc Hf.
  - destruct f as [|f]; [lia|]. simpl in *. rewrite Hrep. cbn [mbind option_bind].
    destruct t as [a [|kv kvs]]; cbn [fst snd leafNode leaf keys].
    + unfold arr. simpl. rewrite Nat.sub_0_r.
      destruct (Z.to_nat (o - 1)) as [|d] eqn:E; [lia|]. done.
    + done.
  - destruct f as [|f]; [lia|].
    pose proof Hocc as Hocc0.
    apply rep_S in Hrep as [Ha Hch].
    rewrite occ_S in Hocc. destruct Hocc as (Hks & Hlen & _).
    destruct (lookup_lt_is_Some_2 t.2 0) as [c Hc]; [unfold len in *; lia|].
    pose proof (occ_child lb m t _ c Hocc0 Hc) as Hcocc.
    change (aaddr (S m) t) with t.1.1.
    cbn [findLeftmostKey]. rewrite Ha. cbn [mbind option_bind].
    assert (Hleaf : leaf (innerNode o par t.1.2 (aaddr m <$> t.2) : node Key Val)
                    = false) by done.
    rewrite Hleaf.
    assert (Hca : (aaddr m <$> t.2) !! 0%nat = Some (aaddr m c)).
    { rewrite list_lookup_fmap. by apply fmap_Some_2. }
    rewrite (idx_pointers_innerNode o par _ _ 0%nat (aaddr m c) _ Hca eq_refl).
    cbn [mbind option_bind asNode].
    assert (Hamin : amin (S m) t = amin m c).
    { destruct t as [[a ks] [|c0 cs0]]; [done|]. simpl in Hc. by injection Hc as ->. }
    rewrite Hamin. eapply IH; [done|by apply Hch|done|lia].
Qed.

(** A tree of height [n] has more than [n] nodes. *)
Lemma length_addrs_ge n : ∀ lb (t : @atree Key Val n),
  occ o lb n t → (S n ≤ length (addrs n t))%nat.
Proof.
  induction n as [|m IH]; intros lb t Hocc; [simpl; lia|].
  rewrite addrs_S. pose proof Hocc as Hocc0.
  rewrite occ_S in Hocc. destruct Hocc as (_ & Hl & _).
  destruct (lookup_lt_is_Some_2 t.2 0) as [c Hc]; [unfold len in *; lia|].
  pose proof (IH _ c (occ_child lb m t _ c Hocc0 Hc)) as Hlen.
  rewrite (concat_addrs_middle m t.2 0 c Hc). simpl.
  rewrite length_app. lia.
Qed.

Lemma height_lt_fuel T n (t : @atree Key Val n) par nxt lb :
  rep o (nodes T) n t par nxt → occ o lb n t → NoDup (addrs n t) →
  (n < fuel T)%nat.
Proof.
  intros Hrep Hocc Hnd. unfold fuel.
  assert (Hsub : addrs n t ⊆+ seq 0 (length (nodes T))).
  { apply NoDup_submseteq; [done|]. intros x Hx. apply elem_of_seq.
    pose proof (rep_valid _ _ _ _ _ _ x Hrep Hx). lia. }
  apply submseteq_length in Hsub. rewrite length_seq in Hsub.
  pose proof (length_addrs_ge n lb t Hocc). lia.
Qed.

(** ** [Get] *)

Lemma kvget_epos k (kvs : list (Key * Val)) :
  kvget k kvs = match epos k (kvs.*1) with
                | Some p => snd <$> kvs !! p
                | None => None
                end.
Proof.
  induction kvs as [|[k' v'] kvs IH]; [done|]. csimpl.
  destruct (decide (compare k k' = 0)); [done|]. rewrite IH.
  by destruct (epos k kvs.*1).
Qed.

Lemma Get_leafNode (n : node Key Val) par kvs nxt k :
  n = leafNode o par kvs nxt → len kvs ≤ o - 1 →
  Get_loop (Z.to_nat (keyNum n)) n k 0 = Some (kvget k kvs).
Proof.
  intros -> Hl.
  pose proof (Get_loop_spec (leafNode o par kvs nxt) k [] [] kvs _ _
                (keys_leafNode o par kvs nxt) (pointers_leafNode o par kvs nxt)
                eq_refl) as H.
  change (len []) with 0 in H. cbn [keyNum leafNode]. unfold len.
  rewrite Nat2Z.id, H. by rewrite kvget_epos.
Qed.

(** [Get] reads the leaf that the search reaches. *)
Lemma Get_route T n (t : @atree Key Val n) lb k :
  order T = o → root T = Some (aaddr n t) →
  rep o (nodes T) n t None None → occ o lb n t → NoDup (addrs n t) →
  Get T k = Some (kvget k (routeLeaf n t k)).
Proof.
  intros Ho Hroot Hrep Hocc Hnd. unfold Get, findLeaf. rewrite Hroot.
  cbn [mbind option_bind].
  rewrite (findLeaf_loop_route n t (nodes T) None None lb (fuel T) k Hrep Hocc).
  - cbn [mbind option_bind].
    destruct (rep_route n t (nodes T) None None lb k Hrep Hocc)
      as (par' & nxt' & Hl & Hlen).
    rewrite Hl. cbn [mbind option_bind]. by eapply Get_leafNode.
  - by eapply height_lt_fuel.
Qed.

End Lookup.


(** * The entries of a tree and the leaf of a key *)

Lemma concat_fmap_middle {A B} (f : A → list B) (cs : list A) (i : nat) c :
  cs !! i = Some c →
  concat (f <$> cs) = concat (f <$> take i cs) ++ f c ++ concat (f <$> drop (S i) cs).
Proof.
  intros Hc. rewrite <- (take_drop_middle cs i c Hc) at 1.
  by rewrite fmap_app, concat_app, fmap_cons.
Qed.

Section GetOrd.
Context {Key Val : Type} {KO : KeyOps Key} {KL : KeyLaws Key}.
Implicit Types (kvs : list (Key * Val)) (k : Key).

Lemma kvget_app k kvs1 kvs2 :
  kvget k (kvs1 ++ kvs2)
  = match kvget k kvs1 with Some v => Some v | None => kvget k kvs2 end.
Proof.
  induction kvs1 as [|[k' v'] l IH]; [done|]. simpl.
  by destruct (decide (compare k k' = 0)).
Qed.

Lemma kvget_absent k kvs : (∀ k', k' ∈ kvs.*1 → k' ≠ k) → kvget k kvs = None.
Proof.
  induction kvs as [|[k' v'] l IH]; [done|]. intros H. simpl.
  destruct (decide (compare k k' = 0)) as [E|E].
  - apply compare_eq in E. exfalso. apply (H k'); [left|done].
  - apply IH. intros k'' Hin. apply H. by right.
Qed.

Lemma kvget_Some k kvs v :
  kvget k kvs = Some v → (k, v) ∈ kvs.
Proof.
  induction kvs as [|[k' v'] l IH]; [done|]. simpl.
  destruct (decide (compare k k' = 0)) as [E|E].
  - apply compare_eq in E. intros [= ->]. subst. left.
  - intros H. right. by apply IH.
Qed.

Lemma kvget_None k kvs : kvget k kvs = None → ∀ v, (k, v) ∉ kvs.
Proof.
  induction kvs as [|[k' v'] l IH]; intros H v Hin.
  - by apply elem_of_nil in Hin.
  - simpl in H. destruct (decide (compare k k' = 0)) as [E|E]; [done|].
    apply elem_of_cons in Hin as [Heq|Hin].
    + injection Heq as -> ->. apply E. by apply compare_eq.
    + by apply (IH H v).
Qed.

Lemma elem_of_contents_child m (cs : list (@atree Key Val m)) (k' : Key) :
  k' ∈ (concat (contents m <$> cs)).*1 →
  ∃ (j : nat) c, cs !! j = Some c ∧ k' ∈ (contents m c).*1.
Proof.
  intros H. apply list_elem_of_fmap in H as (kv & -> & H).
  apply elem_of_concat in H as (l & Hkv & Hl).
  apply list_elem_of_fmap in Hl as (c & -> & Hc).
  apply list_elem_of_lookup in Hc as [j Hj].
  exists j, c. split; [done|]. apply list_elem_of_fmap. by exists kv.
Qed.

(** Every key of a subtree is within the bounds of the subtree. *)
Lemma ord_range n : ∀ (t : @atree Key Val n) lo hi k',
  ord None n t lo hi → k' ∈ (contents n t).*1 → leOpt lo k' ∧ ltOpt k' hi.
Proof.
  induction n as [|m IH]; intros t lo hi k' Hord Hin.
  - rewrite ord_0 in Hord. destruct Hord as (Hs & Hf & Hlow & _).
    simpl in Hin. split.
    + destruct lo as [l|]; [|done]. simpl.
      pose proof (proj1 (lowOk_None _ _) Hlow l eq_refl) as Hl0.
      apply list_elem_of_lookup in Hin as [j Hj].
      eapply (sortedK_lookup_le _ 0 j); [done|done|done|lia].
    + rewrite list.Forall_forall in Hf. by apply Hf.
  - pose proof (ord_length _ _ _ _ _ Hord) as Hlen.
    cbn [contents] in Hin.
    apply elem_of_contents_child in Hin as (j & c & Hc & Hin).
    pose proof (ord_child _ _ _ _ _ _ _ Hord Hc) as Hcord.
    destruct (IH c _ _ k' Hcord Hin) as [H1 H2].
    rewrite ord_S in Hord.
    apply lookup_lt_Some in Hc.
    assert (Hj : (j < S (length t.1.2))%nat) by (rewrite <- Hlen; exact Hc).
    split.
    + eapply (ordList_lob_le (ord None m)); [apply ord_optLt|done| |done]. lia.
    + eapply (ordList_hib_lt (ord None m)); [apply ord_optLt|done|done].
Qed.

Lemma ord_cpos m (t : @atree Key Val (S m)) lo hi k :
  ord None (S m) t lo hi → is_Some (t.2 !! cpos k t.1.2).
Proof.
  intros Hord. apply lookup_lt_is_Some.
  pose proof (ord_length _ _ _ _ _ Hord). pose proof (cpos_le k t.1.2). lia.
Qed.

(** The entry of a key, if the tree has one, is in the leaf that the
    search for the key reaches. *)
Lemma kvget_route n : ∀ (t : @atree Key Val n) lo hi k,
  ord None n t lo hi → kvget k (contents n t) = kvget k (routeLeaf n t k).
Proof.
  induction n as [|m IH]; intros t lo hi k Hord; [done|].
  destruct (ord_cpos m t lo hi k Hord) as [c Hc].
  rewrite (routeLeaf_S m t k c Hc).
  pose proof (ord_length _ _ _ _ _ Hord) as Hlen.
  pose proof (ord_sorted _ _ _ _ _ Hord) as Hsorted.
  pose proof (ord_child _ _ _ _ _ _ _ Hord Hc) as Hcord.
  cbn [contents].
  rewrite (concat_fmap_middle (contents m) _ _ c Hc), !kvget_app.
  rewrite kvget_absent.
  - rewrite (IH c _ _ k Hcord).
    destruct (kvget k (routeLeaf m c k)) as [v|] eqn:E; [done|].
    apply kvget_absent. intros k' Hin.
    apply elem_of_contents_child in Hin as (j & cj & Hj & Hin).
    rewrite lookup_drop in Hj.
    pose proof (ord_child _ _ _ _ _ _ _ Hord Hj) as Hjord.
    destruct (ord_range m cj _ _ k' Hjord Hin) as [H1 _].
    apply lookup_lt_Some in Hj.
    assert (Hj' : (S (cpos k t.1.2) + j < S (length t.1.2))%nat)
      by (rewrite <- Hlen; exact Hj).
    replace (S (cpos k t.1.2) + j)%nat with (S (cpos k t.1.2 + j)) in H1 by lia.
    simpl in H1.
    destruct (lookup_lt_is_Some_2 t.1.2 (cpos k t.1.2 + j)) as [kj Hkj]; [lia|].
    destruct (lookup_lt_is_Some_2 t.1.2 (cpos k t.1.2)) as [ki Hki]; [lia|].
    rewrite Hkj in H1. simpl in H1.
    pose proof (cpos_at k _ ki Hki) as Hlt.
    assert (compare ki kj ≤ 0) as Hle
      by (eapply (sortedK_lookup_le _ (cpos k t.1.2) (cpos k t.1.2 + j)); [done..|lia]).
    apply not_eq_sym, klt_ne.
    eapply klt_le_trans; [|exact H1]. by eapply klt_le_trans.
  - intros k' Hin.
    apply elem_of_contents_child in Hin as (j & cj & Hj & Hin).
    apply lookup_take_Some in Hj as [Hj Hlt].
    pose proof (ord_child _ _ _ _ _ _ _ Hord Hj) as Hjord.
    destruct (ord_range m cj _ _ k' Hjord Hin) as [_ H2].
    pose proof (cpos_le k t.1.2) as Hle.
    destruct (lookup_lt_is_Some_2 t.1.2 j) as [kj Hkj]; [lia|].
    unfold hib in H2. rewrite Hkj in H2. simpl in H2.
    apply klt_ne. eapply klt_le_trans; [exact H2|].
    by eapply cpos_lt.
Qed.

Lemma route_in_addrs n : ∀ (t : @atree Key Val n) k, route n t k ∈ addrs n t.
Proof.
  induction n as [|m IH]; intros t k; [simpl; left|].
  rewrite addrs_S. simpl.
  destruct (t.2 !! cpos k t.1.2) as [c|] eqn:Hc; [|left].
  right. eapply elem_of_addrs_child; [exact Hc|apply IH].
Qed.

Lemma routeLeaf_contents n : ∀ (t : @atree Key Val n) k,
  routeLeaf n t k ⊆ contents n t.
Proof.
  induction n as [|m IH]; intros t k; [done|]. simpl.
  destruct (t.2 !! cpos k t.1.2) as [c|] eqn:Hc; [|apply list_subseteq_nil].
  intros x Hx. apply elem_of_concat. exists (contents m c). split; [by apply (IH c k)|].
  apply list_elem_of_fmap. exists c. split; [done|].
  by eapply list_elem_of_lookup_2.
Qed.

(** The entries of a tree are in strictly ascending order of their keys. *)
Lemma ordList_contents_sorted m :
  (∀ (c : @atree Key Val m) lo hi, ord None m c lo hi → sortedK (contents m c).*1) →
  ∀ (cs : list (@atree Key Val m)) ks lo hi,
  ordList (ord None m) lo ks cs hi → sortedK (concat (contents m <$> cs)).*1.
Proof.
  intros IH cs. induction cs as [|c cs IHcs]; intros ks lo hi Hord; [done|].
  cbn [fmap list_fmap concat]. rewrite fmap_app.
  destruct ks as [|k ks]; simpl in Hord.
  - destruct Hord as [-> Hc]. simpl. rewrite app_nil_r. by eapply IH.
  - destruct Hord as [Hc Hrest]. apply sortedK_app. split_and!.
    + by eapply IH.
    + by eapply IHcs.
    + intros x y Hx Hy.
      destruct (ord_range m c _ _ x Hc Hx) as [_ Hxk]. simpl in Hxk.
      destruct (ord_range (S m) ((0%nat, ks, cs) : @atree Key Val (S m))
                  (Some k) hi y) as [Hky _]; [exact Hrest|exact Hy|].
      simpl in Hky. by eapply klt_le_trans.
Qed.

Lemma ord_contents_sorted n : ∀ (t : @atree Key Val n) lo hi,
  ord None n t lo hi → sortedK (contents n t).*1.
Proof.
  induction n as [|m IH]; intros t lo hi Hord.
  - rewrite ord_0 in Hord. by destruct Hord as (Hs & _).
  - rewrite ord_S in Hord. cbn [contents].
    by eapply (ordList_contents_sorted m IH).
Qed.

Lemma kvget_elem k v kvs : sortedK kvs.*1 → (k, v) ∈ kvs → kvget k kvs = Some v.
Proof.
  induction kvs as [|[k' v'] l IH]; intros Hs Hin.
  - by apply elem_of_nil in Hin.
  - csimpl in Hs. apply sortedK_cons in Hs as [Hall Hs]. simpl.
    apply elem_of_cons in Hin as [Heq|Hin].
    + injection Heq as <- <-. by rewrite decide_True by apply compare_refl.
    + destruct (decide (compare k k' = 0)) as [E|E]; [|by apply IH].
      apply compare_eq in E. subst k'. exfalso.
      rewrite list.Forall_forall in Hall.
      apply (klt_irrefl k), Hall. apply list_elem_of_fmap. by exists (k, v).
Qed.

Lemma kvget_iff k v kvs : sortedK kvs.*1 → kvget k kvs = Some v ↔ (k, v) ∈ kvs.
Proof. intros Hs. split; [apply kvget_Some|by apply kvget_elem]. Qed.

(** The first of ascending keys is the least. *)
Lemma sortedK_head_le (ks : list Key) k0 k' :
  sortedK ks → head ks = Some k0 → k' ∈ ks → compare k0 k' ≤ 0.
Proof.
  intros Hs Hh Hin. apply list_elem_of_lookup in Hin as [j Hj].
  eapply (sortedK_lookup_le ks 0 j); [done| |done|lia].
  by rewrite <- head_lookup.
Qed.

End GetOrd.

(** * The first key of a tree *)

Section First.
Context {Key Val : Type} {KO : KeyOps Key}.
Variable o : Z.

Lemma contents_nonempty n : ∀ lb (t : @atree Key Val n),
  3 ≤ o → 1 ≤ lb → occ o lb n t → contents n t ≠ [].
Proof.
  induction n as [|m IH]; intros lb t Ho Hlb Hocc.
  - simpl in *. destruct t.2; [simpl in Hocc; unfold len in Hocc; simpl in Hocc; lia|done].
  - pose proof Hocc as Hocc0. rewrite occ_S in Hocc. destruct Hocc as (_ & Hl & _).
    destruct (lookup_lt_is_Some_2 t.2 0%nat) as [c Hc]; [unfold len in *; lia|].
    pose proof (occ_child o lb m t _ c Hocc0 Hc) as Hcocc.
    pose proof (minKeys_bounds o Ho) as Hmin.
    cbn [contents]. rewrite (concat_fmap_middle (contents m) _ _ c Hc).
    rewrite take_0. simpl. intros E. apply app_eq_nil in E as [E _].
    revert E. eapply IH; [done| |done]. lia.
Qed.

Lemma amin_head n : ∀ lb (t : @atree Key Val n),
  3 ≤ o → 1 ≤ lb → occ o lb n t →
  fst <$> head (contents n t) = Some (amin n t).
Proof.
  induction n as [|m IH]; intros lb t Ho Hlb Hocc.
  - simpl in *. destruct t.2; [simpl in Hocc; unfold len in Hocc; simpl in Hocc; lia|done].
  - pose proof Hocc as Hocc0. rewrite occ_S in Hocc. destruct Hocc as (_ & Hl & _).
    destruct (lookup_lt_is_Some_2 t.2 0%nat) as [c Hc]; [unfold len in *; lia|].
    pose proof (occ_child o lb m t _ c Hocc0 Hc) as Hcocc.
    pose proof (minKeys_bounds o Ho) as Hmin.
    assert (Hlbc : 1 ≤ ceil o 2 - 1) by lia.
    assert (Hamin : amin (S m) t = amin m c).
    { destruct t as [[a ks] [|c0 cs0]]; [done|]. simpl in Hc. by injection Hc as ->. }
    rewrite Hamin, <- (IH _ c Ho Hlbc Hcocc).
    cbn [contents]. rewrite (concat_fmap_middle (contents m) _ _ c Hc).
    rewrite take_0. simpl.
    pose proof (contents_nonempty m _ c Ho Hlbc Hcocc).
    by destruct (contents m c).
Qed.

End First.


(** * Iterating over the leaves *)

Section Drain.
Context {Key Val : Type} {KO : KeyOps Key}.
Variable o : Z.
Hypothesis o_ge_3 : 3 ≤ o.
Implicit Types (h : list (node Key Val)) (nxt par : option addr).

Lemma HasNext_leafNode h a par kvs nxt (i : nat) :
  h !! a = Some (leafNode o par kvs nxt) →
  HasNext h (mkIterator (Some a) (Z.of_nat i)) = bool_decide (i < length kvs)%nat.
Proof.
  intros Ha. unfold HasNext. cbn [it_next it_i]. rewrite Ha.
  cbn [keyNum leafNode]. unfold len. apply bool_decide_ext. lia.
Qed.

Lemma Next_leafNode h a par kvs nxt (i : nat) kv :
  h !! a = Some (leafNode o par kvs nxt) → len kvs ≤ o - 1 →
  kvs !! i = Some kv →
  Next h (mkIterator (Some a) (Z.of_nat i))
  = Some (kv.1, kv.2,
          if decide (S i = length kvs) then mkIterator nxt 0
          else mkIterator (Some a) (Z.of_nat (S i))).
Proof.
  intros Ha Hlen Hkv. pose proof (lookup_lt_Some _ _ _ Hkv) as Hi.
  unfold Next. rewrite (HasNext_leafNode h a par kvs nxt i Ha).
  rewrite bool_decide_eq_true_2 by done. cbn [negb it_next it_i mbind option_bind].
  rewrite Ha. cbn [mbind option_bind].
  rewrite (idx_keys_leafNode o par kvs nxt i kv _ Hkv eq_refl).
  cbn [mbind option_bind].
  rewrite (idx_pointers_leafNode o par kvs nxt i kv _ Hkv eq_refl).
  cbn [mbind option_bind vptr asValue].
  cbn [keyNum leafNode]. unfold lastPointer.
  rewrite next_leafNode by lia. cbn [mbind option_bind].
  destruct (decide (S i = length kvs)) as [E|E].
  - rewrite decide_True by (unfold len; lia).
    destruct nxt as [nx|]; done.
  - rewrite decide_False by (unfold len; lia).
    do 3 f_equal. lia.
Qed.

(** The entries of one leaf from position [i] on, then the leaves after
    it. *)
Lemma drain_leaf h a par kvs nxt (f : nat) :
  h !! a = Some (leafNode o par kvs nxt) → len kvs ≤ o - 1 →
  ∀ (d i : nat), (i + S d = length kvs)%nat →
  drain (S d + f) h (mkIterator (Some a) (Z.of_nat i))
  = (rest ← drain f h (mkIterator nxt 0); Some (drop i kvs ++ rest)).
Proof.
  intros Ha Hlen d. induction d as [|d IH]; intros i Hi.
  - destruct (lookup_lt_is_Some_2 kvs i) as [kv Hkv]; [lia|].
    cbn [Nat.add drain].
    rewrite (HasNext_leafNode h a par kvs nxt i Ha).
    rewrite bool_decide_eq_true_2 by lia.
    rewrite (Next_leafNode h a par kvs nxt i kv Ha Hlen Hkv).
    cbn [mbind option_bind]. rewrite decide_True by lia.
    rewrite (drop_S _ _ _ Hkv), drop_ge by lia.
    destruct (drain f h (mkIterator nxt 0)); [|done].
    simpl. by destruct kv.
  - destruct (lookup_lt_is_Some_2 kvs i) as [kv Hkv]; [lia|].
    change (S (S d) + f)%nat with (S (S d + f)). cbn [drain].
    rewrite (HasNext_leafNode h a par kvs nxt i Ha).
    rewrite bool_decide_eq_true_2 by lia.
    rewrite (Next_leafNode h a par kvs nxt i kv Ha Hlen Hkv).
    cbn [mbind option_bind]. rewrite decide_False by lia.
    rewrite (IH (S i)) by lia.
    rewrite (drop_S _ _ _ Hkv).
    destruct (drain f h (mkIterator nxt 0)); [|done].
    simpl. by destruct kv.
Qed.

Lemma drain_tree h n : ∀ (t : @atree Key Val n) par nxt lb (f : nat),
  1 ≤ lb → rep o h n t par nxt → occ o lb n t →
  drain (length (contents n t) + f) h (mkIterator (Some (afirst n t)) 0)
  = (rest ← drain f h (mkIterator nxt 0); Some (contents n t ++ rest)).
Proof.
  induction n as [|m IH]; intros t par nxt lb f Hlb Hrep Hocc.
  - simpl in Hrep, Hocc. cbn [contents afirst].
    destruct (length t.2) as [|d] eqn:Hd; [unfold len in Hocc; lia|].
    pose proof (drain_leaf h t.1 par t.2 nxt f Hrep ltac:(lia) d 0%nat ltac:(lia)) as H.
    rewrite drop_0 in H. exact H.
  - pose proof Hocc as Hocc0. rewrite occ_S in Hocc.
    destruct Hocc as (_ & Hl & Hall).
    pose proof (minKeys_bounds o o_ge_3) as Hmin.
    destruct Hrep as [_ Hch]. cbn [contents].
    assert (Hne : t.2 ≠ []) by (intros E; rewrite E in Hl; unfold len in Hl; simpl in Hl; lia).
    assert (Hfirst : Some (afirst (S m) t) = nextOf m t.2 nxt ∨ t.2 = []).
    { left. simpl. by destruct t.2. }
    destruct Hfirst as [-> |]; [|done].
    clear Hl Hocc0 Hne. revert Hch Hall f.
    generalize (t.1.1). generalize (t.2). clear t.
    intros cs. induction cs as [|c cs IHcs]; intros a Hch Hall f.
    + simpl. by destruct (drain f h (mkIterator nxt 0)).
    + destruct Hch as [Hc Hch]. apply list.Forall_cons in Hall as [Hcocc Hall].
      cbn [nextOf fmap list_fmap concat].
      rewrite length_app, <- Nat.add_assoc.
      rewrite (IH c (Some a) (nextOf m cs nxt) (ceil o 2 - 1) _ ltac:(lia) Hc Hcocc).
      rewrite (IHcs a Hch Hall f).
      destruct (drain f h (mkIterator nxt 0)); [|done].
      simpl. by rewrite (assoc_L (++)).
Qed.

Lemma drain_end h (f : nat) : drain (S f) h (mkIterator None 0) = Some [].
Proof. done. Qed.

Lemma drain_all h n (t : @atree Key Val n) par lb (f : nat) :
  1 ≤ lb → rep o h n t par None → occ o lb n t →
  (length (contents n t) < f)%nat →
  drain f h (mkIterator (Some (afirst n t)) 0) = Some (contents n t).
Proof.
  intros Hlb Hrep Hocc Hf.
  replace f with (length (contents n t) + S (f - S (length (contents n t))))%nat by lia.
  rewrite (drain_tree h n t par None lb _ Hlb Hrep Hocc), drain_end.
  simpl. by rewrite app_nil_r.
Qed.

End Drain.


(** * [putIntoLeaf] follows [treePut] *)

Section PutWalk.
Context {Key Val : Type} {KO : KeyOps Key} {KL : KeyLaws Key}.
Variable o : Z.
Hypothesis o_ge_3 : 3 ≤ o.
Implicit Types (h : list (node Key Val)) (T : BPTree Key Val) (nxt par : option addr).

(** ** The walk from the leaf up to the top of a subtree *)

Local Ltac ftree :=
  repeat match goal with
         | m : nat |- _ => progress fold (@atree Key Val m) in *
         end.

Lemma put_sim n : ∀ (t : @atree Key Val n) T par nxt lo hi lb k v,
  order T = o →
  rep o (nodes T) n t par nxt →
  NoDup (addrs n t) →
  ord None n t lo hi → leOpt lo k → ltOpt k hi →
  occ o lb n t →
  (n < fuel T)%nat →
  putSpec o T n t par nxt k v.
Proof.
  induction n as [|m IH];
    intros t T par nxt lo hi lb k v Ho Hrep Hnd Hord Hlo Hhi Hocc Hfuel.
  { by eapply (put_sim_leaf o o_ge_3). }
  pose proof Hrep as Hrep0.
  apply rep_S in Hrep as [Ha Hch].
  rewrite occ_S in Hocc. destruct Hocc as (Hks & Hcs & Hocc).
  assert (Hile : (cpos k t.1.2 ≤ length t.1.2)%nat) by apply cpos_le.
  assert (Hlen : length t.2 = S (length t.1.2)) by (unfold len in *; lia).
  unfold putSpec. rewrite treePut_S. cbv zeta.
  match goal with
  | |- context [match @lookup _ _ _ _ ?j ?l with Some _ => _ | None => (_, _) end] =>
      destruct (@lookup _ _ _ _ j l) as [c|] eqn:Hc
  end.
  2:{ exfalso. apply lookup_ge_None in Hc. fold (@atree Key Val m) in *. lia. }
  fold (@atree Key Val m) in *.
  rewrite (route_S m t k c Hc).
  match type of Hc with _ !! ?p = _ => remember p as i eqn:Hidef end.
  pose proof Hnd as Hnd0.
  rewrite addrs_S in Hnd. apply list.NoDup_cons in Hnd as [Hna Hndc].
  remember (length (nodes T)) as fr eqn:Hfrdef.
  assert (Hvalid : ∀ x : nat, x ∈ addrs (S m) t → (x < fr)%nat).
  { intros x Hx. subst fr. by eapply rep_valid. }
  assert (Hcnd : NoDup (addrs m c)) by (by eapply NoDup_child).
  assert (Hcin : ∀ x, x ∈ addrs m c → x ∈ addrs (S m) t).
  { intros x Hx. rewrite addrs_S. right. by eapply elem_of_addrs_child. }
  assert (Hcord := ord_child _ _ _ _ _ _ _ Hord Hc).
  assert (Hcocc : occ o (ceil o 2 - 1) m c).
  { rewrite list.Forall_forall in Hocc. apply Hocc. by eapply list_elem_of_lookup_2. }
  assert (Hclo : leOpt (lob lo t.1.2 i) k) by (subst i; by apply cpos_lob).
  assert (Hchi : ltOpt k (hib t.1.2 hi i)) by (subst i; by apply cpos_hib).
  specialize (IH c T (Some t.1.1) (nextAt m t.2 nxt i) _ _ _ k v Ho (Hch i c Hc)
                Hcnd Hcord Hclo Hchi Hcocc ltac:(lia)).
  pose proof (put_shape o fr m c k v) as Hshape.
  pose proof (put_addrs o fr m c k v Hcnd (λ x Hx, Hvalid x (Hcin x Hx))) as Haddrs.
  assert (Hsep : ∀ cl sep cr old,
            treePut o fr m c k v = (ISplit cl sep cr, old) → cpos sep t.1.2 = i).
  { intros cl sep cr old Hput. subst i.
    by apply (put_sep_pos o o_ge_3 fr m t k v lo hi c cl sep cr old Hord Hlo Hhi). }
  unfold putSpec in IH. rewrite <- Hfrdef in IH.
  assert (Hat : (t.1.1 < fr)%nat) by (apply Hvalid, (aaddr_in_addrs (S m) t)).
  destruct (treePut o fr m c k v) as [[c'|cl sep cr] old] eqn:Hput;
    cbn [fst] in Hshape, Haddrs.
  - (* the child took the entry without a split *)
    destruct IH as (h' & Heq & Hrep' & Hlen' & Hfr').
    destruct Hshape as [Hsh1 Hsh2].
    exists h'. split_and!; [exact Heq| |exact Hlen'|].
    + apply rep_S. cbn [fst snd]. split.
      * rewrite list_fmap_insert, Hsh1.
        rewrite list_insert_id by (by rewrite list_lookup_fmap, Hc).
        rewrite Hfr'; [done|done|]. intros Hx. apply Hna.
        by eapply elem_of_addrs_child.
      * intros j cj Hj. ftree. rewrite (nextAt_insert m _ nxt i j c c') by done.
        destruct (decide (j = i)) as [->|Hne].
        -- rewrite list_lookup_insert_eq in Hj by lia. by injection Hj as <-.
        -- rewrite list_lookup_insert_ne in Hj by done.
           eapply rep_frame; [by apply Hch|]. intros x Hx. apply Hfr'.
           ++ apply Hvalid. rewrite addrs_S. right. by eapply elem_of_addrs_child.
           ++ intros Hx'. by eapply (children_disjoint m t.2 i j).
    + intros x Hxl Hx. apply Hfr'; [done|]. intros Hx'. by apply Hx, Hcin.
  - (* the child was split *)
    destruct IH as (-> & h1 & Heq & Hrl & Hrr & Hlen1 & Hfr1).
    destruct Hshape as (Hsh1 & Hsh2 & Hsh3).
    destruct Haddrs as [Had1 Had2].
    specialize (Hsep cl sep cr None eq_refl).
    set (cs' := take i t.2 ++ cl :: cr :: drop (S i) t.2).
    assert (Hh1a : h1 !! t.1.1 = Some (innerNode o par t.1.2 (aaddr m <$> t.2))).
    { rewrite Hfr1; [done|done|]. intros Hx. apply Hna.
      by eapply elem_of_addrs_child. }
    assert (Hpre : ∀ (j : nat) cj, cs' !! j = Some cj →
              repU o h1 m cj (nextAt m cs' nxt j)).
    { apply (split_children_pre o m t.2 i c cl cr Hc (nodes T) h1 t.1.1 nxt Hch Hndc);
        [|done..].
      intros x Hx. apply Hfr1. by rewrite Hfrdef. }
    assert (Hnd' : NoDup (t.1.1 :: concat (addrs m <$> cs'))).
    { apply (split_NoDup m t.2 i c cl cr Hc fr); [by rewrite <- addrs_S| |done|].
      - intros x Hx. apply Hvalid. by rewrite addrs_S.
      - intros x Hx. destruct (Had2 x Hx); [by left|right; lia]. }
    assert (Hfuel' : (fuel T - m = S (fuel T - S m))%nat) by lia.
    rewrite Hfuel' in Heq.
    match goal with
    | |- context [decide ?P] => destruct (decide P) as [Hnf|Hfull]
    end; ftree.
    + (* the node has room *)
      destruct (loop_absorb o (setNodes T h1) (fuel T - S m) m t.1.1 par nxt t.1.2 t.2
                  i c cl sep cr Ho Hh1a Hnf Hlen Hc Hsep Hsh1 Hpre Hnd')
        as (h2 & Hloop & Hrep2 & Hlen2 & Hfr2).
      { intros j cj Hj Hji Hjsi.
        apply (split_cases m t.2 i c cl cr Hc) in Hj
          as [[Hlt Hj]|[[? _]|[[? _]|[Hgt Hj]]]]; [|done|done|].
        - cbn [nodes setNodes]. rewrite Hfr1.
          + by eapply rep_parent_same, Hch.
          + apply Hvalid. rewrite addrs_S. right.
            eapply elem_of_addrs_child; [exact Hj|apply aaddr_in_addrs].
          + intros Hx.
            apply (children_disjoint m t.2 i j c cj (aaddr m cj) Hndc Hc Hj);
              [lia|exact Hx|apply aaddr_in_addrs].
        - cbn [nodes setNodes]. rewrite Hfr1.
          + by eapply rep_parent_same, Hch.
          + apply Hvalid. rewrite addrs_S. right.
            eapply elem_of_addrs_child; [exact Hj|apply aaddr_in_addrs].
          + intros Hx.
            apply (children_disjoint m t.2 i (pred j) c cj (aaddr m cj) Hndc Hc Hj);
              [lia|exact Hx|apply aaddr_in_addrs]. }
      cbn [nodes setNodes] in Hlen2, Hfr2.
      exists h2. split_and!.
      * rewrite Heq.
        refine (eq_trans
                  (f_equal (λ r, r ≫= λ T'' : BPTree Key Val,
                                   Some (setSize T'' (size T'' + 1), @None Val))
                     Hloop) _).
        done.
      * exact Hrep2.
      * lia.
      * intros x Hxl Hx. rewrite Hfr2.
        -- apply Hfr1; [done|]. intros Hx'. by apply Hx, Hcin.
        -- intros ->. apply Hx, (aaddr_in_addrs (S m) t).
        -- rewrite Hsh1. intros ->. apply Hx, Hcin, aaddr_in_addrs.
        -- rewrite Hsh3. lia.
    + (* the node is full *)
      assert (Hfull' : len t.1.2 = o - 1)
        by (apply Z.le_antisymm; [apply Hks|apply Z.nlt_ge, Hfull]).
      destruct (loop_split o o_ge_3 (setNodes T h1) (fuel T - S m) m t.1.1 par nxt t.1.2 t.2
                  i c cl sep cr Ho Hh1a Hfull' Hlen Hc Hsep Hsh1 Hpre Hnd')
        as (h2 & Hloop & Hrep2l & Hrep2r & Hlen2 & Hfr2).
      cbn [nodes setNodes] in Hloop, Hrep2l, Hrep2r, Hlen2, Hfr2. rewrite ?Hlen1 in Hloop, Hrep2l, Hrep2r, Hlen2, Hfr2.
      split; [done|]. exists h2. split_and!.
      * rewrite Heq.
        refine (eq_trans
                  (f_equal (λ r, r ≫= λ T'' : BPTree Key Val,
                                   Some (setSize T'' (size T'' + 1), @None Val))
                     Hloop) _).
        done.
      * exact Hrep2l.
      * exact Hrep2r.
      * lia.
      * intros x Hxl Hx. rewrite Hfr2.
        -- apply Hfr1; [done|]. intros Hx'. by apply Hx, Hcin.
        -- intros ->. apply Hx, (aaddr_in_addrs (S m) t).
        -- lia.
        -- intros Hin. apply list_elem_of_fmap in Hin as (cj & -> & Hcj).
           apply list_elem_of_lookup_1 in Hcj as [j Hj].
           apply (split_cases m t.2 i c cl cr Hc) in Hj
             as [[Hlt Hj]|[[_ ->]|[[_ ->]|[Hgt Hj]]]].
           ++ apply Hx. rewrite addrs_S. right.
              eapply elem_of_addrs_child; [exact Hj|apply aaddr_in_addrs].
           ++ rewrite Hsh1 in Hx. apply Hx, Hcin, aaddr_in_addrs.
           ++ rewrite Hsh3 in Hxl. lia.
           ++ apply Hx. rewrite addrs_S. right.
              eapply elem_of_addrs_child; [exact Hj|apply aaddr_in_addrs].
Qed.

End PutWalk.


(** * What an insertion keeps: occupancy and the entries *)

Section PutOcc.
Context {Key Val : Type} {KO : KeyOps Key}.
Variable o : Z.
Hypothesis o_ge_3 : 3 ≤ o.

Local Ltac ftree :=
  repeat match goal with
         | m : nat |- _ => progress fold (@atree Key Val m) in *
         end.

Lemma put_occ fr n : ∀ (t : @atree Key Val n) lb k v,
  occ o lb n t →
  match (treePut o fr n t k v).1 with
  | ISame t' => occ o lb n t'
  | ISplit tl _ tr => occ o (ceil o 2 - 1) n tl ∧ occ o (ceil o 2 - 1) n tr
  end.
Proof.
  pose proof (middle_bounds o o_ge_3) as HM.
  pose proof (middle_Z o o_ge_3) as HMZ.
  pose proof (middle_minKeys o o_ge_3) as HK.
  induction n as [|m IH]; intros t lb k v Hocc.
  - simpl in *. unfold leafPut.
    destruct (lpos k t.2.*1) as [p|p].
    + destruct (t.2 !! p) as [[k0 v0]|]; cbn [fst snd occ]; [|done].
      unfold len in *. by rewrite length_insert.
    + cbv zeta. case_decide as Hnf; cbn [fst snd occ].
      * rewrite len_insertAtL. lia.
      * unfold len in *. rewrite length_take, length_drop, !length_insertAtL. lia.
  - rewrite treePut_S. cbv zeta.
    destruct (t.2 !! cpos k t.1.2) as [c|] eqn:Hc; [|done].
    pose proof (lookup_lt_Some _ _ _ Hc) as Hi.
    pose proof (occ_child o lb m t _ c Hocc Hc) as Hcocc.
    specialize (IH c _ k v Hcocc).
    rewrite occ_S in Hocc. destruct Hocc as (Hks & Hcs & Hall).
    destruct (treePut o fr m c k v) as [[c'|cl sep cr] old]; cbn [fst] in IH |- *.
    + rewrite occ_S. cbn [fst snd]. split_and!; [lia..| |].
      * unfold len in *. by rewrite length_insert.
      * by apply Forall_insert.
    + destruct IH as [IHl IHr].
      assert (Hall' : Forall (occ o (ceil o 2 - 1) m)
                        (take (cpos k t.1.2) t.2 ++ cl :: cr :: drop (S (cpos k t.1.2)) t.2)).
      { apply list.Forall_app. split; [by apply Forall_take|].
        apply list.Forall_cons. split; [done|].
        apply list.Forall_cons. split; [done|]. by apply Forall_drop. }
      assert (Hlen' : length (take (cpos k t.1.2) t.2 ++ cl :: cr
                                :: drop (S (cpos k t.1.2)) t.2) = S (length t.2)).
      { rewrite length_app, length_take. simpl. rewrite length_drop. ftree. lia. }
      destruct (decide (len t.1.2 < o - 1)) as [Hnf|Hfull]; cbn [fst]; ftree.
      * rewrite occ_S. cbn [fst snd]. rewrite len_insertAtL.
        split_and!; [lia..| |done]. unfold len in *. ftree. rewrite Hlen'. lia.
      * rewrite !occ_S. cbn [fst snd]. unfold len in *. ftree.
        rewrite !length_take, !length_drop, !length_insertAtL, !Hlen'.
        split_and!; try lia; [by apply Forall_take|by apply Forall_drop].
Qed.

End PutOcc.

Section PutContents.
Context {Key Val : Type} {KO : KeyOps Key} {KL : KeyLaws Key}.
Variable o : Z.
Hypothesis o_ge_3 : 3 ≤ o.
Implicit Types (kvs : list (Key * Val)) (k : Key) (v : Val).

(** ** Entries as a sorted association list *)

Lemma kvput_app_l k v kvs1 kvs2 :
  (∀ k', k' ∈ kvs1.*1 → klt k' k) →
  kvput k v (kvs1 ++ kvs2) = kvs1 ++ kvput k v kvs2.
Proof.
  induction kvs1 as [|[k' v'] l IH]; intros H; [done|]. simpl.
  assert (Hlt : klt k' k) by (apply H; left).
  rewrite decide_False.
  - rewrite decide_False; [|by apply not_klt, klt_le].
    rewrite IH; [done|]. intros k'' Hin. apply H. by right.
  - intros E. apply compare_eq in E. subst. by apply klt_irrefl in Hlt.
Qed.

Lemma kvput_app_r k v kvs1 kvs2 :
  (∀ k', k' ∈ kvs2.*1 → klt k k') →
  kvput k v (kvs1 ++ kvs2) = kvput k v kvs1 ++ kvs2.
Proof.
  intros H. induction kvs1 as [|[k' v'] l IH]; simpl.
  - destruct kvs2 as [|[k2 v2] l2]; [done|]. simpl.
    assert (Hlt : klt k k2) by (apply H; left).
    rewrite decide_False.
    + by rewrite decide_True.
    + intros E. apply compare_eq in E. subst. by apply klt_irrefl in Hlt.
  - destruct (decide (compare k k' = 0)); [done|].
    destruct (decide (compare k k' < 0)); [done|]. by rewrite IH.
Qed.

Lemma kvput_lpos_inl k v kvs (p : nat) k0 v0 :
  lpos k kvs.*1 = inl p → kvs !! p = Some (k0, v0) →
  kvput k v kvs = <[p := (k0, v)]> kvs ∧ kvget k kvs = Some v0.
Proof.
  revert p. induction kvs as [|[k' v'] l IH]; intros p; [done|]. csimpl.
  destruct (decide (compare k k' = 0)) as [E|E].
  - intros [= <-] [= <- <-]. done.
  - destruct (decide (compare k k' < 0)); [done|].
    destruct (lpos k l.*1) as [q|q] eqn:Hq; [|done].
    intros [= <-] Hp. simpl in Hp. destruct (IH q eq_refl Hp) as [-> ->]. done.
Qed.

Lemma kvput_lpos_inr k v kvs (p : nat) :
  lpos k kvs.*1 = inr p → kvput k v kvs = insertAtL p (k, v) kvs.
Proof.
  revert p. induction kvs as [|[k' v'] l IH]; intros p; csimpl.
  - by intros [= <-].
  - destruct (decide (compare k k' = 0)) as [E|E]; [done|].
    destruct (decide (compare k k' < 0)); [by intros [= <-]|].
    destruct (lpos k l.*1) as [q|q] eqn:Hq; [done|].
    intros [= <-]. by rewrite (IH q eq_refl).
Qed.

Lemma kvget_lpos_inr k kvs (p : nat) :
  sortedK kvs.*1 → lpos k kvs.*1 = inr p → kvget k kvs = None.
Proof.
  intros Hs Hp. apply kvget_absent. intros k' Hin.
  apply list_elem_of_lookup in Hin as [j Hj].
  destruct (decide (j < p)%nat) as [Hlt|Hge].
  - apply klt_ne. eapply (lpos_before k _ p); [by right|done..].
  - destruct (lookup_lt_is_Some_2 kvs.*1 p) as [kp Hkp];
      [apply lookup_lt_Some in Hj; lia|].
    pose proof (lpos_inr_at k _ p kp Hp Hkp) as Hk.
    apply not_eq_sym, klt_ne. eapply klt_le_trans; [exact Hk|].
    eapply (sortedK_lookup_le _ p j); [done..|lia].
Qed.

(** ** The keys left and right of the child of a key *)

Lemma ord_before m (t : @atree Key Val (S m)) lo hi k k' :
  ord None (S m) t lo hi →
  k' ∈ (concat (contents m <$> take (cpos k t.1.2) t.2)).*1 → klt k' k.
Proof.
  intros Hord Hin.
  apply elem_of_contents_child in Hin as (j & cj & Hj & Hin).
  apply lookup_take_Some in Hj as [Hj Hlt].
  pose proof (ord_child _ _ _ _ _ _ _ Hord Hj) as Hjord.
  destruct (ord_range m cj _ _ k' Hjord Hin) as [_ H2].
  pose proof (cpos_le k t.1.2) as Hle.
  destruct (lookup_lt_is_Some_2 t.1.2 j) as [kj Hkj]; [lia|].
  unfold hib in H2. rewrite Hkj in H2. simpl in H2.
  eapply klt_le_trans; [exact H2|]. by eapply cpos_lt.
Qed.

Lemma ord_after m (t : @atree Key Val (S m)) lo hi k k' :
  ord None (S m) t lo hi →
  k' ∈ (concat (contents m <$> drop (S (cpos k t.1.2)) t.2)).*1 → klt k k'.
Proof.
  intros Hord Hin.
  pose proof (ord_length _ _ _ _ _ Hord) as Hlen.
  pose proof (ord_sorted _ _ _ _ _ Hord) as Hsorted.
  apply elem_of_contents_child in Hin as (j & cj & Hj & Hin).
  rewrite lookup_drop in Hj.
  pose proof (ord_child _ _ _ _ _ _ _ Hord Hj) as Hjord.
  destruct (ord_range m cj _ _ k' Hjord Hin) as [H1 _].
  apply lookup_lt_Some in Hj.
  assert (Hj' : (S (cpos k t.1.2) + j < S (length t.1.2))%nat)
    by (rewrite <- Hlen; exact Hj).
  replace (S (cpos k t.1.2) + j)%nat with (S (cpos k t.1.2 + j)) in H1 by lia.
  simpl in H1.
  destruct (lookup_lt_is_Some_2 t.1.2 (cpos k t.1.2 + j)) as [kj Hkj]; [lia|].
  destruct (lookup_lt_is_Some_2 t.1.2 (cpos k t.1.2)) as [ki Hki]; [lia|].
  rewrite Hkj in H1. simpl in H1.
  pose proof (cpos_at k _ ki Hki) as Hlt.
  assert (compare ki kj ≤ 0) as Hle
    by (eapply (sortedK_lookup_le _ (cpos k t.1.2) (cpos k t.1.2 + j)); [done..|lia]).
  eapply klt_le_trans; [|exact H1]. by eapply klt_le_trans.
Qed.

Lemma kvget_child m (t : @atree Key Val (S m)) lo hi k c :
  ord None (S m) t lo hi → t.2 !! cpos k t.1.2 = Some c →
  kvget k (contents (S m) t) = kvget k (contents m c).
Proof.
  intros Hord Hc.
  pose proof (ord_child _ _ _ _ _ _ _ Hord Hc) as Hcord.
  rewrite (kvget_route (S m) t lo hi k Hord), (routeLeaf_S m t k c Hc).
  by rewrite <- (kvget_route m c _ _ k Hcord).
Qed.

Lemma kvput_child m (t : @atree Key Val (S m)) lo hi k v c :
  ord None (S m) t lo hi → t.2 !! cpos k t.1.2 = Some c →
  kvput k v (contents (S m) t)
  = concat (contents m <$> take (cpos k t.1.2) t.2)
    ++ kvput k v (contents m c)
    ++ concat (contents m <$> drop (S (cpos k t.1.2)) t.2).
Proof.
  intros Hord Hc. cbn [contents].
  rewrite (concat_fmap_middle (contents m) _ _ c Hc).
  rewrite kvput_app_l by (intros k' Hin; by eapply ord_before).
  rewrite kvput_app_r by (intros k' Hin; by eapply ord_after).
  done.
Qed.

(** ** The entries after an insertion *)

Lemma put_contents fr n : ∀ (t : @atree Key Val n) lo hi k v,
  ord None n t lo hi →
  match treePut o fr n t k v with
  | (ISame t', old) =>
      contents n t' = kvput k v (contents n t) ∧ old = kvget k (contents n t)
  | (ISplit tl _ tr, old) =>
      contents n tl ++ contents n tr = kvput k v (contents n t)
      ∧ old = kvget k (contents n t)
  end.
Proof.
  induction n as [|m IH]; intros t lo hi k v Hord.
  - rewrite ord_0 in Hord. destruct Hord as (Hs & _).
    simpl. unfold leafPut.
    destruct (lpos k t.2.*1) as [p|p] eqn:Hp.
    + destruct (lpos_inl _ _ _ Hp) as (k0 & Hk0 & _).
      rewrite list_lookup_fmap in Hk0.
      destruct (t.2 !! p) as [[k1 v0]|] eqn:Hkv; [|done].
      destruct (kvput_lpos_inl k v t.2 p k1 v0 Hp Hkv) as [-> ->]. done.
    + cbv zeta. rewrite (kvput_lpos_inr k v t.2 p Hp).
      rewrite (kvget_lpos_inr k t.2 p Hs Hp).
      case_decide; cbn [contents fst snd]; [done|].
      by rewrite take_drop.
  - rewrite treePut_S. cbv zeta.
    pose proof Hord as Hord0.
    destruct (ord_cpos m t lo hi k Hord) as [c Hc].
    destruct (t.2 !! cpos k t.1.2) as [c0|] eqn:Hc0; [|done].
    injection Hc as ->.
    pose proof (lookup_lt_Some _ _ _ Hc0) as Hi.
    pose proof (ord_child _ _ _ _ _ _ _ Hord Hc0) as Hcord.
    specialize (IH c _ _ k v Hcord).
    rewrite (kvput_child m t lo hi k v c Hord Hc0).
    rewrite (kvget_child m t lo hi k c Hord Hc0).
    destruct (treePut o fr m c k v) as [[c'|cl sep cr] old].
    + destruct IH as [IH1 IH2]. split; [|done].
      cbn [contents fst snd].
      rewrite insert_take_drop by done.
      by rewrite fmap_app, concat_app, fmap_cons, concat_cons, IH1.
    + destruct IH as [IH1 IH2].
      assert (Hcat : concat (contents m <$> take (cpos k t.1.2) t.2 ++ cl :: cr
                               :: drop (S (cpos k t.1.2)) t.2)
                     = concat (contents m <$> take (cpos k t.1.2) t.2)
                       ++ kvput k v (contents m c)
                       ++ concat (contents m <$> drop (S (cpos k t.1.2)) t.2)).
      { rewrite fmap_app, concat_app, !fmap_cons, !concat_cons, <- IH1.
        by rewrite <- !(assoc_L (++)). }
      destruct (decide (len t.1.2 < o - 1)) as [Hnf|Hfull].
      * split; [|done]. cbn [contents fst snd]. exact Hcat.
      * split; [|done]. cbn [contents fst snd].
        by rewrite <- concat_app, <- fmap_app, take_drop.
Qed.

End PutContents.


(** * [Put] on a tree object *)

Section PutTop.
Context {Key Val : Type} {KO : KeyOps Key} {KL : KeyLaws Key}.
Implicit Types (kvs : list (Key * Val)) (k : Key) (v : Val) (T : BPTree Key Val).

Lemma kvput_length k v kvs :
  sortedK kvs.*1 →
  length (kvput k v kvs)
  = match kvget k kvs with Some _ => length kvs | None => S (length kvs) end.
Proof.
  intros Hs. destruct (lpos k kvs.*1) as [p|p] eqn:Hp.
  - destruct (lpos_inl _ _ _ Hp) as (k0 & Hk0 & _).
    rewrite list_lookup_fmap in Hk0.
    destruct (kvs !! p) as [[k1 v0]|] eqn:Hkv; [|done].
    destruct (kvput_lpos_inl k v kvs p k1 v0 Hp Hkv) as [-> ->].
    by rewrite length_insert.
  - rewrite (kvput_lpos_inr k v kvs p Hp), (kvget_lpos_inr k kvs p Hs Hp).
    by rewrite length_insertAtL.
Qed.

Lemma kvget_kvput_eq k v kvs : kvget k (kvput k v kvs) = Some v.
Proof.
  induction kvs as [|[k1 v1] l IH]; simpl.
  - by rewrite decide_True by apply compare_refl.
  - destruct (decide (compare k k1 = 0)) as [E|E]; simpl.
    + by rewrite decide_True.
    + destruct (decide (compare k k1 < 0)); simpl.
      * by rewrite decide_True by apply compare_refl.
      * by rewrite decide_False.
Qed.

Lemma kvget_kvput_ne k k' v kvs : k' ≠ k → kvget k' (kvput k v kvs) = kvget k' kvs.
Proof.
  intros Hne.
  assert (Hc : compare k' k ≠ 0) by (intros E; by apply compare_eq in E).
  induction kvs as [|[k1 v1] l IH]; simpl.
  - by rewrite decide_False.
  - destruct (decide (compare k k1 = 0)) as [E|E]; simpl.
    + apply compare_eq in E. subst k1. by rewrite !decide_False.
    + destruct (decide (compare k k1 < 0)); simpl.
      * by rewrite (decide_False (P := compare k' k = 0)).
      * by rewrite IH.
Qed.

(** ** The first entry *)

Lemma initializeRoot_leaf T k v :
  2 ≤ order T →
  initializeRoot T k v
  = Some (mkTree (Some (length (nodes T))) (Some (length (nodes T))) (order T)
            (size T + 1) (minKeyNum T)
            (nodes T ++ [leafNode (order T) None [(copyBytes k, v)] None])).
Proof.
  intros Ho. unfold initializeRoot.
  rewrite !make_Some by lia. cbn [mbind option_bind].
  rewrite (upd_eq (replicate _ nilKey) _ 0) by (rewrite ?length_replicate; lia).
  cbn [mbind option_bind].
  rewrite (upd_eq (replicate _ None) _ 0) by (rewrite ?length_replicate; lia).
  cbn [mbind option_bind]. unfold alloc. do 3 f_equal.
  unfold leafNode, arr. cbn [fmap list_fmap length app fst snd vptr].
  destruct (Z.to_nat (order T - 1)) as [|d] eqn:Ed; [lia|].
  replace (Z.to_nat (order T)) with (S (S d)) by lia.
  simpl. rewrite Nat.sub_0_r. f_equal. unfold vptr. cbn [snd].
  assert (E : ∀ d : nat, @None (pointer Val) :: replicate d None
                         = replicate d None ++ [None]).
  { clear. intros d. induction d as [|d IH]; [done|]. simpl. by rewrite <- IH. }
  by rewrite E.
Qed.

Lemma Put_empty T k v :
  3 ≤ order T → root T = None → size T = 0 →
  Put T k v
  = Some (mkTree (Some (length (nodes T))) (Some (length (nodes T))) (order T) 1
            (minKeyNum T)
            (nodes T ++ [leafNode (order T) None [(k, v)] None]),
          None)
  ∧ ∀ T', Put T k v = Some (T', None) →
      holds T' 0 ((length (nodes T), [(k, v)]) : @atree Key Val 0).
Proof.
  intros Ho Hroot Hsize.
  assert (HP : Put T k v
    = Some (mkTree (Some (length (nodes T))) (Some (length (nodes T))) (order T) 1
              (minKeyNum T)
              (nodes T ++ [leafNode (order T) None [(k, v)] None]),
            None)).
  { unfold Put. rewrite Hroot, initializeRoot_leaf by lia.
    cbn [mbind option_bind]. by rewrite copyBytes_id, Hsize. }
  split; [exact HP|]. intros T' HT'. rewrite HP in HT'. injection HT' as <-.
  unfold holds. cbn [root leftmost order nodes size aaddr afirst fst snd].
  split_and!; try done.
  - simpl. by rewrite lookup_app_r, Nat.sub_diag by lia.
  - simpl. apply list.NoDup_cons. split; [apply not_elem_of_nil|apply list.NoDup_nil; done].
  - simpl. split_and!; try done. by apply list.Forall_cons.
  - simpl. unfold len. simpl. lia.
Qed.

(** ** A further entry *)

Lemma Put_holds T n (a : @atree Key Val n) k v :
  3 ≤ order T → holds T n a →
  ∃ T' n' (a' : @atree Key Val n'),
    Put T k v = Some (T', kvget k (contents n a))
    ∧ holds T' n' a'
    ∧ contents n' a' = kvput k v (contents n a)
    ∧ order T' = order T ∧ minKeyNum T' = minKeyNum T.
Proof.
  intros Ho (Hroot & Hleft & Hrep & Hnd & Hord & Hocc & Hsize).
  remember (order T) as o eqn:Hodef. symmetry in Hodef.
  pose proof (height_lt_fuel o T n a None None 1 Hrep Hocc Hnd) as Hfuel.
  pose proof (put_sim o Ho n a T None None None None 1 k v Hodef Hrep Hnd Hord I I
                Hocc Hfuel) as Hsim.
  remember (length (nodes T)) as fr eqn:Hfr.
  assert (Hvalid : ∀ x : nat, x ∈ addrs n a → (x < fr)%nat).
  { intros x Hx. subst fr. by eapply rep_valid. }
  pose proof (put_shape o fr n a k v) as Hshape.
  pose proof (put_addrs o fr n a k v Hnd Hvalid) as Haddrs.
  pose proof (put_ord o Ho fr n a k v None None Hord I I) as Hpord.
  pose proof (put_occ o Ho fr n a 1 k v Hocc) as Hpocc.
  pose proof (put_contents o fr n a None None k v Hord) as Hcont.
  pose proof (ord_contents_sorted n a None None Hord) as Hsorted.
  pose proof (kvput_length k v _ Hsorted) as Hklen.
  assert (HPut : Put T k v = putIntoLeaf T (route n a k) k v).
  { unfold Put, findLeaf. rewrite Hroot. cbn [mbind option_bind].
    by rewrite (findLeaf_loop_route o n a (nodes T) None None 1 (fuel T) k Hrep Hocc Hfuel). }
  unfold putSpec in Hsim. rewrite <- Hfr in Hsim.
  destruct (treePut o fr n a k v) as [[a'|tl sep tr] old] eqn:Hput;
    cbn [fst] in Hshape, Haddrs, Hpord, Hpocc.
  - destruct Hsim as (h' & Heq & Hrep' & Hlen' & Hframe).
    destruct Hshape as [Hsh1 Hsh2]. destruct Haddrs as [Hnd' _].
    destruct Hcont as [Hc1 Hc2]. subst old.
    eexists _, n, a'. split_and!.
    + rewrite HPut, Heq. reflexivity.
    + unfold holds. destruct (kvget k (contents n a)) as [v0|];
        cbn [root leftmost order nodes size setNodes setSize];
        rewrite Hsh1, Hsh2, Hodef; split_and!; try done.
      * rewrite Hc1. unfold len. rewrite Hklen. exact Hsize.
      * rewrite Hc1. unfold len in *. rewrite Hklen. lia.
    + exact Hc1.
    + by destruct (kvget k (contents n a)).
    + by destruct (kvget k (contents n a)).
  - destruct Hsim as (-> & h' & Heq & Hrl & Hrr & Hlen' & Hframe).
    destruct Hshape as (Hsh1 & Hsh2 & Hsh3).
    destruct Haddrs as [Hnd' Hin'].
    destruct Hcont as [Hc1 Hc2]. destruct Hpord as [Hol Hor].
    destruct Hpocc as [Hoccl Hoccr].
    apply list.NoDup_app in Hnd' as (Hndl & Hdisj & Hndr).
    destruct Hrl as [pl Hrl0]. destruct Hrr as [pr Hrr0].
    pose proof (rep_top _ _ _ _ _ _ Hrl0) as Hln.
    pose proof (rep_top _ _ _ _ _ _ Hrr0) as Hrn.
    assert (Hlr : aaddr n tl ≠ aaddr n tr).
    { intros E. apply (Hdisj (aaddr n tl)); [apply aaddr_in_addrs|].
      rewrite E. apply aaddr_in_addrs. }
    assert (Hf : ∃ f', (fuel T - n)%nat = S f') by (exists (fuel T - S n)%nat; lia).
    destruct Hf as [f' Hf]. rewrite Hf in Heq. cbn [putIntoLeaf_loop] in Heq.
    rewrite (putIntoNewRoot_spec o (setNodes T h') sep (aaddr n tl) (aaddr n tr)
               _ _ Hodef Ho Hln Hrn Hlr) in Heq.
    cbn [mbind option_bind nodes setNodes leftmost order size minKeyNum setSize] in Heq.
    set (nr := length h') in *.
    set (h2 := <[aaddr n tr := _]> (<[aaddr n tl := _]> h') ++ _) in Heq.
    assert (Hvl : ∀ x : nat, x ∈ addrs n tl → (x < nr)%nat)
      by (intros x Hx; unfold nr; by eapply (rep_valid o h' n tl)).
    assert (Hvr : ∀ x : nat, x ∈ addrs n tr → (x < nr)%nat)
      by (intros x Hx; unfold nr; by eapply (rep_valid o h' n tr)).
    assert (Hh2 : ∀ x : nat, x ≠ aaddr n tl → x ≠ aaddr n tr → (x < nr)%nat →
              h2 !! x = h' !! x).
    { intros x H1 H2 H3. subst h2.
      rewrite lookup_app_l by (by rewrite !length_insert).
      by rewrite !list_lookup_insert_ne. }
    assert (Hh2l : h2 !! aaddr n tl
                   = (λ nd, setParent nd (Some nr)) <$> h' !! aaddr n tl).
    { subst h2. rewrite lookup_app_l
        by (rewrite !length_insert; apply Hvl, aaddr_in_addrs).
      rewrite list_lookup_insert_ne by done.
      rewrite list_lookup_insert_eq by (apply Hvl, aaddr_in_addrs).
      by rewrite Hln. }
    assert (Hh2r : h2 !! aaddr n tr
                   = (λ nd, setParent nd (Some nr)) <$> h' !! aaddr n tr).
    { subst h2. rewrite lookup_app_l
        by (rewrite !length_insert; apply Hvr, aaddr_in_addrs).
      rewrite list_lookup_insert_eq
        by (rewrite length_insert; apply Hvr, aaddr_in_addrs).
      by rewrite Hrn. }
    assert (Hh2n : h2 !! nr
                   = Some (innerNode o None [sep] [aaddr n tl; aaddr n tr])).
    { subst h2. rewrite lookup_app_r by (rewrite !length_insert; subst nr; lia).
      rewrite !length_insert. subst nr. by rewrite Nat.sub_diag. }
    eexists _, (S n), ((nr, [sep], [tl; tr]) : @atree Key Val (S n)). split_and!.
    + rewrite HPut, Heq, <- Hc2. reflexivity.
    + unfold holds. cbn [root leftmost order nodes size setSize setNodes].
      split_and!.
      * done.
      * rewrite Hleft. simpl. by rewrite Hsh2.
      * rewrite ?Hodef. apply rep_S. cbn [fst snd]. split; [exact Hh2n|].
        intros j c Hj. destruct j as [|[|j]]; simpl in Hj; [| |done].
        -- injection Hj as <-.
           apply (repU_reparent o h' h2 n tl _ (Some nr)); [by exists pl|done|done|].
           intros x Hx Hne. apply Hh2; [done| |by apply Hvl].
           intros ->. apply (Hdisj (aaddr n tr)); [done|apply aaddr_in_addrs].
        -- injection Hj as <-.
           apply (repU_reparent o h' h2 n tr _ (Some nr)); [by exists pr|done|done|].
           intros x Hx Hne. apply Hh2; [|done|by apply Hvr].
           intros ->. apply (Hdisj (aaddr n tl)); [apply aaddr_in_addrs|done].
      * rewrite addrs_S. cbn [fst snd fmap list_fmap concat].
        rewrite app_nil_r. apply list.NoDup_cons. split.
        -- intros Hin. apply elem_of_app in Hin as [Hin|Hin].
           ++ apply Hvl in Hin. lia.
           ++ apply Hvr in Hin. lia.
        -- apply list.NoDup_app. done.
      * rewrite ord_S. cbn [fst snd ordList]. done.
      * rewrite ?Hodef, occ_S. cbn [fst snd]. unfold len. cbn [length].
        split_and!; [lia..|].
        apply list.Forall_cons. split; [done|].
        apply list.Forall_cons. split; [done|]. apply list.Forall_nil. done.
      * cbn [contents fst snd fmap list_fmap concat]. rewrite app_nil_r, Hc1.
        unfold len in *. rewrite Hklen, <- Hc2. lia.
    + cbn [contents fst snd fmap list_fmap concat]. by rewrite app_nil_r.
    + done.
    + done.
Qed.

Lemma Get_holds T n (a : @atree Key Val n) k :
  holds T n a → Get T k = Some (kvget k (contents n a)).
Proof.
  intros (Hroot & _ & Hrep & Hnd & Hord & Hocc & _).
  rewrite (Get_route (order T) T n a 1 k eq_refl Hroot Hrep Hocc Hnd).
  by rewrite (kvget_route n a None None k Hord).
Qed.

(** ** Histories of insertions *)

Lemma Put_Inv T kvs k v :
  Inv T kvs →
  ∃ T', Put T k v = Some (T', kvget k kvs) ∧ Inv T' (kvput k v kvs).
Proof.
  intros [[Ho Hmin] [[(Hroot & Hsize & _) ->]|(n & a & Hholds & <-)]].
  - destruct (Put_empty T k v Ho Hroot Hsize) as [HP Hh].
    eexists. split; [exact HP|]. split; [done|]. right.
    exists 0%nat, ((length (nodes T), [(k, v)]) : @atree Key Val 0).
    split; [by apply Hh|done].
  - destruct (Put_holds T n a k v Ho Hholds) as (T' & n' & a' & HP & Hh & Hc & Ho' & Hm').
    exists T'. split; [done|]. split.
    + unfold params. by rewrite Ho', Hm'.
    + right. by exists n', a'.
Qed.

Lemma run_puts_Inv (ops : list (op Key Val)) : ∀ T kvs,
  Forall isPut ops → Inv T kvs →
  ∃ T', run ops T = Some T' ∧ Inv T' (entries ops kvs).
Proof.
  induction ops as [|[k v|k] ops IH]; intros T kvs Hall HInv.
  - by exists T.
  - apply list.Forall_cons in Hall as [_ Hall].
    destruct (Put_Inv T kvs k v HInv) as (T1 & HP & HInv1).
    destruct (IH T1 _ Hall HInv1) as (T' & Hrun & HInv').
    exists T'. split; [|done]. cbn [run]. rewrite HP. done.
  - by apply list.Forall_cons in Hall as [[] _].
Qed.

End PutTop.


(** * [Delete] at the leaf *)

Section DeleteLeaf.
Context {Key Val : Type} {KO : KeyOps Key} {KL : KeyLaws Key}.
Implicit Types (kvs : list (Key * Val)) (k : Key) (v : Val) (T : BPTree Key Val).

Lemma kvget_epos_None k kvs : kvget k kvs = None ↔ epos k kvs.*1 = None.
Proof.
  rewrite kvget_epos. destruct (epos k kvs.*1) as [p|] eqn:E; [|done].
  split; [|done]. intros H. apply epos_Some in E as [(k' & Hk' & _) _].
  rewrite list_lookup_fmap in Hk'. by destruct (kvs !! p).
Qed.

Lemma kvdel_epos k kvs :
  kvdel k kvs = match epos k kvs.*1 with Some p => delete p kvs | None => kvs end.
Proof.
  induction kvs as [|[k' v'] l IH]; [done|]. csimpl.
  destruct (decide (compare k k' = 0)); [done|]. rewrite IH.
  by destruct (epos k l.*1).
Qed.

Lemma sortedK_delete (ks : list Key) (p : nat) : sortedK ks → sortedK (delete p ks).
Proof.
  intros Hs. rewrite delete_take_drop. apply sortedK_app. split_and!.
  - by apply sortedK_take.
  - by apply sortedK_drop.
  - intros x y Hx Hy.
    apply list_elem_of_lookup in Hx as [i Hi]. apply list_elem_of_lookup in Hy as [j Hj].
    apply lookup_take_Some in Hi as [Hi Hip]. rewrite lookup_drop in Hj.
    eapply (sortedK_lookup ks i (S p + j)); [done..|lia].
Qed.

(** A key the tree does not hold: nothing changes. *)
Lemma Delete_absent T n (a : @atree Key Val n) k :
  holds T n a → kvget k (contents n a) = None → Delete T k = Some (T, None).
Proof.
  intros (Hroot & _ & Hrep & Hnd & Hord & Hocc & _) Hget.
  pose proof (height_lt_fuel (order T) T n a None None 1 Hrep Hocc Hnd) as Hfuel.
  destruct (rep_route (order T) n a (nodes T) None None 1 k Hrep Hocc)
    as (par & nxt & Hl & _).
  unfold Delete, findLeaf. rewrite Hroot. cbn [mbind option_bind].
  rewrite (findLeaf_loop_route (order T) n a (nodes T) None None 1 (fuel T) k
             Hrep Hocc Hfuel).
  cbn [mbind option_bind]. unfold deleteAtLeafAndRebalance.
  rewrite Hl. cbn [mbind option_bind]. rewrite keyPosition_leafNode.
  rewrite (kvget_route n a None None k Hord) in Hget.
  apply kvget_epos_None in Hget. rewrite Hget.
  cbn [mbind option_bind]. by rewrite decide_True.
Qed.

(** A key of a root that is a leaf with further keys: the entry goes, the
    leaf stays the root. *)
Lemma Delete_root_leaf T (a : @atree Key Val 0) k v :
  3 ≤ order T → holds T 0 a → kvget k a.2 = Some v → (2 ≤ length a.2)%nat →
  Delete T k
  = Some (setSize (setNodes T (<[a.1 := leafNode (order T) None (kvdel k a.2) None]>
                                 (nodes T)))
            (size T - 1),
          Some v)
  ∧ holds (setSize (setNodes T (<[a.1 := leafNode (order T) None (kvdel k a.2) None]>
                                  (nodes T)))
             (size T - 1))
      0 ((a.1, kvdel k a.2) : @atree Key Val 0).
Proof.
  intros Ho (Hroot & Hleft & Hrep & Hnd & Hord & Hocc & Hsize) Hget Hlen.
  simpl in Hroot, Hleft, Hrep, Hocc, Hsize.
  rewrite ord_0 in Hord. destruct Hord as (Hsorted & _).
  pose proof (lookup_lt_Some _ _ _ Hrep) as Hal.
  rewrite kvget_epos in Hget. rewrite kvdel_epos.
  destruct (epos k a.2.*1) as [p|] eqn:Ep; [|done].
  destruct (a.2 !! p) as [[kp vp]|] eqn:Hp; [|done].
  injection Hget as ->. pose proof (lookup_lt_Some _ _ _ Hp) as Hpl.
  split.
  - unfold Delete, findLeaf. rewrite Hroot. cbn [mbind option_bind].
    unfold fuel. cbn [findLeaf_loop]. rewrite Hrep. cbn [mbind option_bind leafNode leaf].
    unfold deleteAtLeafAndRebalance. rewrite Hrep. cbn [mbind option_bind].
    rewrite keyPosition_leafNode, Ep. cbn [mbind option_bind].
    rewrite decide_False by lia.
    rewrite (idx_pointers_leafNode (order T) None a.2 None p (kp, v) _ Hp eq_refl).
    cbn [mbind option_bind vptr asValue snd].
    rewrite (deleteAt_leafNode (order T) None a.2 None p _ Hpl ltac:(lia) eq_refl).
    cbn [mbind option_bind leafNode parent keyNum].
    rewrite decide_False; [done|]. unfold len. rewrite length_delete by (by eexists). lia.
  - unfold holds. cbn [root leftmost order nodes size setSize setNodes aaddr afirst fst snd].
    assert (Hdl : length (delete p a.2) = pred (length a.2))
      by (rewrite length_delete by (by eexists); lia).
    split_and!; try done.
    + simpl. by apply list_lookup_insert_eq.
    + rewrite ord_0. cbn [fst snd]. split_and!; try done.
      * rewrite list_fmap_delete. by apply sortedK_delete.
      * by apply Forall_true.
    + simpl. unfold len in *. rewrite Hdl. lia.
    + simpl. unfold len in *. rewrite Hdl. lia.
Qed.

(** ** Well-formed tree objects, empty or not *)

Lemma New_Inv (o : Z) :
  3 ≤ o →
  ∃ T0 : BPTree Key Val, New [Order o] = Some T0 ∧ Inv T0 [] ∧ order T0 = o.
Proof.
  intros Ho. exists (mkTree None None o 0 (ceil o 2 - 1) []). split_and!; [|split|done].
  - unfold New, Order. simpl. by rewrite decide_False by lia.
  - done.
  - left. done.
Qed.

Lemma Inv_Get T kvs k : Inv T kvs → Get T k = Some (kvget k kvs).
Proof.
  intros [_ [[(Hroot & _) ->]|(n & a & Hholds & <-)]].
  - unfold Get. by rewrite Hroot.
  - by apply Get_holds.
Qed.

Lemma Inv_Size T kvs : Inv T kvs → Size T = len kvs.
Proof.
  intros [_ [[(_ & Hsize & _) ->]|(n & a & Hholds & <-)]]; [done|].
  by destruct Hholds as (_ & _ & _ & _ & _ & _ & Hsize).
Qed.

Lemma Inv_Delete_absent T kvs k :
  Inv T kvs → kvget k kvs = None → Delete T k = Some (T, None).
Proof.
  intros [_ [[(Hroot & _) ->]|(n & a & Hholds & <-)]] Hget.
  - unfold Delete. by rewrite Hroot.
  - by eapply Delete_absent.
Qed.

End DeleteLeaf.

(** * Deleting the only key *)

Lemma leafShape_empty {Key Val : Type} {KO : KeyOps Key} (o : Z) (par : option addr) :
  1 ≤ o → leafShape (leafNode o par [] None : node Key Val).
Proof.
  intros Ho. unfold leafShape, leafNode, len. cbn [keyNum keys pointers fmap list_fmap].
  rewrite !arr_nil, length_app, !length_replicate. cbn [length].
  split_and!; [lia|lia|lia|intros j Hj; lia|].
  intros p Hp. apply idx_Some in Hp as [_ Hp].
  replace (Z.to_nat (Z.of_nat (Z.to_nat (o - 1) + 1) - 1)) with (Z.to_nat (o - 1)) in Hp
    by lia.
  rewrite lookup_app_r in Hp by (rewrite length_replicate; lia).
  rewrite length_replicate, Nat.sub_diag in Hp. done.
Qed.

(** C8, as the code has it.  When [Delete] removes the only key of a tree
    whose root is a leaf, the deleted value is returned and the tree
    becomes empty: the root reference becomes nil, the size becomes 0,
    [Get] finds no key and [ForEach] yields no pair.  The leftmost
    reference is not cleared: it referred to that leaf before and refers
    to it afterwards, and the leaf is left without keys. *)
Theorem Delete_last_key_of_root_leaf {Key Val : Type} {KO : KeyOps Key}
    (t : BPTree Key Val) (r : addr) (k k0 : Key) (v : Val) :
  holds t 0 ((r, [(k0, v)]) : atree 0) → compare k k0 = 0 →
  ∃ t', Delete t k = Some (t', Some v)
      ∧ root t' = None
      ∧ leftmost t = Some r
      ∧ leftmost t' = Some r
      ∧ Size t' = 0
      ∧ nodes t' !! r = Some (leafNode (order t) None [] None)
      ∧ holdsNothing t'
      ∧ (∀ k', Get t' k' = Some None)
      ∧ (∀ f : nat, ForEach (S f) t' = Some []).
Proof.
  intros (Hroot & Hleft & Hrep & _ & _ & Hocc & Hsize) Hk.
  simpl in Hroot, Hleft, Hrep, Hocc, Hsize.
  unfold len in Hocc, Hsize. simpl in Hocc, Hsize.
  pose proof (lookup_lt_Some _ _ _ Hrep) as Hal.
  assert (Ep : epos k [(k0, v)].*1 = Some 0%nat) by (simpl; by rewrite decide_True).
  eexists. split.
  { unfold Delete, findLeaf. rewrite Hroot. cbn [mbind option_bind].
    unfold fuel. cbn [findLeaf_loop]. rewrite Hrep. cbn [mbind option_bind leafNode leaf].
    unfold deleteAtLeafAndRebalance. rewrite Hrep. cbn [mbind option_bind].
    rewrite keyPosition_leafNode, Ep. cbn [mbind option_bind].
    rewrite decide_False by lia.
    rewrite (idx_pointers_leafNode (order t) None [(k0, v)] None 0 (k0, v) _ eq_refl eq_refl).
    cbn [mbind option_bind vptr asValue snd].
    rewrite (deleteAt_leafNode (order t) None [(k0, v)] None 0 _ ltac:(simpl; lia)
               ltac:(unfold len; simpl; lia) eq_refl).
    cbn [mbind option_bind leafNode parent keyNum delete list_delete].
    rewrite decide_True by done. reflexivity. }
  cbn [root leftmost size nodes setSize setRoot setNodes Size].
  assert (Hn : <[r := leafNode (order t) None [] None]> (nodes t) !! r
               = Some (leafNode (order t) None [] None))
    by (by apply list_lookup_insert_eq).
  split_and!; try done.
  - lia.
  - split_and!; [done|simpl; lia|].
    cbn [leftmost size nodes setSize setRoot setNodes]. rewrite Hleft.
    eexists. split; [exact Hn|]. split; [apply leafShape_empty; lia|done].
  - intros f. unfold ForEach, NewIterator.
    cbn [leftmost size nodes setSize setRoot setNodes drain]. rewrite Hleft.
    unfold HasNext. cbn [it_next it_i]. rewrite Hn. done.
Qed.

Lemma Delete_last_key_of_root_leaf_witness :
  let n := mkNode true None [["001"%byte]; []; []] 1
             [Some (PValue ["010"%byte]); None; None; None] in
  let t := mkTree (Some 0%nat) (Some 0%nat) 4 1 1 [n] in
  ∃ t', Delete t ["001"%byte] = Some (t', Some ["010"%byte])
      ∧ root t' = None
      ∧ leftmost t = Some 0%nat
      ∧ leftmost t' = Some 0%nat
      ∧ Size t' = 0
      ∧ nodes t' !! 0%nat = Some (leafNode (order t) None [] None)
      ∧ holdsNothing t'
      ∧ (∀ k', Get t' k' = Some None)
      ∧ (∀ f : nat, ForEach (S f) t' = Some []).
Proof.
  intros n t.
  apply (Delete_last_key_of_root_leaf t 0%nat ["001"%byte] ["001"%byte] ["010"%byte]);
    [|reflexivity].
  unfold holds. simpl. split_and!; try done.
  - apply NoDup_singleton.
  - by apply Forall_true.
Defined.


(** * Deletion keeps the keys in order *)

Section DelBounds.
Context {Key : Type} {KO : KeyOps Key}.
Implicit Types (lo hi : option Key) (ks : list Key).

Lemma lob_insert_ne lo ks x (p j : nat) :
  j ≠ S p → lob lo (<[p := x]> ks) j = lob lo ks j.
Proof. intros H. destruct j as [|j]; [done|]. simpl. apply list_lookup_insert_ne. lia. Qed.

Lemma lob_insert_eq lo ks x (p : nat) :
  (p < length ks)%nat → lob lo (<[p := x]> ks) (S p) = Some x.
Proof. intros H. simpl. by apply list_lookup_insert_eq. Qed.

Lemma hib_insert_ne ks hi x (p j : nat) :
  j ≠ p → hib (<[p := x]> ks) hi j = hib ks hi j.
Proof. intros H. unfold hib. by rewrite list_lookup_insert_ne. Qed.

Lemma hib_insert_eq ks hi x (p : nat) :
  (p < length ks)%nat → hib (<[p := x]> ks) hi p = Some x.
Proof. intros H. unfold hib. by rewrite list_lookup_insert_eq. Qed.

Lemma lob_delete_le lo ks (p j : nat) :
  (j ≤ p)%nat → lob lo (delete p ks) j = lob lo ks j.
Proof. intros H. destruct j as [|j]; [done|]. simpl. apply list_lookup_delete_lt. lia. Qed.

Lemma lob_delete_gt lo ks (p j : nat) :
  (p < j)%nat → lob lo (delete p ks) j = lob lo ks (S j).
Proof.
  intros H. destruct j as [|j]; [lia|]. simpl. apply list_lookup_delete_ge. lia.
Qed.

Lemma hib_delete_lt ks hi (p j : nat) :
  (j < p)%nat → hib (delete p ks) hi j = hib ks hi j.
Proof. intros H. unfold hib. by rewrite list_lookup_delete_lt. Qed.

Lemma hib_delete_ge ks hi (p j : nat) :
  (p ≤ j)%nat → hib (delete p ks) hi j = hib ks hi (S j).
Proof. intros H. unfold hib. by rewrite list_lookup_delete_ge. Qed.

End DelBounds.

Section DelOrdLists.
Context {Key : Type} {KO : KeyOps Key} {T : Type}.
Variable R : T → option Key → option Key → Prop.
Implicit Types (lo hi : option Key) (ks : list Key) (cs : list T).

Lemma ordList_app lo ks1 cs1 sep ks2 cs2 hi :
  ordList R lo ks1 cs1 (Some sep) → ordList R (Some sep) ks2 cs2 hi →
  ordList R lo (ks1 ++ sep :: ks2) (cs1 ++ cs2) hi.
Proof.
  revert lo cs1. induction ks1 as [|k ks1 IH]; intros lo cs1 H1 H2;
    (destruct cs1 as [|c cs1]; [done|]); simpl in H1.
  - destruct H1 as [-> H1]. simpl. done.
  - destruct H1 as [H0 H1]. simpl. split; [done|]. by apply IH.
Qed.

Lemma ordList_mono (R' : T → option Key → option Key → Prop) lo ks cs hi :
  (∀ c lo hi, R c lo hi → R' c lo hi) →
  ordList R lo ks cs hi → ordList R' lo ks cs hi.
Proof.
  intros HR. revert lo cs. induction ks as [|k ks IH]; intros lo cs H;
    (destruct cs as [|c cs]; [done|]); simpl in *.
  - destruct H as [-> H]. split; [done|]. by apply HR.
  - destruct H as [H0 H]. split; [by apply HR|]. by apply IH.
Qed.

(** Two neighbours exchange an entry around the key at position [q]. *)
Lemma ordList_rotate lo ks cs hi (q : nat) x' sep' y' :
  ordList R lo ks cs hi → (q < length ks)%nat →
  R x' (lob lo ks q) (Some sep') → R y' (Some sep') (hib ks hi (S q)) →
  ordList R lo (<[q := sep']> ks) (<[q := x']> (<[S q := y']> cs)) hi.
Proof.
  intros H Hq Hx Hy. apply ordList_iff in H as [Hlen H]. apply ordList_iff.
  split; [by rewrite !length_insert|].
  intros j c Hj.
  destruct (decide (j = q)) as [->|Hne1].
  - rewrite list_lookup_insert_eq in Hj by (rewrite length_insert; lia).
    injection Hj as <-.
    rewrite lob_insert_ne by lia. by rewrite hib_insert_eq.
  - rewrite list_lookup_insert_ne in Hj by done.
    destruct (decide (j = S q)) as [->|Hne2].
    + rewrite list_lookup_insert_eq in Hj by lia. injection Hj as <-.
      rewrite lob_insert_eq by done. by rewrite hib_insert_ne by lia.
    + rewrite list_lookup_insert_ne in Hj by done.
      rewrite lob_insert_ne, hib_insert_ne by lia. by apply H.
Qed.

(** Two neighbours around the key at position [q] become one. *)
Lemma ordList_merge lo ks cs hi (q : nat) z :
  ordList R lo ks cs hi → (q < length ks)%nat →
  R z (lob lo ks q) (hib ks hi (S q)) →
  ordList R lo (delete q ks) (delete (S q) (<[q := z]> cs)) hi.
Proof.
  intros H Hq Hz. apply ordList_iff in H as [Hlen H]. apply ordList_iff.
  split.
  - rewrite (length_delete ks) by (by apply lookup_lt_is_Some).
    rewrite length_delete by (apply lookup_lt_is_Some; rewrite length_insert; lia).
    rewrite length_insert. lia.
  - intros j c Hj.
    destruct (decide (j < S q)%nat) as [Hlt|Hge].
    + rewrite list_lookup_delete_lt in Hj by done.
      destruct (decide (j = q)) as [->|Hne].
      * rewrite list_lookup_insert_eq in Hj by lia. injection Hj as <-.
        rewrite lob_delete_le by lia. by rewrite hib_delete_ge by lia.
      * rewrite list_lookup_insert_ne in Hj by done.
        rewrite lob_delete_le, hib_delete_lt by lia. by apply H.
    + rewrite list_lookup_delete_ge in Hj by lia.
      rewrite list_lookup_insert_ne in Hj by lia.
      rewrite lob_delete_gt, hib_delete_ge by lia. by apply H.
Qed.

End DelOrdLists.

Section DelOrd.
Context {Key Val : Type} {KO : KeyOps Key} {KL : KeyLaws Key}.
Implicit Types (lo hi sk : option Key) (ks : list Key) (k : Key).

Local Ltac ftree :=
  repeat match goal with
         | m : nat |- _ => progress fold (@atree Key Val m) in *
         end.

Lemma lowOk_weaken sk lo ks : lowOk None lo ks → lowOk sk lo ks.
Proof.
  unfold lowOk. destruct lo as [l|]; [|done]. destruct ks as [|k0 ks]; [done|].
  intros [->|[? _]]; [by left|done].
Qed.

Lemma ord_sk_weaken sk n : ∀ (t : @atree Key Val n) lo hi,
  ord None n t lo hi → ord sk n t lo hi.
Proof.
  induction n as [|m IH]; intros t lo hi H.
  - rewrite ord_0 in *. destruct H as (H1 & H2 & H3 & H4).
    split_and!; [done..| |done]. by apply lowOk_weaken.
  - rewrite ord_S in *. eapply ordList_mono; [|exact H]. apply IH.
Qed.

(** The lower bound is at or below the first key. *)
Lemma lowOk_le sk lo ks (j : nat) kj :
  sortedK ks → lowOk sk lo ks → ks !! j = Some kj → leOpt lo kj.
Proof.
  intros Hs Hl Hj. destruct lo as [l|]; [|done]. simpl.
  destruct ks as [|k0 ks]; [done|]. simpl in Hl.
  assert (compare k0 kj ≤ 0) as Hle
    by (eapply (sortedK_lookup_le _ 0 j); [done|done|done|lia]).
  destruct Hl as [->|[_ Hlt]]; [done|].
  apply klt_le. by eapply klt_le_trans.
Qed.

Lemma lowOk_head sk lo k0 ks ks' : lowOk sk lo (k0 :: ks) → lowOk sk lo (k0 :: ks').
Proof. unfold lowOk. by destruct lo. Qed.

(** ** The leaf *)

Lemma leafDel_ord (t : @atree Key Val 0) k lo hi :
  ord None 0 t lo hi → ord (Some k) 0 (leafDel t k).1 lo hi.
Proof.
  rewrite !ord_0. intros (Hs & Hf & Hl & Hb). unfold leafDel.
  destruct (epos k t.2.*1) as [p|] eqn:Ep; cbn [fst snd].
  2:{ split_and!; [done..| |done]. by apply lowOk_weaken. }
  rewrite list_fmap_delete. split_and!; [by apply sortedK_delete| | |done].
  - rewrite delete_take_drop. apply list.Forall_app. split.
    + by apply Forall_take.
    + by apply Forall_drop.
  - apply epos_Some in Ep as [(k' & Hk' & Hc) _]. apply compare_eq in Hc. subst k'.
    destruct lo as [l|]; [|done].
    destruct (t.2.*1) as [|k0 ks0] eqn:Eks; [done|].
    simpl in Hl. destruct Hl as [->|[? _]]; [|done].
    destruct p as [|p]; simpl.
    + simpl in Hk'. injection Hk' as ->.
      destruct ks0 as [|k1 ks1]; [done|]. right. split; [done|].
      simpl in Hs. by destruct Hs as [Hs _].
    + by left.
Qed.

(** ** Neighbours *)

Lemma borrowLeft_ord sk m sep (l c : @atree Key Val m) lo hi :
  ord sk m l lo (Some sep) → ord sk m c (Some sep) hi → 2 ≤ acount m l →
  ord sk m (borrowLeft m sep l c).1.1 lo (Some (borrowLeft m sep l c).1.2)
  ∧ ord sk m (borrowLeft m sep l c).2 (Some (borrowLeft m sep l c).1.2) hi.
Proof.
  destruct m as [|m]; intros Hl Hc Hn.
  - rewrite ord_0 in Hl, Hc. destruct Hl as (Hls & Hlf & Hll & Hlb).
    destruct Hc as (Hcs & Hcf & Hcl & Hcb).
    simpl in Hn. unfold len in Hn. cbn [borrowLeft].
    destruct (lookup_lt_is_Some_2 l.2 (pred (length l.2))) as [kv Hkv]; [lia|].
    rewrite Hkv. cbn [fst snd]. rewrite !ord_0. cbn [fst snd].
    assert (Hkv1 : l.2.*1 !! pred (length l.2) = Some kv.1)
      by (by rewrite list_lookup_fmap, Hkv).
    assert (Hsep : klt kv.1 sep).
    { rewrite list.Forall_forall in Hlf. apply (Hlf kv.1).
      by eapply list_elem_of_lookup_2. }
    assert (Hbelow : ∀ kc, kc ∈ c.2.*1 → klt kv.1 kc).
    { intros kc Hin. apply list_elem_of_lookup in Hin as [j Hj].
      pose proof (lowOk_le _ _ _ _ _ Hcs Hcl Hj) as Hle. simpl in Hle.
      by eapply klt_le_trans. }
    split; split_and!.
    + rewrite fmap_take. by apply sortedK_take.
    + rewrite fmap_take. apply list.Forall_forall. intros x Hx.
      apply list_elem_of_lookup in Hx as [j Hj].
      apply lookup_take_Some in Hj as [Hj Hjn]. simpl.
      exact (sortedK_lookup l.2.*1 j (pred (length l.2)) x kv.1 Hls Hj Hkv1 Hjn).
    + rewrite fmap_take.
      destruct (l.2.*1) as [|k0 ks0] eqn:E.
      { apply (f_equal length) in E. rewrite length_fmap in E. simpl in E. lia. }
      destruct (pred (length l.2)) as [|d] eqn:Ed; [lia|]. simpl.
      by eapply lowOk_head.
    + destruct lo as [l0|]; [|done]. simpl.
      destruct (lookup_lt_is_Some_2 l.2.*1 0) as [k0 Hk0];
        [rewrite length_fmap; lia|].
      pose proof (lowOk_le _ _ _ _ _ Hls Hll Hk0) as Hle. simpl in Hle.
      eapply kle_lt_trans; [exact Hle|].
      apply (sortedK_lookup l.2.*1 0 (pred (length l.2)) k0 kv.1 Hls Hk0 Hkv1). lia.
    + csimpl. apply sortedK_cons. split; [|done].
      apply list.Forall_forall. intros x Hx. by apply Hbelow.
    + csimpl. apply list.Forall_cons. split; [|done].
      eapply ltOpt_trans; [exact Hsep|]. exact Hcb.
    + csimpl. destruct kv. simpl. by left.
    + simpl. eapply ltOpt_trans; [exact Hsep|]. exact Hcb.
  - destruct l as [[al ksl] csl], c as [[ac ksc] csc].
    rewrite ord_S in Hl, Hc. simpl in Hn. unfold len in Hn. cbn [fst snd] in *.
    pose proof (ordList_length _ _ _ _ _ Hl) as Hlen.
    cbn [borrowLeft fst snd]. ftree.
    destruct (lookup_lt_is_Some_2 ksl (pred (length ksl))) as [kl Hkl]; [lia|].
    destruct (lookup_lt_is_Some_2 csl (pred (length csl))) as [x Hx]; [lia|].
    rewrite Hkl, Hx. cbn [fst snd]. rewrite !ord_S. cbn [fst snd].
    destruct (ordList_cut (ord sk m) _ _ _ _ _ _ Hl Hkl) as [H1 H2]. ftree.
    assert (E : S (pred (length ksl)) = pred (length csl)) by lia.
    rewrite E in H1, H2.
    split; [exact H1|].
    rewrite (drop_ge ksl) in H2 by lia.
    erewrite drop_S in H2 by exact Hx.
    rewrite drop_ge in H2 by lia. simpl in H2. destruct H2 as [_ H2].
    simpl. split; [exact H2|exact Hc].
Qed.

Lemma borrowRight_ord sk m sep (c r : @atree Key Val m) lo hi :
  ord sk m c lo (Some sep) → ord sk m r (Some sep) hi → 2 ≤ acount m r →
  ord sk m (borrowRight m sep c r).1.1 lo (Some (borrowRight m sep c r).1.2)
  ∧ ord sk m (borrowRight m sep c r).2 (Some (borrowRight m sep c r).1.2) hi.
Proof.
  destruct m as [|m]; intros Hc Hr Hn.
  - rewrite ord_0 in Hc, Hr. destruct Hc as (Hcs & Hcf & Hcl & Hcb).
    destruct Hr as (Hrs & Hrf & Hrl & Hrb).
    simpl in Hn. unfold len in Hn. cbn [borrowRight].
    destruct r as [ar [|[k1 v1] [|[k2 v2] rest]]]; simpl in Hn; [lia|lia|].
    cbn [fst snd amin]. rewrite !ord_0. cbn [fst snd].
    cbn [fst snd fmap list_fmap] in Hrs, Hrf, Hrl.
    apply sortedK_cons in Hrs as [Hr1 Hrs].
    apply list.Forall_cons in Hr1 as [H12 Hr1].
    apply list.Forall_cons in Hrf as [Hf1 Hrf].
    assert (Hsep1 : compare sep k1 ≤ 0).
    { simpl in Hrl. destruct Hrl as [->|[_ Hlt]]; [apply kle_refl|by apply klt_le]. }
    assert (Hbelow : ∀ kc, kc ∈ c.2.*1 → klt kc k1).
    { intros kc Hin. rewrite list.Forall_forall in Hcf.
      eapply klt_le_trans; [apply (Hcf kc Hin)|done]. }
    split; split_and!.
    + rewrite fmap_app. apply sortedK_app. split_and!; [done|done|].
      intros x y Hx Hy. apply list_elem_of_singleton in Hy as ->. by apply Hbelow.
    + rewrite fmap_app. apply list.Forall_app. split.
      * apply list.Forall_forall. intros x Hx. simpl.
        eapply klt_trans; [by apply Hbelow|done].
      * apply list.Forall_cons. split; [done|constructor].
    + rewrite fmap_app.
      destruct (c.2.*1) as [|k0 ks0] eqn:E.
      * simpl. destruct lo as [l0|]; [|done]. simpl in Hcl. simpl. right.
        split; [done|]. simpl in Hcb. by eapply klt_le_trans.
      * simpl. by eapply lowOk_head.
    + destruct lo as [l0|]; [|done]. simpl in Hcb |- *.
      eapply klt_trans; [|exact H12]. by eapply klt_le_trans.
    + csimpl. exact Hrs.
    + csimpl. exact Hrf.
    + csimpl. by left.
    + apply list.Forall_cons in Hrf as [Hf2 _]. exact Hf2.
  - rewrite ord_S in Hc, Hr. simpl in Hn. unfold len in Hn. cbn [borrowRight].
    pose proof (ordList_length _ _ _ _ _ Hr) as Hlen.
    destruct r as [[ar [|k1 ksr]] [|x csr]]; simpl in Hn, Hlen; try lia.
    cbn [fst snd] in *. rewrite !ord_S. cbn [fst snd].
    simpl in Hr. destruct Hr as [Hx Hr]. split; [|exact Hr].
    apply ordList_app; [exact Hc|]. simpl. done.
Qed.

Lemma mergeInto_ord sk m sep (x y : @atree Key Val m) lo hi :
  ord sk m x lo (Some sep) → ord sk m y (Some sep) hi →
  ord sk m (mergeInto m sep x y) lo hi.
Proof.
  destruct m as [|m]; intros Hx Hy.
  - rewrite ord_0 in Hx, Hy. destruct Hx as (Hxs & Hxf & Hxl & Hxb).
    destruct Hy as (Hys & Hyf & Hyl & Hyb).
    cbn [mergeInto]. rewrite ord_0. cbn [fst snd]. rewrite fmap_app.
    assert (Hxy : ∀ a b, a ∈ x.2.*1 → b ∈ y.2.*1 → klt a b).
    { intros a b Ha Hb. rewrite list.Forall_forall in Hxf.
      apply list_elem_of_lookup in Hb as [j Hj].
      pose proof (lowOk_le _ _ _ _ _ Hys Hyl Hj) as Hle. simpl in Hle.
      eapply klt_le_trans; [apply (Hxf a Ha)|done]. }
    split_and!.
    + apply sortedK_app. done.
    + apply list.Forall_app. split; [|done].
      apply list.Forall_forall. intros a Ha. rewrite list.Forall_forall in Hxf.
      eapply ltOpt_trans; [apply (Hxf a Ha)|exact Hyb].
    + destruct (x.2.*1) as [|k0 ks0] eqn:E.
      * simpl. destruct lo as [l0|]; [|done]. simpl in Hxl, Hxb.
        destruct (y.2.*1) as [|k1 ks1] eqn:E1; [done|]. simpl. right.
        split; [done|].
        assert (compare sep k1 ≤ 0) as Hle.
        { simpl in Hyl. destruct Hyl as [->|[_ Hlt]]; [apply kle_refl|by apply klt_le]. }
        by eapply klt_le_trans.
      * simpl. by eapply lowOk_head.
    + by eapply optLt_trans.
  - rewrite ord_S in Hx, Hy. cbn [mergeInto]. rewrite ord_S. cbn [fst snd].
    by apply ordList_app.
Qed.

End DelOrd.


(** * Rebalancing around a child: the cases *)

Section FixChild.
Context {Key Val : Type} {KO : KeyOps Key}.
Implicit Types (ks : list Key) (k : Key).

Local Ltac ftree :=
  repeat match goal with
         | m : nat |- _ => progress fold (@atree Key Val m) in *
         end.

Lemma fixChild_cases mn m a ks (cs : list (@atree Key Val m)) (i : nat) c :
  cs !! i = Some c → length cs = S (length ks) → (1 ≤ length ks)%nat →
  ∃ ks' cs', fixChild mn m a ks cs i = (a, ks', cs') ∧ fixCase mn m ks cs i c ks' cs'.
Proof.
  intros Hc Hlen Hks. unfold fixChild. rewrite Hc.
  pose proof (lookup_lt_Some _ _ _ Hc) as Hi.
  destruct (decide (acount m c >= mn)) as [Hok|Hlow].
  { eexists _, _. split; [done|]. by constructor. }
  cbv zeta.
  destruct i as [|q].
  - (* the first child *)
    rewrite decide_True by lia.
    destruct (lookup_lt_is_Some_2 cs 1) as [r Hr]; [lia|].
    destruct (lookup_lt_is_Some_2 ks 0) as [sep Hsep]; [lia|].
    rewrite Hr, Hsep. cbn [default from_option id].
    destruct (decide (acount m r > mn)) as [Hlend|Hno].
    + destruct (borrowRight m sep c r) as [[c' sep'] r'] eqn:Eb.
      eexists _, _. split; [done|].
      pose proof (FixBorrowRight mn m ks cs 0 c r sep Hlow Hr Hsep) as H.
      rewrite Eb in H. apply H; [|done]. intros q l Hq. lia.
    + eexists _, _. split; [done|]. by apply FixMergeRight.
  - (* a later child *)
    destruct (lookup_lt_is_Some_2 cs q) as [l Hl]; [lia|].
    destruct (lookup_lt_is_Some_2 ks q) as [sep Hsep]; [lia|].
    rewrite Hl. cbn [pred]. rewrite Hsep. cbn [default from_option id].
    destruct (decide (acount m l > mn)) as [Hlend|Hno].
    + destruct (borrowLeft m sep l c) as [[l' sep'] c'] eqn:Eb.
      eexists _, _. split; [done|].
      pose proof (FixBorrowLeft mn m ks cs (S q) c q l sep Hlow eq_refl Hl Hsep Hlend) as H.
      by rewrite Eb in H.
    + destruct (decide (S q < length ks)%nat) as [Hin|Hout].
      * destruct (lookup_lt_is_Some_2 cs (S (S q))) as [r Hr]; [lia|].
        destruct (lookup_lt_is_Some_2 ks (S q)) as [sepr Hsepr]; [lia|].
        rewrite Hr, Hsepr. cbn [default from_option id].
        destruct (decide (acount m r > mn)) as [Hlendr|Hnor].
        -- destruct (borrowRight m sepr c r) as [[c' sep'] r'] eqn:Eb.
           eexists _, _. split; [done|].
           pose proof (FixBorrowRight mn m ks cs (S q) c r sepr Hlow Hr Hsepr) as H.
           rewrite Eb in H. apply H; [|done].
           intros q' l' [= <-] Hl'. rewrite Hl in Hl'. by injection Hl' as <-.
        -- eexists _, _. split; [done|].
           apply (FixMergeLeft mn m ks cs (S q) c q l sep); try done.
           intros r' Hr'. rewrite Hr in Hr'. by injection Hr' as <-.
      * eexists _, _. split; [done|].
        apply (FixMergeLeft mn m ks cs (S q) c q l sep); try done.
        intros r' Hr'. apply lookup_lt_Some in Hr'. lia.
Qed.

End FixChild.

(** ** Lists with two neighbours replaced *)

Section Neighbours.
Context {A : Type}.
Implicit Types (cs : list A).

Lemma split2 cs (q : nat) x y :
  cs !! q = Some x → cs !! S q = Some y →
  cs = take q cs ++ x :: y :: drop (S (S q)) cs.
Proof.
  intros Hx Hy. rewrite <- (take_drop_middle cs q x Hx) at 1. do 2 f_equal.
  by apply drop_S.
Qed.

Lemma rotate_eq cs (q : nat) x' y' :
  (S q < length cs)%nat →
  <[q := x']> (<[S q := y']> cs) = take q cs ++ x' :: y' :: drop (S (S q)) cs.
Proof.
  intros Hq.
  destruct (lookup_lt_is_Some_2 cs q) as [x Hx]; [lia|].
  destruct (lookup_lt_is_Some_2 cs (S q)) as [y Hy]; [lia|].
  assert (Hl : length (take q cs) = q) by (rewrite length_take; lia).
  pose proof (split2 cs q x y Hx Hy) as E.
  remember (take q cs) as pre eqn:Hpre. remember (drop (S (S q)) cs) as post eqn:Hpost.
  rewrite E.
  rewrite (insert_app_r_alt _ _ (S q)) by lia. rewrite Hl.
  replace (S q - q)%nat with 1%nat by lia. simpl.
  rewrite (insert_app_r_alt _ _ q) by lia. rewrite Hl, Nat.sub_diag. done.
Qed.

Lemma merge_eq cs (q : nat) z :
  (S q < length cs)%nat →
  delete (S q) (<[q := z]> cs) = take q cs ++ z :: drop (S (S q)) cs.
Proof.
  intros Hq.
  destruct (lookup_lt_is_Some_2 cs q) as [x Hx]; [lia|].
  destruct (lookup_lt_is_Some_2 cs (S q)) as [y Hy]; [lia|].
  assert (Hl : length (take q cs) = q) by (rewrite length_take; lia).
  pose proof (split2 cs q x y Hx Hy) as E.
  remember (take q cs) as pre eqn:Hpre. remember (drop (S (S q)) cs) as post eqn:Hpost.
  rewrite E.
  rewrite (insert_app_r_alt _ _ q) by lia. rewrite Hl, Nat.sub_diag. simpl.
  replace (pre ++ z :: y :: post) with ((pre ++ [z]) ++ y :: post)
    by (by rewrite <- (assoc_L (++))).
  replace (S q) with (length (pre ++ [z]))
    by (rewrite length_app, Hl; simpl; lia).
  rewrite delete_middle. by rewrite <- (assoc_L (++)).
Qed.

End Neighbours.

(** ** What the neighbours keep *)

Section Siblings.
Context {Key Val : Type} {KO : KeyOps Key}.
Variable o : Z.
Hypothesis o_ge_3 : 3 ≤ o.

Local Ltac ftree :=
  repeat match goal with
         | m : nat |- _ => progress fold (@atree Key Val m) in *
         end.

Lemma occ_count lb m (t : @atree Key Val m) : occ o lb m t → lb ≤ acount m t ≤ o - 1.
Proof. destruct m; simpl; [done|]. by intros (? & _). Qed.

Lemma occ_lb lb lb' m (t : @atree Key Val m) :
  occ o lb m t → lb' ≤ acount m t → occ o lb' m t.
Proof.
  destruct m; simpl; [lia|]. intros (H1 & H2 & H3) H. split_and!; [lia..|done|done].
Qed.

Lemma occ_children lb m (t : @atree Key Val (S m)) :
  occ o lb (S m) t → length t.2 = S (length t.1.2).
Proof. rewrite occ_S. intros (_ & H & _). unfold len in H. ftree. lia. Qed.

Lemma borrowLeft_props m sep (l c : @atree Key Val m) lbl lbc :
  occ o lbl m l → occ o lbc m c → 2 ≤ acount m l → acount m c + 1 ≤ o - 1 →
  acount m (borrowLeft m sep l c).1.1 = acount m l - 1
  ∧ acount m (borrowLeft m sep l c).2 = acount m c + 1
  ∧ occ o 0 m (borrowLeft m sep l c).1.1
  ∧ occ o 0 m (borrowLeft m sep l c).2
  ∧ aaddr m (borrowLeft m sep l c).1.1 = aaddr m l
  ∧ aaddr m (borrowLeft m sep l c).2 = aaddr m c
  ∧ afirst m (borrowLeft m sep l c).1.1 = afirst m l
  ∧ contents m (borrowLeft m sep l c).1.1 ++ contents m (borrowLeft m sep l c).2
    = contents m l ++ contents m c
  ∧ addrs m (borrowLeft m sep l c).1.1 ++ addrs m (borrowLeft m sep l c).2
    ⊆+ addrs m l ++ addrs m c.
Proof.
  destruct m as [|m]; intros Hl Hc Hn Hroom.
  - destruct l as [al kvsl], c as [ac kvsc]. simpl in *. unfold len in *.
    destruct (lookup_lt_is_Some_2 kvsl (pred (length kvsl))) as [kv Hkv]; [lia|].
    rewrite Hkv. cbn [fst snd]. rewrite length_take.
    assert (E : kvsl = take (pred (length kvsl)) kvsl ++ [kv]).
    { rewrite <- (take_S_r _ _ _ Hkv). rewrite take_ge; [done|lia]. }
    split_and!; try done; try (simpl; lia).
    rewrite E at 3. by rewrite <- (assoc_L (++)).
  - destruct l as [[al ksl] csl], c as [[ac ksc] csc].
    pose proof (occ_children _ _ _ Hl) as Hll. pose proof (occ_children _ _ _ Hc) as Hcl.
    rewrite occ_S in Hl, Hc. cbn [fst snd] in *.
    destruct Hl as (Hl1 & _ & Hl3). destruct Hc as (Hc1 & _ & Hc3).
    simpl in Hn, Hroom. unfold len in *. cbn [borrowLeft fst snd]. ftree.
    destruct (lookup_lt_is_Some_2 ksl (pred (length ksl))) as [kl Hkl]; [lia|].
    destruct (lookup_lt_is_Some_2 csl (pred (length csl))) as [x Hx]; [lia|].
    rewrite Hkl, Hx. cbn [fst snd].
    assert (E : csl = take (pred (length csl)) csl ++ [x]).
    { rewrite <- (take_S_r _ _ _ Hx). rewrite take_ge; [done|lia]. }
    assert (Hxocc : occ o (ceil o 2 - 1) m x).
    { rewrite list.Forall_forall in Hl3. apply Hl3. by eapply list_elem_of_lookup_2. }
    split_and!.
    + simpl. unfold len. rewrite length_take. ftree. lia.
    + simpl. unfold len. simpl. ftree. lia.
    + rewrite occ_S. cbn [fst snd]. unfold len. rewrite !length_take.
      ftree; split_and!; [lia..|]. by apply Forall_take.
    + rewrite occ_S. cbn [fst snd]. unfold len. simpl.
      ftree; split_and!; [lia..|]. by apply list.Forall_cons.
    + done.
    + done.
    + rewrite !afirst_S. cbn [fst snd]. rewrite lookup_take_lt by lia. done.
    + cbn [contents fst snd]. rewrite E at 3.
      rewrite !fmap_app, !fmap_cons, !concat_app, !concat_cons. simpl.
      rewrite app_nil_r. by rewrite <- (assoc_L (++)).
    + rewrite !addrs_S. cbn [fst snd]. rewrite E at 3.
      rewrite !fmap_app, !fmap_cons, !concat_app, !concat_cons. simpl.
      rewrite app_nil_r. apply submseteq_skip. rewrite <- (assoc_L (++)).
      apply submseteq_skips_l. apply Permutation_submseteq.
      by rewrite Permutation_middle.
Qed.

Lemma borrowRight_props m sep (c r : @atree Key Val m) lbc lbr :
  occ o lbc m c → occ o lbr m r → 2 ≤ acount m r → acount m c + 1 ≤ o - 1 →
  acount m (borrowRight m sep c r).1.1 = acount m c + 1
  ∧ acount m (borrowRight m sep c r).2 = acount m r - 1
  ∧ occ o 0 m (borrowRight m sep c r).1.1
  ∧ occ o 0 m (borrowRight m sep c r).2
  ∧ aaddr m (borrowRight m sep c r).1.1 = aaddr m c
  ∧ aaddr m (borrowRight m sep c r).2 = aaddr m r
  ∧ afirst m (borrowRight m sep c r).1.1 = afirst m c
  ∧ contents m (borrowRight m sep c r).1.1 ++ contents m (borrowRight m sep c r).2
    = contents m c ++ contents m r
  ∧ addrs m (borrowRight m sep c r).1.1 ++ addrs m (borrowRight m sep c r).2
    ⊆+ addrs m c ++ addrs m r.
Proof.
  destruct m as [|m]; intros Hc Hr Hn Hroom.
  - destruct c as [ac kvsc], r as [ar [|kv rest]]; simpl in *; unfold len in *;
      simpl in *; [lia|].
    rewrite length_app. simpl.
    split_and!; try done; try lia.
    by rewrite <- (assoc_L (++)).
  - destruct c as [[ac ksc] csc], r as [[ar ksr] csr].
    pose proof (occ_children _ _ _ Hc) as Hcl. pose proof (occ_children _ _ _ Hr) as Hrl.
    rewrite occ_S in Hc, Hr. cbn [fst snd] in *.
    destruct Hc as (Hc1 & _ & Hc3). destruct Hr as (Hr1 & _ & Hr3).
    simpl in Hn, Hroom. unfold len in *. cbn [borrowRight fst snd]. ftree.
    destruct ksr as [|k1 ksr]; simpl in Hn; [lia|].
    destruct csr as [|x csr]; simpl in Hrl; [lia|].
    cbn [fst snd]. apply list.Forall_cons in Hr3 as [Hxocc Hr3].
    assert (Hcne : csc ≠ []) by (intros ->; simpl in Hcl; lia).
    split_and!.
    + simpl. unfold len. rewrite length_app. simpl. ftree. lia.
    + simpl. unfold len. simpl in *. ftree. lia.
    + rewrite occ_S. cbn [fst snd]. unfold len. rewrite !length_app. simpl.
      ftree; split_and!; [lia..|]. apply list.Forall_app. split; [done|].
      by apply list.Forall_cons.
    + rewrite occ_S. cbn [fst snd]. unfold len. simpl in *.
      ftree; split_and!; [lia..|]. done.
    + done.
    + done.
    + rewrite !afirst_S. cbn [fst snd]. destruct csc; [done|]. done.
    + cbn [contents fst snd].
      rewrite !fmap_app, !fmap_cons, !concat_app, !concat_cons. simpl.
      rewrite app_nil_r. by rewrite <- (assoc_L (++)).
    + rewrite !addrs_S. cbn [fst snd].
      rewrite !fmap_app, !fmap_cons, !concat_app, !concat_cons. simpl.
      rewrite app_nil_r. apply submseteq_skip. rewrite <- (assoc_L (++)).
      apply submseteq_skips_l. apply Permutation_submseteq.
      by rewrite Permutation_middle.
Qed.

Lemma mergeInto_props m sep (x y : @atree Key Val m) lbx lby :
  occ o lbx m x → occ o lby m y →
  acount m x + acount m y + 1 ≤ o - 1 →
  acount m x + acount m y ≤ acount m (mergeInto m sep x y)
  ∧ occ o 0 m (mergeInto m sep x y)
  ∧ aaddr m (mergeInto m sep x y) = aaddr m x
  ∧ afirst m (mergeInto m sep x y) = afirst m x
  ∧ contents m (mergeInto m sep x y) = contents m x ++ contents m y
  ∧ addrs m (mergeInto m sep x y) ⊆+ addrs m x ++ addrs m y.
Proof.
  destruct m as [|m]; intros Hx Hy Hroom.
  - destruct x as [ax kvsx], y as [ay kvsy]. simpl in *. unfold len in *.
    rewrite length_app. split_and!; try done; try lia.
    apply submseteq_skip. apply submseteq_nil_l.
  - destruct x as [[ax ksx] csx], y as [[ay ksy] csy].
    pose proof (occ_children _ _ _ Hx) as Hxl. pose proof (occ_children _ _ _ Hy) as Hyl.
    rewrite occ_S in Hx, Hy. cbn [fst snd] in *.
    destruct Hx as (Hx1 & _ & Hx3). destruct Hy as (Hy1 & _ & Hy3).
    simpl in Hroom. unfold len in *. cbn [mergeInto fst snd]. ftree.
    split_and!.
    + simpl. unfold len. rewrite length_app. simpl. ftree. lia.
    + rewrite occ_S. cbn [fst snd]. unfold len. rewrite !length_app. simpl.
      ftree; split_and!; [lia..|]. by apply list.Forall_app.
    + done.
    + rewrite !afirst_S. cbn [fst snd]. destruct csx; [simpl in Hxl; lia|done].
    + cbn [contents fst snd]. by rewrite fmap_app, concat_app.
    + rewrite !addrs_S. cbn [fst snd]. rewrite fmap_app, concat_app.
      apply submseteq_skip. apply submseteq_skips_l. apply submseteq_cons. done.
Qed.

End Siblings.

(** ** What the node keeps *)

Lemma submseteq_NoDup {A} (l k : list A) : l ⊆+ k → NoDup k → NoDup l.
Proof.
  intros H Hk. apply submseteq_sublist_l in H as (l2 & Hsub & Hperm).
  rewrite <- Hperm in Hk. by eapply sublist_NoDup.
Qed.

Section FixProps.
Context {Key Val : Type} {KO : KeyOps Key}.
Variable o : Z.
Hypothesis o_ge_3 : 3 ≤ o.

Local Ltac ftree :=
  repeat match goal with
         | m : nat |- _ => progress fold (@atree Key Val m) in *
         end.

Lemma rotate_props m (P : @atree Key Val m → Prop) cs (q : nat) x y x' y' :
  cs !! q = Some x → cs !! S q = Some y →
  (∀ (j : nat) cj, cs !! j = Some cj → j ≠ q → j ≠ S q → P cj) →
  P x' → P y' →
  contents m x' ++ contents m y' = contents m x ++ contents m y →
  addrs m x' ++ addrs m y' ⊆+ addrs m x ++ addrs m y →
  afirst m x' = afirst m x →
  Forall P (<[q := x']> (<[S q := y']> cs))
  ∧ concat (contents m <$> <[q := x']> (<[S q := y']> cs)) = concat (contents m <$> cs)
  ∧ concat (addrs m <$> <[q := x']> (<[S q := y']> cs)) ⊆+ concat (addrs m <$> cs)
  ∧ (afirst m <$> <[q := x']> (<[S q := y']> cs) !! 0%nat) = (afirst m <$> cs !! 0%nat).
Proof.
  intros Hx Hy Hrest Px Py Hcont Haddrs Hfirst.
  pose proof (lookup_lt_Some _ _ _ Hy) as Hlt.
  rewrite (rotate_eq cs q x' y' Hlt).
  pose proof (split2 cs q x y Hx Hy) as E.
  assert (Hl : length (take q cs) = q) by (rewrite length_take; lia).
  split_and!.
  - apply list.Forall_app. split; [|apply list.Forall_cons; split;
                                     [done|apply list.Forall_cons; split; [done|]]].
    + apply list.Forall_forall. intros cj Hin.
      apply list_elem_of_lookup in Hin as [j Hj].
      apply lookup_take_Some in Hj as [Hj Hjq]. apply (Hrest j); [done|lia..].
    + apply list.Forall_forall. intros cj Hin.
      apply list_elem_of_lookup in Hin as [j Hj]. rewrite lookup_drop in Hj.
      apply (Hrest _ _ Hj); lia.
  - rewrite E at 3. rewrite !fmap_app, !fmap_cons, !concat_app, !concat_cons.
    f_equal. rewrite !(assoc_L (++)). by rewrite Hcont.
  - rewrite E at 3. rewrite !fmap_app, !fmap_cons, !concat_app, !concat_cons.
    apply submseteq_skips_l. rewrite !(assoc_L (++)). by apply submseteq_skips_r.
  - rewrite E at 3. destruct q as [|q].
    + simpl. by rewrite Hfirst.
    + rewrite !lookup_app_l by (rewrite Hl; lia). done.
Qed.

Lemma merge_props m (P : @atree Key Val m → Prop) cs (q : nat) x y z :
  cs !! q = Some x → cs !! S q = Some y →
  (∀ (j : nat) cj, cs !! j = Some cj → j ≠ q → j ≠ S q → P cj) →
  P z →
  contents m z = contents m x ++ contents m y →
  addrs m z ⊆+ addrs m x ++ addrs m y →
  afirst m z = afirst m x →
  Forall P (delete (S q) (<[q := z]> cs))
  ∧ concat (contents m <$> delete (S q) (<[q := z]> cs)) = concat (contents m <$> cs)
  ∧ concat (addrs m <$> delete (S q) (<[q := z]> cs)) ⊆+ concat (addrs m <$> cs)
  ∧ (afirst m <$> delete (S q) (<[q := z]> cs) !! 0%nat) = (afirst m <$> cs !! 0%nat).
Proof.
  intros Hx Hy Hrest Pz Hcont Haddrs Hfirst.
  pose proof (lookup_lt_Some _ _ _ Hy) as Hlt.
  rewrite (merge_eq cs q z Hlt).
  pose proof (split2 cs q x y Hx Hy) as E.
  assert (Hl : length (take q cs) = q) by (rewrite length_take; lia).
  split_and!.
  - apply list.Forall_app. split; [|apply list.Forall_cons; split; [done|]].
    + apply list.Forall_forall. intros cj Hin.
      apply list_elem_of_lookup in Hin as [j Hj].
      apply lookup_take_Some in Hj as [Hj Hjq]. apply (Hrest j); [done|lia..].
    + apply list.Forall_forall. intros cj Hin.
      apply list_elem_of_lookup in Hin as [j Hj]. rewrite lookup_drop in Hj.
      apply (Hrest _ _ Hj); lia.
  - rewrite E at 3. rewrite !fmap_app, !fmap_cons, !concat_app, !concat_cons.
    f_equal. rewrite !(assoc_L (++)). by rewrite Hcont.
  - rewrite E at 3. rewrite !fmap_app, !fmap_cons, !concat_app, !concat_cons.
    apply submseteq_skips_l. rewrite !(assoc_L (++)). by apply submseteq_skips_r.
  - rewrite E at 3. destruct q as [|q].
    + simpl. by rewrite Hfirst.
    + rewrite !lookup_app_l by (rewrite Hl; lia). done.
Qed.

Lemma fixCase_props m ks (cs : list (@atree Key Val m)) (i : nat) c ks' cs' :
  fixCase (ceil o 2 - 1) m ks cs i c ks' cs' →
  cs !! i = Some c → length cs = S (length ks) →
  (∀ (j : nat) cj, cs !! j = Some cj → j ≠ i → occ o (ceil o 2 - 1) m cj) →
  occ o (ceil o 2 - 1 - 1) m c →
  length cs' = S (length ks')
  ∧ (length ks ≤ S (length ks'))%nat ∧ (length ks' ≤ length ks)%nat
  ∧ Forall (occ o (ceil o 2 - 1) m) cs'
  ∧ concat (contents m <$> cs') = concat (contents m <$> cs)
  ∧ concat (addrs m <$> cs') ⊆+ concat (addrs m <$> cs)
  ∧ (afirst m <$> cs' !! 0%nat) = (afirst m <$> cs !! 0%nat).
Proof.
  pose proof (minKeys_bounds o o_ge_3) as Hmin.
  intros Hcase Hc Hlen Hothers Hcocc.
  pose proof (occ_count o _ _ _ Hcocc) as Hcc.
  destruct Hcase as [Hok|q l sep Hlow -> Hl Hsep Hlend|r sep Hlow Hr Hsep Hleft Hlend
                    |q l sep Hlow -> Hl Hsep Hno Hright|r sep Hlow -> Hr Hsep Hno].
  - split_and!; [done|lia|lia| |done|done|done].
    apply list.Forall_forall. intros cj Hin.
    apply list_elem_of_lookup in Hin as [j Hj].
    destruct (decide (j = i)) as [->|Hne]; [|by eapply Hothers].
    rewrite Hc in Hj. injection Hj as <-. eapply occ_lb; [done|lia].
  - assert (Hlocc : occ o (ceil o 2 - 1) m l) by (eapply (Hothers q); [done|lia]).
    destruct (borrowLeft_props o m sep l c _ _ Hlocc Hcocc ltac:(lia) ltac:(lia))
      as (H1 & H2 & H3 & H4 & H5 & H6 & H7 & H8 & H9).
    destruct (rotate_props m (occ o (ceil o 2 - 1) m) cs q l c
                (borrowLeft m sep l c).1.1 (borrowLeft m sep l c).2 Hl Hc)
      as (G1 & G2 & G3 & G4); try done.
    + intros j cj Hj ??. by eapply Hothers.
    + eapply occ_lb; [done|lia].
    + eapply occ_lb; [done|lia].
    + split_and!; try done; rewrite ?length_insert; lia.
  - assert (Hrocc : occ o (ceil o 2 - 1) m r) by (eapply (Hothers (S i)); [done|lia]).
    destruct (borrowRight_props o m sep c r _ _ Hcocc Hrocc ltac:(lia) ltac:(lia))
      as (H1 & H2 & H3 & H4 & H5 & H6 & H7 & H8 & H9).
    destruct (rotate_props m (occ o (ceil o 2 - 1) m) cs i c r
                (borrowRight m sep c r).1.1 (borrowRight m sep c r).2 Hc Hr)
      as (G1 & G2 & G3 & G4); try done.
    + intros j cj Hj ??. by eapply Hothers.
    + eapply occ_lb; [done|lia].
    + eapply occ_lb; [done|lia].
    + split_and!; try done; rewrite ?length_insert; lia.
  - assert (Hlocc : occ o (ceil o 2 - 1) m l) by (eapply (Hothers q); [done|lia]).
    pose proof (occ_count o _ _ _ Hlocc) as Hlc.
    destruct (mergeInto_props o m sep l c _ _ Hlocc Hcocc ltac:(lia))
      as (H1 & H2 & H3 & H4 & H5 & H6).
    destruct (merge_props m (occ o (ceil o 2 - 1) m) cs q l c (mergeInto m sep l c) Hl Hc)
      as (G1 & G2 & G3 & G4); try done.
    + intros j cj Hj ??. by eapply Hothers.
    + eapply occ_lb; [done|lia].
    + pose proof (lookup_lt_Some _ _ _ Hsep) as Hq.
      pose proof (lookup_lt_Some _ _ _ Hc) as Hi.
      rewrite (merge_eq cs q _ Hi) in *.
      rewrite (length_delete ks) by (by eexists).
      split_and!; try done; try lia.
      rewrite length_app, length_take. simpl. rewrite length_drop. lia.
  - assert (Hrocc : occ o (ceil o 2 - 1) m r) by (eapply (Hothers 1%nat); [done|lia]).
    pose proof (occ_count o _ _ _ Hrocc) as Hrc.
    destruct (mergeInto_props o m sep c r _ _ Hcocc Hrocc ltac:(lia))
      as (H1 & H2 & H3 & H4 & H5 & H6).
    destruct (merge_props m (occ o (ceil o 2 - 1) m) cs 0 c r (mergeInto m sep c r) Hc Hr)
      as (G1 & G2 & G3 & G4); try done.
    + intros j cj Hj ??. by eapply Hothers.
    + eapply occ_lb; [done|lia].
    + pose proof (lookup_lt_Some _ _ _ Hsep) as Hq.
      pose proof (lookup_lt_Some _ _ _ Hr) as Hi.
      rewrite (merge_eq cs 0 _ Hi) in *.
      rewrite (length_delete ks) by (by eexists).
      split_and!; try done; try lia.
      rewrite length_app, length_take. simpl. rewrite length_drop. lia.
Qed.

End FixProps.

Section FixOrd.
Context {Key Val : Type} {KO : KeyOps Key} {KL : KeyLaws Key}.

Lemma fixCase_ord sk mn m ks (cs : list (@atree Key Val m)) (i : nat) c ks' cs' lo hi :
  1 ≤ mn → fixCase mn m ks cs i c ks' cs' → cs !! i = Some c →
  ordList (ord sk m) lo ks cs hi → ordList (ord sk m) lo ks' cs' hi.
Proof.
  intros Hmn Hcase Hc Hord.
  pose proof (ordList_lookup _ _ _ _ _ _ _ Hord Hc) as Hcord.
  destruct Hcase as [Hok|q l sep Hlow -> Hl Hsep Hlend|r sep Hlow Hr Hsep Hleft Hlend
                    |q l sep Hlow -> Hl Hsep Hno Hright|r sep Hlow -> Hr Hsep Hno].
  - done.
  - pose proof (ordList_lookup _ _ _ _ _ _ _ Hord Hl) as Hlord.
    unfold hib in Hlord. rewrite Hsep in Hlord. simpl in Hcord. rewrite Hsep in Hcord.
    destruct (borrowLeft_ord sk m sep l c _ _ Hlord Hcord ltac:(lia)) as [H1 H2].
    apply ordList_rotate; [done|by eapply lookup_lt_Some|done|done].
  - pose proof (ordList_lookup _ _ _ _ _ _ _ Hord Hr) as Hrord.
    unfold hib in Hcord. rewrite Hsep in Hcord. simpl in Hrord. rewrite Hsep in Hrord.
    destruct (borrowRight_ord sk m sep c r _ _ Hcord Hrord ltac:(lia)) as [H1 H2].
    apply ordList_rotate; [done|by eapply lookup_lt_Some|done|done].
  - pose proof (ordList_lookup _ _ _ _ _ _ _ Hord Hl) as Hlord.
    unfold hib in Hlord. rewrite Hsep in Hlord. simpl in Hcord. rewrite Hsep in Hcord.
    apply ordList_merge; [done|by eapply lookup_lt_Some|].
    by apply mergeInto_ord.
  - pose proof (ordList_lookup _ _ _ _ _ _ _ Hord Hr) as Hrord.
    unfold hib in Hcord. rewrite Hsep in Hcord. simpl in Hrord. rewrite Hsep in Hrord.
    apply ordList_merge; [done|by eapply lookup_lt_Some|].
    by apply mergeInto_ord.
Qed.

End FixOrd.


(** * What a deletion keeps *)

Section DelPure.
Context {Key Val : Type} {KO : KeyOps Key} {KL : KeyLaws Key}.
Variable o : Z.
Hypothesis o_ge_3 : 3 ≤ o.
Implicit Types (kvs : list (Key * Val)) (k : Key) (v : Val).

Local Ltac ftree :=
  repeat match goal with
         | m : nat |- _ => progress fold (@atree Key Val m) in *
         end.

Lemma treeDel_S mn m (t : @atree Key Val (S m)) k :
  treeDel mn (S m) t k
  = match t.2 !! cpos k t.1.2 with
    | None => (t, None)
    | Some c =>
        match treeDel mn m c k with
        | (c', Some v) =>
            (fixChild mn m t.1.1 t.1.2 (<[cpos k t.1.2 := c']> t.2) (cpos k t.1.2), Some v)
        | (_, None) => (t, None)
        end
    end.
Proof. done. Qed.

Lemma kvdel_absent k kvs : (∀ k', k' ∈ kvs.*1 → k' ≠ k) → kvdel k kvs = kvs.
Proof.
  induction kvs as [|[k' v'] l IH]; [done|]. intros H. simpl.
  destruct (decide (compare k k' = 0)) as [E|E].
  - apply compare_eq in E. exfalso. apply (H k'); [left|done].
  - f_equal. apply IH. intros k'' Hin. apply H. by right.
Qed.

Lemma kvdel_kvget_None k kvs : kvget k kvs = None → kvdel k kvs = kvs.
Proof.
  induction kvs as [|[k' v'] l IH]; [done|]. simpl.
  destruct (decide (compare k k' = 0)); [done|]. intros H. f_equal. by apply IH.
Qed.

Lemma kvdel_app_l k kvs1 kvs2 :
  (∀ k', k' ∈ kvs1.*1 → k' ≠ k) → kvdel k (kvs1 ++ kvs2) = kvs1 ++ kvdel k kvs2.
Proof.
  induction kvs1 as [|[k' v'] l IH]; [done|]. intros H. simpl.
  destruct (decide (compare k k' = 0)) as [E|E].
  - apply compare_eq in E. exfalso. apply (H k'); [left|done].
  - f_equal. apply IH. intros k'' Hin. apply H. by right.
Qed.

Lemma kvdel_app_r k kvs1 kvs2 :
  (∀ k', k' ∈ kvs2.*1 → k' ≠ k) → kvdel k (kvs1 ++ kvs2) = kvdel k kvs1 ++ kvs2.
Proof.
  intros H. induction kvs1 as [|[k' v'] l IH]; simpl.
  - by apply kvdel_absent.
  - destruct (decide (compare k k' = 0)); [done|]. by rewrite IH.
Qed.

Lemma kvdel_child m (t : @atree Key Val (S m)) lo hi k c :
  ord None (S m) t lo hi → t.2 !! cpos k t.1.2 = Some c →
  kvdel k (contents (S m) t)
  = concat (contents m <$> take (cpos k t.1.2) t.2)
    ++ kvdel k (contents m c)
    ++ concat (contents m <$> drop (S (cpos k t.1.2)) t.2).
Proof.
  intros Hord Hc. cbn [contents].
  rewrite (concat_fmap_middle (contents m) _ _ c Hc).
  rewrite kvdel_app_l.
  - rewrite kvdel_app_r; [done|].
    intros k' Hin. apply not_eq_sym, klt_ne. by eapply ord_after.
  - intros k' Hin. apply klt_ne. by eapply ord_before.
Qed.

Lemma concat_fmap_insert {A B} (f : A → list B) (cs : list A) (i : nat) c' :
  (i < length cs)%nat →
  concat (f <$> <[i := c']> cs)
  = concat (f <$> take i cs) ++ f c' ++ concat (f <$> drop (S i) cs).
Proof.
  intros Hi. rewrite insert_take_drop by done.
  by rewrite fmap_app, concat_app, fmap_cons, concat_cons.
Qed.

(** The tree after a deletion, before the separators are repaired. *)
Lemma del_props n : ∀ (t : @atree Key Val n) lb lo hi k,
  1 ≤ lb → ord None n t lo hi → occ o lb n t →
  (treeDel (ceil o 2 - 1) n t k).2 = kvget k (contents n t)
  ∧ contents n (treeDel (ceil o 2 - 1) n t k).1 = kvdel k (contents n t)
  ∧ occ o (lb - 1) n (treeDel (ceil o 2 - 1) n t k).1
  ∧ ord (Some k) n (treeDel (ceil o 2 - 1) n t k).1 lo hi
  ∧ addrs n (treeDel (ceil o 2 - 1) n t k).1 ⊆+ addrs n t
  ∧ aaddr n (treeDel (ceil o 2 - 1) n t k).1 = aaddr n t
  ∧ afirst n (treeDel (ceil o 2 - 1) n t k).1 = afirst n t.
Proof.
  pose proof (minKeys_bounds o o_ge_3) as Hmin.
  induction n as [|m IH]; intros t lb lo hi k Hlb Hord Hocc.
  - pose proof (leafDel_ord t k lo hi Hord) as Hdord.
    simpl in Hocc. cbn [treeDel contents] in *. unfold leafDel in *.
    rewrite kvget_epos, kvdel_epos.
    destruct (epos k t.2.*1) as [p|] eqn:Ep; cbn [fst snd] in *.
    + apply epos_Some in Ep as [(k' & Hk' & _) _].
      rewrite list_lookup_fmap in Hk'.
      destruct (t.2 !! p) as [kv|] eqn:Hp; [|done].
      split_and!; try done.
      simpl. unfold len in *. rewrite length_delete by (by eexists). lia.
    + split_and!; try done. simpl. lia.
  - rewrite treeDel_S.
    destruct (ord_cpos m t lo hi k Hord) as [c Hc].
    destruct t as [[a ks] cs]. cbn [fst snd] in *. ftree. rewrite Hc.
    pose proof (lookup_lt_Some _ _ _ Hc) as Hi.
    pose proof (ord_child _ _ _ _ _ _ _ Hord Hc) as Hcord.
    pose proof (occ_child o lb m (a, ks, cs) _ c Hocc Hc) as Hcocc.
    pose proof (ord_length _ _ _ _ _ Hord) as Hlen.
    destruct (IH c (ceil o 2 - 1) _ _ k ltac:(lia) Hcord Hcocc)
      as (I1 & I2 & I3 & I4 & I5 & I6 & I7).
    rewrite (kvget_child m (a, ks, cs) lo hi k c Hord Hc).
    rewrite (kvdel_child m (a, ks, cs) lo hi k c Hord Hc).
    pose proof Hocc as Hocc0. rewrite occ_S in Hocc. destruct Hocc as (Hks & Hcs & Hall).
    destruct (treeDel (ceil o 2 - 1) m c k) as [c' [v|]] eqn:Edel; cbn [fst snd] in *.
    2:{ rewrite (kvdel_kvget_None k (contents m c)) by done.
        split_and!; try done.
        - exact (concat_fmap_middle (contents m) _ _ c Hc).
        - eapply occ_lb; [done|]. simpl. lia.
        - by apply ord_sk_weaken. }
    set (i := cpos k ks) in *.
    assert (Hc1 : <[i := c']> cs !! i = Some c') by (by apply list_lookup_insert_eq).
    assert (Hlen1 : length (<[i := c']> cs) = S (length ks))
      by (by rewrite length_insert).
    assert (Hks1 : (1 ≤ length ks)%nat) by (unfold len in *; lia).
    destruct (fixChild_cases (ceil o 2 - 1) m a ks _ i c' Hc1 Hlen1 Hks1)
      as (ks' & cs' & Efix & Hcase).
    rewrite Efix. cbn [fst snd].
    destruct (fixCase_props o o_ge_3 m ks _ i c' ks' cs' Hcase Hc1 Hlen1)
      as (P1 & P2 & P3 & P4 & P5 & P6 & P7).
    { intros j cj Hj Hne. rewrite list_lookup_insert_ne in Hj by done.
      rewrite list.Forall_forall in Hall. apply Hall. by eapply list_elem_of_lookup_2. }
    { done. }
    assert (Hord1 : ordList (ord (Some k) m) lo ks (<[i := c']> cs) hi).
    { rewrite ord_S in Hord. apply ordList_insert; [|done].
      eapply ordList_mono; [|exact Hord]. intros ????. by apply ord_sk_weaken. }
    pose proof (fixCase_ord (Some k) (ceil o 2 - 1) m _ _ i c' ks' cs' lo hi (proj1 Hmin) Hcase Hc1 Hord1)
      as Hord'.
    split_and!.
    + done.
    + cbn [contents fst snd]. rewrite P5, concat_fmap_insert by done. by rewrite I2.
    + rewrite occ_S. cbn [fst snd]. unfold len in *. clear IH. split_and!; [ftree; lia..|done].
    + rewrite ord_S. done.
    + rewrite !addrs_S. cbn [fst snd]. apply submseteq_skip.
      etrans; [exact P6|]. rewrite concat_fmap_insert by done.
      rewrite (concat_fmap_middle (addrs m) _ _ c Hc).
      apply submseteq_skips_l. by apply submseteq_skips_r.
    + done.
    + rewrite !afirst_S. cbn [fst snd].
      assert (E : afirst m <$> cs' !! 0%nat = afirst m <$> cs !! 0%nat).
      { rewrite P7. destruct (decide (i = 0%nat)) as [E0|E0].
        - rewrite E0 in *. rewrite Hc1, Hc. simpl. by rewrite I7.
        - by rewrite list_lookup_insert_ne. }
      clear IH. ftree. destruct (cs' !! 0%nat), (cs !! 0%nat); cbn in E; try done; by injection E.
Qed.

End DelPure.


(** * Repairing the separators after a deletion *)

Section FixSep.
Context {Key Val : Type} {KO : KeyOps Key} {KL : KeyLaws Key}.
Variable o : Z.
Hypothesis o_ge_3 : 3 ≤ o.
Implicit Types (k : Key) (ks : list Key) (lo hi : option Key).

Local Ltac ftree :=
  repeat match goal with
         | m : nat |- _ => progress fold (@atree Key Val m) in *
         end.

(** ** The position [removeFromIndex] stops at *)

Lemma fpos_le k ks : (fpos k ks ≤ length ks)%nat.
Proof. induction ks as [|k' ks IH]; simpl; [lia|]. destruct (decide _); simpl; lia. Qed.

Lemma fpos_lt k ks (j : nat) kj :
  ks !! j = Some kj → (j < fpos k ks)%nat → klt kj k.
Proof.
  revert j. induction ks as [|k' ks IH]; intros j Hj Hlt; [done|].
  simpl in Hlt. destruct (decide (compare k k' > 0)) as [E|E]; [|lia].
  destruct j as [|j]; simpl in Hj.
  - injection Hj as <-. by apply compare_gt.
  - apply (IH j); [done|lia].
Qed.

Lemma fpos_at k ks ki : ks !! fpos k ks = Some ki → compare k ki ≤ 0.
Proof.
  induction ks as [|k' ks IH]; [done|]. simpl.
  destruct (decide (compare k k' > 0)) as [E|E]; simpl; [done|].
  intros [= <-]. lia.
Qed.

(** Without an equal key the walk of [removeFromIndex] is that of
    [findLeaf]. *)
Lemma fpos_after k ks (i j : nat) ki kj :
  sortedK ks → ks !! fpos k ks = Some ki → ks !! j = Some kj →
  (fpos k ks < j)%nat → klt k kj.
Proof.
  intros Hs Hi Hj Hlt. eapply kle_lt_trans; [by eapply fpos_at|].
  by eapply (sortedK_lookup ks (fpos k ks) j).
Qed.

(** ** Bounds that are not stale *)

Lemma ord_hi_weaken sk n : ∀ (t : @atree Key Val n) lo hi hi',
  (∀ x, ltOpt x hi → ltOpt x hi') → ord sk n t lo hi → ord sk n t lo hi'.
Proof.
  induction n as [|m IH]; intros t lo hi hi' Hw H.
  - rewrite ord_0 in *. destruct H as (H1 & H2 & H3 & H4). split_and!; [done| |done|].
    + eapply list.Forall_impl; [exact H2|]. done.
    + destruct lo as [l|]; [|done]. by apply Hw.
  - rewrite ord_S in *. apply ordList_iff in H as [Hlen H]. apply ordList_intro; [done|].
    intros j c Hc. specialize (H j c Hc). unfold hib in *.
    destruct (t.1.2 !! j); [done|]. by eapply IH.
Qed.

(** The lower bound is at or below the least key. *)
Lemma ord_low_le sk n : ∀ (t : @atree Key Val n) lb l hi,
  1 ≤ lb → occ o lb n t → ord sk n t (Some l) hi → compare l (amin n t) ≤ 0.
Proof.
  pose proof (minKeys_bounds o o_ge_3) as Hmin.
  induction n as [|m IH]; intros t lb l hi Hlb Hocc H.
  - rewrite ord_0 in H. destruct H as (_ & _ & H3 & _).
    simpl in Hocc. destruct t as [a kvs]. cbn [fst snd amin] in *.
    destruct kvs as [|kv kvs]; [unfold len in Hocc; simpl in Hocc; lia|].
    simpl in H3. destruct H3 as [->|[_ ?]]; [apply kle_refl|by apply klt_le].
  - pose proof Hocc as Hocc0. rewrite occ_S in Hocc. destruct Hocc as (_ & Hl & _).
    destruct (lookup_lt_is_Some_2 t.2 0%nat) as [c Hc]; [unfold len in *; lia|].
    pose proof (ord_child _ _ _ _ _ _ _ H Hc) as Hcord. cbn [lob] in Hcord.
    pose proof (occ_child o lb m t _ c Hocc0 Hc) as Hcocc.
    assert (E : amin (S m) t = amin m c).
    { destruct t as [[a ks] cs]. cbn [fst snd amin] in *. by destruct cs; simplify_eq/=. }
    rewrite E. eapply (IH c (ceil o 2 - 1)); [lia|done|done].
Qed.

(** Below the deleted key no bound is stale. *)
Lemma ord_fresh_below n : ∀ (t : @atree Key Val n) lo k u,
  compare u k ≤ 0 → ord (Some k) n t lo (Some u) → ord None n t lo (Some u).
Proof.
  induction n as [|m IH]; intros t lo k u Hu H.
  - rewrite ord_0 in *. destruct H as (H1 & H2 & H3 & H4). split_and!; [done..| |done].
    destruct lo as [l|]; [|done]. simpl in H4.
    assert (Hne : Some k ≠ Some l).
    { intros [= ->]. eapply klt_irrefl. by eapply klt_le_trans. }
    unfold lowOk in *. destruct (t.2.*1) as [|k0 ks0]; [done|].
    destruct H3 as [->|[? _]]; [by left|done].
  - pose proof H as H0. rewrite ord_S in *.
    pose proof (ordList_bounds _ (ord_optLt (Some k) m) _ _ _ _ H) as (_ & _ & Hb).
    apply ordList_iff in H as [Hlen H]. apply ordList_intro; [done|].
    intros j c Hc. specialize (H j c Hc). unfold hib in *.
    destruct (t.1.2 !! j) as [kj|] eqn:Hj; [|by eapply IH].
    rewrite list.Forall_forall in Hb.
    destruct (Hb kj) as [_ Hlt]; [by eapply list_elem_of_lookup_2|]. simpl in Hlt.
    eapply IH; [|done]. apply klt_le. by eapply klt_le_trans.
Qed.

(** At or above the deleted key only the lower bound of the tree can be
    stale; the least key of the tree replaces it. *)
Lemma ord_fresh_above n : ∀ (t : @atree Key Val n) lb l lo' hi k,
  1 ≤ lb → occ o lb n t →
  (lo' = Some l ∧ klt k l) ∨ (l = k ∧ lo' = Some (amin n t)) →
  ord (Some k) n t (Some l) hi → ord None n t lo' hi.
Proof.
  pose proof (minKeys_bounds o o_ge_3) as Hmin.
  induction n as [|m IH]; intros t lb l lo' hi k Hlb Hocc Hlo H.
  - rewrite ord_0 in *. destruct H as (H1 & H2 & H3 & H4).
    simpl in Hocc. destruct t as [a kvs]. cbn [fst snd amin] in *.
    destruct kvs as [|kv kvs]; [unfold len in Hocc; simpl in Hocc; lia|].
    cbn [fmap list_fmap] in *. simpl in H3.
    destruct Hlo as [[-> Hkl]|[-> ->]].
    + split_and!; [done..| |done]. simpl.
      destruct H3 as [->|[[= ->] _]]; [by left|]. by apply klt_irrefl in Hkl.
    + split_and!; [done..|by left|]. simpl. by apply list.Forall_cons in H2 as [? _].
  - pose proof H as H0. rewrite ord_S in H.
    pose proof (ordList_bounds _ (ord_optLt (Some k) m) _ _ _ _ H) as (_ & _ & Hb).
    rewrite ord_S. apply ordList_iff in H as [Hlen H]. apply ordList_intro; [done|].
    intros j c Hc. specialize (H j c Hc).
    pose proof (occ_child o lb m t j c Hocc Hc) as Hcocc.
    destruct j as [|j].
    + cbn [lob] in *. eapply (IH c (ceil o 2 - 1) l); [lia|done| |done].
      destruct Hlo as [?|[-> ->]]; [by left|right]. split; [done|].
      destruct t as [[a ks] cs]. cbn [fst snd amin] in *. by destruct cs; simplify_eq/=.
    + cbn [lob] in *. destruct (t.1.2 !! j) as [kj|] eqn:Hj.
      2:{ apply lookup_ge_None in Hj. apply lookup_lt_Some in Hc.
          assert (S j < S (length t.1.2))%nat by (rewrite <- Hlen; exact Hc). lia. }
      rewrite list.Forall_forall in Hb.
      destruct (Hb kj) as [Hlt _]; [by eapply list_elem_of_lookup_2|]. simpl in Hlt.
      eapply (IH c (ceil o 2 - 1) kj); [lia|done| |done]. left. split; [done|].
      destruct Hlo as [[_ ?]|[-> _]]; [by eapply klt_trans|done].
Qed.

(** ** What [fixSep] keeps *)

Lemma fixSep_S m (t : @atree Key Val (S m)) k :
  fixSep (S m) t k
  = match t.2 !! fpos k t.1.2 with
    | Some c =>
        (t.1.1,
         match t.1.2 !! fpos k t.1.2, t.2 !! S (fpos k t.1.2) with
         | Some k', Some r =>
             if decide (compare k k' = 0) then <[fpos k t.1.2 := amin m r]> t.1.2 else t.1.2
         | _, _ => t.1.2
         end,
         <[fpos k t.1.2 := fixSep m c k]> t.2)
    | None =>
        (t.1.1,
         match t.1.2 !! fpos k t.1.2, t.2 !! S (fpos k t.1.2) with
         | Some k', Some r =>
             if decide (compare k k' = 0) then <[fpos k t.1.2 := amin m r]> t.1.2 else t.1.2
         | _, _ => t.1.2
         end,
         t.2)
    end.
Proof. done. Qed.

Lemma fixSep_keys_length m (t : @atree Key Val (S m)) k :
  length (fixSep (S m) t k).1.2 = length t.1.2.
Proof.
  rewrite fixSep_S.
  assert (E : length (match t.1.2 !! fpos k t.1.2, t.2 !! S (fpos k t.1.2) with
         | Some k', Some r =>
             if decide (compare k k' = 0) then <[fpos k t.1.2 := amin m r]> t.1.2 else t.1.2
         | _, _ => t.1.2
         end) = length t.1.2).
  { destruct (t.1.2 !! _); [|done]. destruct (t.2 !! S _); [|done].
    destruct (decide _); [|done]. by rewrite length_insert. }
  by destruct (t.2 !! fpos k t.1.2).
Qed.

Lemma fixSep_same n : ∀ (t : @atree Key Val n) k,
  aaddr n (fixSep n t k) = aaddr n t
  ∧ afirst n (fixSep n t k) = afirst n t
  ∧ amin n (fixSep n t k) = amin n t
  ∧ contents n (fixSep n t k) = contents n t
  ∧ addrs n (fixSep n t k) = addrs n t.
Proof.
  induction n as [|m IH]; intros t k; [done|].
  rewrite fixSep_S. destruct (t.2 !! fpos k t.1.2) as [c|] eqn:Hc.
  2:{ by destruct t as [[a ks] cs]. }
  destruct (IH c k) as (I1 & I2 & I3 & I4 & I5).
  destruct t as [[a ks] cs]. cbn [fst snd] in *. ftree.
  set (ks' := match ks !! fpos k ks with Some _ => _ | None => _ end). clearbody ks'.
  pose proof (lookup_lt_Some _ _ _ Hc) as Hi.
  remember (fpos k ks) as i eqn:Ei. clear Ei.
  split_and!.
  - done.
  - rewrite !afirst_S. cbn [fst snd].
    destruct i as [|i]; destruct cs as [|c0 cs0]; simpl in *; by simplify_eq.
  - cbn [amin fst snd]. destruct i as [|i].
    + destruct cs as [|c0 cs]; [done|]. simpl in *. by simplify_eq.
    + by destruct cs.
  - cbn [contents fst snd]. rewrite concat_fmap_insert by done.
    rewrite I4. symmetry. by apply concat_fmap_middle.
  - rewrite !addrs_S. cbn [fst snd]. f_equal. rewrite concat_fmap_insert by done.
    rewrite I5. symmetry. by apply concat_fmap_middle.
Qed.

Lemma fixSep_count n (t : @atree Key Val n) k : acount n (fixSep n t k) = acount n t.
Proof.
  destruct n as [|m]; [done|]. unfold acount, len. by rewrite fixSep_keys_length.
Qed.

Lemma fixSep_occ n : ∀ (t : @atree Key Val n) lb k,
  occ o lb n t → occ o lb n (fixSep n t k).
Proof.
  induction n as [|m IH]; intros t lb k Hocc; [done|].
  pose proof (fixSep_keys_length m t k) as Hkl.
  pose proof Hocc as Hocc0. rewrite occ_S in Hocc. destruct Hocc as (H1 & H2 & H3).
  rewrite occ_S. rewrite fixSep_S in *.
  destruct (t.2 !! fpos k t.1.2) as [c|] eqn:Hc; cbn [fst snd] in *.
  - unfold len in *. rewrite Hkl, length_insert. split; [done|]. split; [done|].
    apply list.Forall_forall. intros x Hx. apply list_elem_of_lookup in Hx as [j Hj].
    destruct (decide (j = fpos k t.1.2)) as [->|Hne].
    + rewrite list_lookup_insert_eq in Hj by (by eapply lookup_lt_Some).
      injection Hj as <-. apply IH. by eapply occ_child.
    + rewrite list_lookup_insert_ne in Hj by done. by eapply occ_child.
  - unfold len in *. by rewrite Hkl.
Qed.

(** ** The order after the repair *)

Lemma fixSep_ord n : ∀ (t : @atree Key Val n) lb lo lo' hi k,
  1 ≤ lb → occ o lb n t →
  (lo' = lo ∧ lo ≠ Some k) ∨ (lo = Some k ∧ lo' = Some (amin n t)) →
  ord (Some k) n t lo hi → ord None n (fixSep n t k) lo' hi.
Proof.
  pose proof (minKeys_bounds o o_ge_3) as Hmin.
  induction n as [|m IH]; intros t lb lo lo' hi k Hlb Hocc Hlo H.
  - destruct Hlo as [[-> Hne]|[-> ->]].
    + cbn [fixSep]. rewrite ord_0 in *. destruct H as (H1 & H2 & H3 & H4).
      split_and!; [done..| |done].
      destruct lo as [l|]; [|done]. unfold lowOk in *.
      destruct (t.2.*1) as [|k0 ks0]; [done|].
      destruct H3 as [->|[? _]]; [by left|done].
    + cbn [fixSep]. eapply (ord_fresh_above 0 t lb k); [done|done| |done]. by right.
  - destruct t as [[a ks] cs].
    pose proof H as H0. rewrite ord_S in H. cbn [fst snd] in H.
    pose proof (ordList_bounds _ (ord_optLt (Some k) m) _ _ _ _ H) as (_ & Hs & Hb).
    apply ordList_iff in H as [Hlen H].
    pose proof (fixSep_keys_length m (a, ks, cs) k) as Hkl.
    pose proof (fpos_le k ks) as Hfl.
    destruct (lookup_lt_is_Some_2 cs (fpos k ks)) as [c Hc]; [ftree; lia|].
    rewrite ord_S. rewrite fixSep_S in *. cbn [fst snd] in *. ftree. rewrite Hc in *.
    cbn [fst snd] in *.
    set (i := fpos k ks) in *.
    set (ks' := match ks !! i with Some _ => _ | None => _ end) in *.
    apply ordList_intro; [by rewrite length_insert, Hkl|].
    (* the keys before and after position [i] *)
    assert (Hks' : ∀ j : nat, j ≠ i → ks' !! j = ks !! j).
    { intros j Hj. unfold ks'. destruct (ks !! i); [|done]. destruct (cs !! S i); [|done].
      destruct (decide _); [|done]. by rewrite list_lookup_insert_ne. }
    assert (Hlow0 : (0 < i)%nat → lo' = lo).
    { intros Hi. destruct Hlo as [[-> _]|[-> ->]]; [done|]. exfalso.
      destruct (lookup_lt_is_Some_2 ks 0%nat) as [k0 Hk0]; [lia|].
      rewrite list.Forall_forall in Hb.
      destruct (Hb k0) as [Hlt _]; [by eapply list_elem_of_lookup_2|]. simpl in Hlt.
      eapply klt_asym; [exact Hlt|]. by eapply (fpos_lt k ks 0). }
    intros j cj Hj.
    destruct (decide (j = i)) as [->|Hne].
    + (* the child the walk goes on in *)
      rewrite list_lookup_insert_eq in Hj by (by eapply lookup_lt_Some).
      injection Hj as <-. pose proof (H i c Hc) as Hci.
      pose proof (occ_child o lb m (a, ks, cs) i c Hocc Hc) as Hcocc.
      assert (Hlob : (lob lo' ks' i = lob lo ks i ∧ lob lo ks i ≠ Some k)
                     ∨ (lob lo ks i = Some k ∧ lob lo' ks' i = Some (amin m c))).
      { destruct i as [|i'] eqn:Ei.
        - cbn [lob]. destruct Hlo as [?|[-> ->]]; [by left|right]. split; [done|].
          cbn [amin fst snd]. by destruct cs; simplify_eq/=.
        - cbn [lob]. left. rewrite Hks' by lia. split; [done|].
          destruct (ks !! i') as [ki|] eqn:Hki; [|done]. intros [= ->].
          eapply klt_irrefl. eapply (fpos_lt k ks i'); [done|]. fold i. lia. }
      pose proof (IH c (ceil o 2 - 1) _ _ _ k ltac:(lia) Hcocc Hlob Hci) as Hc'.
      eapply ord_hi_weaken; [|exact Hc']. intros x Hx.
      unfold hib in *. unfold ks'.
      destruct (ks !! i) as [ki|] eqn:Hki; [|by rewrite Hki].
      destruct (cs !! S i) as [r|] eqn:Hr; [|by rewrite Hki].
      destruct (decide (compare k ki = 0)) as [E|E]; [|by rewrite Hki].
      rewrite list_lookup_insert_eq by (by eapply lookup_lt_Some).
      apply compare_eq in E. subst ki. simpl in Hx. simpl.
      eapply klt_le_trans; [exact Hx|].
      specialize (H (S i) r Hr). cbn [lob] in H. rewrite Hki in H.
      pose proof (occ_child o lb m (a, ks, cs) (S i) r Hocc Hr) as Hrocc.
      exact (ord_low_le (Some k) m r (ceil o 2 - 1) k _ ltac:(lia) Hrocc H).
    + rewrite list_lookup_insert_ne in Hj by done. specialize (H j cj Hj).
      pose proof (occ_child o lb m (a, ks, cs) j cj Hocc Hj) as Hcocc.
      destruct (decide (j < i)%nat) as [Hlt|Hge].
      * (* left of the walk *)
        destruct (lookup_lt_is_Some_2 ks j) as [kj Hkj]; [lia|].
        assert (Hh : hib ks' hi j = Some kj) by (unfold hib; by rewrite Hks', Hkj).
        assert (Hh0 : hib ks hi j = Some kj) by (unfold hib; by rewrite Hkj).
        assert (Hl : lob lo' ks' j = lob lo ks j).
        { destruct j as [|j']; cbn [lob]; [apply Hlow0; lia|]. apply Hks'. lia. }
        rewrite Hh, Hl. rewrite Hh0 in H.
        eapply ord_fresh_below; [|exact H]. apply klt_le. by eapply (fpos_lt k ks j).
      * (* right of the walk *)
        destruct j as [|j']; [lia|]. cbn [lob] in *.
        assert (Hh : hib ks' hi (S j') = hib ks hi (S j')) by (unfold hib; by rewrite Hks').
        rewrite Hh.
        destruct (ks !! j') as [kj|] eqn:Hkj.
        2:{ apply lookup_ge_None in Hkj. apply lookup_lt_Some in Hj. lia. }
        destruct (ks !! i) as [ki|] eqn:Hki.
        2:{ apply lookup_ge_None in Hki. apply lookup_lt_Some in Hkj. lia. }
        pose proof (fpos_at k ks ki Hki) as Hle.
        destruct (decide (j' = i)) as [->|Hne'].
        -- rewrite Hki in Hkj. injection Hkj as <-.
           eapply (ord_fresh_above m cj (ceil o 2 - 1) ki); [lia|done| |done].
           unfold ks'. rewrite Hj.
           destruct (decide (compare k ki = 0)) as [E|E].
           ++ right. apply compare_eq in E. subst ki.
              by rewrite list_lookup_insert_eq by (by eapply lookup_lt_Some).
           ++ left. rewrite Hki. split; [done|]. unfold klt. lia.
        -- rewrite Hks' by done. rewrite Hkj.
           eapply (ord_fresh_above m cj (ceil o 2 - 1) kj); [lia|done| |done].
           left. split; [done|]. eapply (fpos_after k ks i j'); [done|done|done|]. fold i. lia.
Qed.

End FixSep.


(** * Rebalancing in memory: leaves *)

Section Siblings.
Context {Key Val : Type} {KO : KeyOps Key}.
Variable o : Z.
Implicit Types (h : list (node Key Val)) (T : BPTree Key Val) (cs : list addr)
  (ks : list Key) (par nxt : option addr) (kvs : list (Key * Val)).

Lemma list_find_NoDup cs (i : nat) (x : addr) :
  NoDup cs → cs !! i = Some x → list_find (λ y, y = x) cs = Some (i, x).
Proof.
  intros Hnd Hi. apply list_find_Some. split_and!; [done|done|].
  intros j y Hj Hlt ->. pose proof (NoDup_lookup _ _ _ _ Hnd Hi Hj). lia.
Qed.

Lemma position_in_parent par ks cs (i : nat) (x : addr) :
  NoDup cs → cs !! i = Some x →
  pointerPositionOf (innerNode o par ks cs : node Key Val) x = Some (Z.of_nat i).
Proof. intros Hnd Hi. by rewrite pointerPositionOf_innerNode, (list_find_NoDup cs i x). Qed.

Lemma sibling_left h a par ks cs (i : nat) :
  h !! a = Some (innerNode o par ks cs) → (i < length cs)%nat →
  sibling h a (Z.of_nat i - 1) (bool_decide (Z.of_nat i - 1 >= 0))
  = Some (match i with O => None | S q => cs !! q end).
Proof.
  intros Ha Hi. destruct i as [|q].
  - by rewrite bool_decide_eq_false_2 by lia.
  - rewrite bool_decide_eq_true_2 by lia. unfold sibling. rewrite Ha.
    cbn [mbind option_bind].
    destruct (lookup_lt_is_Some_2 cs q) as [c Hc]; [lia|].
    rewrite (idx_pointers_innerNode o par ks cs q c) by (done || lia).
    cbn [mbind option_bind asNode]. by rewrite Hc.
Qed.

Lemma sibling_right h a par ks cs (i : nat) :
  h !! a = Some (innerNode o par ks cs) → length cs = S (length ks) →
  sibling h a (Z.of_nat i + 1) (bool_decide (Z.of_nat i + 1 < len ks + 1))
  = Some (cs !! S i).
Proof.
  intros Ha Hlen. unfold len.
  destruct (decide (S i < length cs)%nat) as [Hi|Hi].
  - rewrite bool_decide_eq_true_2 by lia. unfold sibling. rewrite Ha.
    cbn [mbind option_bind].
    destruct (lookup_lt_is_Some_2 cs (S i)) as [c Hc]; [lia|].
    rewrite (idx_pointers_innerNode o par ks cs (S i) c) by (done || lia).
    cbn [mbind option_bind asNode]. by rewrite Hc.
  - rewrite bool_decide_eq_false_2 by lia. simpl. f_equal. symmetry.
    apply lookup_ge_None. lia.
Qed.

Lemma canLend_Some T h (s : addr) sn :
  h !! s = Some sn → canLend T h (Some s) = Some (bool_decide (keyNum sn > minKeyNum T)).
Proof. intros Hs. unfold canLend. by rewrite Hs. Qed.

Lemma canLend_no T h (s : option addr) :
  (∀ x, s = Some x → ∃ sn, h !! x = Some sn ∧ ¬ keyNum sn > minKeyNum T) →
  canLend T h s = Some false.
Proof.
  intros H. destruct s as [x|]; [|done].
  destruct (H x eq_refl) as (sn & Hs & Hno).
  by rewrite (canLend_Some T h x sn Hs), bool_decide_eq_false_2.
Qed.

Lemma idx_keys_leafNode_first par kvs nxt (x : addr) :
  2 ≤ o →
  idx (keys (leafNode o par kvs nxt)) 0 = Some (amin 0 ((x, kvs) : @atree Key Val 0)).
Proof.
  intros Ho. destruct kvs as [|kv kvs]; cbn [fst snd leafNode leaf keys amin]; [|done].
  unfold arr. simpl. rewrite Nat.sub_0_r.
  destruct (Z.to_nat (o - 1)) as [|d] eqn:E; [lia|]. done.
Qed.

Lemma setKeys_innerNode par ks cs (q : nat) k (qz : Z) :
  (q < length ks)%nat → len ks ≤ o - 1 → qz = Z.of_nat q →
  (ks' ← upd (keys (innerNode o par ks cs : node Key Val)) qz k;
   Some (setKeys (innerNode o par ks cs : node Key Val) ks'))
  = Some (innerNode o par (<[q := k]> ks) cs : node Key Val).
Proof.
  intros Hq Hl ->. unfold innerNode, len in *. cbn [keys].
  rewrite upd_nat by (rewrite length_arr; lia).
  cbn [mbind option_bind]. unfold setKeys. cbn [leaf parent keyNum pointers].
  rewrite arr_insert by done. unfold len. by rewrite length_insert.
Qed.

Lemma delete_last {A} (l : list A) : delete (pred (length l)) l = take (pred (length l)) l.
Proof.
  rewrite delete_take_drop. rewrite (drop_ge l (S (pred (length l)))) by lia.
  by rewrite app_nil_r.
Qed.

End Siblings.

Section LeafSteps.
Context {Key Val : Type} {KO : KeyOps Key}.
Variable o : Z.
Variables (T : BPTree Key Val) (a : addr) (par : option addr) (ks : list Key)
  (cs : list addr).
Hypothesis Ha : nodes T !! a = Some (innerNode o par ks cs).
Hypothesis Hnd : NoDup cs.
Hypothesis Hlen : length cs = S (length ks).
Hypothesis Hks : len ks ≤ o - 1.
Hypothesis Hmin : 0 ≤ minKeyNum T.
Implicit Types (kvs : list (Key * Val)) (nxt : option addr).

(** The left neighbour lends its last entry. *)
Lemma rebalanceFromLeafNode_borrowLeft (q : nat) al ac kvl kvc nxl nxc kv :
  cs !! q = Some al → cs !! S q = Some ac → a ≠ al → a ≠ ac →
  nodes T !! al = Some (leafNode o (Some a) kvl nxl) →
  nodes T !! ac = Some (leafNode o (Some a) kvc nxc) →
  len kvl > minKeyNum T → len kvl ≤ o - 1 → len kvc < o - 1 →
  kvl !! pred (length kvl) = Some kv →
  rebalanceFromLeafNode T ac
  = Some (setNodes T
            (<[a := innerNode o par (<[q := kv.1]> ks) cs]>
               (<[al := leafNode o (Some a) (take (pred (length kvl)) kvl) nxl]>
                  (<[ac := leafNode o (Some a) (kv :: kvc) nxc]> (nodes T))))).
Proof.
  intros Hq HSq Hal Hac Hl Hc Hlend Hlcap Hccap Hkv.
  assert (Hne : al ≠ ac).
  { intros ->. pose proof (NoDup_lookup _ _ _ _ Hnd Hq HSq). lia. }
  pose proof (lookup_lt_Some _ _ _ Hl) as Hvl.
  pose proof (lookup_lt_Some _ _ _ Hc) as Hvc.
  pose proof (lookup_lt_Some _ _ _ Ha) as Hva.
  pose proof (lookup_lt_Some _ _ _ Hq) as Hql.
  unfold rebalanceFromLeafNode. cbv zeta.
  rewrite Hc. cbn [mbind option_bind leafNode parent]. rewrite Ha.
  cbn [mbind option_bind].
  rewrite (position_in_parent o par ks cs (S q) ac Hnd HSq).
  cbn [mbind option_bind].
  rewrite (sibling_left o _ a par ks cs (S q) Ha) by (by eapply lookup_lt_Some).
  cbn [mbind option_bind]. rewrite Hq.
  assert (Hkn : keyNum (leafNode o (Some a) kvl nxl) = len kvl) by done.
  rewrite (canLend_Some T _ al _ Hl), Hkn.
  rewrite (bool_decide_eq_true_2 (len kvl > minKeyNum T)) by done.
  cbn [mbind option_bind].
  rewrite Hl. cbn [mbind option_bind]. rewrite Hkn.
  rewrite (idx_keys_leafNode o _ kvl nxl (pred (length kvl)) kv)
    by (done || unfold len in *; lia).
  cbn [mbind option_bind].
  rewrite (idx_pointers_leafNode o _ kvl nxl (pred (length kvl)) kv)
    by (done || unfold len in *; lia).
  cbn [mbind option_bind].
  rewrite (modify_Some _ ac _ _ (leafNode o (Some a) (kv :: kvc) nxc) Hc)
    by (apply (insertAt_leafNode o _ kvc nxc 0); (done || simpl; lia)).
  cbn [mbind option_bind].
  rewrite (modify_Some _ al _ (leafNode o (Some a) kvl nxl)
             (leafNode o (Some a) (take (pred (length kvl)) kvl) nxl)).
  2:{ by rewrite list_lookup_insert_ne. }
  2:{ rewrite Hkn, <- delete_last.
      apply deleteAt_leafNode; unfold len in *; lia. }
  cbn [mbind option_bind].
  rewrite list_lookup_insert_ne by done.
  rewrite list_lookup_insert_eq by done.
  cbn [mbind option_bind].
  rewrite (idx_keys_leafNode o _ (kv :: kvc) nxc 0 kv) by done.
  cbn [mbind option_bind].
  rewrite decide_False by lia.
  rewrite (modify_Some _ a _ (innerNode o par ks cs)
             (innerNode o par (<[q := kv.1]> ks) cs)).
  - done.
  - by rewrite !list_lookup_insert_ne.
  - pose proof (lookup_lt_Some _ _ _ HSq). apply setKeys_innerNode; [lia|done|lia].
Qed.

(** The right neighbour lends its first entry. *)
Lemma rebalanceFromLeafNode_borrowRight (i : nat) ac ar kvc kvr nxc nxr kv rest :
  2 ≤ o →
  cs !! i = Some ac → cs !! S i = Some ar → a ≠ ac → a ≠ ar →
  nodes T !! ac = Some (leafNode o (Some a) kvc nxc) →
  nodes T !! ar = Some (leafNode o (Some a) kvr nxr) →
  (∀ x, match i with O => None | S q => cs !! q end = Some x →
        ∃ sn, nodes T !! x = Some sn ∧ ¬ keyNum sn > minKeyNum T) →
  len kvr > minKeyNum T → len kvr ≤ o - 1 → len kvc < o - 1 →
  kvr = kv :: rest →
  rebalanceFromLeafNode T ac
  = Some (setNodes T
            (<[a := innerNode o par (<[i := amin 0 ((ar, rest) : @atree Key Val 0)]> ks) cs]>
               (<[ar := leafNode o (Some a) rest nxr]>
                  (<[ac := leafNode o (Some a) (kvc ++ [kv]) nxc]> (nodes T))))).
Proof.
  intros Ho Hi HSi Hac Har Hc Hr Hleft Hlend Hrcap Hccap ->.
  assert (Hne : ac ≠ ar).
  { intros ->. pose proof (NoDup_lookup _ _ _ _ Hnd Hi HSi). lia. }
  pose proof (lookup_lt_Some _ _ _ Hr) as Hvr.
  pose proof (lookup_lt_Some _ _ _ Hc) as Hvc.
  pose proof (lookup_lt_Some _ _ _ Ha) as Hva.
  pose proof (lookup_lt_Some _ _ _ HSi) as Hil.
  unfold rebalanceFromLeafNode. cbv zeta.
  rewrite Hc. cbn [mbind option_bind leafNode parent]. rewrite Ha.
  cbn [mbind option_bind].
  rewrite (position_in_parent o par ks cs i ac Hnd Hi).
  cbn [mbind option_bind].
  rewrite (sibling_left o _ a par ks cs i Ha) by lia.
  cbn [mbind option_bind].
  rewrite (canLend_no T _ _ Hleft).
  cbn [mbind option_bind].
  assert (Hkp : keyNum (innerNode o par ks cs : node Key Val) = len ks) by done.
  rewrite Hkp.
  rewrite (sibling_right o _ a par ks cs i Ha Hlen).
  cbn [mbind option_bind]. rewrite HSi.
  assert (Hkn : keyNum (leafNode o (Some a) (kv :: rest) nxr) = len (kv :: rest)) by done.
  rewrite (canLend_Some T _ ar _ Hr), Hkn.
  rewrite (bool_decide_eq_true_2 (len (kv :: rest) > minKeyNum T)) by done.
  cbn [mbind option_bind].
  rewrite Hr. cbn [mbind option_bind].
  rewrite (idx_keys_leafNode o _ (kv :: rest) nxr 0 kv) by done.
  cbn [mbind option_bind].
  rewrite (idx_pointers_leafNode o _ (kv :: rest) nxr 0 kv) by done.
  cbn [mbind option_bind]. unfold vptr at 1.
  rewrite (append_leafNode o _ ac (Some a) kvc nxc kv.1 kv.2 Hc Hccap).
  cbn [mbind option_bind].
  replace (kv.1, kv.2) with kv by (by destruct kv).
  rewrite (modify_Some _ ar _ (leafNode o (Some a) (kv :: rest) nxr)
             (leafNode o (Some a) rest nxr)).
  2:{ by rewrite list_lookup_insert_ne. }
  2:{ apply (deleteAt_leafNode o _ (kv :: rest) nxr 0); [simpl; lia|done|done]. }
  cbn [mbind option_bind].
  rewrite list_lookup_insert_eq by (by rewrite length_insert).
  cbn [mbind option_bind].
  rewrite (idx_keys_leafNode_first o _ rest nxr ar Ho).
  cbn [mbind option_bind].
  rewrite (modify_Some _ a _ (innerNode o par ks cs)
             (innerNode o par (<[i := amin 0 ((ar, rest) : @atree Key Val 0)]> ks) cs)).
  - done.
  - by rewrite !list_lookup_insert_ne.
  - apply setKeys_innerNode; [lia|done|lia].
Qed.

(** Neither neighbour can lend: the leaf goes into its left neighbour. *)
Lemma rebalanceFromLeafNode_mergeLeft (q : nat) al ac kvl kvc nxl nxc :
  1 ≤ o →
  cs !! q = Some al → cs !! S q = Some ac → a ≠ al → a ≠ ac →
  nodes T !! al = Some (leafNode o (Some a) kvl nxl) →
  nodes T !! ac = Some (leafNode o (Some a) kvc nxc) →
  ¬ len kvl > minKeyNum T →
  (∀ x, cs !! S (S q) = Some x →
        ∃ sn, nodes T !! x = Some sn ∧ ¬ keyNum sn > minKeyNum T) →
  len kvl + len kvc ≤ o - 1 →
  rebalanceFromLeafNode T ac
  = rebalanceParentNode (fuel T)
      (setNodes T
         (<[a := innerNode o par (delete q ks) (delete (S q) cs)]>
            (<[al := leafNode o (Some a) (kvl ++ kvc) nxc]> (nodes T))))
      a.
Proof.
  intros Ho Hq HSq Hal Hac Hl Hc Hnol Hnor Hcap.
  assert (Hne : al ≠ ac).
  { intros ->. pose proof (NoDup_lookup _ _ _ _ Hnd Hq HSq). lia. }
  pose proof (lookup_lt_Some _ _ _ Hl) as Hvl.
  pose proof (lookup_lt_Some _ _ _ Hc) as Hvc.
  pose proof (lookup_lt_Some _ _ _ Ha) as Hva.
  pose proof (lookup_lt_Some _ _ _ HSq) as Hql.
  unfold rebalanceFromLeafNode. cbv zeta.
  rewrite Hc. cbn [mbind option_bind leafNode parent]. rewrite Ha.
  cbn [mbind option_bind].
  rewrite (position_in_parent o par ks cs (S q) ac Hnd HSq).
  cbn [mbind option_bind].
  rewrite (sibling_left o _ a par ks cs (S q) Ha) by lia.
  cbn [mbind option_bind]. rewrite Hq.
  assert (Hkn : keyNum (leafNode o (Some a) kvl nxl) = len kvl) by done.
  rewrite (canLend_Some T _ al _ Hl), Hkn.
  rewrite (bool_decide_eq_false_2 (len kvl > minKeyNum T)) by done.
  cbn [mbind option_bind].
  assert (Hkp : keyNum (innerNode o par ks cs : node Key Val) = len ks) by done.
  rewrite Hkp.
  rewrite (sibling_right o _ a par ks cs (S q) Ha Hlen).
  cbn [mbind option_bind].
  rewrite (canLend_no T _ _ Hnor).
  cbn [mbind option_bind].
  rewrite (copyFromRight_leafNode o _ al ac _ kvl nxl _ kvc nxc Hne Ho Hl Hc Hcap).
  cbn [mbind option_bind].
  rewrite decide_False by lia.
  rewrite (modify_Some _ a _ (innerNode o par ks cs)
             (innerNode o par (delete q ks) (delete (S q) cs))).
  - done.
  - by rewrite list_lookup_insert_ne.
  - apply deleteAt_innerNode; (done || lia).
Qed.

(** The first leaf takes in its right neighbour. *)
Lemma rebalanceFromLeafNode_mergeRight ac ar kvc kvr nxc nxr :
  1 ≤ o →
  cs !! 0%nat = Some ac → cs !! 1%nat = Some ar → a ≠ ac → a ≠ ar →
  nodes T !! ac = Some (leafNode o (Some a) kvc nxc) →
  nodes T !! ar = Some (leafNode o (Some a) kvr nxr) →
  ¬ len kvr > minKeyNum T →
  len kvc + len kvr ≤ o - 1 →
  rebalanceFromLeafNode T ac
  = rebalanceParentNode (fuel T)
      (setNodes T
         (<[a := innerNode o par (delete 0%nat ks) (delete 1%nat cs)]>
            (<[ac := leafNode o (Some a) (kvc ++ kvr) nxr]> (nodes T))))
      a.
Proof.
  intros Ho H0 H1 Hac Har Hc Hr Hnor Hcap.
  assert (Hne : ac ≠ ar).
  { intros ->. pose proof (NoDup_lookup _ _ _ _ Hnd H0 H1). lia. }
  pose proof (lookup_lt_Some _ _ _ Hr) as Hvr.
  pose proof (lookup_lt_Some _ _ _ Hc) as Hvc.
  pose proof (lookup_lt_Some _ _ _ Ha) as Hva.
  pose proof (lookup_lt_Some _ _ _ H1) as Hql.
  unfold rebalanceFromLeafNode. cbv zeta.
  rewrite Hc. cbn [mbind option_bind leafNode parent]. rewrite Ha.
  cbn [mbind option_bind].
  rewrite (position_in_parent o par ks cs 0 ac Hnd H0).
  cbn [mbind option_bind].
  rewrite (sibling_left o _ a par ks cs 0 Ha) by lia.
  cbn [mbind option_bind canLend].
  assert (Hkp : keyNum (innerNode o par ks cs : node Key Val) = len ks) by done.
  rewrite Hkp.
  rewrite (sibling_right o _ a par ks cs 0 Ha Hlen).
  cbn [mbind option_bind]. rewrite H1.
  assert (Hkn : keyNum (leafNode o (Some a) kvr nxr) = len kvr) by done.
  rewrite (canLend_Some T _ ar _ Hr), Hkn.
  rewrite (bool_decide_eq_false_2 (len kvr > minKeyNum T)) by done.
  cbn [mbind option_bind].
  rewrite (copyFromRight_leafNode o _ ac ar _ kvc nxc _ kvr nxr Hne Ho Hc Hr Hcap).
  cbn [mbind option_bind].
  rewrite decide_True by lia.
  rewrite (modify_Some _ a _ (innerNode o par ks cs)
             (innerNode o par (delete 0%nat ks) (delete 1%nat cs))).
  - done.
  - by rewrite list_lookup_insert_ne.
  - apply deleteAt_innerNode; (done || lia).
Qed.

End LeafSteps.


(** * Rebalancing in memory: internal nodes *)

Section CopyInner.
Context {Key Val : Type} {KO : KeyOps Key}.
Variable o : Z.
Implicit Types (h : list (node Key Val)) (cs : list addr) (ks : list Key)
  (par : option addr).

Lemma take_S_drop {A} (l : list A) (j cnt : nat) x :
  l !! j = Some x → take (S cnt) (drop j l) = x :: take cnt (drop (S j) l).
Proof. intros Hj. by rewrite (drop_S l x j Hj). Qed.

(** The loop of [copyFromRight] on internal nodes: keys and children move
    over one by one, and each child is told its new parent. *)
Lemma copyFromRight_loop_inner (cnt : nat) : ∀ (j : nat) h a from par1 acck accc par2 ks2 cs2,
  a ≠ from → a ∉ cs2 → from ∉ cs2 → (∀ x, x ∈ cs2 → (x < length h)%nat) →
  (j + cnt ≤ length ks2)%nat → (length ks2 < length cs2)%nat →
  h !! a = Some (innerNode o par1 acck accc) → length accc = length acck →
  h !! from = Some (innerNode o par2 ks2 cs2) →
  len acck + Z.of_nat cnt ≤ o - 1 →
  ∃ h', forUp cnt (Z.of_nat j)
          (λ i h, f ← h !! from; k ← idx (keys f) i; p ← idx (pointers f) i;
                  append h a k p) h
        = Some h'
      ∧ length h' = length h
      ∧ ∀ x : nat, h' !! x
          = if decide (x = a)
            then Some (innerNode o par1 (acck ++ take cnt (drop j ks2))
                         (accc ++ take cnt (drop j cs2)))
            else if decide (x ∈ take cnt (drop j cs2))
                 then (λ n, setParent n (Some a)) <$> h !! x
                 else h !! x.
Proof.
  induction cnt as [|cnt IH];
    intros j h a from par1 acck accc par2 ks2 cs2 Hne Ha2 Hf2 Hv Hj Hl2 Ha Hlacc Hf Hcap.
  - exists h. split_and!; [done..|]. intros x. rewrite !take_0, !app_nil_r.
    destruct (decide (x = a)) as [->|]; [done|].
    destruct (decide (x ∈ [])) as [Hx|]; [|done]. by apply elem_of_nil in Hx.
  - destruct (lookup_lt_is_Some_2 ks2 j) as [k Hk]; [lia|].
    destruct (lookup_lt_is_Some_2 cs2 j) as [c Hc]; [lia|].
    assert (Hcin : c ∈ cs2) by (by eapply list_elem_of_lookup_2).
    destruct (lookup_lt_is_Some_2 h c) as [cn Hcn]; [by apply Hv|].
    assert (Hac : a ≠ c) by (by intros ->).
    assert (Hfc : from ≠ c) by (by intros ->).
    cbn [forUp]. rewrite Hf. cbn [mbind option_bind].
    rewrite (idx_keys_innerNode o par2 ks2 cs2 j k) by done.
    cbn [mbind option_bind].
    rewrite (idx_pointers_innerNode o par2 ks2 cs2 j c) by done.
    cbn [mbind option_bind].
    change (Some (PNode c)) with (@nptr Val c).
    rewrite (append_innerNode o h a par1 acck accc k c cn Ha) by (done || lia).
    cbn [mbind option_bind].
    set (h1 := <[c := setParent cn (Some a)]>
                 (<[a := innerNode o par1 (acck ++ [k]) (accc ++ [c])]> h)).
    assert (Hl1 : length h1 = length h) by (unfold h1; by rewrite !length_insert).
    replace (Z.of_nat j + 1) with (Z.of_nat (S j)) by lia.
    destruct (IH (S j) h1 a from par1 (acck ++ [k]) (accc ++ [c]) par2 ks2 cs2)
      as (h' & E & Hl' & Hh'); try done.
    { intros x Hx. rewrite Hl1. by apply Hv. }
    { lia. }
    { unfold h1. rewrite list_lookup_insert_ne by done.
      apply list_lookup_insert_eq. by eapply lookup_lt_Some. }
    { rewrite !length_app. simpl. lia. }
    { unfold h1. by rewrite !list_lookup_insert_ne by done. }
    { unfold len in *. rewrite length_app. simpl. lia. }
    exists h'. split_and!; [done|lia|].
    intros x. rewrite Hh'.
    rewrite (take_S_drop ks2 j cnt k Hk), (take_S_drop cs2 j cnt c Hc).
    rewrite <- !(assoc_L (++)). simpl.
    destruct (decide (x = a)) as [->|Hxa]; [done|].
    unfold h1.
    destruct (decide (x = c)) as [->|Hxc].
    + rewrite (decide_True (P := c ∈ c :: _)) by left.
      rewrite list_lookup_insert_eq by (rewrite length_insert; by eapply lookup_lt_Some).
      rewrite Hcn. simpl. case_decide; [|done]. by rewrite setParent_setParent.
    + rewrite !list_lookup_insert_ne by done.
      destruct (decide (x ∈ take cnt (drop (S j) cs2))) as [Hin|Hnin].
      * by rewrite decide_True by (by right).
      * rewrite decide_False; [done|]. by intros [?|?]%elem_of_cons.
Qed.

(** [copyFromRight] on internal nodes, called when the node that takes
    the entries has just been given the separator as one more key. *)
Lemma copyFromRight_innerNode h a from par1 ks1 cs1 par2 ks2 cs2 :
  a ≠ from → a ∉ cs2 → from ∉ cs2 → (∀ x, x ∈ cs2 → (x < length h)%nat) →
  length cs2 = S (length ks2) →
  h !! a = Some (innerNode o par1 ks1 cs1) → length cs1 = length ks1 →
  h !! from = Some (innerNode o par2 ks2 cs2) →
  len ks1 + len ks2 ≤ o - 1 →
  ∃ h', copyFromRight h a from = Some h'
      ∧ length h' = length h
      ∧ ∀ x : nat, h' !! x
          = if decide (x = a)
            then Some (innerNode o par1 (ks1 ++ ks2) (cs1 ++ cs2))
            else if decide (x ∈ cs2)
                 then (λ n, setParent n (Some a)) <$> h !! x
                 else h !! x.
Proof.
  intros Hne Ha2 Hf2 Hv Hl2 Ha Hl1 Hf Hcap.
  destruct (copyFromRight_loop_inner (length ks2) 0 h a from par1 ks1 cs1 par2 ks2 cs2)
    as (h1 & E & Hlen1 & Hh1); try done; try lia.
  rewrite !drop_0 in Hh1. rewrite (take_ge ks2) in Hh1 by lia.
  destruct (lookup_lt_is_Some_2 cs2 (length ks2)) as [c Hc]; [lia|].
  assert (Hcs2 : cs2 = take (length ks2) cs2 ++ [c]).
  { rewrite <- (take_drop_middle cs2 (length ks2) c Hc) at 1.
    f_equal. rewrite (drop_ge cs2) by lia. done. }
  assert (Hcin : c ∈ cs2) by (by eapply list_elem_of_lookup_2).
  assert (Hac : a ≠ c) by (by intros ->).
  assert (Hfc : from ≠ c) by (by intros ->).
  set (csI := take (length ks2) cs2) in *.
  assert (HlI : length csI = length ks2) by (unfold csI; rewrite length_take; lia).
  unfold copyFromRight. rewrite Hf. cbn [mbind option_bind].
  assert (Hkn : keyNum (innerNode o par2 ks2 cs2 : node Key Val) = len ks2) by done.
  rewrite Hkn. unfold len at 1. rewrite Nat2Z.id.
  change 0 with (Z.of_nat 0). rewrite E. cbn [mbind option_bind].
  pose proof (Hh1 a) as H1a. rewrite decide_True in H1a by done.
  rewrite H1a. cbn [mbind option_bind].
  assert (Hleaf : leaf (innerNode o par1 (ks1 ++ ks2) (cs1 ++ csI) : node Key Val) = false)
    by done.
  rewrite Hleaf.
  pose proof (Hh1 from) as H1f. rewrite decide_False in H1f by done.
  assert (Hfn : from ∉ csI).
  { intros Hin. apply Hf2. unfold csI in Hin. by eapply in_take. }
  rewrite decide_False in H1f by done. rewrite H1f, Hf.
  cbn [mbind option_bind]. rewrite Hkn.
  rewrite (idx_pointers_innerNode o par2 ks2 cs2 (length ks2) c) by done.
  cbn [mbind option_bind].
  assert (Hkn1 : keyNum (innerNode o par1 (ks1 ++ ks2) (cs1 ++ csI) : node Key Val)
                 = len (ks1 ++ ks2)) by done.
  rewrite Hkn1.
  assert (Hps : pointers (innerNode o par1 (ks1 ++ ks2) (cs1 ++ csI) : node Key Val)
                = arr o None (@nptr Val <$> (cs1 ++ csI))) by done.
  rewrite Hps.
  change (Some (PNode c)) with (@nptr Val c).
  rewrite (upd_arr_push o None (@nptr Val <$> (cs1 ++ csI)) (nptr c)).
  2:{ rewrite length_fmap, length_app. unfold len in *. lia. }
  2:{ unfold len. rewrite length_fmap, !length_app. lia. }
  cbn [mbind option_bind asNode nptr].
  assert (Hc1 : h1 !! c = (if decide (c ∈ csI) then (λ n, setParent n (Some a)) <$> h !! c
                           else h !! c)).
  { rewrite Hh1. by rewrite decide_False by done. }
  destruct (lookup_lt_is_Some_2 h c) as [cn Hcn]; [by apply Hv|].
  set (cn1 := if decide (c ∈ csI) then setParent cn (Some a) else cn).
  assert (Hc1' : h1 !! c = Some cn1).
  { rewrite Hc1, Hcn. unfold cn1. by case_decide. }
  rewrite (modify_Some _ c _ cn1 (setParent cn1 (Some a))).
  2:{ by rewrite list_lookup_insert_ne. }
  2:{ done. }
  eexists. split_and!; [done|by rewrite !length_insert|].
  intros x. destruct (decide (x = a)) as [->|Hxa].
  - rewrite list_lookup_insert_ne by done.
    rewrite list_lookup_insert_eq by (rewrite Hlen1; by eapply lookup_lt_Some).
    f_equal. replace (cs1 ++ cs2) with ((cs1 ++ csI) ++ [c])
      by (rewrite <- (assoc_L (++)); by rewrite <- Hcs2).
    unfold setPointers, innerNode. cbn [leaf parent keys keyNum].
    by rewrite (fmap_app _ (cs1 ++ csI) [c]).
  - destruct (decide (x = c)) as [->|Hxc].
    + rewrite list_lookup_insert_eq
        by (rewrite length_insert, Hlen1; by eapply lookup_lt_Some).
      rewrite decide_True by done. rewrite Hcn. simpl. f_equal.
      unfold cn1. case_decide; [by rewrite setParent_setParent|done].
    + rewrite !list_lookup_insert_ne by done. rewrite Hh1.
      rewrite decide_False by done.
      destruct (decide (x ∈ csI)) as [Hin|Hnin].
      * rewrite decide_True; [done|]. unfold csI in Hin. by eapply in_take.
      * rewrite decide_False; [done|]. rewrite Hcs2.
        intros [?|Hx]%elem_of_app; [done|]. by apply list_elem_of_singleton in Hx.
Qed.

End CopyInner.

Section InnerSteps.
Context {Key Val : Type} {KO : KeyOps Key}.
Variable o : Z.
Variables (T : BPTree Key Val) (a : addr) (par : option addr) (ks : list Key)
  (cs : list addr).
Hypothesis Ha : nodes T !! a = Some (innerNode o par ks cs).
Hypothesis Hnd : NoDup cs.
Hypothesis Hlen : length cs = S (length ks).
Hypothesis Hks : len ks ≤ o - 1.
Hypothesis Hmin : 0 ≤ minKeyNum T.

Lemma pushKey_innerNode p ksx csx k :
  len ksx < o - 1 →
  (ks' ← upd (keys (innerNode o p ksx csx : node Key Val))
             (keyNum (innerNode o p ksx csx : node Key Val)) k;
   Some (mkNode (leaf (innerNode o p ksx csx : node Key Val))
           (parent (innerNode o p ksx csx : node Key Val)) ks'
           (keyNum (innerNode o p ksx csx : node Key Val) + 1)
           (pointers (innerNode o p ksx csx : node Key Val))))
  = Some (innerNode o p (ksx ++ [k]) csx : node Key Val).
Proof.
  intros Hl. unfold innerNode, len in *. cbn [keys keyNum leaf parent pointers].
  rewrite (upd_arr_push _ _ ksx) by lia.
  cbn [mbind option_bind]. do 2 f_equal. rewrite length_app. simpl. lia.
Qed.

(** A node with keys enough, below the root, is left alone. *)
Lemma rebalanceParentNode_same (f : nat) ac p ksc csc :
  nodes T !! ac = Some (innerNode o (Some p) ksc csc) →
  len ksc >= minKeyNum T →
  rebalanceParentNode (S f) T ac = Some T.
Proof.
  intros Hc Hok. cbn [rebalanceParentNode]. cbv zeta. rewrite Hc.
  cbn [mbind option_bind innerNode parent keyNum]. by rewrite decide_True.
Qed.

(** The root is left alone while it has a key. *)
Lemma rebalanceParentNode_root (f : nat) ac ksc csc :
  nodes T !! ac = Some (innerNode o None ksc csc) →
  len ksc ≠ 0 →
  rebalanceParentNode (S f) T ac = Some T.
Proof.
  intros Hc Hok. cbn [rebalanceParentNode]. cbv zeta. rewrite Hc.
  cbn [mbind option_bind innerNode parent keyNum]. by rewrite decide_False.
Qed.

(** A root without keys gives way to its only child. *)
Lemma rebalanceParentNode_collapse (f : nat) ac c cn :
  nodes T !! ac = Some (innerNode o None [] [c]) →
  nodes T !! c = Some cn → 1 ≤ o →
  rebalanceParentNode (S f) T ac
  = Some (mkTree (Some c) (leftmost T) (order T) (size T) (minKeyNum T)
            (<[c := setParent cn None]> (nodes T))).
Proof.
  intros Hc Hcn Ho. cbn [rebalanceParentNode]. cbv zeta. rewrite Hc.
  cbn [mbind option_bind innerNode parent keyNum]. rewrite decide_True by done.
  change (mkNode false None (arr (o - 1) nilKey []) (len []) (arr o None (nptr <$> [c])))
    with (innerNode o None [] [c] : node Key Val).
  rewrite (idx_pointers_innerNode o None [] [c] 0 c) by done.
  cbn [mbind option_bind asNode].
  by rewrite (modify_Some _ c _ cn (setParent cn None) Hcn).
Qed.

(** The left neighbour lends its last child; its last key goes up and the
    separator comes down. *)
Lemma rebalanceParentNode_borrowLeft (f q : nat) al ac ksl csl ksc csc sep klast x xn :
  cs !! q = Some al → cs !! S q = Some ac → a ≠ al → a ≠ ac →
  nodes T !! al = Some (innerNode o (Some a) ksl csl) →
  nodes T !! ac = Some (innerNode o (Some a) ksc csc) →
  length csl = S (length ksl) → length csc = S (length ksc) →
  ks !! q = Some sep →
  ¬ len ksc >= minKeyNum T → len ksl > minKeyNum T → len ksl ≤ o - 1 → len ksc < o - 1 →
  ksl !! pred (length ksl) = Some klast → csl !! length ksl = Some x →
  nodes T !! x = Some xn → x ≠ a → x ≠ al → x ≠ ac →
  rebalanceParentNode (S f) T ac
  = Some (setNodes T
            (<[al := innerNode o (Some a) (take (pred (length ksl)) ksl)
                       (take (length ksl) csl)]>
               (<[a := innerNode o par (<[q := klast]> ks) cs]>
                  (<[ac := innerNode o (Some a) (sep :: ksc) (x :: csc)]>
                     (<[x := setParent xn (Some ac)]> (nodes T)))))).
Proof.
  intros Hq HSq Hal Hac Hl Hc Hll Hlc Hsep Hlow Hlend Hlcap Hccap Hkl Hx Hxn Hxa Hxl Hxc.
  assert (Hne : al ≠ ac).
  { intros ->. pose proof (NoDup_lookup _ _ _ _ Hnd Hq HSq). lia. }
  pose proof (lookup_lt_Some _ _ _ Hl) as Hvl.
  pose proof (lookup_lt_Some _ _ _ Hc) as Hvc.
  pose proof (lookup_lt_Some _ _ _ Ha) as Hva.
  pose proof (lookup_lt_Some _ _ _ Hxn) as Hvx.
  pose proof (lookup_lt_Some _ _ _ HSq) as Hql.
  cbn [rebalanceParentNode]. cbv zeta. rewrite Hc.
  cbn [mbind option_bind].
  assert (Hpc : parent (innerNode o (Some a) ksc csc : node Key Val) = Some a) by done.
  assert (Hkc : keyNum (innerNode o (Some a) ksc csc : node Key Val) = len ksc) by done.
  rewrite Hpc, Hkc. rewrite decide_False by done.
  rewrite Ha. cbn [mbind option_bind].
  rewrite (position_in_parent o par ks cs (S q) ac Hnd HSq).
  cbn [mbind option_bind].
  rewrite (sibling_left o _ a par ks cs (S q) Ha) by lia.
  cbn [mbind option_bind]. rewrite Hq.
  assert (Hkn : keyNum (innerNode o (Some a) ksl csl : node Key Val) = len ksl) by done.
  rewrite (canLend_Some T _ al _ Hl), Hkn.
  rewrite (bool_decide_eq_true_2 (len ksl > minKeyNum T)) by done.
  cbn [mbind option_bind].
  rewrite decide_False by lia.
  rewrite (idx_keys_innerNode o par ks cs q sep) by (done || lia).
  cbn [mbind option_bind].
  rewrite Hl. cbn [mbind option_bind]. rewrite Hkn.
  rewrite (idx_pointers_innerNode o _ ksl csl (length ksl) x) by done.
  cbn [mbind option_bind asNode].
  rewrite (modify_Some _ x _ xn (setParent xn (Some ac)) Hxn) by done.
  cbn [mbind option_bind].
  rewrite (modify_Some _ ac _ (innerNode o (Some a) ksc csc)
             (innerNode o (Some a) (sep :: ksc) (x :: csc))).
  2:{ by rewrite list_lookup_insert_ne. }
  2:{ change (Some (PNode x)) with (@nptr Val x).
      apply (insertAt_innerNode o _ ksc csc 0 0); (done || simpl; lia). }
  cbn [mbind option_bind].
  rewrite !list_lookup_insert_ne by done. rewrite Hl.
  cbn [mbind option_bind]. rewrite Hkn.
  rewrite (idx_keys_innerNode o _ ksl csl (pred (length ksl)) klast)
    by (done || unfold len in *; lia).
  cbn [mbind option_bind].
  rewrite (modify_Some _ a _ (innerNode o par ks cs)
             (innerNode o par (<[q := klast]> ks) cs)).
  2:{ by rewrite !list_lookup_insert_ne. }
  2:{ apply setKeys_innerNode; [lia|done|lia]. }
  cbn [mbind option_bind].
  rewrite (modify_Some _ al _ (innerNode o (Some a) ksl csl)
             (innerNode o (Some a) (take (pred (length ksl)) ksl) (take (length ksl) csl))).
  - done.
  - by rewrite !list_lookup_insert_ne.
  - rewrite Hkn. rewrite <- delete_last.
    replace (take (length ksl) csl) with (delete (length ksl) csl).
    2:{ replace (length ksl) with (pred (length csl)) by lia. apply delete_last. }
    apply deleteAt_innerNode; unfold len in *; lia.
Qed.

(** The right neighbour lends its first child. *)
Lemma rebalanceParentNode_borrowRight (f i : nat) ac ar ksc csc k0 ksr x csr sep xn :
  cs !! i = Some ac → cs !! S i = Some ar → a ≠ ac → a ≠ ar →
  nodes T !! ac = Some (innerNode o (Some a) ksc csc) →
  nodes T !! ar = Some (innerNode o (Some a) (k0 :: ksr) (x :: csr)) →
  length csc = S (length ksc) → length csr = S (length ksr) →
  ks !! i = Some sep →
  (∀ y, match i with O => None | S q => cs !! q end = Some y →
        ∃ sn, nodes T !! y = Some sn ∧ ¬ keyNum sn > minKeyNum T) →
  ¬ len ksc >= minKeyNum T → len (k0 :: ksr) > minKeyNum T →
  len (k0 :: ksr) ≤ o - 1 → len ksc < o - 1 →
  nodes T !! x = Some xn → x ≠ a → x ≠ ar → x ≠ ac →
  rebalanceParentNode (S f) T ac
  = Some (setNodes T
            (<[ar := innerNode o (Some a) ksr csr]>
               (<[a := innerNode o par (<[i := k0]> ks) cs]>
                  (<[x := setParent xn (Some ac)]>
                     (<[ac := innerNode o (Some a) (ksc ++ [sep]) (csc ++ [x])]>
                        (nodes T)))))).
Proof.
  intros Hi HSi Hac Har Hc Hr Hlc Hlr Hsep Hleft Hlow Hlend Hrcap Hccap Hxn Hxa Hxr Hxc.
  assert (Hne : ac ≠ ar).
  { intros ->. pose proof (NoDup_lookup _ _ _ _ Hnd Hi HSi). lia. }
  pose proof (lookup_lt_Some _ _ _ Hr) as Hvr.
  pose proof (lookup_lt_Some _ _ _ Hc) as Hvc.
  pose proof (lookup_lt_Some _ _ _ Ha) as Hva.
  pose proof (lookup_lt_Some _ _ _ Hxn) as Hvx.
  pose proof (lookup_lt_Some _ _ _ HSi) as Hil.
  cbn [rebalanceParentNode]. cbv zeta. rewrite Hc.
  cbn [mbind option_bind].
  assert (Hpc : parent (innerNode o (Some a) ksc csc : node Key Val) = Some a) by done.
  assert (Hkc : keyNum (innerNode o (Some a) ksc csc : node Key Val) = len ksc) by done.
  rewrite Hpc, Hkc. rewrite decide_False by done.
  rewrite Ha. cbn [mbind option_bind].
  rewrite (position_in_parent o par ks cs i ac Hnd Hi).
  cbn [mbind option_bind].
  rewrite (sibling_left o _ a par ks cs i Ha) by lia.
  cbn [mbind option_bind].
  rewrite (canLend_no T _ _ Hleft).
  cbn [mbind option_bind].
  assert (Hkp : keyNum (innerNode o par ks cs : node Key Val) = len ks) by done.
  rewrite Hkp.
  rewrite (sibling_right o _ a par ks cs i Ha Hlen).
  cbn [mbind option_bind]. rewrite HSi.
  assert (Hkn : keyNum (innerNode o (Some a) (k0 :: ksr) (x :: csr) : node Key Val)
                = len (k0 :: ksr)) by done.
  rewrite (canLend_Some T _ ar _ Hr), Hkn.
  rewrite (bool_decide_eq_true_2 (len (k0 :: ksr) > minKeyNum T)) by done.
  cbn [mbind option_bind].
  rewrite (idx_keys_innerNode o par ks cs i sep) by (done || lia).
  cbn [mbind option_bind].
  rewrite Hr. cbn [mbind option_bind].
  rewrite (idx_pointers_innerNode o _ (k0 :: ksr) (x :: csr) 0 x) by done.
  cbn [mbind option_bind].
  change (Some (PNode x)) with (@nptr Val x).
  rewrite (append_innerNode o _ ac (Some a) ksc csc sep x xn Hc) by (done || lia).
  cbn [mbind option_bind].
  rewrite !list_lookup_insert_ne by done. rewrite Hr.
  cbn [mbind option_bind].
  rewrite (idx_keys_innerNode o _ (k0 :: ksr) (x :: csr) 0 k0) by done.
  cbn [mbind option_bind].
  rewrite (modify_Some _ a _ (innerNode o par ks cs)
             (innerNode o par (<[i := k0]> ks) cs)).
  2:{ by rewrite !list_lookup_insert_ne. }
  2:{ apply setKeys_innerNode; [lia|done|lia]. }
  cbn [mbind option_bind].
  rewrite (modify_Some _ ar _ (innerNode o (Some a) (k0 :: ksr) (x :: csr))
             (innerNode o (Some a) ksr csr)).
  - done.
  - by rewrite !list_lookup_insert_ne.
  - apply (deleteAt_innerNode o _ (k0 :: ksr) (x :: csr) 0 0); (done || simpl; lia).
Qed.

(** Neither neighbour can lend: the node goes into its left neighbour,
    with the separator between them. *)
Lemma rebalanceParentNode_mergeLeft (f q : nat) al ac ksl csl ksc csc sep :
  cs !! q = Some al → cs !! S q = Some ac → a ≠ al → a ≠ ac →
  nodes T !! al = Some (innerNode o (Some a) ksl csl) →
  nodes T !! ac = Some (innerNode o (Some a) ksc csc) →
  length csl = S (length ksl) → length csc = S (length ksc) →
  ks !! q = Some sep →
  ¬ len ksc >= minKeyNum T → ¬ len ksl > minKeyNum T →
  (∀ y, cs !! S (S q) = Some y →
        ∃ sn, nodes T !! y = Some sn ∧ ¬ keyNum sn > minKeyNum T) →
  len ksl + 1 + len ksc ≤ o - 1 →
  a ∉ csc → al ∉ csc → ac ∉ csc → (∀ y, y ∈ csc → (y < length (nodes T))%nat) →
  ∃ h', rebalanceParentNode (S f) T ac = rebalanceParentNode f (setNodes T h') a
      ∧ length h' = length (nodes T)
      ∧ ∀ y : nat, h' !! y
          = if decide (y = a)
            then Some (innerNode o par (delete q ks) (delete (S q) cs))
            else if decide (y = al)
                 then Some (innerNode o (Some a) (ksl ++ sep :: ksc) (csl ++ csc))
                 else if decide (y ∈ csc)
                      then (λ n, setParent n (Some al)) <$> nodes T !! y
                      else nodes T !! y.
Proof.
  intros Hq HSq Hal Hac Hl Hc Hll Hlc Hsep Hlow Hnol Hnor Hcap Hain Hlin Hcin Hv.
  assert (Hne : al ≠ ac).
  { intros ->. pose proof (NoDup_lookup _ _ _ _ Hnd Hq HSq). lia. }
  pose proof (lookup_lt_Some _ _ _ Hl) as Hvl.
  pose proof (lookup_lt_Some _ _ _ Hc) as Hvc.
  pose proof (lookup_lt_Some _ _ _ Ha) as Hva.
  pose proof (lookup_lt_Some _ _ _ HSq) as Hql.
  set (h1 := <[al := innerNode o (Some a) (ksl ++ [sep]) csl]> (nodes T)).
  destruct (copyFromRight_innerNode o h1 al ac (Some a) (ksl ++ [sep]) csl (Some a) ksc csc)
    as (h2 & E2 & Hl2 & Hh2); try done.
  { intros y Hy. unfold h1. rewrite length_insert. by apply Hv. }
  { unfold h1. by apply list_lookup_insert_eq. }
  { rewrite length_app. simpl. lia. }
  { unfold h1. by rewrite list_lookup_insert_ne. }
  { unfold len in *. rewrite length_app. simpl. lia. }
  assert (Hl1 : length h1 = length (nodes T)) by (unfold h1; by rewrite length_insert).
  exists (<[a := innerNode o par (delete q ks) (delete (S q) cs)]> h2).
  split_and!.
  - cbn [rebalanceParentNode]. cbv zeta. rewrite Hc.
    cbn [mbind option_bind].
    assert (Hpc : parent (innerNode o (Some a) ksc csc : node Key Val) = Some a) by done.
    assert (Hkc : keyNum (innerNode o (Some a) ksc csc : node Key Val) = len ksc) by done.
    rewrite Hpc, Hkc. rewrite decide_False by done.
    rewrite Ha. cbn [mbind option_bind].
    rewrite (position_in_parent o par ks cs (S q) ac Hnd HSq).
    cbn [mbind option_bind].
    rewrite (sibling_left o _ a par ks cs (S q) Ha) by lia.
    cbn [mbind option_bind]. rewrite Hq.
    assert (Hkn : keyNum (innerNode o (Some a) ksl csl : node Key Val) = len ksl) by done.
    rewrite (canLend_Some T _ al _ Hl), Hkn.
    rewrite (bool_decide_eq_false_2 (len ksl > minKeyNum T)) by done.
    cbn [mbind option_bind].
    assert (Hkp : keyNum (innerNode o par ks cs : node Key Val) = len ks) by done.
    rewrite Hkp.
    rewrite (sibling_right o _ a par ks cs (S q) Ha Hlen).
    cbn [mbind option_bind].
    rewrite (canLend_no T _ _ Hnor).
    cbn [mbind option_bind].
    rewrite decide_False by lia.
    rewrite (idx_keys_innerNode o par ks cs q sep) by (done || lia).
    cbn [mbind option_bind].
    rewrite (modify_Some _ al _ (innerNode o (Some a) ksl csl)
               (innerNode o (Some a) (ksl ++ [sep]) csl) Hl)
      by (apply pushKey_innerNode; unfold len in *; lia).
    cbn [mbind option_bind]. fold h1. rewrite E2.
    cbn [mbind option_bind].
    rewrite (modify_Some _ a _ (innerNode o par ks cs)
               (innerNode o par (delete q ks) (delete (S q) cs))).
    + done.
    + rewrite Hh2. rewrite decide_False by done. rewrite decide_False by done.
      unfold h1. by rewrite list_lookup_insert_ne.
    + apply deleteAt_innerNode; (done || lia).
  - by rewrite length_insert, Hl2.
  - intros y. destruct (decide (y = a)) as [->|Hya].
    + apply list_lookup_insert_eq. by rewrite Hl2, Hl1.
    + rewrite list_lookup_insert_ne by done. rewrite Hh2.
      destruct (decide (y = al)) as [->|Hyl].
      * by rewrite <- (assoc_L (++)).
      * unfold h1. by rewrite list_lookup_insert_ne by done.
Qed.

(** The first child takes in its right neighbour. *)
Lemma rebalanceParentNode_mergeRight (f : nat) ac ar ksc csc ksr csr sep :
  cs !! 0%nat = Some ac → cs !! 1%nat = Some ar → a ≠ ac → a ≠ ar →
  nodes T !! ac = Some (innerNode o (Some a) ksc csc) →
  nodes T !! ar = Some (innerNode o (Some a) ksr csr) →
  length csc = S (length ksc) → length csr = S (length ksr) →
  ks !! 0%nat = Some sep →
  ¬ len ksc >= minKeyNum T → ¬ len ksr > minKeyNum T →
  len ksc + 1 + len ksr ≤ o - 1 →
  a ∉ csr → ac ∉ csr → ar ∉ csr → (∀ y, y ∈ csr → (y < length (nodes T))%nat) →
  ∃ h', rebalanceParentNode (S f) T ac = rebalanceParentNode f (setNodes T h') a
      ∧ length h' = length (nodes T)
      ∧ ∀ y : nat, h' !! y
          = if decide (y = a)
            then Some (innerNode o par (delete 0%nat ks) (delete 1%nat cs))
            else if decide (y = ac)
                 then Some (innerNode o (Some a) (ksc ++ sep :: ksr) (csc ++ csr))
                 else if decide (y ∈ csr)
                      then (λ n, setParent n (Some ac)) <$> nodes T !! y
                      else nodes T !! y.
Proof.
  intros H0 H1 Hac Har Hc Hr Hlc Hlr Hsep Hlow Hnor Hcap Hain Hcin Hrin Hv.
  assert (Hne : ac ≠ ar).
  { intros ->. pose proof (NoDup_lookup _ _ _ _ Hnd H0 H1). lia. }
  pose proof (lookup_lt_Some _ _ _ Hr) as Hvr.
  pose proof (lookup_lt_Some _ _ _ Hc) as Hvc.
  pose proof (lookup_lt_Some _ _ _ Ha) as Hva.
  pose proof (lookup_lt_Some _ _ _ H1) as Hql.
  set (h1 := <[ac := innerNode o (Some a) (ksc ++ [sep]) csc]> (nodes T)).
  destruct (copyFromRight_innerNode o h1 ac ar (Some a) (ksc ++ [sep]) csc (Some a) ksr csr)
    as (h2 & E2 & Hl2 & Hh2); try done.
  { intros y Hy. unfold h1. rewrite length_insert. by apply Hv. }
  { unfold h1. by apply list_lookup_insert_eq. }
  { rewrite length_app. simpl. lia. }
  { unfold h1. by rewrite list_lookup_insert_ne. }
  { unfold len in *. rewrite length_app. simpl. lia. }
  assert (Hl1 : length h1 = length (nodes T)) by (unfold h1; by rewrite length_insert).
  exists (<[a := innerNode o par (delete 0%nat ks) (delete 1%nat cs)]> h2).
  split_and!.
  - cbn [rebalanceParentNode]. cbv zeta. rewrite Hc.
    cbn [mbind option_bind].
    assert (Hpc : parent (innerNode o (Some a) ksc csc : node Key Val) = Some a) by done.
    assert (Hkc : keyNum (innerNode o (Some a) ksc csc : node Key Val) = len ksc) by done.
    rewrite Hpc, Hkc. rewrite decide_False by done.
    rewrite Ha. cbn [mbind option_bind].
    rewrite (position_in_parent o par ks cs 0 ac Hnd H0).
    cbn [mbind option_bind].
    rewrite (sibling_left o _ a par ks cs 0 Ha) by lia.
    cbn [mbind option_bind canLend].
    assert (Hkp : keyNum (innerNode o par ks cs : node Key Val) = len ks) by done.
    rewrite Hkp.
    rewrite (sibling_right o _ a par ks cs 0 Ha Hlen).
    cbn [mbind option_bind]. rewrite H1.
    assert (Hkn : keyNum (innerNode o (Some a) ksr csr : node Key Val) = len ksr) by done.
    rewrite (canLend_Some T _ ar _ Hr), Hkn.
    rewrite (bool_decide_eq_false_2 (len ksr > minKeyNum T)) by done.
    cbn [mbind option_bind].
    rewrite decide_True by lia.
    rewrite (idx_keys_innerNode o par ks cs 0 sep) by (done || lia).
    cbn [mbind option_bind].
    rewrite (modify_Some _ ac _ (innerNode o (Some a) ksc csc)
               (innerNode o (Some a) (ksc ++ [sep]) csc) Hc)
      by (apply pushKey_innerNode; unfold len in *; lia).
    cbn [mbind option_bind]. fold h1. rewrite E2.
    cbn [mbind option_bind].
    rewrite (modify_Some _ a _ (innerNode o par ks cs)
               (innerNode o par (delete 0%nat ks) (delete 1%nat cs))).
    + done.
    + rewrite Hh2. rewrite decide_False by done. rewrite decide_False by done.
      unfold h1. by rewrite list_lookup_insert_ne.
    + apply deleteAt_innerNode; (done || lia).
  - by rewrite length_insert, Hl2.
  - intros y. destruct (decide (y = a)) as [->|Hya].
    + apply list_lookup_insert_eq. by rewrite Hl2, Hl1.
    + rewrite list_lookup_insert_ne by done. rewrite Hh2.
      destruct (decide (y = ac)) as [->|Hyc].
      * by rewrite <- (assoc_L (++)).
      * unfold h1. by rewrite list_lookup_insert_ne by done.
Qed.

End InnerSteps.


(** Side conditions on instances are decided by computation. *)
Ltac by_decide := apply (bool_decide_unpack _); vm_compute; exact I.
Ltac ex_side :=
  first [ reflexivity | done | lia | (simpl; lia)
        | (vm_compute; first [reflexivity | lia | done]) ].

(** * Construction *)

(** X1.  [New] with the option [Order order] fails when [order] is below 3;
    otherwise it returns a tree without nodes, of size 0, of that order,
    whose minimal key count is [ceil(order, 2) - 1].  Without options the
    order is 4 and the minimal key count 1. *)
Theorem New_Order_checked {Key Val : Type} (order : Z) :
  New (Key := Key) (Val := Val) [Order order]
  = (if decide (order < 3) then None
     else Some (mkTree None None order 0 (ceil order 2 - 1) []))
  ∧ New (Key := Key) (Val := Val) [] = Some (mkTree None None 4 0 1 []).
Proof.
  split; [|reflexivity]. unfold New, Order. simpl.
  destruct (decide (order < 3)); reflexivity.
Qed.

(** X2.  For [x >= 0] and [y > 0], [ceil(x, y)] is the least integer [c]
    with [c * y >= x]. *)
Theorem ceil_least (x y : Z) :
  0 ≤ x → 0 < y → x ≤ ceil x y * y ∧ (ceil x y - 1) * y < x.
Proof.
  intros Hx Hy. unfold ceil.
  pose proof (Z.quot_rem' x y) as E.
  pose proof (Z.rem_bound_pos x y Hx Hy) as B.
  destruct (decide (Z.rem x y = 0)); nia.
Qed.

Lemma ceil_least_witness : 7 ≤ ceil 7 2 * 2 ∧ (ceil 7 2 - 1) * 2 < 7.
Proof. apply (ceil_least 7 2); lia. Defined.

(** X3.  On byte strings [less] is a strict total order and [compare]
    returns 0 exactly on equal strings: no string is below itself, [less]
    is transitive, and of two different strings one is below the other. *)
Theorem less_bytes_strict_total (x y z : list byte) :
  less x x = false
  ∧ (less x y = true ∧ less y z = true → less x z = true)
  ∧ (less x y = true ∨ x = y ∨ less y x = true)
  ∧ (compare x y = 0 ↔ x = y).
Proof.
  pose proof bytesKey_laws as KL. split_and!.
  - apply less_false, kle_refl.
  - rewrite !less_klt. intros [??]. by eapply klt_trans.
  - rewrite !less_klt. apply klt_total.
  - apply compare_eq.
Qed.

(** X4.  [copyBytes] returns a slice with the bytes of its argument. *)
Theorem copyBytes_same_bytes (s : list byte) :
  copyBytes s = s ∧ len (copyBytes s) = len s.
Proof.
  assert (H : copyBytes s = s) by apply copy_replicate. by rewrite H.
Qed.

(** * Node methods *)

(** X5.  [setNext] writes the last pointer slot and [next] reads it back;
    keys, key count, parent and the other pointer slots are unchanged.  On
    a node without pointer slots both panic. *)
Theorem next_setNext {Key Val : Type} (n : node Key Val)
    (p : option (pointer Val)) :
  (len (pointers n) = 0 → setNext n p = None ∧ next n = None)
  ∧ (0 < len (pointers n) →
     ∃ n', setNext n p = Some n'
         ∧ next n' = Some p
         ∧ keys n' = keys n ∧ keyNum n' = keyNum n
         ∧ parent n' = parent n ∧ leaf n' = leaf n
         ∧ len (pointers n') = len (pointers n)
         ∧ ∀ i, 0 ≤ i < len (pointers n) - 1 →
             idx (pointers n') i = idx (pointers n) i).
Proof.
  split.
  - intros H0. unfold setNext, next, upd, idx. rewrite H0. done.
  - intros Hpos. unfold setNext, next.
    rewrite upd_Some by lia.
    eexists. split; [reflexivity|]. cbn [setPointers pointers keys keyNum parent leaf].
    assert (Hl : len (<[Z.to_nat (len (pointers n) - 1) := p]> (pointers n))
                 = len (pointers n)) by (unfold len; by rewrite length_insert).
    rewrite Hl. split_and!; try done.
    + unfold idx. rewrite decide_True by lia.
      apply list_lookup_insert_eq. unfold len in *. lia.
    + intros i Hi. unfold idx. case_decide; [|done].
      apply list_lookup_insert_ne. lia.
Qed.

(** * Insertion into internal nodes *)

(** X6.  [putIntoParent] on a parent with room, called with the separator
    [k], the child [l] that the parent holds at the position of [k], and the
    new node [r]: the key goes to the first position whose key is above
    [k], [r] becomes the child right after [l], later keys and children move
    one slot right, and [l] and [r] get the parent as their parent.  Nothing
    else in memory changes. *)
Theorem putIntoParent_room {Key Val : Type} {KO : KeyOps Key} (o : Z)
    (T : BPTree Key Val) (p : addr) (par : option addr) (ks : list Key)
    (cs : list addr) (k : Key) (l r : addr) (ln rn : node Key Val) :
  order T = o →
  nodes T !! p = Some (innerNode o par ks cs) →
  len ks < o - 1 → length cs = S (length ks) →
  cs !! cpos k ks = Some l →
  nodes T !! l = Some ln → nodes T !! r = Some rn →
  p ≠ l → p ≠ r → l ≠ r →
  putIntoParent T p k l r
  = Some (setNodes T
            (<[r := setParent rn (Some p)]>
               (<[l := setParent ln (Some p)]>
                  (<[p := innerNode o par (insertAtL (cpos k ks) k ks)
                            (insertAtL (S (cpos k ks)) r cs)]> (nodes T))))).
Proof. apply putIntoParent_spec. Qed.

Lemma putIntoParent_room_witness :
  putIntoParent (exTree 2 exHeapSplit) 2%nat ["003"%byte] 0%nat 3%nat
  = Some (exTree 2
            [exLeaf (Some 2%nat) ["001"; "002"]%byte (Some 3%nat);
             exLeaf (Some 2%nat) ["005"; "006"]%byte None;
             exInner None ["003"; "005"]%byte [0; 3; 1]%nat;
             exLeaf (Some 2%nat) ["003"; "004"]%byte (Some 1%nat)]).
Proof.
  etrans.
  - apply (putIntoParent_room 4 (exTree 2 exHeapSplit) 2%nat None [["005"%byte]]
             [0; 1]%nat ["003"%byte] 0%nat 3%nat
             (exLeaf None ["001"; "002"]%byte (Some 3%nat))
             (exLeaf None ["003"; "004"]%byte (Some 1%nat)));
      first [reflexivity | lia | (vm_compute; lia) | done].
  - reflexivity.
Defined.

(** X7.  [putIntoNewRoot] allocates an internal node with the single key
    [k] and the children [l] and [r], makes it the root and the parent of
    both; the leftmost reference, the size and every other node are
    unchanged. *)
Theorem putIntoNewRoot_links {Key Val : Type} {KO : KeyOps Key} (o : Z)
    (T : BPTree Key Val) (k : Key) (l r : addr) (ln rn : node Key Val) :
  order T = o → 3 ≤ o →
  nodes T !! l = Some ln → nodes T !! r = Some rn → l ≠ r →
  putIntoNewRoot T k l r
  = Some (mkTree (Some (length (nodes T))) (leftmost T) (order T) (size T)
            (minKeyNum T)
            (<[r := setParent rn (Some (length (nodes T)))]>
               (<[l := setParent ln (Some (length (nodes T)))]> (nodes T))
             ++ [innerNode o None [k] [l; r]])).
Proof. apply putIntoNewRoot_spec. Qed.

Lemma putIntoNewRoot_links_witness :
  let h := [exLeaf None ["001"; "002"]%byte (Some 1%nat);
            exLeaf None ["003"; "004"]%byte None] in
  putIntoNewRoot (exTree 0 h) ["003"%byte] 0%nat 1%nat
  = Some (mkTree (Some 2%nat) (Some 0%nat) 4 2 1
            [exLeaf (Some 2%nat) ["001"; "002"]%byte (Some 1%nat);
             exLeaf (Some 2%nat) ["003"; "004"]%byte None;
             exInner None ["003"%byte] [0; 1]%nat]).
Proof.
  intros h. etrans.
  - apply (putIntoNewRoot_links 4 (exTree 0 h) ["003"%byte] 0%nat 1%nat
             (exLeaf None ["001"; "002"]%byte (Some 1%nat))
             (exLeaf None ["003"; "004"]%byte None));
      first [reflexivity | lia | done].
  - reflexivity.
Defined.

(** X8.  [putIntoParentAndSplit] on a full parent, called with the
    separator [k], the child [l] at the position of [k] and the new node
    [r].  With [ks'] and [cs'] the keys and children after the insertion
    and [m = ceil((order - 1) / 2)]: the parent keeps the first [m] keys and
    [m + 1] children, a new node allocated at the end of memory gets the
    keys and children after position [m], the key at position [m] is
    returned for the level above and stays in neither half, every child
    refers to the half that holds it as its parent, the new node has no
    parent yet, and no other node changes. *)
Theorem putIntoParentAndSplit_halves {Key Val : Type} {KO : KeyOps Key} (o : Z)
    (T : BPTree Key Val) (p : addr) (par : option addr) (ks : list Key)
    (cs : list addr) (k : Key) (l r : addr) :
  order T = o → 3 ≤ o →
  nodes T !! p = Some (innerNode o par ks cs) →
  len ks = o - 1 → length cs = S (length ks) →
  cs !! cpos k ks = Some l →
  let i := cpos k ks in
  let ks' := insertAtL i k ks in
  let cs' := insertAtL (S i) r cs in
  let fr := length (nodes T) in
  NoDup cs' → p ∉ cs' → (∀ x, x ∈ cs' → (x < fr)%nat) →
  ∃ h', putIntoParentAndSplit T p k l r
        = Some (setNodes T h', default nilKey (ks' !! middle o), p, fr)
      ∧ length h' = S fr
      ∧ h' !! p = Some (innerNode o par (take (middle o) ks') (take (S (middle o)) cs'))
      ∧ h' !! fr = Some (innerNode o None (drop (S (middle o)) ks')
                           (drop (S (middle o)) cs'))
      ∧ (∀ x, x ∈ take (S (middle o)) cs' →
              h' !! x = (λ n, setParent n (Some p)) <$> nodes T !! x)
      ∧ (∀ x, x ∈ drop (S (middle o)) cs' →
              h' !! x = (λ n, setParent n (Some fr)) <$> nodes T !! x)
      ∧ (∀ x, x ≠ p → x ≠ fr → x ∉ cs' → h' !! x = nodes T !! x).
Proof. apply putIntoParentAndSplit_spec. Qed.

Lemma putIntoParentAndSplit_halves_witness :
  let T := mkTree (Some 4%nat) (Some 0%nat) 4 11 1 exHeapFull in
  ∃ h', putIntoParentAndSplit T 4%nat ["005"%byte] 1%nat 5%nat
        = Some (setNodes T h', ["007"%byte], 4%nat, 6%nat)
      ∧ h' !! 4%nat = Some (exInner None ["003"; "005"]%byte [0; 1; 5]%nat)
      ∧ h' !! 6%nat = Some (exInner None ["009"%byte] [2; 3]%nat)
      ∧ h' !! 5%nat = Some (exLeaf (Some 4%nat) ["005"; "006"]%byte (Some 2%nat))
      ∧ h' !! 2%nat = Some (exLeaf (Some 6%nat) ["007"; "008"]%byte (Some 3%nat)).
Proof.
  intros T.
  destruct (putIntoParentAndSplit_halves 4 T 4%nat None
              [["003"]; ["007"]; ["009"]]%byte [0; 1; 2; 3]%nat ["005"%byte]
              1%nat 5%nat)
    as (h' & H1 & _ & H3 & H4 & H5 & H6 & _);
    [reflexivity|lia|reflexivity|reflexivity|reflexivity|reflexivity
    |by_decide|by_decide| |].
  { apply list.Forall_forall. by_decide. }
  exists h'. split_and!.
  - exact H1.
  - exact H3.
  - exact H4.
  - rewrite (H5 5%nat); [reflexivity|by_decide].
  - rewrite (H6 2%nat); [reflexivity|by_decide].
Defined.

(** * Editing a node *)

(** X9.  [insertAt] on a node with room.  On a leaf, with the same
    position for the key and the value: the entry is inserted at that
    position, the entries from there on move one slot right, the key count
    grows by one and the next-leaf slot is kept.  On an internal node the
    key is inserted at the key position and the child at the pointer
    position, independently. *)
Theorem insertAt_shifts {Key Val : Type} {KO : KeyOps Key} (o : Z)
    (par nxt : option addr) (kvs : list (Key * Val)) (p : nat) (k : Key) (v : Val)
    (ks : list Key) (cs : list addr) (kp pp : nat) (c : addr) :
  ((p ≤ length kvs)%nat → len kvs < o - 1 →
   insertAt (leafNode o par kvs nxt) (Z.of_nat p) k (Z.of_nat p) (Some (PValue v))
   = Some (leafNode o par (insertAtL p (k, v) kvs) nxt))
  ∧ ((kp ≤ length ks)%nat → (pp ≤ length cs)%nat →
     len ks < o - 1 → length cs = S (length ks) →
     insertAt (innerNode o par ks cs : node Key Val) (Z.of_nat kp) k (Z.of_nat pp)
       (Some (PNode c))
     = Some (innerNode o par (insertAtL kp k ks) (insertAtL pp c cs))).
Proof.
  split.
  - intros. by apply insertAt_leafNode.
  - intros. by apply insertAt_innerNode.
Qed.

Lemma insertAt_shifts_witness :
  insertAt (exLeaf None ["001"; "005"]%byte (Some 7%nat)) 1 ["003"%byte] 1
    (Some (PValue ["003"%byte]))
  = Some (exLeaf None ["001"; "003"; "005"]%byte (Some 7%nat))
  ∧ insertAt (exInner None ["005"; "007"]%byte [0; 1; 2]%nat) 0 ["003"%byte] 0
      (Some (PNode 9%nat))
    = Some (exInner None ["003"; "005"; "007"]%byte [9; 0; 1; 2]%nat).
Proof.
  pose proof (insertAt_shifts 4 None (Some 7%nat) (exEntries ["001"; "005"]%byte)
                1%nat ["003"%byte] ["003"%byte]
                [["005"]; ["007"]]%byte [0; 1; 2]%nat 0%nat 0%nat 9%nat) as [H1 H2].
  split.
  - etrans; [apply H1; ex_side|reflexivity].
  - etrans; [apply H2; ex_side|reflexivity].
Defined.

(** X10.  [deleteAt] removes the key at the key position and the pointer
    at the pointer position, moves the later keys and pointers one slot
    left, clears the freed last slots and lowers the key count by one; on a
    leaf the next-leaf slot is kept. *)
Theorem deleteAt_shifts {Key Val : Type} {KO : KeyOps Key} (o : Z)
    (par nxt : option addr) (kvs : list (Key * Val)) (p : nat)
    (ks : list Key) (cs : list addr) (kp pp : nat) :
  ((p < length kvs)%nat → len kvs ≤ o - 1 →
   deleteAt (leafNode o par kvs nxt) (Z.of_nat p) (Z.of_nat p)
   = Some (leafNode o par (delete p kvs) nxt))
  ∧ ((kp < length ks)%nat → (pp < length cs)%nat →
     len ks ≤ o - 1 → length cs = S (length ks) →
     deleteAt (innerNode o par ks cs : node Key Val) (Z.of_nat kp) (Z.of_nat pp)
     = Some (innerNode o par (delete kp ks) (delete pp cs))).
Proof.
  split.
  - intros. by apply deleteAt_leafNode.
  - intros. by apply deleteAt_innerNode.
Qed.

Lemma deleteAt_shifts_witness :
  deleteAt (exLeaf None ["001"; "003"; "005"]%byte (Some 7%nat)) 0 0
  = Some (exLeaf None ["003"; "005"]%byte (Some 7%nat))
  ∧ deleteAt (exInner None ["003"; "005"; "007"]%byte [0; 1; 2; 3]%nat) 1 2
    = Some (exInner None ["003"; "007"]%byte [0; 1; 3]%nat).
Proof.
  pose proof (deleteAt_shifts 4 None (Some 7%nat)
                (exEntries ["001"; "003"; "005"]%byte) 0%nat
                [["003"]; ["005"]; ["007"]]%byte [0; 1; 2; 3]%nat 1%nat 2%nat)
    as [H1 H2].
  split.
  - etrans; [apply H1; ex_side|reflexivity].
  - etrans; [apply H2; ex_side|reflexivity].
Defined.

(** X11.  [append] on a node with room.  On a leaf the entry goes behind
    the last entry and the next-leaf slot is kept.  On an internal node the
    key goes behind the last key and the child behind the last child,
    whether the node holds as many children as keys or one more, and the
    child gets the node as its parent.  No other node changes. *)
Theorem append_at_end {Key Val : Type} {KO : KeyOps Key} (o : Z)
    (h : list (node Key Val)) (a : addr) (par nxt : option addr)
    (kvs : list (Key * Val)) (k : Key) (v : Val)
    (ks : list Key) (cs : list addr) (c : addr) (cn : node Key Val) :
  (h !! a = Some (leafNode o par kvs nxt) → len kvs < o - 1 →
   append h a k (Some (PValue v))
   = Some (<[a := leafNode o par (kvs ++ [(k, v)]) nxt]> h))
  ∧ (h !! a = Some (innerNode o par ks cs) →
     len ks < o - 1 → (length ks ≤ length cs ≤ S (length ks))%nat →
     a ≠ c → h !! c = Some cn →
     append h a k (Some (PNode c))
     = Some (<[c := setParent cn (Some a)]>
               (<[a := innerNode o par (ks ++ [k]) (cs ++ [c])]> h))).
Proof.
  split.
  - intros. by apply append_leafNode.
  - intros. by apply append_innerNode.
Qed.

Lemma append_at_end_witness :
  append [exLeaf None ["001"%byte] (Some 7%nat)] 0%nat ["003"%byte]
    (Some (PValue ["003"%byte]))
  = Some [exLeaf None ["001"; "003"]%byte (Some 7%nat)]
  ∧ append [exInner None ["005"%byte] [2; 3]%nat; exLeaf None [] None] 0%nat
      ["007"%byte] (Some (PNode 1%nat))
    = Some [exInner None ["005"; "007"]%byte [2; 3; 1]%nat;
            exLeaf (Some 0%nat) [] None].
Proof.
  split.
  - pose proof (append_at_end 4 [exLeaf None ["001"%byte] (Some 7%nat)] 0%nat
                  None (Some 7%nat) (exEntries ["001"%byte]) ["003"%byte]
                  ["003"%byte] [] [] 0%nat (exLeaf None [] None)) as [H1 _].
    etrans; [apply H1; ex_side|reflexivity].
  - pose proof (append_at_end 4
                  [exInner None ["005"%byte] [2; 3]%nat; exLeaf None [] None]
                  0%nat None None [] ["007"%byte] []
                  [["005"%byte]] [2; 3]%nat 1%nat (exLeaf None [] None)) as [_ H2].
    etrans; [apply H2; ex_side|reflexivity].
Defined.

(** X12.  [copyFromRight] between two leaves: the receiver gets the
    entries of the other leaf behind its own, in their order, and takes
    over its next-leaf reference; the other leaf and all other nodes are
    unchanged.  The entries must fit into the receiver. *)
Theorem copyFromRight_leaves {Key Val : Type} {KO : KeyOps Key} (o : Z)
    (h : list (node Key Val)) (a from : addr) (par1 nxt1 par2 nxt2 : option addr)
    (kvs1 kvs2 : list (Key * Val)) :
  a ≠ from → 1 ≤ o →
  h !! a = Some (leafNode o par1 kvs1 nxt1) →
  h !! from = Some (leafNode o par2 kvs2 nxt2) →
  len kvs1 + len kvs2 ≤ o - 1 →
  copyFromRight h a from
  = Some (<[a := leafNode o par1 (kvs1 ++ kvs2) nxt2]> h).
Proof. apply copyFromRight_leafNode. Qed.

Lemma copyFromRight_leaves_witness :
  copyFromRight [exLeaf (Some 2%nat) ["001"; "002"]%byte (Some 1%nat);
                 exLeaf (Some 2%nat) ["005"%byte] (Some 9%nat)] 0%nat 1%nat
  = Some [exLeaf (Some 2%nat) ["001"; "002"; "005"]%byte (Some 9%nat);
          exLeaf (Some 2%nat) ["005"%byte] (Some 9%nat)].
Proof.
  etrans.
  - apply (copyFromRight_leaves 4 _ 0%nat 1%nat (Some 2%nat) (Some 1%nat)
             (Some 2%nat) (Some 9%nat) (exEntries ["001"; "002"]%byte)
             (exEntries ["005"%byte])); ex_side.
  - reflexivity.
Defined.

(** X13.  [pointerPositionOf] on an internal node returns the position of
    the first child slot that refers to the given node, and -1 when no
    child slot refers to it; it never panics. *)
Theorem pointerPositionOf_first {Key Val : Type} {KO : KeyOps Key} (o : Z)
    (par : option addr) (ks : list Key) (cs : list addr) (x : addr) :
  ∃ r, pointerPositionOf (innerNode o par ks cs : node Key Val) x = Some r
     ∧ ((r = -1 ∧ x ∉ cs)
        ∨ (0 ≤ r ∧ cs !! Z.to_nat r = Some x ∧ x ∉ take (Z.to_nat r) cs)).
Proof.
  rewrite pointerPositionOf_innerNode.
  destruct (list_find (λ y, y = x) cs) as [[i y]|] eqn:E.
  - exists (Z.of_nat i). split; [done|]. right.
    apply list_find_Some in E as (Hi & -> & Hbefore).
    rewrite Nat2Z.id. split_and!; [lia|done|].
    intros Hin. apply elem_of_take in Hin as (j & Hj & Hlt).
    by apply (Hbefore j x).
  - exists (-1). split; [done|]. left. split; [done|].
    apply list_find_None in E. rewrite list.Forall_forall in E.
    intros Hin. by apply (E x).
Qed.

(** X14.  [keyPosition] on a leaf returns the position of the first key
    that compares equal to the given key, and -1 when no key of the leaf
    does; it never panics. *)
Theorem keyPosition_first {Key Val : Type} {KO : KeyOps Key} (o : Z)
    (par nxt : option addr) (kvs : list (Key * Val)) (k : Key) :
  ∃ r, keyPosition (leafNode o par kvs nxt) k = Some r
     ∧ ((r = -1 ∧ ∀ k', k' ∈ kvs.*1 → compare k k' ≠ 0)
        ∨ (0 ≤ r
           ∧ (∃ k', kvs.*1 !! Z.to_nat r = Some k' ∧ compare k k' = 0)
           ∧ ∀ (j : nat) kj, kvs.*1 !! j = Some kj → (j < Z.to_nat r)%nat →
               compare k kj ≠ 0)).
Proof.
  rewrite keyPosition_leafNode.
  destruct (epos k kvs.*1) as [p|] eqn:E.
  - exists (Z.of_nat p). split; [done|]. right. rewrite Nat2Z.id.
    apply epos_Some in E as [H1 H2]. split_and!; [lia|done|done].
  - exists (-1). split; [done|]. left. split; [done|]. by apply epos_None.
Qed.

(** * Well-formed trees *)

Lemma exTree2_holds : holds exTree2 1 exAtree2.
Proof.
  unfold holds. split_and!; try reflexivity.
  - simpl. split_and!; reflexivity.
  - by_decide.
  - simpl. unfold klt, ltOpt, klt.
    repeat first [split | constructor | done | (vm_compute; lia)].
  - simpl. unfold len. simpl.
    repeat first [split | constructor | lia | done | (vm_compute; congruence)].
Qed.

(** X15.  [Get] on a well-formed tree returns the value stored under the
    key, and not-found when the tree has no entry of the key: it returns
    [(v, true)] exactly when [(k, v)] is an entry of the tree, and it never
    panics. *)
Theorem Get_finds {Key Val : Type} {KO : KeyOps Key} {KL : KeyLaws Key}
    (T : BPTree Key Val) (n : nat) (a : atree n) (k : Key) :
  holds T n a →
  Get T k = Some (kvget k (contents n a))
  ∧ (∀ v, Get T k = Some (Some v) ↔ (k, v) ∈ contents n a)
  ∧ (Get T k = Some None ↔ ∀ v, (k, v) ∉ contents n a).
Proof.
  intros (Hroot & _ & Hrep & Hnd & Hord & Hocc & _).
  assert (HG : Get T k = Some (kvget k (contents n a))).
  { rewrite (Get_route (order T) T n a 1 k eq_refl Hroot Hrep Hocc Hnd).
    by rewrite (kvget_route n a None None k Hord). }
  pose proof (ord_contents_sorted n a None None Hord) as Hs.
  split_and!; [done|..].
  - intros v. rewrite HG, <- (kvget_iff k v _ Hs). split; [by intros [= ->]|by intros ->].
  - rewrite HG. split.
    + intros [= E]. by apply kvget_None.
    + intros Hno. destruct (kvget k (contents n a)) as [v|] eqn:E; [|done].
      apply kvget_Some in E. by destruct (Hno v).
Qed.

Lemma Get_finds_witness :
  Get exTree2 ["005"%byte] = Some (Some ["005"%byte])
  ∧ Get exTree2 ["003"%byte] = Some None.
Proof.
  split.
  - etrans; [apply (proj1 (Get_finds (KL := bytesKey_laws) exTree2 1 exAtree2
                             ["005"%byte] exTree2_holds))|reflexivity].
  - etrans; [apply (proj1 (Get_finds (KL := bytesKey_laws) exTree2 1 exAtree2
                             ["003"%byte] exTree2_holds))|reflexivity].
Defined.

(** X16.  [findLeaf] on a well-formed tree never panics and returns a leaf
    of the tree; the entries of that leaf are entries of the tree, and the
    entry of the searched key, if the tree has one, is among them. *)
Theorem findLeaf_reaches {Key Val : Type} {KO : KeyOps Key} {KL : KeyLaws Key}
    (T : BPTree Key Val) (n : nat) (a : atree n) (k : Key) :
  holds T n a →
  ∃ l par nxt kvs,
    findLeaf T k = Some l
    ∧ l ∈ addrs n a
    ∧ nodes T !! l = Some (leafNode (order T) par kvs nxt)
    ∧ kvs ⊆ contents n a
    ∧ ∀ v, (k, v) ∈ contents n a → (k, v) ∈ kvs.
Proof.
  intros (Hroot & _ & Hrep & Hnd & Hord & Hocc & _).
  destruct (rep_route (order T) n a (nodes T) None None 1 k Hrep Hocc)
    as (par & nxt & Hl & _).
  exists (route n a k), par, nxt, (routeLeaf n a k). split_and!.
  - unfold findLeaf. rewrite Hroot. cbn [mbind option_bind].
    eapply findLeaf_loop_route; [done..|]. by eapply height_lt_fuel.
  - apply route_in_addrs.
  - done.
  - apply routeLeaf_contents.
  - intros v Hin. apply kvget_Some.
    rewrite <- (kvget_route n a None None k Hord).
    apply kvget_elem; [|done]. by eapply ord_contents_sorted.
Qed.

Lemma findLeaf_reaches_witness :
  ∃ l par nxt kvs,
    findLeaf exTree2 ["006"%byte] = Some l
    ∧ l ∈ addrs 1 exAtree2
    ∧ nodes exTree2 !! l = Some (leafNode 4 par kvs nxt)
    ∧ kvs ⊆ contents 1 exAtree2
    ∧ ∀ v, (["006"%byte], v) ∈ contents 1 exAtree2 → (["006"%byte], v) ∈ kvs.
Proof.
  exact (findLeaf_reaches (KL := bytesKey_laws) exTree2 1 exAtree2 ["006"%byte]
           exTree2_holds).
Defined.

Section Leftmost.
Context {Key Val : Type} {KO : KeyOps Key}.

Lemma findLeftmostKey_noEmpty o n : ∀ (t : @atree Key Val n) h par nxt (f : nat),
  rep o h n t par nxt → noEmpty n t → (n < f)%nat →
  findLeftmostKey f h (aaddr n t) = Some (amin n t)
  ∧ fst <$> head (contents n t) = Some (amin n t).
Proof.
  induction n as [|m IH]; intros t h par nxt f Hrep Hne Hf.
  - destruct f as [|f]; [lia|]. simpl in *. rewrite Hrep. cbn [mbind option_bind].
    destruct t as [a [|kv kvs]]; [done|]. done.
  - destruct f as [|f]; [lia|].
    apply rep_S in Hrep as [Ha Hch]. destruct Hne as [Hcs Hall].
    destruct t as [[a ks] [|c cs]]; [done|]. cbn [fst snd] in *.
    apply list.Forall_cons in Hall as [Hc _].
    change (aaddr (S m) (a, ks, c :: cs)) with a.
    cbn [findLeftmostKey]. rewrite Ha. cbn [mbind option_bind].
    assert (Hleaf : leaf (innerNode o par ks (aaddr m <$> c :: cs) : node Key Val)
                    = false) by done.
    rewrite Hleaf.
    assert (H0 : (aaddr m <$> c :: cs) !! 0%nat = Some (aaddr m c)) by done.
    rewrite (idx_pointers_innerNode o par ks (aaddr m <$> c :: cs) 0%nat (aaddr m c) 0
               H0 eq_refl).
    cbn [mbind option_bind asNode].
    destruct (IH c h (Some a) _ f (Hch 0%nat c eq_refl) Hc ltac:(lia)) as [E1 E2].
    split; [exact E1|].
    cbn [contents amin fst snd fmap list_fmap concat].
    destruct (contents m c) as [|kv0 rest]; [done|]. exact E2.
Qed.

End Leftmost.

(** X17.  [findLeftmostKey] on a subtree without an empty node (every
    leaf has an entry, every internal node a child) never panics and
    returns the key of the first entry of the subtree; when the keys of the
    subtree are in order, this is its least key. *)
Theorem findLeftmostKey_least {Key Val : Type} {KO : KeyOps Key} {KL : KeyLaws Key}
    (o : Z) (h : list (node Key Val)) (n : nat) (t : atree n)
    (par nxt : option addr) (f : nat) :
  rep o h n t par nxt → noEmpty n t → (n < f)%nat →
  ∃ k0, findLeftmostKey f h (aaddr n t) = Some k0
      ∧ fst <$> head (contents n t) = Some k0
      ∧ (sortedK (contents n t).*1 →
         ∀ k', k' ∈ (contents n t).*1 → compare k0 k' ≤ 0).
Proof.
  intros Hrep Hne Hf. exists (amin n t).
  destruct (findLeftmostKey_noEmpty o n t h par nxt f Hrep Hne Hf) as [E1 E2].
  split_and!; [done..|].
  intros Hs k' Hin. eapply sortedK_head_le; [exact Hs| |done].
  rewrite <- E2. by destruct (contents n t).
Qed.

Lemma findLeftmostKey_least_witness :
  ∃ k0, findLeftmostKey 2 exHeap2 2%nat = Some k0
      ∧ fst <$> head (contents 1 exAtree2) = Some k0
      ∧ (sortedK (contents 1 exAtree2).*1 →
         ∀ k', k' ∈ (contents 1 exAtree2).*1 → compare k0 k' ≤ 0).
Proof.
  destruct exTree2_holds as (_ & _ & Hrep & _ & _ & _ & _).
  refine (findLeftmostKey_least (KL := bytesKey_laws) 4 exHeap2 1 exAtree2 None None
            2 Hrep _ ltac:(lia)).
  simpl. split; [done|]. repeat constructor; done.
Defined.

(** X18.  [ForEach] on a well-formed tree calls the action once for every
    entry of the tree, in ascending order of the keys, and never panics. *)
Theorem ForEach_ascending {Key Val : Type} {KO : KeyOps Key} {KL : KeyLaws Key}
    (T : BPTree Key Val) (n : nat) (a : atree n) (f : nat) :
  3 ≤ order T → holds T n a → (length (contents n a) < f)%nat →
  ForEach f T = Some (contents n a)
  ∧ sortedK (contents n a).*1.
Proof.
  intros Ho (_ & Hleft & Hrep & _ & Hord & Hocc & _) Hf. split.
  - unfold ForEach, NewIterator. rewrite Hleft.
    by eapply (drain_all (order T)).
  - by eapply ord_contents_sorted.
Qed.

Lemma ForEach_ascending_witness :
  ForEach 5 exTree2 = Some (exEntries ["001"; "002"; "005"; "006"]%byte).
Proof.
  etrans.
  - apply (proj1 (ForEach_ascending (KL := bytesKey_laws) exTree2 1 exAtree2 5
                    ltac:(simpl; lia) exTree2_holds ltac:(simpl; lia))).
  - reflexivity.
Defined.

(** * Insertion *)

(** X19.  [Put] on a tree without a root and with an order from 3 to
    65536 (a size of node that Go allocates without reaching its
    allocation limit) allocates a leaf that holds the entry alone, makes it
    the root and the leftmost leaf, and returns not-found; with the size at
    0 before, the tree is well formed afterwards and holds exactly this
    entry. *)
Theorem Put_first {Key Val : Type} {KO : KeyOps Key} {KL : KeyLaws Key}
    (T : BPTree Key Val) (k : Key) (v : Val) :
  3 ≤ order T ≤ 65536 → root T = None → size T = 0 →
  Put T k v
  = Some (mkTree (Some (length (nodes T))) (Some (length (nodes T))) (order T) 1
            (minKeyNum T)
            (nodes T ++ [leafNode (order T) None [(k, v)] None]),
          None)
  ∧ ∀ T', Put T k v = Some (T', None) →
      holds T' 0 ((length (nodes T), [(k, v)]) : atree 0).
Proof. intros [Ho _]. by apply Put_empty. Qed.

Lemma Put_first_witness :
  Put (mkTree None None 4 0 1 []) ["007"%byte] ["007"%byte]
  = Some (mkTree (Some 0%nat) (Some 0%nat) 4 1 1 [exLeaf None ["007"%byte] None],
          None).
Proof.
  etrans.
  - apply (proj1 (Put_first (KL := bytesKey_laws) (mkTree None None 4 0 1 [])
                    ["007"%byte] ["007"%byte] ltac:(simpl; lia) eq_refl eq_refl)).
  - reflexivity.
Defined.

(** X20.  [Put] on a well-formed tree never panics.  It returns the value
    stored under the key before, or not-found; afterwards the tree is well
    formed again (all leaves at one depth, keys in order, every node
    within its occupancy bounds, leaves chained left to right, parents
    set, size equal to the number of entries), and its entries are those
    before with the entry of the key replaced or inserted in order.  The
    order and the minimal key count do not change. *)
Theorem Put_refines {Key Val : Type} {KO : KeyOps Key} {KL : KeyLaws Key}
    (T : BPTree Key Val) (n : nat) (a : atree n) (k : Key) (v : Val) :
  3 ≤ order T → holds T n a →
  ∃ T' n' (a' : atree n'),
    Put T k v = Some (T', kvget k (contents n a))
    ∧ holds T' n' a'
    ∧ contents n' a' = kvput k v (contents n a)
    ∧ order T' = order T ∧ minKeyNum T' = minKeyNum T.
Proof. apply Put_holds. Qed.

Lemma Put_refines_witness :
  ∃ T' n' (a' : atree n'),
    Put exTree2 ["003"%byte] ["003"%byte]
    = Some (T', kvget ["003"%byte] (contents 1 exAtree2))
    ∧ holds T' n' a'
    ∧ contents n' a' = kvput ["003"%byte] ["003"%byte] (contents 1 exAtree2)
    ∧ order T' = order exTree2 ∧ minKeyNum T' = minKeyNum exTree2.
Proof.
  exact (Put_refines (KL := bytesKey_laws) exTree2 1 exAtree2 ["003"%byte] ["003"%byte]
           ltac:(simpl; lia) exTree2_holds).
Defined.

(** X21.  After [Put] of a key and a value on a well-formed tree, [Get]
    of that key returns the value, [Get] of any other key returns what it
    returned before, and [Size] has grown by one exactly when the key was
    new; the value [Put] returns is what [Get] returned before. *)
Theorem Put_then_Get {Key Val : Type} {KO : KeyOps Key} {KL : KeyLaws Key}
    (T : BPTree Key Val) (n : nat) (a : atree n) (k : Key) (v : Val) :
  3 ≤ order T → holds T n a →
  ∃ T' old,
    Put T k v = Some (T', old)
    ∧ Get T k = Some old
    ∧ Get T' k = Some (Some v)
    ∧ (∀ k', k' ≠ k → Get T' k' = Get T k')
    ∧ Size T' = match old with Some _ => Size T | None => Size T + 1 end.
Proof.
  intros Ho Hholds.
  destruct (Put_holds T n a k v Ho Hholds) as (T' & n' & a' & HP & Hh & Hc & _).
  exists T', (kvget k (contents n a)). split_and!.
  - exact HP.
  - by apply Get_holds.
  - by rewrite (Get_holds T' n' a' k Hh), Hc, kvget_kvput_eq.
  - intros k' Hne.
    by rewrite (Get_holds T' n' a' k' Hh), (Get_holds T n a k' Hholds), Hc,
      kvget_kvput_ne.
  - destruct Hholds as (_ & _ & _ & _ & Hord & _ & Hsize).
    destruct Hh as (_ & _ & _ & _ & _ & _ & Hsize').
    unfold Size. rewrite Hsize, Hsize', Hc. unfold len.
    rewrite kvput_length by (by eapply ord_contents_sorted).
    destruct (kvget k (contents n a)); lia.
Qed.

Lemma Put_then_Get_witness :
  ∃ T' old,
    Put exTree2 ["003"%byte] ["009"%byte] = Some (T', old)
    ∧ Get exTree2 ["003"%byte] = Some old
    ∧ Get T' ["003"%byte] = Some (Some ["009"%byte])
    ∧ (∀ k', k' ≠ ["003"%byte] → Get T' k' = Get exTree2 k')
    ∧ Size T' = match old with Some _ => Size exTree2 | None => Size exTree2 + 1 end.
Proof.
  exact (Put_then_Get (KL := bytesKey_laws) exTree2 1 exAtree2 ["003"%byte] ["009"%byte]
           ltac:(simpl; lia) exTree2_holds).
Defined.

(** X22.  A tree made by [New] with an order from 3 to 65536 (a size of
    node that Go allocates without reaching its allocation limit) and
    filled by any sequence of [Put] calls, the keys being values: the bytes
    of a key handed to [Put] are not modified afterwards, so that a key
    equals its copy and compares the same at every later call
    ([KeyLaws]).  No call panics, the tree is well formed, and it holds for
    every key the value of the last [Put] of that key; [Get] and [Size]
    answer accordingly. *)
Theorem Puts_from_New {Key Val : Type} {KO : KeyOps Key} {KL : KeyLaws Key}
    (o : Z) (ops : list (op Key Val)) :
  3 ≤ o ≤ 65536 → Forall isPut ops →
  ∃ T0 T,
    New [Order o] = Some T0
    ∧ run ops T0 = Some T
    ∧ Inv T (entries ops [])
    ∧ (∀ k, Get T k = Some (kvget k (entries ops [])))
    ∧ Size T = len (entries ops []).
Proof.
  intros [Ho _] Hops.
  destruct (New_Inv (Key := Key) (Val := Val) o Ho) as (T0 & HN & HI & _).
  destruct (run_puts_Inv ops T0 [] Hops HI) as (T & Hrun & HInv).
  exists T0, T. split_and!; [done..| |].
  - intros k. by apply Inv_Get.
  - by apply Inv_Size.
Qed.

Lemma Puts_from_New_witness :
  let ops := [OPut ["005"%byte] ["005"%byte]; OPut ["001"%byte] ["001"%byte];
              OPut ["009"%byte] ["009"%byte]; OPut ["003"%byte] ["003"%byte];
              OPut ["005"%byte] ["000"%byte]] in
  ∃ T0 T,
    New [Order 3] = Some T0
    ∧ run ops T0 = Some T
    ∧ Inv T (entries ops [])
    ∧ (∀ k, Get T k = Some (kvget k (entries ops [])))
    ∧ Size T = len (entries ops []).
Proof.
  intros ops.
  refine (Puts_from_New (KL := bytesKey_laws) 3 ops ltac:(lia) _).
  repeat constructor.
Defined.

(** * Deletion *)

(** X23.  [Delete] of a key that a well-formed tree (empty or not) does
    not hold returns not-found and changes nothing. *)
Theorem Delete_missing {Key Val : Type} {KO : KeyOps Key} {KL : KeyLaws Key}
    (T : BPTree Key Val) (kvs : list (Key * Val)) (k : Key) :
  Inv T kvs → kvget k kvs = None → Delete T k = Some (T, None).
Proof. apply Inv_Delete_absent. Qed.

Lemma exTree2_Inv : Inv exTree2 (contents 1 exAtree2).
Proof.
  split; [split; [simpl; lia|reflexivity]|]. right.
  exists 1%nat, exAtree2. split; [apply exTree2_holds|done].
Qed.

Lemma Delete_missing_witness :
  Delete exTree2 ["003"%byte] = Some (exTree2, None).
Proof.
  exact (Delete_missing (KL := bytesKey_laws) exTree2 _ ["003"%byte] exTree2_Inv
           eq_refl).
Defined.

(** X24.  [Delete] of a key held by a root that is a leaf with at least
    two entries removes the entry from the leaf, returns its value and
    lowers the size by one; the leaf stays the root and the tree stays
    well formed. *)
Theorem Delete_from_root_leaf {Key Val : Type} {KO : KeyOps Key} {KL : KeyLaws Key}
    (T : BPTree Key Val) (a : atree 0) (k : Key) (v : Val) :
  3 ≤ order T → holds T 0 a → kvget k a.2 = Some v → (2 ≤ length a.2)%nat →
  Delete T k
  = Some (setSize (setNodes T (<[a.1 := leafNode (order T) None (kvdel k a.2) None]>
                                 (nodes T)))
            (size T - 1),
          Some v)
  ∧ holds (setSize (setNodes T (<[a.1 := leafNode (order T) None (kvdel k a.2) None]>
                                  (nodes T)))
             (size T - 1))
      0 ((a.1, kvdel k a.2) : atree 0).
Proof. apply Delete_root_leaf. Qed.

Lemma Delete_from_root_leaf_witness :
  Delete (mkTree (Some 0%nat) (Some 0%nat) 4 2 1 [exLeaf None ["001"; "002"]%byte None])
    ["001"%byte]
  = Some (mkTree (Some 0%nat) (Some 0%nat) 4 1 1 [exLeaf None ["002"%byte] None],
          Some ["001"%byte]).
Proof.
  etrans.
  - refine (proj1 (Delete_from_root_leaf (KL := bytesKey_laws)
                     (mkTree (Some 0%nat) (Some 0%nat) 4 2 1
                        [exLeaf None ["001"; "002"]%byte None])
                     (0%nat, exEntries ["001"; "002"]%byte) ["001"%byte] ["001"%byte]
                     ltac:(simpl; lia) _ eq_refl ltac:(simpl; lia))).
    unfold holds. split_and!; try reflexivity.
    + by_decide.
    + simpl. unfold klt, ltOpt.
      repeat first [split | constructor | done | (vm_compute; lia)].
    + simpl. unfold len. simpl. lia.
  - reflexivity.
Defined.

